(** * Interpreter kernels of glow (src/glow/Interpreter/InterpreterNodes.cpp)

    A shallow embedding of the per-instruction numeric kernels of the
    reference interpreter, and the properties of the specification that
    are about them.

    The kernels are written once, over an abstract scalar arithmetic
    [FloatOps] (the C++ type [FloatTy] and the operators and [std::]
    functions the kernels apply to it).  Two instances are given at the
    end of the first part: IEEE binary32 ([Binary32], on the Standard
    Library's [SpecFloat]), which is what the interpreter runs on, and the
    real numbers ([RealOps]), the exact arithmetic the formulas of the
    specification are written in. *)

From Stdlib Require Import List ZArith Lia Bool Arith PeanoNat.
From Stdlib Require Import Reals Lra SpecFloat.
Import ListNotations.

Set Implicit Arguments.

(* ================================================================== *)
(** * Scalars *)
(* ================================================================== *)

(** [FloatTy] and what the kernels do with it.  [flt a b] is [a < b],
    [fle a b] is [a <= b] ([a >= b] is written [fle b a]); [of_size] is the
    implicit conversion of a [size_t] to [FloatTy]. *)
Class FloatOps : Type := {
  FloatTy : Type;
  fzero : FloatTy;
  fone : FloatTy;
  fadd : FloatTy -> FloatTy -> FloatTy;
  fsub : FloatTy -> FloatTy -> FloatTy;
  fmul : FloatTy -> FloatTy -> FloatTy;
  fdiv : FloatTy -> FloatTy -> FloatTy;
  fneg : FloatTy -> FloatTy;
  flt : FloatTy -> FloatTy -> bool;
  fle : FloatTy -> FloatTy -> bool;
  std_exp : FloatTy -> FloatTy;
  std_sqrt : FloatTy -> FloatTy;
  std_pow : FloatTy -> FloatTy -> FloatTy;
  of_size : Z -> FloatTy
}.

(** [std::max(a, b)] is [(a < b) ? b : a]. *)
Definition std_max {ops : FloatOps} (a b : FloatTy) : FloatTy :=
  if flt a b then b else a.

(** Conversion of a [bool] to [FloatTy]. *)
Definition of_bool {ops : FloatOps} (b : bool) : FloatTy :=
  if b then fone else fzero.

(* ================================================================== *)
(** * Machine integers *)
(* ================================================================== *)

(** [size_t] is 64 bits wide, [ssize_t] its signed counterpart.  Extents,
    loop counters and coordinates are natural numbers (a counter [i] runs
    under a guard [i < e] and cannot wrap); the signed arithmetic of the
    window anchors is done in [Z] with the wrap-around written out. *)
Definition size_bits : Z := 64.

Definition to_size (z : Z) : Z := z mod 2 ^ size_bits.

Definition to_ssize (z : Z) : Z :=
  (z + 2 ^ (size_bits - 1)) mod 2 ^ size_bits - 2 ^ (size_bits - 1).

(** [-ssize_t(pad)] *)
Definition neg_pad (pad : nat) : Z := to_ssize (- to_ssize (Z.of_nat pad)).

(** [x + fx] and [y += stride]: an [ssize_t] plus a [size_t], stored in an
    [ssize_t]. *)
Definition ssize_add (x : Z) (k : nat) : Z := to_ssize (x + Z.of_nat k).

(** The value of the carried anchor ([x] or [y]) at iteration [a] of a loop
    [for (a = 0; a < e; y += stride, a++)] that starts at [-ssize_t(pad)]. *)
Fixpoint anchor (pad stride a : nat) : Z :=
  match a with
  | O => neg_pad pad
  | S a' => ssize_add (anchor pad stride a') stride
  end.

(** The window test of the spatial kernels:
    [ox < 0 || oy < 0 || ox >= ssize_t(h) || oy >= ssize_t(w)]. *)
Definition out_of_range (ox oy : Z) (h w : nat) : bool :=
  (ox <? 0)%Z || (oy <? 0)%Z
  || (to_ssize (Z.of_nat h) <=? ox)%Z || (to_ssize (Z.of_nat w) <=? oy)%Z.

(* ================================================================== *)
(** * Option as the error monad *)
(* ================================================================== *)

(** A failed assertion or an access out of bounds aborts the process:
    the kernel has no result, [None]. *)
Notation "x <- e ;; k" :=
  (match e with Some x => k | None => None end)
    (at level 100, e at next level, right associativity, only parsing).

Notation "'assert!' b ;; k" :=
  (if b then k else None)
    (at level 100, b at next level, right associativity, only parsing).

(** [for (size_t i = 0; i < n; i++) body], threading the state [s]: a
    context, a local accumulator, or both. *)
Fixpoint for_loop {S : Type} (n : nat) (body : nat -> S -> option S) (s : S)
  : option S :=
  match n with
  | O => Some s
  | S k => match for_loop k body s with
           | Some s' => body k s'
           | None => None
           end
  end.

(** [for (size_t i = lo; i < hi; i++) body]. *)
Definition for_range {S : Type} (lo hi : nat) (body : nat -> S -> option S)
  (s : S) : option S :=
  for_loop (hi - lo) (fun k => body (lo + k)) s.

(** The order in which four nested loops visit their index tuples. *)
Definition before4 (a b c d a' b' c' d' : nat) : Prop :=
  a < a' \/ (a = a' /\ (b < b' \/ (b = b' /\ (c < c' \/ (c = c' /\ d < d'))))).

(* ================================================================== *)
(** * Tensors and handles *)
(* ================================================================== *)

Definition prod_dims (ds : list nat) : nat := fold_right Nat.mul 1 ds.

(** Owning storage: a shape and the elements in row-major order. *)
Record Tensor (A : Type) : Type := mkTensor {
  dims : list nat;
  elems : list A
}.

Arguments mkTensor {A} _ _.

Definition tsize {A} (t : Tensor A) : nat := prod_dims (dims t).

Definition wf_tensor {A} (t : Tensor A) : Prop :=
  length (elems t) = tsize t.

(** Modelled from the spec: [Tensor::isInBounds] and
    [Handle::getElementPtr] (Tensor.h is not part of the sources): a
    coordinate is in bounds when it has one index per extent, each below
    its extent; the flat index of (a0, ..., a_{r-1}) is the sum of
    a_i times the product of the extents after i.  [getElementPtr] also
    takes a coordinate prefix. *)
Fixpoint isInBounds (ds idx : list nat) : bool :=
  match ds, idx with
  | [], [] => true
  | d :: ds', i :: idx' => (i <? d) && isInBounds ds' idx'
  | _, _ => false
  end.

Fixpoint getElementPtr (ds idx : list nat) : nat :=
  match ds, idx with
  | _ :: ds', i :: idx' => i * prod_dims ds' + getElementPtr ds' idx'
  | _, _ => 0
  end.

Definition at_index (ds idx : list nat) : option nat :=
  if isInBounds ds idx then Some (getElementPtr ds idx) else None.

(** Modelled from the spec: [Handle::getDimForPtr(dim, idx)], the
    coordinate along axis [dim] of the element at flat index [idx] in
    row-major order. *)
Definition getDimForPtr (ds : list nat) (dim idx : nat) : nat :=
  (idx / prod_dims (skipn (S dim) ds)) mod nth dim ds 0.

Fixpoint list_set {A} (l : list A) (i : nat) (x : A) : option (list A) :=
  match l, i with
  | [], _ => None
  | _ :: l', O => Some (x :: l')
  | y :: l', S i' => match list_set l' i' x with
                     | Some r => Some (y :: r)
                     | None => None
                     end
  end.

Section TensorAccess.
Variable A : Type.

(** Modelled from the spec: [Handle::raw(i)], [Handle::at(coord)] as
    reads and as assignment targets.  An index outside the storage has
    no result. *)
Definition t_raw (t : Tensor A) (i : nat) : option A :=
  nth_error (elems t) i.

Definition t_set_raw (t : Tensor A) (i : nat) (x : A) : option (Tensor A) :=
  l <- list_set (elems t) i x ;; Some (mkTensor (dims t) l).

Definition t_at (t : Tensor A) (idx : list nat) : option A :=
  i <- at_index (dims t) idx ;; t_raw t i.

Definition t_set_at (t : Tensor A) (idx : list nat) (x : A)
  : option (Tensor A) :=
  i <- at_index (dims t) idx ;; t_set_raw t i x.
End TensorAccess.

(** Modelled from the spec: [ShapeNHWC(dims)], the four extents of a
    rank-4 shape (batch, height, width, channels); any other rank fails
    its assertion. *)
Record ShapeNHWC : Type := mkShape { sn : nat; sh : nat; sw : nat; sc : nat }.

Definition shapeNHWC (ds : list nat) : option ShapeNHWC :=
  match ds with
  | [n; h; w; c] => Some (mkShape n h w c)
  | _ => None
  end.

(** Modelled from the spec: [flattenCdr(dims)], the first extent and the
    product of the remaining ones. *)
Definition flattenCdr (ds : list nat) : nat * nat :=
  match ds with
  | [] => (0, 1)
  | d :: ds' => (d, prod_dims ds')
  end.

(** IR values are opaque identifiers. *)
Definition Value : Type := nat.

Definition upd {T} (f : Value -> T) (v : Value) (t : T) : Value -> T :=
  fun u => if Nat.eqb u v then t else f u.

(* ================================================================== *)
(** * The execution context *)
(* ================================================================== *)

Section Interpreter.
Context {ops : FloatOps}.

(** For each IR value the context holds a weight tensor and a gradient
    tensor of the same shape.  A value of the index kind ([size_t]
    elements: saved pooling coordinates, selected labels) has its tensor
    in [indexOf]; the element kind of a value is fixed by its
    declaration, so the two kinds of tensor are kept apart. *)
Record Context : Type := mkContext {
  weightOf : Value -> Tensor FloatTy;
  gradOf : Value -> Tensor FloatTy;
  indexOf : Value -> Tensor Z
}.

(** A handle is a view, not a copy: it names the tensor it looks at, and
    every access goes through the context.  [getWeightHandle(ctx, v)] is
    [WeightH v], [getGradHandle(ctx, v)] is [GradH v]. *)
Inductive Handle : Type :=
| WeightH (v : Value)
| GradH (v : Value).

Definition tensorOf (ctx : Context) (h : Handle) : Tensor FloatTy :=
  match h with
  | WeightH v => weightOf ctx v
  | GradH v => gradOf ctx v
  end.

Definition putTensor (ctx : Context) (h : Handle) (t : Tensor FloatTy)
  : Context :=
  match h with
  | WeightH v => mkContext (upd (weightOf ctx) v t) (gradOf ctx) (indexOf ctx)
  | GradH v => mkContext (weightOf ctx) (upd (gradOf ctx) v t) (indexOf ctx)
  end.

Definition putIndex (ctx : Context) (v : Value) (t : Tensor Z) : Context :=
  mkContext (weightOf ctx) (gradOf ctx) (upd (indexOf ctx) v t).

Definition hdims (ctx : Context) (h : Handle) : list nat :=
  dims (tensorOf ctx h).

Definition hsize (ctx : Context) (h : Handle) : nat :=
  tsize (tensorOf ctx h).

(** [h.raw(i)] and [h.at({...})] read ... *)
Definition raw (ctx : Context) (h : Handle) (i : nat) : option FloatTy :=
  t_raw (tensorOf ctx h) i.

Definition hat (ctx : Context) (h : Handle) (idx : list nat)
  : option FloatTy :=
  t_at (tensorOf ctx h) idx.

(** ... and written: [h.raw(i) = x], [h.at({...}) = x]. *)
Definition set_raw (ctx : Context) (h : Handle) (i : nat) (x : FloatTy)
  : option Context :=
  t <- t_set_raw (tensorOf ctx h) i x ;; Some (putTensor ctx h t).

Definition hset (ctx : Context) (h : Handle) (idx : list nat) (x : FloatTy)
  : option Context :=
  t <- t_set_at (tensorOf ctx h) idx x ;; Some (putTensor ctx h t).

(** [h.raw(i) += x] and [h.at({...}) += x]. *)
Definition add_raw (ctx : Context) (h : Handle) (i : nat) (x : FloatTy)
  : option Context :=
  old <- raw ctx h i ;; set_raw ctx h i (fadd old x).

Definition hadd (ctx : Context) (h : Handle) (idx : list nat) (x : FloatTy)
  : option Context :=
  old <- hat ctx h idx ;; hset ctx h idx (fadd old x).

(** The same for a handle [getTensorForValue(v)->getHandle<size_t>()]. *)
Definition iat (ctx : Context) (v : Value) (idx : list nat) : option Z :=
  t_at (indexOf ctx v) idx.

Definition iset (ctx : Context) (v : Value) (idx : list nat) (x : Z)
  : option Context :=
  t <- t_set_at (indexOf ctx v) idx x ;; Some (putIndex ctx v t).

(* ================================================================ *)
(** * Copy, pointwise activations, regression, reshape *)
(* ================================================================ *)

Record CopyInst : Type := { copy_Dest : Value; copy_Src : Value }.

Definition fwdCopyInst (isTrain : bool) (I : CopyInst) (ctx : Context)
  : option Context :=
  let S := WeightH (copy_Src I) in
  let D := WeightH (copy_Dest I) in
  for_loop (hsize ctx S) (fun i ctx =>
    v <- raw ctx S i ;;
    set_raw ctx D i v) ctx.

Record ReluInst : Type := { relu_Dest : Value; relu_Src : Value }.

Definition fwdReluInst (isTrain : bool) (I : ReluInst) (ctx : Context)
  : option Context :=
  let inW := WeightH (relu_Src I) in
  let outW := WeightH (relu_Dest I) in
  for_loop (hsize ctx inW) (fun i ctx =>
    val <- raw ctx inW i ;;
    set_raw ctx outW i (if flt val fzero then fzero else val)) ctx.

Definition bwdReluInst (I : ReluInst) (ctx : Context) : option Context :=
  let inG := GradH (relu_Src I) in
  let outW := WeightH (relu_Dest I) in
  let outG := GradH (relu_Dest I) in
  for_loop (hsize ctx outW) (fun i ctx =>
    val <- raw ctx outW i ;;
    d <- (if fle val fzero then Some fzero else raw ctx outG i) ;;
    add_raw ctx inG i d) ctx.

Record SigmoidInst : Type := { sigmoid_Dest : Value; sigmoid_Src : Value }.

Definition fwdSigmoidInst (isTrain : bool) (I : SigmoidInst) (ctx : Context)
  : option Context :=
  let inW := WeightH (sigmoid_Src I) in
  let outW := WeightH (sigmoid_Dest I) in
  for_loop (hsize ctx outW) (fun i ctx =>
    val <- raw ctx inW i ;;
    set_raw ctx outW i (fdiv fone (fadd fone (std_exp (fneg val))))) ctx.

Record TanhInst : Type := { tanh_Dest : Value; tanh_Src : Value }.

Definition fwdTanhInst (isTrain : bool) (I : TanhInst) (ctx : Context)
  : option Context :=
  let inW := WeightH (tanh_Src I) in
  let outW := WeightH (tanh_Dest I) in
  for_loop (hsize ctx inW) (fun i ctx =>
    val <- raw ctx inW i ;;
    let exp_val := std_exp val in
    let exp_neg_val := std_exp (fneg val) in
    set_raw ctx outW i
      (fdiv (fsub exp_val exp_neg_val) (fadd exp_val exp_neg_val))) ctx.

Record RegressionInst : Type := {
  regression_Dest : Value; regression_Src : Value;
  regression_Expected : Value
}.

Definition fwdRegressionInst (isTrain : bool) (I : RegressionInst)
  (ctx : Context) : option Context :=
  let inW := WeightH (regression_Src I) in
  let outW := WeightH (regression_Dest I) in
  for_loop (hsize ctx inW) (fun i ctx =>
    v <- raw ctx inW i ;;
    set_raw ctx outW i v) ctx.

Record ReshapeInst : Type := { reshape_Dest : Value; reshape_Src : Value }.

Definition fwdReshapeInst (isTrain : bool) (I : ReshapeInst) (ctx : Context)
  : option Context :=
  let inW := WeightH (reshape_Src I) in
  let outW := WeightH (reshape_Dest I) in
  for_loop (hsize ctx inW) (fun i ctx =>
    v <- raw ctx inW i ;;
    set_raw ctx outW i v) ctx.

(* ================================================================ *)
(** * Convolution *)
(* ================================================================ *)

Record ConvolutionInst : Type := {
  conv_Dest : Value; conv_Src : Value; conv_Filter : Value; conv_Bias : Value;
  conv_Kernel : nat; conv_Stride : nat; conv_Pad : nat
}.

(** [(size_t)ox], used as a coordinate. *)
Definition size_of_ssize (ox : Z) : nat := Z.to_nat (to_size ox).

(** The loops over [fy], [fx] and [fd] of the forward kernel at the anchor
    ([x], [y]): the local [sum], starting from 0.  The window test
    compares with the extents of the OUTPUT, [odim.h] and [odim.w]. *)
Definition fwdConv_window (ctx : Context) (I : ConvolutionInst)
  (odim idim : ShapeNHWC) (n d : nat) (x y : Z) : option FloatTy :=
  let inW := WeightH (conv_Src I) in
  let filterW := WeightH (conv_Filter I) in
  let filterSize := conv_Kernel I in
  for_loop filterSize (fun fy sum =>
    for_loop filterSize (fun fx sum =>
      let ox := ssize_add x fx in
      let oy := ssize_add y fy in
      if out_of_range ox oy (sh odim) (sw odim) then Some sum
      else
        for_loop (sc idim) (fun fd sum =>
          f <- hat ctx filterW [d; fx; fy; fd] ;;
          v <- hat ctx inW [n; size_of_ssize ox; size_of_ssize oy; fd] ;;
          Some (fadd sum (fmul f v))) sum) sum) fzero.

Definition fwdConvolutionInst (isTrain : bool) (I : ConvolutionInst)
  (ctx : Context) : option Context :=
  let inW := WeightH (conv_Src I) in
  let outW := WeightH (conv_Dest I) in
  let biasW := WeightH (conv_Bias I) in
  let pad := conv_Pad I in
  let stride := conv_Stride I in
  odim <- shapeNHWC (hdims ctx outW) ;;
  idim <- shapeNHWC (hdims ctx inW) ;;
  for_loop (sn idim) (fun n ctx =>
    for_loop (sc odim) (fun d ctx =>
      for_loop (sw odim) (fun ay ctx =>
        let y := anchor pad stride ay in
        for_loop (sh odim) (fun ax ctx =>
          let x := anchor pad stride ax in
          sum <- fwdConv_window ctx I odim idim n d x y ;;
          b <- hat ctx biasW [d] ;;
          hset ctx outW [n; ax; ay; d] (fadd sum b)) ctx) ctx) ctx) ctx.

(** The body of the innermost loop of the backward kernel, at the window
    position ([fx], [fy], [fd]) whose input coordinate is ([ox], [oy]). *)
Definition bwdConv_update (I : ConvolutionInst) (n d fx fy : nat) (ox oy : Z)
  (chainGrad : FloatTy) (fd : nat) (ctx : Context) : option Context :=
  let inW := WeightH (conv_Src I) in
  let inG := GradH (conv_Src I) in
  let filterW := WeightH (conv_Filter I) in
  let filterG := GradH (conv_Filter I) in
  v <- hat ctx inW [0; size_of_ssize ox; size_of_ssize oy; fd] ;;
  ctx <- hadd ctx filterG [d; fx; fy; fd] (fmul v chainGrad) ;;
  f <- hat ctx filterW [d; fx; fy; fd] ;;
  hadd ctx inG [n; size_of_ssize ox; size_of_ssize oy; fd] (fmul f chainGrad).

(** The body of the loop over [ax]: one output position. *)
Definition bwdConv_anchor (I : ConvolutionInst) (odim idim : ShapeNHWC)
  (n d ay ax : nat) (ctx : Context) : option Context :=
  let outG := GradH (conv_Dest I) in
  let biasG := GradH (conv_Bias I) in
  let filterSize := conv_Kernel I in
  let y := anchor (conv_Pad I) (conv_Stride I) ay in
  let x := anchor (conv_Pad I) (conv_Stride I) ax in
  chainGrad <- hat ctx outG [n; ax; ay; d] ;;
  ctx <- for_loop filterSize (fun fy ctx =>
           for_loop filterSize (fun fx ctx =>
             let ox := ssize_add x fx in
             let oy := ssize_add y fy in
             if out_of_range ox oy (sh odim) (sw odim) then Some ctx
             else
               for_loop (sc idim)
                 (bwdConv_update I n d fx fy ox oy chainGrad) ctx) ctx) ctx ;;
  hadd ctx biasG [d] chainGrad.

Definition bwdConvolutionInst (I : ConvolutionInst) (ctx : Context)
  : option Context :=
  let inW := WeightH (conv_Src I) in
  let outW := WeightH (conv_Dest I) in
  odim <- shapeNHWC (hdims ctx outW) ;;
  idim <- shapeNHWC (hdims ctx inW) ;;
  for_loop (sn odim) (fun n ctx =>
    for_loop (sc odim) (fun d ctx =>
      for_loop (sw odim) (fun ay ctx =>
        for_loop (sh odim) (fun ax ctx =>
          bwdConv_anchor I odim idim n d ay ax ctx) ctx) ctx) ctx) ctx.

(* ================================================================ *)
(** * Pooling *)
(* ================================================================ *)

Inductive PoolKind : Type := PoolMax | PoolAvg.

Record PoolInst : Type := {
  pool_Dest : Value; pool_Src : Value; pool_srcXY : Value;
  pool_Kind : PoolKind;
  pool_Kernel : nat; pool_Stride : nat; pool_Pad : nat
}.

(** The locals of the scan of one window of the max pool. *)
Record MaxScan : Type := mkMaxScan {
  scan_first : bool; scan_max : FloatTy; scan_maxX : Z; scan_maxY : Z
}.

(** The test and update of the scan at the input position ([ox], [oy]). *)
Definition fwdPoolMax_visit (ctx : Context) (I : PoolInst) (idim : ShapeNHWC)
  (n z : nat) (ox oy : Z) (st : MaxScan) : option MaxScan :=
  let inW := WeightH (pool_Src I) in
  if out_of_range ox oy (sh idim) (sw idim) then Some st
  else
    val <- hat ctx inW [n; size_of_ssize ox; size_of_ssize oy; z] ;;
    if scan_first st || fle (scan_max st) val
    then Some (mkMaxScan false val (to_size ox) (to_size oy))
    else Some st.

Definition fwdPoolMax_window (ctx : Context) (I : PoolInst) (idim : ShapeNHWC)
  (n z : nat) (x y : Z) : option MaxScan :=
  let filterSize := pool_Kernel I in
  for_loop filterSize (fun fy st =>
    for_loop filterSize (fun fx st =>
      fwdPoolMax_visit ctx I idim n z (ssize_add x fx) (ssize_add y fy) st)
      st) (mkMaxScan true fzero (to_size x) (to_size y)).

Definition fwdPoolMax_impl (I : PoolInst) (ctx : Context) : option Context :=
  let inW := WeightH (pool_Src I) in
  let outW := WeightH (pool_Dest I) in
  let SXY := pool_srcXY I in
  let pad := pool_Pad I in
  let stride := pool_Stride I in
  odim <- shapeNHWC (hdims ctx outW) ;;
  idim <- shapeNHWC (hdims ctx inW) ;;
  for_loop (sn odim) (fun n ctx =>
    for_loop (sc idim) (fun z ctx =>
      for_loop (sw odim) (fun ay ctx =>
        let y := anchor pad stride ay in
        for_loop (sh odim) (fun ax ctx =>
          let x := anchor pad stride ax in
          st <- fwdPoolMax_window ctx I idim n z x y ;;
          assert! negb (scan_first st) ;;
          ctx <- iset ctx SXY [n; ax; ay; z; 0] (scan_maxX st) ;;
          ctx <- iset ctx SXY [n; ax; ay; z; 1] (scan_maxY st) ;;
          hset ctx outW [n; ax; ay; z] (scan_max st)) ctx) ctx) ctx) ctx.

(** [FloatTy filterArea = filterSize * filterSize]: a product of two
    [size_t], converted. *)
Definition filterArea (filterSize : nat) : FloatTy :=
  of_size (to_size (Z.of_nat filterSize * Z.of_nat filterSize)).

Definition fwdPoolAvg_window (ctx : Context) (I : PoolInst) (idim : ShapeNHWC)
  (n z : nat) (x y : Z) : option FloatTy :=
  let inW := WeightH (pool_Src I) in
  let filterSize := pool_Kernel I in
  for_loop filterSize (fun fy sum =>
    for_loop filterSize (fun fx sum =>
      let ox := ssize_add x fx in
      let oy := ssize_add y fy in
      if out_of_range ox oy (sh idim) (sw idim) then Some sum
      else
        v <- hat ctx inW [n; size_of_ssize ox; size_of_ssize oy; z] ;;
        Some (fadd sum v)) sum) fzero.

Definition fwdPoolAvg_impl (I : PoolInst) (ctx : Context) : option Context :=
  let inW := WeightH (pool_Src I) in
  let outW := WeightH (pool_Dest I) in
  let pad := pool_Pad I in
  let stride := pool_Stride I in
  odim <- shapeNHWC (hdims ctx outW) ;;
  idim <- shapeNHWC (hdims ctx inW) ;;
  for_loop (sn odim) (fun n ctx =>
    for_loop (sc idim) (fun z ctx =>
      for_loop (sw odim) (fun ay ctx =>
        let y := anchor pad stride ay in
        for_loop (sh odim) (fun ax ctx =>
          let x := anchor pad stride ax in
          sum <- fwdPoolAvg_window ctx I idim n z x y ;;
          hset ctx outW [n; ax; ay; z]
            (fdiv sum (filterArea (pool_Kernel I)))) ctx) ctx) ctx) ctx.

Definition fwdPoolInst (isTrain : bool) (I : PoolInst) (ctx : Context)
  : option Context :=
  match pool_Kind I with
  | PoolMax => fwdPoolMax_impl I ctx
  | PoolAvg => fwdPoolAvg_impl I ctx
  end.

(* ================================================================ *)
(** * Fully connected *)
(* ================================================================ *)

Record FullyConnectedInst : Type := {
  fc_Dest : Value; fc_Src : Value; fc_Filter : Value; fc_Bias : Value
}.

Definition fwdFullyConnectedInst (isTrain : bool) (I : FullyConnectedInst)
  (ctx : Context) : option Context :=
  let inW := WeightH (fc_Src I) in
  let outW := WeightH (fc_Dest I) in
  let filterW := WeightH (fc_Filter I) in
  let biasW := WeightH (fc_Bias I) in
  let odim := flattenCdr (hdims ctx outW) in
  let idim := flattenCdr (hdims ctx inW) in
  let inputSize := snd idim in
  for_loop (fst odim) (fun n ctx =>
    let base := getElementPtr (hdims ctx inW) [n] in
    for_loop (snd odim) (fun i ctx =>
      sum <- for_loop inputSize (fun j sum =>
               v <- raw ctx inW (base + j) ;;
               f <- hat ctx filterW [i; j] ;;
               Some (fadd sum (fmul v f))) fzero ;;
      b <- hat ctx biasW [i] ;;
      hset ctx outW [n; i] (fadd sum b)) ctx) ctx.

(* ================================================================ *)
(** * SoftMax *)
(* ================================================================ *)

Record SoftMaxInst : Type := {
  softmax_Dest : Value; softmax_Src : Value; softmax_E : Value;
  softmax_Selected : Value
}.

(** The body of the loop over [n]: one row of [m] elements. *)
Definition fwdSoftMax_row (I : SoftMaxInst) (m n : nat) (ctx : Context)
  : option Context :=
  let inW := WeightH (softmax_Src I) in
  let outW := WeightH (softmax_Dest I) in
  let EH := WeightH (softmax_E I) in
  max0 <- hat ctx inW [n; 0] ;;
  max <- for_loop m (fun i max =>
           v <- hat ctx inW [n; i] ;;
           Some (std_max max v)) max0 ;;
  r <- for_loop m (fun i (st : Context * FloatTy) =>
         let (ctx, sum) := st in
         v <- hat ctx inW [n; i] ;;
         let e := std_exp (fsub v max) in
         ctx <- hset ctx EH [n; i] e ;;
         Some (ctx, fadd sum e)) (ctx, fzero) ;;
  let (ctx, sum) := r in
  for_loop m (fun i ctx =>
    e <- hat ctx EH [n; i] ;;
    ctx <- hset ctx EH [n; i] (fdiv e sum) ;;
    p <- hat ctx EH [n; i] ;;
    hset ctx outW [n; i] p) ctx.

Definition fwdSoftMaxInst (isTrain : bool) (I : SoftMaxInst) (ctx : Context)
  : option Context :=
  let idim := hdims ctx (WeightH (softmax_Src I)) in
  d0 <- nth_error idim 0 ;;
  d1 <- nth_error idim 1 ;;
  for_loop d0 (fwdSoftMax_row I d1) ctx.

(** [sigma = EH.at({n, i}) - delta], with
    [delta = (selectedH.at({n, 0}) == i)]. *)
Definition softmax_sigma (e : FloatTy) (sel : Z) (i : nat) : FloatTy :=
  let delta := of_bool (Z.eqb sel (Z.of_nat i)) in
  fsub e delta.

(** The body of the inner loop of the backward kernel. *)
Definition bwdSoftMax_elem (I : SoftMaxInst) (n i : nat) (ctx : Context)
  : option Context :=
  let inG := GradH (softmax_Src I) in
  let EH := WeightH (softmax_E I) in
  sel <- iat ctx (softmax_Selected I) [n; 0] ;;
  e <- hat ctx EH [n; i] ;;
  hadd ctx inG [n; i] (softmax_sigma e sel i).

Definition bwdSoftMaxInst (I : SoftMaxInst) (ctx : Context) : option Context :=
  let idim := hdims ctx (GradH (softmax_Src I)) in
  d0 <- nth_error idim 0 ;;
  d1 <- nth_error idim 1 ;;
  for_loop d0 (fun n ctx => for_loop d1 (bwdSoftMax_elem I n) ctx) ctx.

(* ================================================================ *)
(** * Transpose and concat *)
(* ================================================================ *)

(** All coordinates of a shape, in row-major order. *)
Fixpoint all_coords (ds : list nat) : list (list nat) :=
  match ds with
  | [] => [[]]
  | d :: ds' => flat_map (fun i => map (cons i) (all_coords ds')) (seq 0 d)
  end.

Definition shuffle_coord (shuffle c : list nat) : list nat :=
  map (fun k => nth k c 0) shuffle.

(** Modelled from the spec: [Handle::transpose(dest, shuffle)] permutes
    the source into the destination under the permutation vector: the
    destination takes the permuted shape, and the element at a source
    coordinate goes to the permuted coordinate. *)
Definition t_transpose (src : Tensor FloatTy) (shuffle : list nat)
  : option (Tensor FloatTy) :=
  let newDims := shuffle_coord shuffle (dims src) in
  fold_left (fun acc c =>
               t <- acc ;;
               v <- t_at src c ;;
               t_set_at t (shuffle_coord shuffle c) v)
    (all_coords (dims src))
    (Some (mkTensor newDims (repeat fzero (prod_dims newDims)))).

(** Modelled from the spec: [Handle::insertTensors(src, offset)] writes the
    source into the receiver at the coordinate [offset]. *)
Definition t_insert (dst src : Tensor FloatTy) (offset : list nat)
  : option (Tensor FloatTy) :=
  fold_left (fun acc c =>
               t <- acc ;;
               v <- t_at src c ;;
               t_set_at t (map (fun p => fst p + snd p) (combine c offset)) v)
    (all_coords (dims src)) (Some dst).

Record TransposeInst : Type := {
  transpose_Dest : Value; transpose_Src : Value; transpose_Shuffle : list nat
}.

Definition fwdTransposeInst (isTrain : bool) (I : TransposeInst)
  (ctx : Context) : option Context :=
  let inW := WeightH (transpose_Src I) in
  let outW := WeightH (transpose_Dest I) in
  assert! Nat.eqb (hsize ctx outW) (hsize ctx inW) ;;
  t <- t_transpose (tensorOf ctx inW) (transpose_Shuffle I) ;;
  Some (putTensor ctx outW t).

(** Operand 0 of a concat is its destination; [concat_Inputs] are the
    operands from 1 on. *)
Record ConcatInst : Type := {
  concat_Dest : Value; concat_Inputs : list Value; concat_Dim : nat
}.

Definition fwdConcatInst (isTrain : bool) (I : ConcatInst) (ctx : Context)
  : option Context :=
  let outW := WeightH (concat_Dest I) in
  let dim := concat_Dim I in
  r <- fold_left (fun acc v =>
         st <- acc ;;
         let (ctx, offset) := (st : Context * list nat) in
         let inW := WeightH v in
         t <- t_insert (tensorOf ctx outW) (tensorOf ctx inW) offset ;;
         let ctx := putTensor ctx outW t in
         o <- nth_error offset dim ;;
         e <- nth_error (hdims ctx inW) dim ;;
         offset <- list_set offset dim (o + e) ;;
         Some (ctx, offset))
       (concat_Inputs I) (Some (ctx, repeat 0 (hsize ctx outW))) ;;
  Some (fst r).

(* ================================================================ *)
(** * Batch normalization *)
(* ================================================================ *)

Record BatchNormalizationInst : Type := {
  bn_Dest : Value; bn_Src : Value; bn_Scale : Value; bn_Bias : Value;
  bn_Mean : Value; bn_Var : Value;
  bn_ChannelIdx : nat; bn_Epsilon : FloatTy; bn_Momentum : FloatTy
}.

(** [h.getDimForPtr(channelIdx, i)], with its assertion on the axis. *)
Definition channelOf (ds : list nat) (channelIdx i : nat) : option nat :=
  assert! channelIdx <? length ds ;; Some (getDimForPtr ds channelIdx i).

(** The value the inference formula writes for the input [x]:
    [(x - mu) * gamma * stdvar + beta], with
    [stdvar = FloatTy(1.0) / std::sqrt(var + epsilon)]. *)
Definition bn_output (epsilon x mu var gamma beta : FloatTy) : FloatTy :=
  let stdvar := fdiv fone (std_sqrt (fadd var epsilon)) in
  fadd (fmul (fmul (fsub x mu) gamma) stdvar) beta.

Definition fwdBatchNormalizationInst_infer (I : BatchNormalizationInst)
  (ctx : Context) : option Context :=
  let inW := WeightH (bn_Src I) in
  let outW := WeightH (bn_Dest I) in
  let betaWH := WeightH (bn_Bias I) in
  let gammaWH := WeightH (bn_Scale I) in
  let varH := WeightH (bn_Var I) in
  let meanH := WeightH (bn_Mean I) in
  let channelIdx := bn_ChannelIdx I in
  let epsilon := bn_Epsilon I in
  for_loop (hsize ctx inW) (fun i ctx =>
    channelId <- channelOf (hdims ctx inW) channelIdx i ;;
    x <- raw ctx inW i ;;
    mu <- hat ctx meanH [channelId] ;;
    var <- hat ctx varH [channelId] ;;
    gamma <- hat ctx gammaWH [channelId] ;;
    beta <- hat ctx betaWH [channelId] ;;
    set_raw ctx outW i (bn_output epsilon x mu var gamma beta)) ctx.

(** Modelled from the spec: [Tensor(ElemKind::FloatTy, dims)], a fresh
    tensor of the given shape; its storage is zeroed. *)
Definition newTensor (ds : list nat) : Tensor FloatTy :=
  mkTensor ds (repeat fzero (prod_dims ds)).

(** The two passes that compute the local mean of each channel: the sums,
    then the division by the number of samples. *)
Definition bn_localSum (ctx : Context) (I : BatchNormalizationInst)
  (t0 : Tensor FloatTy) : option (Tensor FloatTy) :=
  let inW := WeightH (bn_Src I) in
  for_loop (hsize ctx inW) (fun i lm =>
    channelId <- channelOf (hdims ctx inW) (bn_ChannelIdx I) i ;;
    v <- raw ctx inW i ;;
    old <- t_raw lm channelId ;;
    t_set_raw lm channelId (fadd old v)) t0.

Definition bn_divide (e samplesPerChannel : nat) (t : Tensor FloatTy)
  : option (Tensor FloatTy) :=
  for_loop e (fun i lm =>
    old <- t_at lm [i] ;;
    t_set_at lm [i] (fdiv old (of_size (Z.of_nat samplesPerChannel)))) t.

Definition bn_localSqSum (ctx : Context) (I : BatchNormalizationInst)
  (localMean t0 : Tensor FloatTy) : option (Tensor FloatTy) :=
  let inW := WeightH (bn_Src I) in
  for_loop (hsize ctx inW) (fun i lv =>
    channelId <- channelOf (hdims ctx inW) (bn_ChannelIdx I) i ;;
    x <- raw ctx inW i ;;
    mu <- t_at localMean [channelId] ;;
    let v := fsub x mu in
    old <- t_raw lv channelId ;;
    t_set_raw lv channelId (fadd old (fmul v v))) t0.

(** The update of the running statistics of channel [i]. *)
Definition bn_blend (P loc run : FloatTy) : FloatTy :=
  fadd (fmul P loc) (fmul (fsub fone P) run).

Definition bn_updateStats (I : BatchNormalizationInst)
  (localMean localVar : Tensor FloatTy) (ctx : Context) : option Context :=
  let varH := WeightH (bn_Var I) in
  let meanH := WeightH (bn_Mean I) in
  let P := bn_Momentum I in
  for_loop (tsize localMean) (fun i ctx =>
    lm <- t_at localMean [i] ;;
    m <- hat ctx meanH [i] ;;
    ctx <- hset ctx meanH [i] (bn_blend P lm m) ;;
    lv <- t_at localVar [i] ;;
    v <- hat ctx varH [i] ;;
    hset ctx varH [i] (bn_blend P lv v)) ctx.

Definition fwdBatchNormalizationInst_train (I : BatchNormalizationInst)
  (ctx : Context) : option Context :=
  let inW := WeightH (bn_Src I) in
  let varH := WeightH (bn_Var I) in
  let meanH := WeightH (bn_Mean I) in
  let localMean := newTensor (hdims ctx meanH) in
  let localVar := newTensor (hdims ctx varH) in
  numChannels <- nth_error (hdims ctx inW) (bn_ChannelIdx I) ;;
  assert! negb (numChannels =? 0) ;;
  let samplesPerChannel := hsize ctx inW / numChannels in
  localMean <- bn_localSum ctx I localMean ;;
  localMean <- bn_divide (tsize localMean) samplesPerChannel localMean ;;
  localVar <- bn_localSqSum ctx I localMean localVar ;;
  localVar <- bn_divide (tsize localMean) samplesPerChannel localVar ;;
  ctx <- bn_updateStats I localMean localVar ctx ;;
  fwdBatchNormalizationInst_infer I ctx.

Definition fwdBatchNormalizationInst (isTrain : bool)
  (I : BatchNormalizationInst) (ctx : Context) : option Context :=
  if isTrain then fwdBatchNormalizationInst_train I ctx
  else fwdBatchNormalizationInst_infer I ctx.

(* ================================================================ *)
(** * Local response normalization *)
(* ================================================================ *)

Record LocalResponseNormalizationInst : Type := {
  lrn_Dest : Value; lrn_Src : Value; lrn_Scale : Value;
  lrn_halfWindowSize : nat;
  lrn_Alpha : FloatTy; lrn_Beta : FloatTy; lrn_K : FloatTy
}.

Definition shape_eqb (a b : ShapeNHWC) : bool :=
  (sn a =? sn b) && (sh a =? sh b) && (sw a =? sw b) && (sc a =? sc b).

(** The two loops over the channels at one position ([n], [h], [w]). *)
Definition fwdLRN_position (I : LocalResponseNormalizationInst)
  (idim : ShapeNHWC) (n h w : nat) (ctx : Context) : option Context :=
  let inW := WeightH (lrn_Src I) in
  let outW := WeightH (lrn_Dest I) in
  let scaleCache := WeightH (lrn_Scale I) in
  let halfWindowSize := lrn_halfWindowSize I in
  let k := lrn_K I in
  let beta := lrn_Beta I in
  let windowSize := to_size (2 * Z.of_nat halfWindowSize + 1) in
  let normedAlpha := fdiv (lrn_Alpha I) (of_size windowSize) in
  squareSum <- for_range 1 (Nat.min (S halfWindowSize) (sc idim))
                 (fun c squareSum =>
                    val <- hat ctx inW [n; h; w; c] ;;
                    Some (fadd squareSum (fmul val val))) fzero ;;
  r <- for_loop (sc idim) (fun c (st : Context * FloatTy) =>
         let (ctx, squareSum) := st in
         let scale := fadd k (fmul normedAlpha squareSum) in
         ctx <- hset ctx scaleCache [n; h; w; c] scale ;;
         let normFactor := std_pow scale (fneg beta) in
         v <- hat ctx inW [n; h; w; c] ;;
         ctx <- hset ctx outW [n; h; w; c] (fmul v normFactor) ;;
         let addIndex :=
           to_size (Z.of_nat c + Z.of_nat halfWindowSize + 1) in
         sub <- (if halfWindowSize <=? c
                 then hat ctx inW [n; h; w; c - halfWindowSize]
                 else Some fzero) ;;
         add <- (if (addIndex <? Z.of_nat (sc idim))%Z
                 then hat ctx inW [n; h; w; Z.to_nat addIndex]
                 else Some fzero) ;;
         Some (ctx, fadd (fsub squareSum (fmul sub sub)) (fmul add add)))
       (ctx, squareSum) ;;
  Some (fst r).

Definition fwdLocalResponseNormalizationInst (isTrain : bool)
  (I : LocalResponseNormalizationInst) (ctx : Context) : option Context :=
  odim <- shapeNHWC (hdims ctx (WeightH (lrn_Dest I))) ;;
  idim <- shapeNHWC (hdims ctx (WeightH (lrn_Src I))) ;;
  assert! shape_eqb odim idim ;;
  assert! 0 <? sc idim ;;
  for_loop (sn idim) (fun n ctx =>
    for_loop (sh idim) (fun h ctx =>
      for_loop (sw idim) (fun w ctx =>
        fwdLRN_position I idim n h w ctx) ctx) ctx) ctx.

(* ================================================================ *)
(** * Arithmetic *)
(* ================================================================ *)

Inductive ArithKind : Type := ArithAdd | ArithMul.

Record ArithmeticInst : Type := {
  arith_Dest : Value; arith_LHS : Value; arith_RHS : Value;
  arith_Kind : ArithKind
}.

Definition fwdArithmeticInst (isTrain : bool) (I : ArithmeticInst)
  (ctx : Context) : option Context :=
  let outW := WeightH (arith_Dest I) in
  let LHSW := WeightH (arith_LHS I) in
  let RHSW := WeightH (arith_RHS I) in
  match arith_Kind I with
  | ArithAdd =>
      for_loop (hsize ctx outW) (fun i ctx =>
        l <- raw ctx LHSW i ;;
        r <- raw ctx RHSW i ;;
        set_raw ctx outW i (fadd l r)) ctx
  | ArithMul =>
      for_loop (hsize ctx outW) (fun i ctx =>
        l <- raw ctx LHSW i ;;
        r <- raw ctx RHSW i ;;
        set_raw ctx outW i (fmul l r)) ctx
  end.

(** The body of the loop of the backward kernel of [Mul]. *)
Definition bwdArithmetic_mul (I : ArithmeticInst) (i : nat) (ctx : Context)
  : option Context :=
  let LHSW := WeightH (arith_LHS I) in
  let RHSW := WeightH (arith_RHS I) in
  let outG := GradH (arith_Dest I) in
  let LHSG := GradH (arith_LHS I) in
  let RHSG := GradH (arith_RHS I) in
  r <- raw ctx RHSW i ;;
  g <- raw ctx outG i ;;
  ctx <- set_raw ctx LHSG i (fmul r g) ;;
  l <- raw ctx LHSW i ;;
  g <- raw ctx outG i ;;
  set_raw ctx RHSG i (fmul l g).

Definition bwdArithmetic_add (I : ArithmeticInst) (i : nat) (ctx : Context)
  : option Context :=
  let outG := GradH (arith_Dest I) in
  let LHSG := GradH (arith_LHS I) in
  let RHSG := GradH (arith_RHS I) in
  g <- raw ctx outG i ;;
  ctx <- set_raw ctx LHSG i g ;;
  g <- raw ctx outG i ;;
  set_raw ctx RHSG i g.

Definition bwdArithmeticInst (I : ArithmeticInst) (ctx : Context)
  : option Context :=
  let outG := GradH (arith_Dest I) in
  match arith_Kind I with
  | ArithAdd => for_loop (hsize ctx outG) (bwdArithmetic_add I) ctx
  | ArithMul => for_loop (hsize ctx outG) (bwdArithmetic_mul I) ctx
  end.

(* ================================================================ *)
(** * The forward direction of every primitive *)
(* ================================================================ *)

Inductive Instruction : Type :=
| ICopy (I : CopyInst)
| IConvolution (I : ConvolutionInst)
| IPool (I : PoolInst)
| IFullyConnected (I : FullyConnectedInst)
| IRelu (I : ReluInst)
| ISigmoid (I : SigmoidInst)
| ITanh (I : TanhInst)
| ISoftMax (I : SoftMaxInst)
| IRegression (I : RegressionInst)
| ITranspose (I : TransposeInst)
| IReshape (I : ReshapeInst)
| IConcat (I : ConcatInst)
| IBatchNormalization (I : BatchNormalizationInst)
| ILocalResponseNormalization (I : LocalResponseNormalizationInst)
| IArithmetic (I : ArithmeticInst).

(** The forward kernel the interpreter runs for an instruction. *)
Definition fwd (isTrain : bool) (i : Instruction) (ctx : Context)
  : option Context :=
  match i with
  | ICopy ins => fwdCopyInst isTrain ins ctx
  | IConvolution ins => fwdConvolutionInst isTrain ins ctx
  | IPool ins => fwdPoolInst isTrain ins ctx
  | IFullyConnected ins => fwdFullyConnectedInst isTrain ins ctx
  | IRelu ins => fwdReluInst isTrain ins ctx
  | ISigmoid ins => fwdSigmoidInst isTrain ins ctx
  | ITanh ins => fwdTanhInst isTrain ins ctx
  | ISoftMax ins => fwdSoftMaxInst isTrain ins ctx
  | IRegression ins => fwdRegressionInst isTrain ins ctx
  | ITranspose ins => fwdTransposeInst isTrain ins ctx
  | IReshape ins => fwdReshapeInst isTrain ins ctx
  | IConcat ins => fwdConcatInst isTrain ins ctx
  | IBatchNormalization ins => fwdBatchNormalizationInst isTrain ins ctx
  | ILocalResponseNormalization ins =>
      fwdLocalResponseNormalizationInst isTrain ins ctx
  | IArithmetic ins => fwdArithmeticInst isTrain ins ctx
  end.

(* ================================================================ *)
(** * The backward kernels of the other primitives *)
(* ================================================================ *)

(** In [a += b] the right operand is read before the left one. *)
Definition bwdCopyInst (I : CopyInst) (ctx : Context) : option Context :=
  let inG := GradH (copy_Src I) in
  let outG := GradH (copy_Dest I) in
  for_loop (hsize ctx outG) (fun i ctx =>
    g <- raw ctx outG i ;;
    add_raw ctx inG i g) ctx.

Definition bwdReshapeInst (I : ReshapeInst) (ctx : Context) : option Context :=
  let inG := GradH (reshape_Src I) in
  let outW := WeightH (reshape_Dest I) in
  let outG := GradH (reshape_Dest I) in
  for_loop (hsize ctx outW) (fun i ctx =>
    g <- raw ctx outG i ;;
    add_raw ctx inG i g) ctx.

Definition bwdSigmoidInst (I : SigmoidInst) (ctx : Context) : option Context :=
  let inG := GradH (sigmoid_Src I) in
  let outW := WeightH (sigmoid_Dest I) in
  let outG := GradH (sigmoid_Dest I) in
  for_loop (hsize ctx outW) (fun i ctx =>
    val <- raw ctx outW i ;;
    g <- raw ctx outG i ;;
    add_raw ctx inG i (fmul (fmul val (fsub fone val)) g)) ctx.

Definition bwdTanhInst (I : TanhInst) (ctx : Context) : option Context :=
  let inG := GradH (tanh_Src I) in
  let outW := WeightH (tanh_Dest I) in
  let outG := GradH (tanh_Dest I) in
  for_loop (hsize ctx outW) (fun i ctx =>
    val <- raw ctx outW i ;;
    g <- raw ctx outG i ;;
    add_raw ctx inG i (fmul (fsub fone (fmul val val)) g)) ctx.

(** The expected values are the weight tensor of [Expected]; the input
    must be of rank 2. *)
Definition bwdRegressionInst (I : RegressionInst) (ctx : Context)
  : option Context :=
  let inW := WeightH (regression_Src I) in
  let inG := GradH (regression_Src I) in
  let e := WeightH (regression_Expected I) in
  let idim := hdims ctx inW in
  assert! length idim =? 2 ;;
  d0 <- nth_error idim 0 ;;
  d1 <- nth_error idim 1 ;;
  for_loop d0 (fun n ctx =>
    for_loop d1 (fun i ctx =>
      x <- hat ctx inW [n; i] ;;
      ex <- hat ctx e [n; i] ;;
      hadd ctx inG [n; i] (fsub x ex)) ctx) ctx.

(** The saved coordinates are [size_t] values, read back as coordinates. *)
Definition bwdPoolMax_impl (I : PoolInst) (ctx : Context) : option Context :=
  let inG := GradH (pool_Src I) in
  let outW := WeightH (pool_Dest I) in
  let outG := GradH (pool_Dest I) in
  let SXY := pool_srcXY I in
  odim <- shapeNHWC (hdims ctx outW) ;;
  for_loop (sn odim) (fun n ctx =>
    for_loop (sc odim) (fun z ctx =>
      for_loop (sw odim) (fun ay ctx =>
        for_loop (sh odim) (fun ax ctx =>
          chainGrad <- hat ctx outG [n; ax; ay; z] ;;
          maxX <- iat ctx SXY [n; ax; ay; z; 0] ;;
          maxY <- iat ctx SXY [n; ax; ay; z; 1] ;;
          hadd ctx inG [n; Z.to_nat maxX; Z.to_nat maxY; z] chainGrad)
          ctx) ctx) ctx) ctx.

(** The loops over [fy] and [fx] of the backward average pool at the
    anchor ([x], [y]): every position that passes the window test takes
    [dy]. *)
Definition bwdPoolAvg_window (I : PoolInst) (idim : ShapeNHWC) (n z : nat)
  (x y : Z) (dy : FloatTy) (ctx : Context) : option Context :=
  let inG := GradH (pool_Src I) in
  let filterSize := pool_Kernel I in
  for_loop filterSize (fun fy ctx =>
    for_loop filterSize (fun fx ctx =>
      let ox := ssize_add x fx in
      let oy := ssize_add y fy in
      if out_of_range ox oy (sh idim) (sw idim) then Some ctx
      else hadd ctx inG [n; size_of_ssize ox; size_of_ssize oy; z] dy) ctx) ctx.

Definition bwdPoolAvg_impl (I : PoolInst) (ctx : Context) : option Context :=
  let inW := WeightH (pool_Src I) in
  let outW := WeightH (pool_Dest I) in
  let outG := GradH (pool_Dest I) in
  let pad := pool_Pad I in
  let stride := pool_Stride I in
  odim <- shapeNHWC (hdims ctx outW) ;;
  idim <- shapeNHWC (hdims ctx inW) ;;
  for_loop (sn odim) (fun n ctx =>
    for_loop (sc odim) (fun z ctx =>
      for_loop (sw odim) (fun ay ctx =>
        let y := anchor pad stride ay in
        for_loop (sh odim) (fun ax ctx =>
          let x := anchor pad stride ax in
          g <- hat ctx outG [n; ax; ay; z] ;;
          let dy := fdiv g (filterArea (pool_Kernel I)) in
          bwdPoolAvg_window I idim n z x y dy ctx) ctx) ctx) ctx) ctx.

Definition bwdPoolInst (I : PoolInst) (ctx : Context) : option Context :=
  match pool_Kind I with
  | PoolMax => bwdPoolMax_impl I ctx
  | PoolAvg => bwdPoolAvg_impl I ctx
  end.

Definition bwdFullyConnectedInst (I : FullyConnectedInst) (ctx : Context)
  : option Context :=
  let inW := WeightH (fc_Src I) in
  let inG := GradH (fc_Src I) in
  let outW := WeightH (fc_Dest I) in
  let outG := GradH (fc_Dest I) in
  let filterW := WeightH (fc_Filter I) in
  let filterG := GradH (fc_Filter I) in
  let biasG := GradH (fc_Bias I) in
  let odim := flattenCdr (hdims ctx outW) in
  let idim := flattenCdr (hdims ctx inW) in
  let inSize := snd idim in
  for_loop (fst odim) (fun n ctx =>
    let base := getElementPtr (hdims ctx inW) [n] in
    for_loop (snd odim) (fun i ctx =>
      chainGrad <- hat ctx outG [n; i] ;;
      ctx <- for_loop inSize (fun j ctx =>
               f <- hat ctx filterW [i; j] ;;
               ctx <- add_raw ctx inG (base + j) (fmul f chainGrad) ;;
               v <- raw ctx inW (base + j) ;;
               hadd ctx filterG [i; j] (fmul v chainGrad)) ctx ;;
      hadd ctx biasG [i] chainGrad) ctx) ctx.

(** The reverse shuffle: a copy of the shuffle, then
    [reverseShuffle[shuffle[i]] = i] for every [i].  A write outside the
    vector has no defined result. *)
Definition reverse_shuffle (shuffle : list nat) : option (list nat) :=
  for_loop (length shuffle) (fun i reverseShuffle =>
    k <- nth_error shuffle i ;;
    list_set reverseShuffle k i) shuffle.

(** The transpose replaces the gradient tensor of the source. *)
Definition bwdTransposeInst (I : TransposeInst) (ctx : Context)
  : option Context :=
  let inG := GradH (transpose_Src I) in
  let outG := GradH (transpose_Dest I) in
  assert! Nat.eqb (hsize ctx outG) (hsize ctx inG) ;;
  reverseShuffle <- reverse_shuffle (transpose_Shuffle I) ;;
  t <- t_transpose (tensorOf ctx outG) reverseShuffle ;;
  Some (putTensor ctx inG t).

(** Modelled from the spec: [Handle::extractTensors(dst, offset)] is the
    mirror of [insertTensors]: every element of [dst] takes the element of
    the receiver at its coordinate plus [offset]. *)
Definition t_extract (src dst : Tensor FloatTy) (offset : list nat)
  : option (Tensor FloatTy) :=
  fold_left (fun acc c =>
               t <- acc ;;
               v <- t_at src (map (fun p => fst p + snd p) (combine c offset)) ;;
               t_set_at t c v)
    (all_coords (dims dst)) (Some dst).

Definition bwdConcatInst (I : ConcatInst) (ctx : Context) : option Context :=
  let outG := GradH (concat_Dest I) in
  let dim := concat_Dim I in
  r <- fold_left (fun acc v =>
         st <- acc ;;
         let (ctx, offset) := (st : Context * list nat) in
         let inG := GradH v in
         t <- t_extract (tensorOf ctx outG) (tensorOf ctx inG) offset ;;
         let ctx := putTensor ctx inG t in
         o <- nth_error offset dim ;;
         e <- nth_error (hdims ctx inG) dim ;;
         offset <- list_set offset dim (o + e) ;;
         Some (ctx, offset))
       (concat_Inputs I) (Some (ctx, repeat 0 (hsize ctx outG))) ;;
  Some (fst r).

(** The input gradient of the batch normalization at one element:
    [invN * gamma * invVarSqrt *
     (samplesPerChannel * dy - sdy - hmu * invVar * sdyhmu)]. *)
Definition bn_inputGrad (epsilon : FloatTy) (samplesPerChannel : nat)
  (x mu var gamma dy sdy sdyhmu : FloatTy) : FloatTy :=
  let n := of_size (Z.of_nat samplesPerChannel) in
  let invN := fdiv fone n in
  let invVarSqrt := fdiv fone (std_sqrt (fadd var epsilon)) in
  let invVar := fdiv fone (fadd var epsilon) in
  let hmu := fsub x mu in
  fmul (fmul (fmul invN gamma) invVarSqrt)
       (fsub (fsub (fmul n dy) sdy) (fmul (fmul hmu invVar) sdyhmu)).

(** The two passes over the input that fill the locals [dyhmu] and
    [sumDy]. *)
Definition bn_dyhmu (ctx : Context) (I : BatchNormalizationInst)
  (t0 : Tensor FloatTy) : option (Tensor FloatTy) :=
  let inW := WeightH (bn_Src I) in
  let outG := GradH (bn_Dest I) in
  let meanH := WeightH (bn_Mean I) in
  for_loop (hsize ctx inW) (fun i t =>
    channelId <- channelOf (hdims ctx inW) (bn_ChannelIdx I) i ;;
    x <- raw ctx inW i ;;
    mu <- hat ctx meanH [channelId] ;;
    let cx := fsub x mu in
    g <- raw ctx outG i ;;
    old <- t_at t [channelId] ;;
    t_set_at t [channelId] (fadd old (fmul g cx))) t0.

Definition bn_sumDy (ctx : Context) (I : BatchNormalizationInst)
  (t0 : Tensor FloatTy) : option (Tensor FloatTy) :=
  let inW := WeightH (bn_Src I) in
  let outG := GradH (bn_Dest I) in
  for_loop (hsize ctx inW) (fun i t =>
    channelId <- channelOf (hdims ctx inW) (bn_ChannelIdx I) i ;;
    g <- raw ctx outG i ;;
    old <- t_at t [channelId] ;;
    t_set_at t [channelId] (fadd old g)) t0.

(** The pass that updates the gradient of the input ... *)
Definition bn_inputGrads (I : BatchNormalizationInst) (samplesPerChannel : nat)
  (dyhmu sumDy : Tensor FloatTy) (ctx : Context) : option Context :=
  let inW := WeightH (bn_Src I) in
  let inG := GradH (bn_Src I) in
  let outG := GradH (bn_Dest I) in
  let gammaWH := WeightH (bn_Scale I) in
  let varH := WeightH (bn_Var I) in
  let meanH := WeightH (bn_Mean I) in
  for_loop (hsize ctx inW) (fun i ctx =>
    channelId <- channelOf (hdims ctx inW) (bn_ChannelIdx I) i ;;
    gamma <- hat ctx gammaWH [channelId] ;;
    var <- hat ctx varH [channelId] ;;
    mu <- hat ctx meanH [channelId] ;;
    dy <- raw ctx outG i ;;
    x <- raw ctx inW i ;;
    sdy <- t_at sumDy [channelId] ;;
    sdyhmu <- t_at dyhmu [channelId] ;;
    add_raw ctx inG i
      (bn_inputGrad (bn_Epsilon I) samplesPerChannel
         x mu var gamma dy sdy sdyhmu)) ctx.

(** ... and the pass that updates the gradients of beta and gamma. *)
Definition bn_paramGrads (I : BatchNormalizationInst) (ctx : Context)
  : option Context :=
  let inW := WeightH (bn_Src I) in
  let outG := GradH (bn_Dest I) in
  let betaGH := GradH (bn_Bias I) in
  let gammaGH := GradH (bn_Scale I) in
  let varH := WeightH (bn_Var I) in
  let meanH := WeightH (bn_Mean I) in
  for_loop (hsize ctx inW) (fun i ctx =>
    channelId <- channelOf (hdims ctx inW) (bn_ChannelIdx I) i ;;
    mu <- hat ctx meanH [channelId] ;;
    var <- hat ctx varH [channelId] ;;
    let invVarSqrt := fdiv fone (std_sqrt (fadd var (bn_Epsilon I))) in
    g <- raw ctx outG i ;;
    ctx <- hadd ctx betaGH [channelId] g ;;
    x <- raw ctx inW i ;;
    g <- raw ctx outG i ;;
    hadd ctx gammaGH [channelId] (fmul (fmul (fsub x mu) invVarSqrt) g)) ctx.

Definition bwdBatchNormalizationInst (I : BatchNormalizationInst)
  (ctx : Context) : option Context :=
  let inW := WeightH (bn_Src I) in
  let meanH := WeightH (bn_Mean I) in
  let dyhmu := newTensor (hdims ctx meanH) in
  let sumDy := newTensor (hdims ctx meanH) in
  numChannels <- nth_error (hdims ctx inW) (bn_ChannelIdx I) ;;
  assert! negb (numChannels =? 0) ;;
  let samplesPerChannel := hsize ctx inW / numChannels in
  dyhmu <- bn_dyhmu ctx I dyhmu ;;
  sumDy <- bn_sumDy ctx I sumDy ;;
  ctx <- bn_inputGrads I samplesPerChannel dyhmu sumDy ctx ;;
  bn_paramGrads I ctx.

(** The term [outg * (outw / scale)] of channel [c] in the running sum of
    the backward kernel of the local response normalization. *)
Definition bwdLRN_term (I : LocalResponseNormalizationInst) (n h w c : nat)
  (ctx : Context) : option FloatTy :=
  outw <- hat ctx (WeightH (lrn_Dest I)) [n; h; w; c] ;;
  scale <- hat ctx (WeightH (lrn_Scale I)) [n; h; w; c] ;;
  outg <- hat ctx (GradH (lrn_Dest I)) [n; h; w; c] ;;
  Some (fmul outg (fdiv outw scale)).

Definition bwdLRN_position (I : LocalResponseNormalizationInst)
  (odim : ShapeNHWC) (n h w : nat) (ctx : Context) : option Context :=
  let inW := WeightH (lrn_Src I) in
  let inG := GradH (lrn_Src I) in
  let outG := GradH (lrn_Dest I) in
  let scaleCache := WeightH (lrn_Scale I) in
  let halfWindowSize := lrn_halfWindowSize I in
  let beta := lrn_Beta I in
  let windowSize := to_size (2 * Z.of_nat halfWindowSize + 1) in
  let normedAlpha := fdiv (lrn_Alpha I) (of_size windowSize) in
  sum <- for_range 1 (Nat.min (S halfWindowSize) (sc odim))
           (fun c sum =>
              t <- bwdLRN_term I n h w c ctx ;;
              Some (fadd sum t)) fzero ;;
  r <- for_loop (sc odim) (fun c (st : Context * FloatTy) =>
         let (ctx, sum) := st in
         outg <- hat ctx outG [n; h; w; c] ;;
         scale <- hat ctx scaleCache [n; h; w; c] ;;
         inw <- hat ctx inW [n; h; w; c] ;;
         ctx <- hset ctx inG [n; h; w; c]
                  (fsub (fmul outg (std_pow scale (fneg beta)))
                        (fmul (fmul (fmul (fmul (of_size 2) normedAlpha) beta)
                                    inw) sum)) ;;
         let addIndex :=
           to_size (Z.of_nat c + Z.of_nat halfWindowSize + 1) in
         sum <- (if halfWindowSize <=? c
                 then t <- bwdLRN_term I n h w (c - halfWindowSize) ctx ;;
                      Some (fsub sum t)
                 else Some sum) ;;
         sum <- (if (addIndex <? Z.of_nat (sc odim))%Z
                 then t <- bwdLRN_term I n h w (Z.to_nat addIndex) ctx ;;
                      Some (fadd sum t)
                 else Some sum) ;;
         Some (ctx, sum))
       (ctx, sum) ;;
  Some (fst r).

Definition bwdLocalResponseNormalizationInst
  (I : LocalResponseNormalizationInst) (ctx : Context) : option Context :=
  odim <- shapeNHWC (hdims ctx (WeightH (lrn_Dest I))) ;;
  for_loop (sn odim) (fun n ctx =>
    for_loop (sh odim) (fun h ctx =>
      for_loop (sw odim) (fun w ctx =>
        bwdLRN_position I odim n h w ctx) ctx) ctx) ctx.

(** The backward kernel the interpreter runs for an instruction. *)
Definition bwd (i : Instruction) (ctx : Context) : option Context :=
  match i with
  | ICopy ins => bwdCopyInst ins ctx
  | IConvolution ins => bwdConvolutionInst ins ctx
  | IPool ins => bwdPoolInst ins ctx
  | IFullyConnected ins => bwdFullyConnectedInst ins ctx
  | IRelu ins => bwdReluInst ins ctx
  | ISigmoid ins => bwdSigmoidInst ins ctx
  | ITanh ins => bwdTanhInst ins ctx
  | ISoftMax ins => bwdSoftMaxInst ins ctx
  | IRegression ins => bwdRegressionInst ins ctx
  | ITranspose ins => bwdTransposeInst ins ctx
  | IReshape ins => bwdReshapeInst ins ctx
  | IConcat ins => bwdConcatInst ins ctx
  | IBatchNormalization ins => bwdBatchNormalizationInst ins ctx
  | ILocalResponseNormalization ins =>
      bwdLocalResponseNormalizationInst ins ctx
  | IArithmetic ins => bwdArithmeticInst ins ctx
  end.

End Interpreter.

(* ================================================================== *)
(** * The windows of the pooling kernels, as lists *)
(* ================================================================== *)

(** The input positions ([ox], [oy]) of the window anchored at ([x], [y]),
    in the order the kernels scan them: [fy] outermost, [fx] innermost. *)
Definition window_positions (K : nat) (x y : Z) : list (Z * Z) :=
  flat_map (fun fy => map (fun fx => (ssize_add x fx, ssize_add y fy))
                          (seq 0 K))
           (seq 0 K).

(** A position is valid when it lies inside the [h] by [w] input. *)
Definition in_range (h w : nat) (p : Z * Z) : bool :=
  (0 <=? fst p)%Z && (fst p <? Z.of_nat h)%Z
  && (0 <=? snd p)%Z && (snd p <? Z.of_nat w)%Z.

Definition valid_positions (K : nat) (x y : Z) (h w : nat) : list (Z * Z) :=
  filter (in_range h w) (window_positions K x y).

Section WindowSpec.
Context {ops : FloatOps}.

(** The contents of a rank-4 tensor, as a function of the coordinate. *)
Definition Image : Type := nat -> nat -> nat -> nat -> FloatTy.

Definition pixel (src : Image) (n z : nat) (p : Z * Z) : FloatTy :=
  src n (Z.to_nat (fst p)) (Z.to_nat (snd p)) z.

(** The sum of the values at the valid positions of a window, added up
    in scan order from 0. *)
Definition window_sum (src : Image) (n z : nat) (ps : list (Z * Z))
  : FloatTy :=
  fold_left (fun acc p => fadd acc (pixel src n z p)) ps fzero.

(** [m] is a maximum of the values at the positions [ps], and [p] is the
    last position of [ps] that attains it: the values after [p] are not
    [>= m]. *)
Definition last_maximum (src : Image) (n z : nat) (ps : list (Z * Z))
  (p : Z * Z) (m : FloatTy) : Prop :=
  exists before after,
    ps = before ++ p :: after /\
    m = pixel src n z p /\
    (forall q, In q ps -> fle (pixel src n z q) m = true) /\
    (forall q, In q after -> fle m (pixel src n z q) = false).

(** The comparison [<=] is a total preorder on the values of a list:
    what holds of floating-point numbers that are not NaN. *)
Definition ordered_values (vs : list FloatTy) : Prop :=
  (forall a b, In a vs -> In b vs -> fle a b = true \/ fle b a = true) /\
  (forall a b c, In a vs -> In b vs -> In c vs ->
                 fle a b = true -> fle b c = true -> fle a c = true).

(** One step of the scan of the max pool at a valid position [p]: the
    test [first || val >= max] and the update of the locals. *)
Definition scan_step (src : Image) (n z : nat) (st : MaxScan) (p : Z * Z)
  : MaxScan :=
  if scan_first st || fle (scan_max st) (pixel src n z p)
  then mkMaxScan false (pixel src n z p) (to_size (fst p)) (to_size (snd p))
  else st.

End WindowSpec.

(* ================================================================== *)
(** * One row of the softmax, as a function of the row *)
(* ================================================================== *)

Section SoftMaxSpec.
Context {ops : FloatOps}.

(** The maximum of the [m] elements of the row [x], found as the kernel
    finds it: from [x 0], through [std::max] over all elements. *)
Definition row_max (x : nat -> FloatTy) (m : nat) : FloatTy :=
  fold_left (fun mx i => std_max mx (x i)) (seq 0 m) (x 0).

Definition row_exp (x : nat -> FloatTy) (m i : nat) : FloatTy :=
  std_exp (fsub (x i) (row_max x m)).

Definition row_sum (x : nat -> FloatTy) (m : nat) : FloatTy :=
  fold_left (fun s i => fadd s (row_exp x m i)) (seq 0 m) fzero.

(** Subtract the maximum, exponentiate, normalize. *)
Definition softmax_row (x : nat -> FloatTy) (m i : nat) : FloatTy :=
  fdiv (row_exp x m i) (row_sum x m).

(** What the forward kernel needs of a context: an [N] by [M] input whose
    contents are [x], and room for the output and for the cache. *)
Definition softmax_ready (I : SoftMaxInst) (ctx : Context) (N M : nat)
  (x : nat -> nat -> FloatTy) : Prop :=
  softmax_Src I <> softmax_Dest I /\ softmax_Src I <> softmax_E I /\
  softmax_E I <> softmax_Dest I /\
  0 < M /\
  hdims ctx (WeightH (softmax_Src I)) = [N; M] /\
  hdims ctx (WeightH (softmax_Dest I)) = [N; M] /\
  hdims ctx (WeightH (softmax_E I)) = [N; M] /\
  wf_tensor (weightOf ctx (softmax_Dest I)) /\
  wf_tensor (weightOf ctx (softmax_E I)) /\
  forall n i, n < N -> i < M ->
    hat ctx (WeightH (softmax_Src I)) [n; i] = Some (x n i).

(** What the forward kernel keeps of the context [ctx0] it started from. *)
Definition softmax_frame (I : SoftMaxInst) (ctx0 : Context) (N M : nat)
  (c : Context) : Prop :=
  tensorOf c (WeightH (softmax_Src I)) = tensorOf ctx0 (WeightH (softmax_Src I))
  /\ gradOf c = gradOf ctx0 /\ indexOf c = indexOf ctx0
  /\ hdims c (WeightH (softmax_Dest I)) = [N; M]
  /\ hdims c (WeightH (softmax_E I)) = [N; M]
  /\ wf_tensor (tensorOf c (WeightH (softmax_Dest I)))
  /\ wf_tensor (tensorOf c (WeightH (softmax_E I))).

End SoftMaxSpec.

(* ================================================================== *)
(** * The statistics of a batch, as functions of the input *)
(* ================================================================== *)

Section BatchNormSpec.
Context {ops : FloatOps}.

(** The values [val i] of the elements [i < n] of channel [c], added up
    in index order from 0. *)
Definition channel_sum (ch : nat -> nat) (val : nat -> FloatTy) (n c : nat)
  : FloatTy :=
  fold_left (fun acc i => if ch i =? c then fadd acc (val i) else acc)
            (seq 0 n) fzero.

(** The mean of a channel over the batch, and its variance. *)
Definition local_mean (ch : nat -> nat) (x : nat -> FloatTy)
  (n samplesPerChannel c : nat) : FloatTy :=
  fdiv (channel_sum ch x n c) (of_size (Z.of_nat samplesPerChannel)).

Definition local_var (ch : nat -> nat) (x : nat -> FloatTy)
  (n samplesPerChannel c : nat) : FloatTy :=
  fdiv (channel_sum ch
          (fun i => let v := fsub (x i) (local_mean ch x n samplesPerChannel (ch i))
                    in fmul v v) n c)
       (of_size (Z.of_nat samplesPerChannel)).

(** What the kernels of the batch normalization need of a context: an
    input of shape [ds] with [C] channels along the channel axis, whose
    contents are [x]; statistics and affine parameters of shape [C], whose
    contents are [mean], [var], [gamma] and [beta]; room for the output;
    and six distinct values. *)
Definition bn_ready (I : BatchNormalizationInst) (ctx : Context)
  (ds : list nat) (C : nat) (x : nat -> FloatTy)
  (mean var gamma beta : nat -> FloatTy) : Prop :=
  NoDup [bn_Dest I; bn_Src I; bn_Scale I; bn_Bias I; bn_Mean I; bn_Var I] /\
  hdims ctx (WeightH (bn_Src I)) = ds /\
  nth_error ds (bn_ChannelIdx I) = Some C /\ 0 < C /\
  hdims ctx (WeightH (bn_Mean I)) = [C] /\
  hdims ctx (WeightH (bn_Var I)) = [C] /\
  wf_tensor (weightOf ctx (bn_Mean I)) /\
  wf_tensor (weightOf ctx (bn_Var I)) /\
  prod_dims ds <= length (elems (weightOf ctx (bn_Dest I))) /\
  (forall i, i < prod_dims ds -> raw ctx (WeightH (bn_Src I)) i = Some (x i)) /\
  (forall c, c < C -> hat ctx (WeightH (bn_Mean I)) [c] = Some (mean c)) /\
  (forall c, c < C -> hat ctx (WeightH (bn_Var I)) [c] = Some (var c)) /\
  (forall c, c < C -> hat ctx (WeightH (bn_Scale I)) [c] = Some (gamma c)) /\
  (forall c, c < C -> hat ctx (WeightH (bn_Bias I)) [c] = Some (beta c)).

End BatchNormSpec.

(* ================================================================== *)
(** * The updates of the convolution backward, as a list *)
(* ================================================================== *)

Section ConvSpec.
Context {ops : FloatOps}.

(** An update [h.at(idx) += delta]. *)
Definition Update : Type := Handle * list nat * FloatTy.

Definition Handle_eqb (h h' : Handle) : bool :=
  match h, h' with
  | WeightH v, WeightH v' => v =? v'
  | GradH v, GradH v' => v =? v'
  | _, _ => false
  end.

Definition coord_eqb (a b : list nat) : bool :=
  if list_eq_dec Nat.eq_dec a b then true else false.

Definition targets (h : Handle) (idx : list nat) (u : Update) : bool :=
  Handle_eqb h (fst (fst u)) && coord_eqb idx (snd (fst u)).

(** What a list of updates adds to the element [idx] of [h], in order. *)
Definition addends (h : Handle) (idx : list nat) (us : list Update)
  : list FloatTy :=
  map snd (filter (targets h idx) us).

(** The updates of the backward kernel, in the order of its loops, for
    an input [src], a filter [filt] and an output gradient [g]: at every
    output position ([n], [d], [ay], [ax]) and every window position
    ([fx], [fy], [fd]) that passes the window test, the filter gradient
    takes [src(0, ox, oy, fd) * g] (batch 0, whatever [n] is) and the input
    gradient [filt(d, fx, fy, fd) * g]; then the bias gradient takes
    [g]. *)
Definition bwdConv_updates (I : ConvolutionInst) (src filt g : Image)
  (odim : ShapeNHWC) (C : nat) : list Update :=
  flat_map (fun n =>
  flat_map (fun d =>
  flat_map (fun ay =>
  flat_map (fun ax =>
    let x := anchor (conv_Pad I) (conv_Stride I) ax in
    let y := anchor (conv_Pad I) (conv_Stride I) ay in
    let chainGrad := g n ax ay d in
    flat_map (fun fy =>
    flat_map (fun fx =>
      let ox := ssize_add x fx in
      let oy := ssize_add y fy in
      if out_of_range ox oy (sh odim) (sw odim) then []
      else
        flat_map (fun fd =>
          [ (GradH (conv_Filter I), [d; fx; fy; fd],
             fmul (src 0 (size_of_ssize ox) (size_of_ssize oy) fd) chainGrad);
            (GradH (conv_Src I),
             [n; size_of_ssize ox; size_of_ssize oy; fd],
             fmul (filt d fx fy fd) chainGrad) ])
          (seq 0 C))
      (seq 0 (conv_Kernel I)))
      (seq 0 (conv_Kernel I))
    ++ [ (GradH (conv_Bias I), [d], chainGrad) ])
    (seq 0 (sh odim)))
    (seq 0 (sw odim)))
    (seq 0 (sc odim)))
    (seq 0 (sn odim)).

(** The updates as the specification describes them: the same list, with
    the window positions that lie inside the INPUT, of extents [idim]. *)
Definition bwdConv_updates_inside_input (I : ConvolutionInst)
  (src filt g : Image) (odim idim : ShapeNHWC) : list Update :=
  flat_map (fun n =>
  flat_map (fun d =>
  flat_map (fun ay =>
  flat_map (fun ax =>
    let x := anchor (conv_Pad I) (conv_Stride I) ax in
    let y := anchor (conv_Pad I) (conv_Stride I) ay in
    let chainGrad := g n ax ay d in
    flat_map (fun fy =>
    flat_map (fun fx =>
      let ox := ssize_add x fx in
      let oy := ssize_add y fy in
      if in_range (sh idim) (sw idim) (ox, oy)
      then
        flat_map (fun fd =>
          [ (GradH (conv_Filter I), [d; fx; fy; fd],
             fmul (src 0 (Z.to_nat ox) (Z.to_nat oy) fd) chainGrad);
            (GradH (conv_Src I), [n; Z.to_nat ox; Z.to_nat oy; fd],
             fmul (filt d fx fy fd) chainGrad) ])
          (seq 0 (sc idim))
      else [])
      (seq 0 (conv_Kernel I)))
      (seq 0 (conv_Kernel I))
    ++ [ (GradH (conv_Bias I), [d], chainGrad) ])
    (seq 0 (sh odim)))
    (seq 0 (sw odim)))
    (seq 0 (sc odim)))
    (seq 0 (sn odim)).

(** The products the forward kernel adds up for the output position
    whose window is anchored at ([x], [y]), in the order of its loops:
    [fy], then [fx], then [fd], over the window positions that pass the
    window test, which compares with the extents of the output. *)
Definition conv_terms (I : ConvolutionInst) (src filt : Image)
  (odim : ShapeNHWC) (C : nat) (n d : nat) (x y : Z) : list FloatTy :=
  flat_map (fun fy =>
  flat_map (fun fx =>
    let ox := ssize_add x fx in
    let oy := ssize_add y fy in
    if out_of_range ox oy (sh odim) (sw odim) then []
    else
      map (fun fd =>
             fmul (filt d fx fy fd)
                  (src n (size_of_ssize ox) (size_of_ssize oy) fd))
          (seq 0 C))
    (seq 0 (conv_Kernel I)))
    (seq 0 (conv_Kernel I)).

(** What the forward kernel needs of a context: a destination distinct
    from the other operands, of shape [odim] and no larger than the input
    in height and width; an input [src] of shape [idim]; a filter [filt]
    and a bias [bias] that cover the window and the channels. *)
Definition conv_forward_ready (I : ConvolutionInst) (ctx : Context)
  (src filt : Image) (bias : nat -> FloatTy) (odim idim : ShapeNHWC) : Prop :=
  conv_Dest I <> conv_Src I /\ conv_Dest I <> conv_Filter I /\
  conv_Dest I <> conv_Bias I /\
  hdims ctx (WeightH (conv_Dest I)) = [sn odim; sh odim; sw odim; sc odim] /\
  hdims ctx (WeightH (conv_Src I)) = [sn idim; sh idim; sw idim; sc idim] /\
  wf_tensor (weightOf ctx (conv_Dest I)) /\
  sn idim <= sn odim /\ sh odim <= sh idim /\ sw odim <= sw idim /\
  (Z.of_nat (sh odim) < 2 ^ 63)%Z /\ (Z.of_nat (sw odim) < 2 ^ 63)%Z /\
  (forall n a b c, n < sn idim -> a < sh idim -> b < sw idim -> c < sc idim ->
     hat ctx (WeightH (conv_Src I)) [n; a; b; c] = Some (src n a b c)) /\
  (forall d fx fy fd, d < sc odim -> fx < conv_Kernel I ->
     fy < conv_Kernel I -> fd < sc idim ->
     hat ctx (WeightH (conv_Filter I)) [d; fx; fy; fd] = Some (filt d fx fy fd)) /\
  (forall d, d < sc odim ->
     hat ctx (WeightH (conv_Bias I)) [d] = Some (bias d)).

(** What the backward kernel needs of a context: four distinct values;
    an input [src] of shape [idim] and an output gradient [g] of shape
    [odim], no larger than the input in batch and space; a filter [filt]
    and a bias that cover the window and the channels; gradient tensors of
    the shapes of their weights. *)
Definition conv_ready (I : ConvolutionInst) (ctx : Context)
  (src filt g : Image) (odim idim : ShapeNHWC) : Prop :=
  NoDup [conv_Dest I; conv_Src I; conv_Filter I; conv_Bias I] /\
  hdims ctx (WeightH (conv_Dest I)) = [sn odim; sh odim; sw odim; sc odim] /\
  hdims ctx (WeightH (conv_Src I)) = [sn idim; sh idim; sw idim; sc idim] /\
  hdims ctx (GradH (conv_Src I)) = [sn idim; sh idim; sw idim; sc idim] /\
  hdims ctx (GradH (conv_Filter I)) =
    [sc odim; conv_Kernel I; conv_Kernel I; sc idim] /\
  hdims ctx (GradH (conv_Bias I)) = [sc odim] /\
  wf_tensor (gradOf ctx (conv_Src I)) /\
  wf_tensor (gradOf ctx (conv_Filter I)) /\
  wf_tensor (gradOf ctx (conv_Bias I)) /\
  sn odim <= sn idim /\ sh odim <= sh idim /\ sw odim <= sw idim /\
  (Z.of_nat (sh odim) < 2 ^ 63)%Z /\ (Z.of_nat (sw odim) < 2 ^ 63)%Z /\
  (forall n a b c, n < sn idim -> a < sh idim -> b < sw idim -> c < sc idim ->
     hat ctx (WeightH (conv_Src I)) [n; a; b; c] = Some (src n a b c)) /\
  (forall d fx fy fd, d < sc odim -> fx < conv_Kernel I ->
     fy < conv_Kernel I -> fd < sc idim ->
     hat ctx (WeightH (conv_Filter I)) [d; fx; fy; fd] = Some (filt d fx fy fd)) /\
  (forall n ax ay d, n < sn odim -> ax < sh odim -> ay < sw odim -> d < sc odim ->
     hat ctx (GradH (conv_Dest I)) [n; ax; ay; d] = Some (g n ax ay d)).

(** What the backward kernel keeps of the context [ctx0] it started
    from: the weights, the gradient of its destination, and the shapes. *)
Definition conv_frame (I : ConvolutionInst) (ctx0 c : Context) : Prop :=
  weightOf c = weightOf ctx0 /\
  gradOf c (conv_Dest I) = gradOf ctx0 (conv_Dest I) /\
  (forall h, hdims c h = hdims ctx0 h) /\
  wf_tensor (gradOf c (conv_Src I)) /\
  wf_tensor (gradOf c (conv_Filter I)) /\
  wf_tensor (gradOf c (conv_Bias I)).

(** [performs I ctx0 f us]: from any context of the frame, the piece of
    kernel [f] returns, stays in the frame, and has added to every element
    the addends that [us] has for it, in order. *)
Definition performs (I : ConvolutionInst) (ctx0 : Context)
  (f : Context -> option Context) (us : list Update) : Prop :=
  forall c, conv_frame I ctx0 c ->
    exists c', f c = Some c' /\ conv_frame I ctx0 c' /\
      forall h idx v, hat c h idx = Some v ->
        hat c' h idx = Some (fold_left fadd (addends h idx us) v).

(** The same for any kernel that accumulates into gradients: the frame
    [grad_frame ctx0 written] keeps the weights, the index tensors, the
    shapes, and the gradients of the values that are not [written]; the
    gradients of the [written] values stay well formed. *)
Definition grad_frame (ctx0 : Context) (written : Value -> Prop) (c : Context)
  : Prop :=
  weightOf c = weightOf ctx0 /\ indexOf c = indexOf ctx0 /\
  (forall h, hdims c h = hdims ctx0 h) /\
  (forall v, written v -> wf_tensor (gradOf c v)) /\
  (forall v, ~ written v -> gradOf c v = gradOf ctx0 v).

Definition accumulates (F : Context -> Prop) (f : Context -> option Context)
  (us : list Update) : Prop :=
  forall c, F c ->
    exists c', f c = Some c' /\ F c' /\
      forall h idx v, hat c h idx = Some v ->
        hat c' h idx = Some (fold_left fadd (addends h idx us) v).

(** The updates of the backward max pooling, in the order of its loops,
    for an output gradient [g] and saved coordinates [mx], [my]: the input
    gradient takes [g] at the saved coordinate of every output position. *)
Definition bwdPoolMax_updates (I : PoolInst) (g : Image)
  (mx my : nat -> nat -> nat -> nat -> nat) (odim : ShapeNHWC) : list Update :=
  flat_map (fun n =>
  flat_map (fun z =>
  flat_map (fun ay =>
  flat_map (fun ax =>
    [ (GradH (pool_Src I), [n; mx n ax ay z; my n ax ay z; z], g n ax ay z) ])
    (seq 0 (sh odim)))
    (seq 0 (sw odim)))
    (seq 0 (sc odim)))
    (seq 0 (sn odim)).

(** The updates of the backward average pooling: at every output position
    the input gradient takes [g / (K * K)] at every position of the
    window that passes the window test. *)
Definition bwdPoolAvg_updates (I : PoolInst) (g : Image)
  (odim idim : ShapeNHWC) : list Update :=
  flat_map (fun n =>
  flat_map (fun z =>
  flat_map (fun ay =>
  flat_map (fun ax =>
    let x := anchor (pool_Pad I) (pool_Stride I) ax in
    let y := anchor (pool_Pad I) (pool_Stride I) ay in
    let dy := fdiv (g n ax ay z) (filterArea (pool_Kernel I)) in
    flat_map (fun fy =>
    flat_map (fun fx =>
      let ox := ssize_add x fx in
      let oy := ssize_add y fy in
      if out_of_range ox oy (sh idim) (sw idim) then []
      else [ (GradH (pool_Src I),
              [n; size_of_ssize ox; size_of_ssize oy; z], dy) ])
      (seq 0 (pool_Kernel I)))
      (seq 0 (pool_Kernel I)))
    (seq 0 (sh odim)))
    (seq 0 (sw odim)))
    (seq 0 (sc odim)))
    (seq 0 (sn odim)).

(** The updates of the backward fully connected layer on a rank 2 input
    [x] with filter [w] and output gradient [g], in the order of its
    loops: for every (n, i) and every [j] the input gradient takes
    [w(i, j) * g(n, i)] and the filter gradient [x(n, j) * g(n, i)];
    then the bias gradient takes [g(n, i)]. *)
Definition bwdFullyConnected_updates (I : FullyConnectedInst)
  (x w g : nat -> nat -> FloatTy) (N O M : nat) : list Update :=
  flat_map (fun n =>
  flat_map (fun i =>
    flat_map (fun j =>
      [ (GradH (fc_Src I), [n; j], fmul (w i j) (g n i));
        (GradH (fc_Filter I), [i; j], fmul (x n j) (g n i)) ])
      (seq 0 M)
    ++ [ (GradH (fc_Bias I), [i], g n i) ])
    (seq 0 O))
    (seq 0 N).

(** The updates of the last pass of the backward batch normalization,
    over the [n] elements of an input [x] with running statistics [mean],
    [var] and output gradient [dy]: element [i] of channel [ch i] adds
    [dy i] to the gradient of beta and
    [(x i - mean) * (1 / sqrt (var + epsilon)) * dy i] to that of gamma. *)
Definition bn_paramGrad_updates (I : BatchNormalizationInst)
  (ch : nat -> nat) (x dy mean var : nat -> FloatTy) (n : nat) : list Update :=
  flat_map (fun i =>
    let c := ch i in
    let invVarSqrt := fdiv fone (std_sqrt (fadd (var c) (bn_Epsilon I))) in
    [ (GradH (bn_Bias I), [c], dy i);
      (GradH (bn_Scale I), [c],
       fmul (fmul (fsub (x i) (mean c)) invVarSqrt) (dy i)) ])
    (seq 0 n).

End ConvSpec.

(* ================================================================== *)
(** * The window of the local response normalization *)
(* ================================================================== *)

Section LRNSpec.
Context {ops : FloatOps}.

(** The channels within [halfWindowSize] of channel [c], among [C]. *)
Definition lrn_window (halfWindowSize C c : nat) : list nat :=
  filter (fun j => (c <=? j + halfWindowSize) && (j <=? c + halfWindowSize))
         (seq 0 C).

(** The terms [f j] of the channels [l], added up from 0 ... *)
Definition lrn_window_sum (f : nat -> FloatTy) (l : list nat) : FloatTy :=
  fold_left (fun s j => fadd s (f j)) l fzero.

(** ... and the squares of their values. *)
Definition lrn_squares (x : nat -> FloatTy) (l : list nat) : FloatTy :=
  lrn_window_sum (fun j => fmul (x j) (x j)) l.

(** The local [squareSum] of the forward kernel when it reaches channel
    [c]: the sum of the first loop, then one subtraction and one addition
    per channel passed. *)
Fixpoint lrn_squareSum (x : nat -> FloatTy) (halfWindowSize C c : nat)
  : FloatTy :=
  match c with
  | O => fold_left (fun s k => fadd s (fmul (x (1 + k)) (x (1 + k))))
           (seq 0 (Nat.min (S halfWindowSize) C - 1)) fzero
  | S c' =>
      let sub := if halfWindowSize <=? c' then x (c' - halfWindowSize)
                 else fzero in
      let add := if c' + halfWindowSize + 1 <? C
                 then x (c' + halfWindowSize + 1) else fzero in
      fadd (fsub (lrn_squareSum x halfWindowSize C c') (fmul sub sub))
           (fmul add add)
  end.

(** The local [sum] of the backward kernel when it reaches channel [c],
    for the terms [term j = outg * (outw / scale)] of the channels. *)
Fixpoint lrn_gradSum (term : nat -> FloatTy) (halfWindowSize C c : nat)
  : FloatTy :=
  match c with
  | O => fold_left (fun s k => fadd s (term (1 + k)))
           (seq 0 (Nat.min (S halfWindowSize) C - 1)) fzero
  | S c' =>
      let sum := lrn_gradSum term halfWindowSize C c' in
      let sum := if halfWindowSize <=? c'
                 then fsub sum (term (c' - halfWindowSize)) else sum in
      if c' + halfWindowSize + 1 <? C
      then fadd sum (term (c' + halfWindowSize + 1)) else sum
  end.

(** The value the backward kernel assigns to the gradient of the input:
    [outg * pow(scale, -beta) - 2 * normedAlpha * beta * inw * sum]. *)
Definition lrn_inputGrad (I : LocalResponseNormalizationInst)
  (outg scale inw sum : FloatTy) : FloatTy :=
  let windowSize := to_size (2 * Z.of_nat (lrn_halfWindowSize I) + 1) in
  let normedAlpha := fdiv (lrn_Alpha I) (of_size windowSize) in
  fsub (fmul outg (std_pow scale (fneg (lrn_Beta I))))
       (fmul (fmul (fmul (fmul (of_size 2) normedAlpha) (lrn_Beta I)) inw) sum).

(** What the backward kernel needs of a context: an input [x], an output
    [y], a scale cache [s] and an output gradient [g] of the shape
    [N; H; W; C], a gradient of the input of that shape, which is not the
    gradient of the output, and channel indices that do not wrap. *)
Definition lrn_backward_ready (I : LocalResponseNormalizationInst)
  (ctx : Context) (N H W C : nat)
  (x y s g : nat -> nat -> nat -> nat -> FloatTy) : Prop :=
  lrn_Src I <> lrn_Dest I /\
  hdims ctx (WeightH (lrn_Dest I)) = [N; H; W; C] /\
  hdims ctx (GradH (lrn_Src I)) = [N; H; W; C] /\
  wf_tensor (gradOf ctx (lrn_Src I)) /\
  (Z.of_nat C + Z.of_nat (lrn_halfWindowSize I) < 2 ^ 64)%Z /\
  forall n h w c, n < N -> h < H -> w < W -> c < C ->
    hat ctx (WeightH (lrn_Src I)) [n; h; w; c] = Some (x n h w c) /\
    hat ctx (WeightH (lrn_Dest I)) [n; h; w; c] = Some (y n h w c) /\
    hat ctx (WeightH (lrn_Scale I)) [n; h; w; c] = Some (s n h w c) /\
    hat ctx (GradH (lrn_Dest I)) [n; h; w; c] = Some (g n h w c).

(** [scale = k + normedAlpha * squareSum]. *)
Definition lrn_scale (I : LocalResponseNormalizationInst)
  (squareSum : FloatTy) : FloatTy :=
  let windowSize := to_size (2 * Z.of_nat (lrn_halfWindowSize I) + 1) in
  let normedAlpha := fdiv (lrn_Alpha I) (of_size windowSize) in
  fadd (lrn_K I) (fmul normedAlpha squareSum).

(** What the forward kernel needs of a context: three distinct values of
    the shape [N; H; W; C] with at least one channel, an input [x], and
    channel indices that do not wrap. *)
Definition lrn_forward_ready (I : LocalResponseNormalizationInst)
  (ctx : Context) (N H W C : nat) (x : nat -> nat -> nat -> nat -> FloatTy)
  : Prop :=
  lrn_Src I <> lrn_Dest I /\ lrn_Src I <> lrn_Scale I /\
  lrn_Dest I <> lrn_Scale I /\
  hdims ctx (WeightH (lrn_Src I)) = [N; H; W; C] /\
  hdims ctx (WeightH (lrn_Dest I)) = [N; H; W; C] /\
  hdims ctx (WeightH (lrn_Scale I)) = [N; H; W; C] /\
  wf_tensor (weightOf ctx (lrn_Dest I)) /\
  wf_tensor (weightOf ctx (lrn_Scale I)) /\
  0 < C /\
  (Z.of_nat C + Z.of_nat (lrn_halfWindowSize I) < 2 ^ 64)%Z /\
  forall n h w c, n < N -> h < H -> w < W -> c < C ->
    hat ctx (WeightH (lrn_Src I)) [n; h; w; c] = Some (x n h w c).

(** What the loops of the forward kernel keep of the context [ctx]: the
    input, and the shapes of the two tensors they write. *)
Definition lrn_inv (I : LocalResponseNormalizationInst) (ctx : Context)
  (N H W C : nat) (t : Context) : Prop :=
  tensorOf t (WeightH (lrn_Src I)) = tensorOf ctx (WeightH (lrn_Src I)) /\
  hdims t (WeightH (lrn_Dest I)) = [N; H; W; C] /\
  hdims t (WeightH (lrn_Scale I)) = [N; H; W; C] /\
  wf_tensor (tensorOf t (WeightH (lrn_Dest I))) /\
  wf_tensor (tensorOf t (WeightH (lrn_Scale I))).

(** The two cells of channel [c] at the position ([n], [h], [w]), once
    written. *)
Definition lrn_cells (I : LocalResponseNormalizationInst) (C : nat)
  (x : nat -> nat -> nat -> nat -> FloatTy) (n h w c : nat) (t : Context)
  : Prop :=
  let scale :=
    lrn_scale I (lrn_squareSum (x n h w) (lrn_halfWindowSize I) C c) in
  hat t (WeightH (lrn_Scale I)) [n; h; w; c] = Some scale /\
  hat t (WeightH (lrn_Dest I)) [n; h; w; c] =
    Some (fmul (x n h w c) (std_pow scale (fneg (lrn_Beta I)))).

(** The term [outg * (outw / scale)] of channel [j]. *)
Definition lrn_term (y s g : nat -> nat -> nat -> nat -> FloatTy)
  (n h w j : nat) : FloatTy :=
  fmul (g n h w j) (fdiv (y n h w j) (s n h w j)).

(** What the loops of the backward kernel keep of the context [ctx]: every
    tensor but the gradient of the input, and the shape of that one. *)
Definition lrn_binv (I : LocalResponseNormalizationInst) (ctx : Context)
  (N H W C : nat) (t : Context) : Prop :=
  (forall hd, hd <> GradH (lrn_Src I) -> tensorOf t hd = tensorOf ctx hd) /\
  hdims t (GradH (lrn_Src I)) = [N; H; W; C] /\
  wf_tensor (tensorOf t (GradH (lrn_Src I))).

End LRNSpec.

(* ================================================================== *)
(** * Two arithmetics *)
(* ================================================================== *)

(** IEEE binary32, the interpreter's [FloatTy]: 24 bits of precision,
    exponents up to 128, round to nearest even.  [std::exp] and [std::pow]
    come from the C library; the instance takes them as they are given. *)
Definition b32 : Type := spec_float.

Definition b32_of_Z (z : Z) : b32 := binary_normalize 24 128 z 0 false.

Definition Binary32 (exp32 : b32 -> b32) (pow32 : b32 -> b32 -> b32)
  : FloatOps := {|
  FloatTy := b32;
  fzero := S754_zero false;
  fone := b32_of_Z 1;
  fadd := SFadd 24 128;
  fsub := SFsub 24 128;
  fmul := SFmul 24 128;
  fdiv := SFdiv 24 128;
  fneg := SFopp;
  flt := SFltb;
  fle := SFleb;
  std_exp := exp32;
  std_sqrt := SFsqrt 24 128;
  std_pow := pow32;
  of_size := b32_of_Z
|}.

(** [std::exp] at the two arguments that the binary32 run of the softmax
    on the row [0, 1] needs, as a correctly rounded [expf] returns them:
    [exp(0) = 1] and [exp(-1) = 12343986 * 2^-25], the binary32 number
    nearest to 1/e (0.36787945).  The table holds no other value. *)
Definition exp32_table (x : b32) : b32 :=
  if SFeqb x (S754_zero false) then b32_of_Z 1
  else if SFeqb x (SFopp (b32_of_Z 1)) then S754_finite false 12343986 (-25)
  else S754_nan.

(** The rational value of a finite binary32 number. *)
Definition b32_value (x : b32) : option (Z * Z) :=
  match x with
  | S754_zero _ => Some (0, 1)%Z
  | S754_finite s m e =>
      let n := if s then Z.neg m else Z.pos m in
      Some (if (0 <=? e)%Z then (n * 2 ^ e, 1)%Z else (n, 2 ^ (- e))%Z)
  | _ => None
  end.

(** [b32_is x p q]: [x] is finite and its value is the fraction [p/q]. *)
Definition b32_is (x : b32) (p q : Z) : Prop :=
  exists n d, b32_value x = Some (n, d) /\ (n * q = p * d)%Z /\ (0 < d)%Z
              /\ (0 < q)%Z.

(** The real numbers: the arithmetic of the formulas. *)
Definition RealOps : FloatOps := {|
  FloatTy := R;
  fzero := 0%R;
  fone := 1%R;
  fadd := Rplus;
  fsub := Rminus;
  fmul := Rmult;
  fdiv := Rdiv;
  fneg := Ropp;
  flt := fun a b => if Rlt_dec a b then true else false;
  fle := fun a b => if Rle_dec a b then true else false;
  std_exp := exp;
  std_sqrt := sqrt;
  std_pow := Rpower;
  of_size := IZR
|}.

(* ================================================================== *)
(** * The scenarios of the specification *)
(* ================================================================== *)

Section Scenarios.
Context {ops : FloatOps}.

(** An integer literal. *)
Definition lit (z : Z) : FloatTy :=
  if (z <? 0)%Z then fneg (of_size (- z)) else of_size z.

Definition tensor_of (ds : list nat) (l : list Z) : Tensor FloatTy :=
  mkTensor ds (map lit l).

Fixpoint lookup {T : Type} (default : T) (l : list (Value * T)) (v : Value) : T :=
  match l with
  | [] => default
  | (u, t) :: l' => if v =? u then t else lookup default l' v
  end.

(** A context that binds the listed values; any other value has an empty
    tensor. *)
Definition context_of (weights grads : list (Value * Tensor FloatTy))
  (indices : list (Value * Tensor Z)) : Context :=
  mkContext (lookup (mkTensor [0] []) weights)
            (lookup (mkTensor [0] []) grads)
            (lookup (mkTensor [0] []) indices).

(** S1: a 3 by 3 input of ones, a 2 by 2 filter of ones, bias 0, kernel
    2, stride 1, no padding; the output is 2 by 2. *)
Definition convS1 : ConvolutionInst :=
  {| conv_Dest := 0; conv_Src := 1; conv_Filter := 2; conv_Bias := 3;
     conv_Kernel := 2; conv_Stride := 1; conv_Pad := 0 |}.

Definition ctxS1 : Context :=
  context_of
    [ (0, tensor_of [1; 2; 2; 1] [0; 0; 0; 0]%Z);
      (1, tensor_of [1; 3; 3; 1] [1; 1; 1; 1; 1; 1; 1; 1; 1]%Z);
      (2, tensor_of [1; 2; 2; 1] [1; 1; 1; 1]%Z);
      (3, tensor_of [1] [0]%Z) ]
    [] [].

(** S1 with gradients: an output gradient of ones, and gradients of the
    input, the filter and the bias that start from 0. *)
Definition ctxS1_backward : Context :=
  context_of
    [ (0, tensor_of [1; 2; 2; 1] [0; 0; 0; 0]%Z);
      (1, tensor_of [1; 3; 3; 1] [1; 1; 1; 1; 1; 1; 1; 1; 1]%Z);
      (2, tensor_of [1; 2; 2; 1] [1; 1; 1; 1]%Z);
      (3, tensor_of [1] [0]%Z) ]
    [ (0, tensor_of [1; 2; 2; 1] [1; 1; 1; 1]%Z);
      (1, tensor_of [1; 3; 3; 1] [0; 0; 0; 0; 0; 0; 0; 0; 0]%Z);
      (2, tensor_of [1; 2; 2; 1] [0; 0; 0; 0]%Z);
      (3, tensor_of [1] [0]%Z) ]
    [].

(** A backward convolution over a batch of two: the same shapes with
    output extents equal to the input extents (kernel 2, stride 1,
    padding 0 on 2 by 2 images, the output sized 2 by 2 by the caller),
    inputs [src], output gradients [outG], and gradients that start from
    [inG], [filterG] and [biasG]. *)
Definition ctxConvBwd (src outG inG filterG : list Z) (biasG : Z) : Context :=
  context_of
    [ (0, tensor_of [2; 2; 2; 1] [0; 0; 0; 0; 0; 0; 0; 0]%Z);
      (1, tensor_of [2; 2; 2; 1] src);
      (2, tensor_of [1; 2; 2; 1] [1; 1; 1; 1]%Z);
      (3, tensor_of [1] [0]%Z) ]
    [ (0, tensor_of [2; 2; 2; 1] outG);
      (1, tensor_of [2; 2; 2; 1] inG);
      (2, tensor_of [1; 2; 2; 1] filterG);
      (3, tensor_of [1] [biasG]) ]
    [].

(** Average pooling with kernel 2, stride 1 and padding 1 of a 2 by 2
    input of ones; the output is 3 by 3. *)
Definition poolAvg9 : PoolInst :=
  {| pool_Dest := 0; pool_Src := 1; pool_srcXY := 2; pool_Kind := PoolAvg;
     pool_Kernel := 2; pool_Stride := 1; pool_Pad := 1 |}.

Definition ctxAvg9 : Context :=
  context_of
    [ (0, tensor_of [1; 3; 3; 1] [0; 0; 0; 0; 0; 0; 0; 0; 0]%Z);
      (1, tensor_of [1; 2; 2; 1] [1; 1; 1; 1]%Z) ]
    [] [].

(** S2: max pooling with kernel 2, stride 1, no padding of the 2 by 2
    input [[1, 3], [2, 4]]; the output is 1 by 1. *)
Definition poolMaxS2 : PoolInst :=
  {| pool_Dest := 0; pool_Src := 1; pool_srcXY := 2; pool_Kind := PoolMax;
     pool_Kernel := 2; pool_Stride := 1; pool_Pad := 0 |}.

Definition ctxS2 : Context :=
  context_of
    [ (0, tensor_of [1; 1; 1; 1] [0]%Z);
      (1, tensor_of [1; 2; 2; 1] [1; 3; 2; 4]%Z) ]
    []
    [ (2, mkTensor [1; 1; 1; 1; 2] [0; 0]%Z) ].

(** S4: ReLU of [-1, 0, 2], with output gradient [5, 7, 9] and an input
    gradient that starts from [inG]. *)
Definition reluS4 : ReluInst := {| relu_Dest := 0; relu_Src := 1 |}.

Definition ctxS4 (inG : list Z) : Context :=
  context_of
    [ (0, tensor_of [3] [0; 0; 0]%Z); (1, tensor_of [3] [-1; 0; 2]%Z) ]
    [ (0, tensor_of [3] [5; 7; 9]%Z); (1, tensor_of [3] inG) ]
    [].

(** The same after the forward kernel: the destination holds
    [0, 0, 2]. *)
Definition ctxS4_forward (inG : list Z) : Context :=
  context_of
    [ (0, tensor_of [3] [0; 0; 2]%Z); (1, tensor_of [3] [-1; 0; 2]%Z) ]
    [ (0, tensor_of [3] [5; 7; 9]%Z); (1, tensor_of [3] inG) ]
    [].

(** S5: softmax of the row [1, 1, 1] with selected label 0, and an input
    gradient that starts from 0. *)
Definition softmaxS5 : SoftMaxInst :=
  {| softmax_Dest := 0; softmax_Src := 1; softmax_E := 2;
     softmax_Selected := 3 |}.

Definition ctxS5 : Context :=
  context_of
    [ (0, tensor_of [1; 3] [0; 0; 0]%Z); (1, tensor_of [1; 3] [1; 1; 1]%Z);
      (2, tensor_of [1; 3] [0; 0; 0]%Z) ]
    [ (1, tensor_of [1; 3] [0; 0; 0]%Z) ]
    [ (3, mkTensor [1; 1] [0]%Z) ].

(** The same with the row shifted by [t]. *)
Definition ctxS5_shifted (t : Z) : Context :=
  context_of
    [ (0, tensor_of [1; 3] [0; 0; 0]%Z);
      (1, mkTensor [1; 3] (map (fun z => fadd (lit z) (lit t)) [1; 1; 1]%Z));
      (2, tensor_of [1; 3] [0; 0; 0]%Z) ]
    [ (1, tensor_of [1; 3] [0; 0; 0]%Z) ]
    [ (3, mkTensor [1; 1] [0]%Z) ].

(** A softmax over the row [0, 1], and over the same row with [t] added
    to each element. *)
Definition ctxRow01 : Context :=
  context_of
    [ (0, tensor_of [1; 2] [0; 0]%Z); (1, tensor_of [1; 2] [0; 1]%Z);
      (2, tensor_of [1; 2] [0; 0]%Z) ]
    [] [].

Definition ctxRow01_shifted (t : Z) : Context :=
  context_of
    [ (0, tensor_of [1; 2] [0; 0]%Z);
      (1, mkTensor [1; 2] (map (fun z => fadd (lit z) (lit t)) [0; 1]%Z));
      (2, tensor_of [1; 2] [0; 0]%Z) ]
    [] [].

(** S6: the product of [2] and [3], with output gradient [1] and operand
    gradients that start from [99] and [7]. *)
Definition mulS6 : ArithmeticInst :=
  {| arith_Dest := 0; arith_LHS := 1; arith_RHS := 2; arith_Kind := ArithMul |}.

Definition ctxS6 : Context :=
  context_of
    [ (0, tensor_of [1] [0]%Z); (1, tensor_of [1] [2]%Z); (2, tensor_of [1] [3]%Z) ]
    [ (0, tensor_of [1] [1]%Z); (1, tensor_of [1] [99]%Z); (2, tensor_of [1] [7]%Z) ]
    [].

(** A batch normalization over two channels of a 2 by 2 input
    [[1, 2], [3, 4]] (channel axis 1), with running mean 0 and variance 1,
    scale 1 and bias 0. *)
Definition bnInst (epsilon momentum : FloatTy) : BatchNormalizationInst :=
  {| bn_Dest := 0; bn_Src := 1; bn_Scale := 2; bn_Bias := 3;
     bn_Mean := 4; bn_Var := 5;
     bn_ChannelIdx := 1; bn_Epsilon := epsilon; bn_Momentum := momentum |}.

Definition ctxBN : Context :=
  context_of
    [ (0, tensor_of [2; 2] [0; 0; 0; 0]%Z); (1, tensor_of [2; 2] [1; 2; 3; 4]%Z);
      (2, tensor_of [2] [1; 1]%Z); (3, tensor_of [2] [0; 0]%Z);
      (4, tensor_of [2] [0; 0]%Z); (5, tensor_of [2] [1; 1]%Z) ]
    [] [].

(** A local response normalization with a half window of 1, over one
    position with the three channels [1, 2, 3]. *)
Definition lrnInst (alpha beta k : FloatTy) : LocalResponseNormalizationInst :=
  {| lrn_Dest := 0; lrn_Src := 1; lrn_Scale := 2;
     lrn_halfWindowSize := 1;
     lrn_Alpha := alpha; lrn_Beta := beta; lrn_K := k |}.

Definition ctxLRN : Context :=
  context_of
    [ (0, tensor_of [1; 1; 1; 3] [0; 0; 0]%Z);
      (1, tensor_of [1; 1; 1; 3] [1; 2; 3]%Z);
      (2, tensor_of [1; 1; 1; 3] [0; 0; 0]%Z) ]
    [] [].

(** The same after a forward pass whose scale cache is [1, 1, 1] and whose
    output is the input, with the output gradient [1, 1, 1] and a gradient
    of the input that holds [9, 9, 9]. *)
Definition ctxLRN_backward : Context :=
  context_of
    [ (0, tensor_of [1; 1; 1; 3] [1; 2; 3]%Z);
      (1, tensor_of [1; 1; 1; 3] [1; 2; 3]%Z);
      (2, tensor_of [1; 1; 1; 3] [1; 1; 1]%Z) ]
    [ (0, tensor_of [1; 1; 1; 3] [1; 1; 1]%Z);
      (1, tensor_of [1; 1; 1; 3] [9; 9; 9]%Z) ]
    [].

(** The contents of a tensor of a context, as a function of the
    coordinate (0 outside the tensor). *)
Definition get (r : option FloatTy) : FloatTy :=
  match r with Some v => v | None => fzero end.

Definition image_of (ctx : Context) (h : Handle) : Image :=
  fun n a b c => get (hat ctx h [n; a; b; c]).

Definition matrix_of (ctx : Context) (h : Handle) : nat -> nat -> FloatTy :=
  fun n i => get (hat ctx h [n; i]).

Definition vector_of (ctx : Context) (h : Handle) : nat -> FloatTy :=
  fun c => get (hat ctx h [c]).

Definition flat_of (ctx : Context) (h : Handle) : nat -> FloatTy :=
  fun i => get (raw ctx h i).

(** What a run leaves in the tensors of a value. *)
Definition weights_after (r : option Context) (v : Value)
  : option (list FloatTy) :=
  c <- r ;; Some (elems (weightOf c v)).

Definition grads_after (r : option Context) (v : Value)
  : option (list FloatTy) :=
  c <- r ;; Some (elems (gradOf c v)).

Definition indices_after (r : option Context) (v : Value) : option (list Z) :=
  c <- r ;; Some (elems (indexOf c v)).

(** One kernel after another. *)
Definition and_then (r : option Context) (f : Context -> option Context)
  : option Context :=
  c <- r ;; f c.

End Scenarios.

(* ================================================================== *)
(** * Facts about loops, lists and flat indices *)
(* ================================================================== *)

Unset Implicit Arguments.

(** A loop whose body never fails from a state of the invariant, and
    takes the invariant after [i] iterations to the invariant after
    [i + 1], runs to the end. *)
Lemma for_loop_ind {St : Type} (P : nat -> St -> Prop) (body : nat -> St -> option St)
  (n : nat) (s : St) :
  P 0 s ->
  (forall i t, i < n -> P i t -> exists t', body i t = Some t' /\ P (S i) t') ->
  exists t, for_loop n body s = Some t /\ P n t.
Proof.
  intros H0 Hstep. induction n as [|n IH]; simpl.
  - eauto.
  - destruct IH as (t & Ht & HP).
    + intros i u Hi. apply Hstep. lia.
    + rewrite Ht. apply Hstep; auto.
Qed.

(** The same without termination: what holds of any result. *)
Lemma for_loop_inv {St : Type} (P : St -> Prop) (body : nat -> St -> option St)
  (n : nat) :
  (forall i t t', i < n -> P t -> body i t = Some t' -> P t') ->
  forall s t, P s -> for_loop n body s = Some t -> P t.
Proof.
  intros Hstep. induction n as [|n IH]; simpl; intros s t Hs Hrun.
  - congruence.
  - destruct (for_loop n body s) as [u|] eqn:E; [|discriminate].
    eapply Hstep; [| |exact Hrun]; [lia|].
    eapply IH; eauto.
Qed.

Lemma for_loop_ext {St : Type} (b1 b2 : nat -> St -> option St) (n : nat) (s : St) :
  (forall i t, i < n -> b1 i t = b2 i t) ->
  for_loop n b1 s = for_loop n b2 s.
Proof.
  intros H. induction n as [|n IH]; simpl; auto.
  rewrite IH by (intros; apply H; lia).
  destruct (for_loop n b2 s); auto.
Qed.

Lemma list_set_Some {A} (l : list A) (i : nat) (x : A) :
  i < length l -> exists l', list_set l i x = Some l'.
Proof.
  revert i. induction l as [|y l IH]; simpl; intros i Hi; [lia|].
  destruct i as [|i]; [eauto|].
  destruct (IH i) as (r & Hr); [lia|]. rewrite Hr. eauto.
Qed.

Lemma list_set_length {A} (l l' : list A) (i : nat) (x : A) :
  list_set l i x = Some l' -> length l' = length l.
Proof.
  revert i l'. induction l as [|y l IH]; simpl; intros i l' H; [discriminate|].
  destruct i as [|i].
  - inversion H; reflexivity.
  - destruct (list_set l i x) as [r|] eqn:E; [|discriminate].
    inversion H; subst; simpl. f_equal. eauto.
Qed.

Lemma list_set_same {A} (l l' : list A) (i : nat) (x : A) :
  list_set l i x = Some l' -> nth_error l' i = Some x.
Proof.
  revert i l'. induction l as [|y l IH]; simpl; intros i l' H; [discriminate|].
  destruct i as [|i].
  - inversion H; reflexivity.
  - destruct (list_set l i x) as [r|] eqn:E; [|discriminate].
    inversion H; subst; simpl. eauto.
Qed.

Lemma list_set_other {A} (l l' : list A) (i j : nat) (x : A) :
  list_set l i x = Some l' -> j <> i -> nth_error l' j = nth_error l j.
Proof.
  revert i j l'. induction l as [|y l IH]; simpl; intros i j l' H Hj;
    [discriminate|].
  destruct i as [|i].
  - inversion H; subst. destruct j; [congruence|reflexivity].
  - destruct (list_set l i x) as [r|] eqn:E; [|discriminate].
    inversion H; subst. destruct j; simpl; [reflexivity|].
    eapply IH; eauto.
Qed.

Lemma list_set_inv {A} (l l' : list A) (i : nat) (x : A) :
  list_set l i x = Some l' -> i < length l.
Proof.
  revert i l'. induction l as [|y l IH]; simpl; intros i l' H; [discriminate|].
  destruct i as [|i]; [lia|].
  destruct (list_set l i x) as [r|] eqn:E; [|discriminate].
  apply IH in E. lia.
Qed.

Lemma getElementPtr_lt (ds idx : list nat) :
  isInBounds ds idx = true -> getElementPtr ds idx < prod_dims ds.
Proof.
  revert idx. induction ds as [|d ds IH]; intros [|i idx] H; simpl in *;
    try discriminate; [lia|].
  apply andb_true_iff in H. destruct H as [Hi Hr].
  apply Nat.ltb_lt in Hi. specialize (IH _ Hr).
  fold (prod_dims ds). nia.
Qed.

Lemma getElementPtr_inj (ds a b : list nat) :
  isInBounds ds a = true -> isInBounds ds b = true ->
  getElementPtr ds a = getElementPtr ds b -> a = b.
Proof.
  revert a b. induction ds as [|d ds IH]; intros [|i a] [|j b] Ha Hb E;
    simpl in *; try discriminate; auto.
  apply andb_true_iff in Ha, Hb. destruct Ha as [_ Ha], Hb as [_ Hb].
  pose proof (getElementPtr_lt _ _ Ha) as La.
  pose proof (getElementPtr_lt _ _ Hb) as Lb.
  assert (i = j) by nia. subst j.
  f_equal. apply IH; auto. lia.
Qed.

Lemma at_index_lt (ds idx : list nat) (k : nat) :
  at_index ds idx = Some k -> k < prod_dims ds.
Proof.
  unfold at_index. destruct (isInBounds ds idx) eqn:E; [|discriminate].
  intros H; inversion H; subst. now apply getElementPtr_lt.
Qed.

Lemma at_index_inj (ds a b : list nat) (k : nat) :
  at_index ds a = Some k -> at_index ds b = Some k -> a = b.
Proof.
  unfold at_index.
  destruct (isInBounds ds a) eqn:Ea; [|discriminate].
  destruct (isInBounds ds b) eqn:Eb; [|discriminate].
  intros Ha Hb. apply (getElementPtr_inj ds); congruence.
Qed.

(* ================================================================== *)
(** * Reading after writing *)
(* ================================================================== *)

Section TensorFacts.
Variable A : Type.
Implicit Types t : Tensor A.

Lemma t_set_raw_Some t (i : nat) (x : A) :
  i < length (elems t) -> exists t', t_set_raw t i x = Some t'.
Proof.
  intros H. unfold t_set_raw.
  destruct (list_set_Some (elems t) i x H) as (l & ->). eauto.
Qed.

Lemma t_set_raw_dims t t' (i : nat) (x : A) :
  t_set_raw t i x = Some t' -> dims t' = dims t.
Proof.
  unfold t_set_raw. destruct (list_set (elems t) i x); [|discriminate].
  intros H; inversion H; reflexivity.
Qed.

Lemma t_set_raw_length t t' (i : nat) (x : A) :
  t_set_raw t i x = Some t' -> length (elems t') = length (elems t).
Proof.
  unfold t_set_raw. destruct (list_set (elems t) i x) eqn:E; [|discriminate].
  intros H; inversion H; simpl. eapply list_set_length; eauto.
Qed.

Lemma t_set_raw_wf t t' (i : nat) (x : A) :
  t_set_raw t i x = Some t' -> wf_tensor t -> wf_tensor t'.
Proof.
  unfold wf_tensor, tsize. intros H W.
  rewrite (t_set_raw_length _ _ _ _ H), (t_set_raw_dims _ _ _ _ H). exact W.
Qed.

Lemma t_raw_set_same t t' (i : nat) (x : A) :
  t_set_raw t i x = Some t' -> t_raw t' i = Some x.
Proof.
  unfold t_set_raw, t_raw. destruct (list_set (elems t) i x) eqn:E;
    [|discriminate].
  intros H; inversion H; simpl. eapply list_set_same; eauto.
Qed.

Lemma t_raw_set_other t t' (i j : nat) (x : A) :
  t_set_raw t i x = Some t' -> j <> i -> t_raw t' j = t_raw t j.
Proof.
  unfold t_set_raw, t_raw. destruct (list_set (elems t) i x) eqn:E;
    [|discriminate].
  intros H Hj; inversion H; simpl. eapply list_set_other; eauto.
Qed.

Lemma t_set_at_Some t (idx : list nat) (x : A) :
  wf_tensor t -> isInBounds (dims t) idx = true ->
  exists t', t_set_at t idx x = Some t'.
Proof.
  intros W B. unfold t_set_at, at_index. rewrite B.
  apply t_set_raw_Some. rewrite W. now apply getElementPtr_lt.
Qed.

Lemma t_set_at_dims t t' (idx : list nat) (x : A) :
  t_set_at t idx x = Some t' -> dims t' = dims t.
Proof.
  unfold t_set_at. destruct (at_index (dims t) idx); [|discriminate].
  apply t_set_raw_dims.
Qed.

Lemma t_set_at_wf t t' (idx : list nat) (x : A) :
  t_set_at t idx x = Some t' -> wf_tensor t -> wf_tensor t'.
Proof.
  unfold t_set_at. destruct (at_index (dims t) idx); [|discriminate].
  apply t_set_raw_wf.
Qed.

Lemma t_at_set_same t t' (idx : list nat) (x : A) :
  t_set_at t idx x = Some t' -> t_at t' idx = Some x.
Proof.
  intros H. unfold t_at. rewrite (t_set_at_dims _ _ _ _ H).
  unfold t_set_at in H. destruct (at_index (dims t) idx); [|discriminate].
  eapply t_raw_set_same; eauto.
Qed.

Lemma t_at_set_other t t' (idx idx' : list nat) (x : A) :
  t_set_at t idx x = Some t' -> idx' <> idx -> t_at t' idx' = t_at t idx'.
Proof.
  intros H Hne. unfold t_at. rewrite (t_set_at_dims _ _ _ _ H).
  unfold t_set_at in H.
  destruct (at_index (dims t) idx) as [k|] eqn:Ek; [|discriminate].
  destruct (at_index (dims t) idx') as [k'|] eqn:Ek'; [|reflexivity].
  eapply t_raw_set_other; eauto.
  intros ->. apply Hne. eapply at_index_inj; eauto.
Qed.

Lemma t_at_Some t (idx : list nat) :
  wf_tensor t -> isInBounds (dims t) idx = true -> exists x, t_at t idx = Some x.
Proof.
  intros W B. unfold t_at, at_index, t_raw. rewrite B.
  destruct (nth_error (elems t) (getElementPtr (dims t) idx)) eqn:E; eauto.
  apply nth_error_None in E. pose proof (getElementPtr_lt _ _ B).
  unfold wf_tensor, tsize in W. lia.
Qed.

End TensorFacts.

Section ContextFacts.
Context {ops : FloatOps}.
Implicit Types (ctx : Context) (h : Handle).

Lemma Handle_eq_dec (h h' : Handle) : {h = h'} + {h <> h'}.
Proof. decide equality; apply Nat.eq_dec. Qed.

Lemma upd_same {T} (f : Value -> T) (v : Value) (t : T) : upd f v t v = t.
Proof. unfold upd. now rewrite Nat.eqb_refl. Qed.

Lemma upd_other {T} (f : Value -> T) (v u : Value) (t : T) :
  u <> v -> upd f v t u = f u.
Proof. unfold upd. intros H. apply Nat.eqb_neq in H. now rewrite H. Qed.

Lemma tensorOf_put_same ctx h (t : Tensor FloatTy) :
  tensorOf (putTensor ctx h t) h = t.
Proof. destruct h; simpl; apply upd_same. Qed.

Lemma tensorOf_put_other ctx h h' (t : Tensor FloatTy) :
  h' <> h -> tensorOf (putTensor ctx h t) h' = tensorOf ctx h'.
Proof.
  destruct h, h'; simpl; intros H; auto; apply upd_other; congruence.
Qed.

Lemma indexOf_put ctx h (t : Tensor FloatTy) :
  indexOf (putTensor ctx h t) = indexOf ctx.
Proof. destruct h; reflexivity. Qed.

Lemma gradOf_put_weight ctx (v : Value) (t : Tensor FloatTy) :
  gradOf (putTensor ctx (WeightH v) t) = gradOf ctx.
Proof. reflexivity. Qed.

Lemma set_raw_inv ctx ctx' h (i : nat) (x : FloatTy) :
  set_raw ctx h i x = Some ctx' ->
  exists t', t_set_raw (tensorOf ctx h) i x = Some t' /\ ctx' = putTensor ctx h t'.
Proof.
  unfold set_raw. destruct (t_set_raw (tensorOf ctx h) i x); [|discriminate].
  intros H; inversion H; eauto.
Qed.

Lemma hset_inv ctx ctx' h (idx : list nat) (x : FloatTy) :
  hset ctx h idx x = Some ctx' ->
  exists t', t_set_at (tensorOf ctx h) idx x = Some t' /\ ctx' = putTensor ctx h t'.
Proof.
  unfold hset. destruct (t_set_at (tensorOf ctx h) idx x); [|discriminate].
  intros H; inversion H; eauto.
Qed.

Lemma set_raw_Some ctx h (i : nat) (x : FloatTy) :
  i < length (elems (tensorOf ctx h)) -> exists ctx', set_raw ctx h i x = Some ctx'.
Proof.
  intros H. unfold set_raw.
  destruct (t_set_raw_Some _ (tensorOf ctx h) i x H) as (t' & ->). eauto.
Qed.

Lemma hset_Some ctx h (idx : list nat) (x : FloatTy) :
  wf_tensor (tensorOf ctx h) -> isInBounds (hdims ctx h) idx = true ->
  exists ctx', hset ctx h idx x = Some ctx'.
Proof.
  intros W B. unfold hset.
  destruct (t_set_at_Some _ _ idx x W B) as (t' & ->). eauto.
Qed.

Lemma raw_set_same ctx ctx' h (i : nat) (x : FloatTy) :
  set_raw ctx h i x = Some ctx' -> raw ctx' h i = Some x.
Proof.
  intros H. apply set_raw_inv in H. destruct H as (t' & Ht & ->).
  unfold raw. rewrite tensorOf_put_same. eapply t_raw_set_same; eauto.
Qed.

Lemma raw_set_other ctx ctx' h h' (i j : nat) (x : FloatTy) :
  set_raw ctx h i x = Some ctx' -> h' <> h \/ j <> i ->
  raw ctx' h' j = raw ctx h' j.
Proof.
  intros H Hne. apply set_raw_inv in H. destruct H as (t' & Ht & ->).
  unfold raw. destruct (Handle_eq_dec h' h) as [->|Hh].
  - rewrite tensorOf_put_same. eapply t_raw_set_other; eauto. tauto.
  - now rewrite tensorOf_put_other.
Qed.

Lemma tensorOf_set_raw ctx ctx' h h' (i : nat) (x : FloatTy) :
  set_raw ctx h i x = Some ctx' -> h' <> h -> tensorOf ctx' h' = tensorOf ctx h'.
Proof.
  intros H Hne. apply set_raw_inv in H. destruct H as (t' & Ht & ->).
  now apply tensorOf_put_other.
Qed.

Lemma hdims_set_raw ctx ctx' h h' (i : nat) (x : FloatTy) :
  set_raw ctx h i x = Some ctx' -> hdims ctx' h' = hdims ctx h'.
Proof.
  intros H. apply set_raw_inv in H. destruct H as (t' & Ht & ->).
  unfold hdims. destruct (Handle_eq_dec h' h) as [->|Hh].
  - rewrite tensorOf_put_same. eapply t_set_raw_dims; eauto.
  - now rewrite tensorOf_put_other.
Qed.

Lemma length_set_raw ctx ctx' h h' (i : nat) (x : FloatTy) :
  set_raw ctx h i x = Some ctx' ->
  length (elems (tensorOf ctx' h')) = length (elems (tensorOf ctx h')).
Proof.
  intros H. apply set_raw_inv in H. destruct H as (t' & Ht & ->).
  destruct (Handle_eq_dec h' h) as [->|Hh].
  - rewrite tensorOf_put_same. eapply t_set_raw_length; eauto.
  - now rewrite tensorOf_put_other.
Qed.

Lemma indexOf_set_raw ctx ctx' h (i : nat) (x : FloatTy) :
  set_raw ctx h i x = Some ctx' -> indexOf ctx' = indexOf ctx.
Proof.
  intros H. apply set_raw_inv in H. destruct H as (t' & Ht & ->).
  apply indexOf_put.
Qed.

Lemma hat_set_same ctx ctx' h (idx : list nat) (x : FloatTy) :
  hset ctx h idx x = Some ctx' -> hat ctx' h idx = Some x.
Proof.
  intros H. apply hset_inv in H. destruct H as (t' & Ht & ->).
  unfold hat. rewrite tensorOf_put_same. eapply t_at_set_same; eauto.
Qed.

Lemma hat_set_other ctx ctx' h h' (idx idx' : list nat) (x : FloatTy) :
  hset ctx h idx x = Some ctx' -> h' <> h \/ idx' <> idx ->
  hat ctx' h' idx' = hat ctx h' idx'.
Proof.
  intros H Hne. apply hset_inv in H. destruct H as (t' & Ht & ->).
  unfold hat. destruct (Handle_eq_dec h' h) as [->|Hh].
  - rewrite tensorOf_put_same. eapply t_at_set_other; eauto. tauto.
  - now rewrite tensorOf_put_other.
Qed.

Lemma tensorOf_hset ctx ctx' h h' (idx : list nat) (x : FloatTy) :
  hset ctx h idx x = Some ctx' -> h' <> h -> tensorOf ctx' h' = tensorOf ctx h'.
Proof.
  intros H Hne. apply hset_inv in H. destruct H as (t' & Ht & ->).
  now apply tensorOf_put_other.
Qed.

Lemma hdims_hset ctx ctx' h h' (idx : list nat) (x : FloatTy) :
  hset ctx h idx x = Some ctx' -> hdims ctx' h' = hdims ctx h'.
Proof.
  intros H. apply hset_inv in H. destruct H as (t' & Ht & ->).
  unfold hdims. destruct (Handle_eq_dec h' h) as [->|Hh].
  - rewrite tensorOf_put_same. eapply t_set_at_dims; eauto.
  - now rewrite tensorOf_put_other.
Qed.

Lemma wf_hset ctx ctx' h h' (idx : list nat) (x : FloatTy) :
  hset ctx h idx x = Some ctx' ->
  wf_tensor (tensorOf ctx h') -> wf_tensor (tensorOf ctx' h').
Proof.
  intros H. apply hset_inv in H. destruct H as (t' & Ht & ->).
  destruct (Handle_eq_dec h' h) as [->|Hh].
  - rewrite tensorOf_put_same. eapply t_set_at_wf; eauto.
  - now rewrite tensorOf_put_other.
Qed.

Lemma indexOf_hset ctx ctx' h (idx : list nat) (x : FloatTy) :
  hset ctx h idx x = Some ctx' -> indexOf ctx' = indexOf ctx.
Proof.
  intros H. apply hset_inv in H. destruct H as (t' & Ht & ->).
  apply indexOf_put.
Qed.

Lemma hat_Some ctx h (idx : list nat) :
  wf_tensor (tensorOf ctx h) -> isInBounds (hdims ctx h) idx = true ->
  exists x, hat ctx h idx = Some x.
Proof. intros W B. unfold hat. now apply t_at_Some. Qed.

End ContextFacts.

Arguments set_raw_inv {ops ctx ctx' h i x} _.
Arguments hset_inv {ops ctx ctx' h idx x} _.
Arguments raw_set_same {ops ctx ctx' h i x} _.
Arguments raw_set_other {ops ctx ctx' h h' i j x} _ _.
Arguments tensorOf_set_raw {ops ctx ctx' h h' i x} _ _.
Arguments hdims_set_raw {ops ctx ctx' h} h' {i x} _.
Arguments length_set_raw {ops ctx ctx' h} h' {i x} _.
Arguments indexOf_set_raw {ops ctx ctx' h i x} _.
Arguments hat_set_same {ops ctx ctx' h idx x} _.
Arguments hat_set_other {ops ctx ctx' h h' idx idx' x} _ _.
Arguments tensorOf_hset {ops ctx ctx' h h' idx x} _ _.
Arguments hdims_hset {ops ctx ctx' h} h' {idx x} _.
Arguments wf_hset {ops ctx ctx' h} h' {idx x} _ _.
Arguments indexOf_hset {ops ctx ctx' h idx x} _.

(* ================================================================== *)
(** * Arithmetic: the backward kernel of Mul *)
(* ================================================================== *)

Section ArithmeticFacts.
Context {ops : FloatOps}.

(** Whatever the gradients of the operands held, after the backward
    kernel of a multiplication they hold [RHS * outG] and [LHS * outG]. *)
Lemma bwdArithmetic_mul_overwrites (I : ArithmeticInst) (ctx : Context)
  (lhs rhs g : nat -> FloatTy) :
  arith_Kind I = ArithMul ->
  arith_Dest I <> arith_LHS I ->
  arith_Dest I <> arith_RHS I ->
  let n := hsize ctx (GradH (arith_Dest I)) in
  (forall i, i < n -> raw ctx (WeightH (arith_LHS I)) i = Some (lhs i)) ->
  (forall i, i < n -> raw ctx (WeightH (arith_RHS I)) i = Some (rhs i)) ->
  (forall i, i < n -> raw ctx (GradH (arith_Dest I)) i = Some (g i)) ->
  n <= length (elems (gradOf ctx (arith_LHS I))) ->
  n <= length (elems (gradOf ctx (arith_RHS I))) ->
  exists ctx',
    bwdArithmeticInst I ctx = Some ctx' /\
    forall i, i < n ->
      raw ctx' (GradH (arith_LHS I)) i = Some (fmul (rhs i) (g i)) /\
      raw ctx' (GradH (arith_RHS I)) i = Some (fmul (lhs i) (g i)).
Proof.
  intros HK HdL HdR n HL HR HG LL LR.
  unfold bwdArithmeticInst. rewrite HK. fold n.
  set (P := fun (k : nat) (c : Context) =>
    weightOf c = weightOf ctx /\
    tensorOf c (GradH (arith_Dest I)) = tensorOf ctx (GradH (arith_Dest I)) /\
    length (elems (gradOf c (arith_LHS I))) =
      length (elems (gradOf ctx (arith_LHS I))) /\
    length (elems (gradOf c (arith_RHS I))) =
      length (elems (gradOf ctx (arith_RHS I))) /\
    forall i, i < k ->
      raw c (GradH (arith_LHS I)) i = Some (fmul (rhs i) (g i)) /\
      raw c (GradH (arith_RHS I)) i = Some (fmul (lhs i) (g i))).
  destruct (for_loop_ind P (bwdArithmetic_mul I) n ctx) as (c & Hc & HP).
  - unfold P. repeat split; auto; intros; lia.
  - intros k c Hk (Hw & Hg & HlL & HlR & Hdone).
    unfold bwdArithmetic_mul.
    assert (Rr : raw c (WeightH (arith_RHS I)) k = Some (rhs k)).
    { unfold raw; simpl. rewrite Hw. now apply HR. }
    assert (Rl : raw c (WeightH (arith_LHS I)) k = Some (lhs k)).
    { unfold raw; simpl. rewrite Hw. now apply HL. }
    assert (Rg : raw c (GradH (arith_Dest I)) k = Some (g k)).
    { unfold raw. rewrite Hg. now apply HG. }
    rewrite Rr, Rg.
    destruct (set_raw_Some c (GradH (arith_LHS I)) k (fmul (rhs k) (g k)))
      as (c1 & E1).
    { simpl. lia. }
    rewrite E1.
    rewrite (raw_set_other E1) by (left; discriminate). rewrite Rl.
    rewrite (raw_set_other E1) by (left; congruence). rewrite Rg.
    destruct (set_raw_Some c1 (GradH (arith_RHS I)) k (fmul (lhs k) (g k)))
      as (c2 & E2).
    { rewrite (length_set_raw _ E1). simpl. lia. }
    rewrite E2. eexists; split; [reflexivity|].
    unfold P. repeat split.
    + apply set_raw_inv in E1, E2.
      destruct E1 as (t1 & _ & ->), E2 as (t2 & _ & ->). exact Hw.
    + rewrite (tensorOf_set_raw E2) by congruence.
      rewrite (tensorOf_set_raw E1) by congruence. exact Hg.
    + change (gradOf c2 (arith_LHS I)) with (tensorOf c2 (GradH (arith_LHS I))).
      rewrite (length_set_raw _ E2), (length_set_raw _ E1). exact HlL.
    + change (gradOf c2 (arith_RHS I)) with (tensorOf c2 (GradH (arith_RHS I))).
      rewrite (length_set_raw _ E2), (length_set_raw _ E1). exact HlR.
    + destruct (Nat.eq_dec i k) as [->|Hik].
      * destruct (Nat.eq_dec (arith_LHS I) (arith_RHS I)) as [Heq|Hne].
        -- rewrite Heq in *. rewrite (raw_set_same E2).
           f_equal. f_equal. congruence.
        -- rewrite (raw_set_other E2) by (left; congruence).
           apply (raw_set_same E1).
      * rewrite (raw_set_other E2) by tauto.
        rewrite (raw_set_other E1) by tauto.
        apply Hdone. lia.
    + destruct (Nat.eq_dec i k) as [->|Hik].
      * apply (raw_set_same E2).
      * rewrite (raw_set_other E2) by tauto.
        rewrite (raw_set_other E1) by tauto.
        apply Hdone. lia.
  - exists c. split; [exact Hc|]. apply HP.
Qed.

End ArithmeticFacts.

(* ================================================================== *)
(** * ReLU: the backward kernel *)
(* ================================================================== *)

Section ReluFacts.
Context {ops : FloatOps}.

(** The forward kernel writes [val < 0 ? 0 : val]. *)
Lemma fwdRelu_output (isTrain : bool) (I : ReluInst) (ctx : Context)
  (x : nat -> FloatTy) :
  relu_Dest I <> relu_Src I ->
  let n := hsize ctx (WeightH (relu_Src I)) in
  (forall i, i < n -> raw ctx (WeightH (relu_Src I)) i = Some (x i)) ->
  n <= length (elems (weightOf ctx (relu_Dest I))) ->
  exists ctx',
    fwdReluInst isTrain I ctx = Some ctx' /\
    gradOf ctx' = gradOf ctx /\
    forall i, i < n ->
      raw ctx' (WeightH (relu_Dest I)) i =
      Some (if flt (x i) fzero then fzero else x i).
Proof.
  intros Hne n Hx Hlen. unfold fwdReluInst. fold n.
  set (P := fun (k : nat) (c : Context) =>
    tensorOf c (WeightH (relu_Src I)) = tensorOf ctx (WeightH (relu_Src I)) /\
    length (elems (weightOf c (relu_Dest I))) =
      length (elems (weightOf ctx (relu_Dest I))) /\
    gradOf c = gradOf ctx /\
    forall i, i < k ->
      raw c (WeightH (relu_Dest I)) i =
      Some (if flt (x i) fzero then fzero else x i)).
  destruct (for_loop_ind P
    (fun i c => val <- raw c (WeightH (relu_Src I)) i ;;
       set_raw c (WeightH (relu_Dest I)) i
         (if flt val fzero then fzero else val)) n ctx) as (c & Hc & HP).
  - unfold P. repeat split; auto; intros; lia.
  - intros k c Hk (Hs & Hl & Hg & Hdone).
    assert (Rx : raw c (WeightH (relu_Src I)) k = Some (x k)).
    { unfold raw. rewrite Hs. now apply Hx. }
    rewrite Rx.
    destruct (set_raw_Some c (WeightH (relu_Dest I)) k
                (if flt (x k) fzero then fzero else x k)) as (c1 & E1).
    { simpl. lia. }
    rewrite E1. eexists; split; [reflexivity|]. unfold P. repeat split.
    + rewrite (tensorOf_set_raw E1) by congruence. exact Hs.
    + change (weightOf c1 (relu_Dest I))
        with (tensorOf c1 (WeightH (relu_Dest I))).
      rewrite (length_set_raw _ E1). exact Hl.
    + apply set_raw_inv in E1. destruct E1 as (t1 & _ & ->). exact Hg.
    + intros i Hi. destruct (Nat.eq_dec i k) as [->|Hik].
      * apply (raw_set_same E1).
      * rewrite (raw_set_other E1) by tauto. apply Hdone. lia.
  - exists c. split; [exact Hc|]. destruct HP as (_ & _ & Hg & Hd). auto.
Qed.

(** The backward kernel adds the incoming gradient where the value of the
    destination, the output of the forward kernel, is not [<= 0]. *)
Lemma bwdRelu_accumulates (I : ReluInst) (ctx : Context)
  (y dy dx : nat -> FloatTy) :
  relu_Dest I <> relu_Src I ->
  let n := hsize ctx (WeightH (relu_Dest I)) in
  (forall i, i < n -> raw ctx (WeightH (relu_Dest I)) i = Some (y i)) ->
  (forall i, i < n -> raw ctx (GradH (relu_Dest I)) i = Some (dy i)) ->
  (forall i, i < n -> raw ctx (GradH (relu_Src I)) i = Some (dx i)) ->
  exists ctx',
    bwdReluInst I ctx = Some ctx' /\
    forall i, i < n ->
      raw ctx' (GradH (relu_Src I)) i =
      Some (fadd (dx i) (if fle (y i) fzero then fzero else dy i)).
Proof.
  intros Hne n Hy Hdy Hdx. unfold bwdReluInst. fold n.
  set (P := fun (k : nat) (c : Context) =>
    weightOf c = weightOf ctx /\
    tensorOf c (GradH (relu_Dest I)) = tensorOf ctx (GradH (relu_Dest I)) /\
    forall i, i < n ->
      raw c (GradH (relu_Src I)) i =
      if i <? k
      then Some (fadd (dx i) (if fle (y i) fzero then fzero else dy i))
      else Some (dx i)).
  destruct (for_loop_ind P
    (fun i c => val <- raw c (WeightH (relu_Dest I)) i ;;
       d <- (if fle val fzero then Some fzero
             else raw c (GradH (relu_Dest I)) i) ;;
       add_raw c (GradH (relu_Src I)) i d) n ctx) as (c & Hc & HP).
  - unfold P. repeat split; auto.
  - intros k c Hk (Hw & Hg & Hcell).
    assert (Ry : raw c (WeightH (relu_Dest I)) k = Some (y k)).
    { unfold raw; simpl. rewrite Hw. now apply Hy. }
    assert (Rg : raw c (GradH (relu_Dest I)) k = Some (dy k)).
    { unfold raw. rewrite Hg. now apply Hdy. }
    rewrite Ry, Rg.
    replace (if fle (y k) fzero then Some fzero else Some (dy k))
      with (Some (if fle (y k) fzero then fzero else dy k))
      by (destruct (fle (y k) fzero); reflexivity).
    unfold add_raw.
    rewrite (Hcell k Hk), Nat.ltb_irrefl.
    destruct (set_raw_Some c (GradH (relu_Src I)) k
      (fadd (dx k) (if fle (y k) fzero then fzero else dy k))) as (c1 & E1).
    { apply nth_error_Some. specialize (Hcell k Hk). unfold raw, t_raw in Hcell.
      rewrite Hcell. destruct (k <? k); discriminate. }
    rewrite E1. eexists; split; [reflexivity|]. unfold P. repeat split.
    + apply set_raw_inv in E1. destruct E1 as (t1 & _ & ->). exact Hw.
    + rewrite (tensorOf_set_raw E1) by congruence. exact Hg.
    + intros i Hi. destruct (Nat.eq_dec i k) as [->|Hik].
      * rewrite (raw_set_same E1).
        replace (k <? S k) with true by (symmetry; apply Nat.ltb_lt; lia).
        reflexivity.
      * rewrite (raw_set_other E1) by tauto. rewrite (Hcell i Hi).
        replace (i <? S k) with (i <? k); [reflexivity|].
        destruct (Nat.ltb_spec i k), (Nat.ltb_spec i (S k)); auto; lia.
  - exists c. split; [exact Hc|]. destruct HP as (_ & _ & Hcell).
    intros i Hi. rewrite (Hcell i Hi).
    replace (i <? n) with true by (symmetry; apply Nat.ltb_lt; lia).
    reflexivity.
Qed.

End ReluFacts.

(* ================================================================== *)
(** * SoftMax: the backward kernel *)
(* ================================================================== *)

(** Two nested loops, with an invariant indexed by the position of the
    scan: [P n j] holds when the rows before [n] and the first [j]
    elements of row [n] are done. *)
Lemma for_loop2_ind {St : Type} (P : nat -> nat -> St -> Prop)
  (body : nat -> nat -> St -> option St) (N M : nat) (s : St) :
  P 0 0 s ->
  (forall n j t, n < N -> j < M -> P n j t ->
                 exists t', body n j t = Some t' /\ P n (S j) t') ->
  (forall n t, n < N -> P n M t -> P (S n) 0 t) ->
  exists t, for_loop N (fun n c => for_loop M (body n) c) s = Some t /\ P N 0 t.
Proof.
  intros H0 Hstep Hrow.
  apply (for_loop_ind (fun n c => P n 0 c)); [exact H0|].
  intros n t Hn Hp.
  destruct (for_loop_ind (fun j c => P n j c) (body n) M t Hp) as (u & Hu & HP).
  - intros j v Hj Hv. now apply Hstep.
  - exists u. split; [exact Hu|]. now apply Hrow.
Qed.

Section SoftMaxBackward.
Context {ops : FloatOps}.

Lemma hset_of_hat (ctx : Context) (h : Handle) (idx : list nat) (v x : FloatTy) :
  hat ctx h idx = Some v -> exists ctx', hset ctx h idx x = Some ctx'.
Proof.
  unfold hat, hset, t_at, t_set_at, t_set_raw, t_raw.
  destruct (at_index (dims (tensorOf ctx h)) idx) as [k|]; [|discriminate].
  intros H.
  destruct (list_set_Some (elems (tensorOf ctx h)) k x) as (l & ->); eauto.
  apply nth_error_Some. congruence.
Qed.

Lemma bwdSoftMax_accumulates (I : SoftMaxInst) (ctx : Context) (N M : nat)
  (e : nat -> nat -> FloatTy) (sel : nat -> Z) (g : nat -> nat -> FloatTy) :
  hdims ctx (GradH (softmax_Src I)) = [N; M] ->
  (forall n i, n < N -> i < M ->
     hat ctx (WeightH (softmax_E I)) [n; i] = Some (e n i)) ->
  (forall n, n < N -> iat ctx (softmax_Selected I) [n; 0] = Some (sel n)) ->
  (forall n i, n < N -> i < M ->
     hat ctx (GradH (softmax_Src I)) [n; i] = Some (g n i)) ->
  exists ctx',
    bwdSoftMaxInst I ctx = Some ctx' /\
    forall n i, n < N -> i < M ->
      hat ctx' (GradH (softmax_Src I)) [n; i] =
      Some (fadd (g n i) (softmax_sigma (e n i) (sel n) i)).
Proof.
  intros Hd He Hsel Hg. unfold bwdSoftMaxInst. rewrite Hd. simpl.
  set (done := fun (n j a b : nat) => (a <? n) || ((a =? n) && (b <? j))).
  set (P := fun (n j : nat) (c : Context) =>
    weightOf c = weightOf ctx /\ indexOf c = indexOf ctx /\
    forall a b, a < N -> b < M ->
      hat c (GradH (softmax_Src I)) [a; b] =
      Some (if done n j a b
            then fadd (g a b) (softmax_sigma (e a b) (sel a) b)
            else g a b)).
  destruct (for_loop2_ind P (bwdSoftMax_elem I) N M ctx) as (c & Hc & HP).
  - unfold P, done. repeat split; auto. intros a b Ha Hb.
    rewrite Hg by auto. simpl. rewrite andb_false_r. reflexivity.
  - intros n j c Hn Hj (Hw & Hi & Hcell). unfold bwdSoftMax_elem.
    unfold iat. rewrite Hi. fold (iat ctx (softmax_Selected I) [n; 0]).
    rewrite Hsel by auto.
    assert (Re : hat c (WeightH (softmax_E I)) [n; j] = Some (e n j)).
    { unfold hat; simpl. rewrite Hw. now apply He. }
    rewrite Re. unfold hadd. rewrite (Hcell n j Hn Hj).
    assert (Dn : done n j n j = false).
    { unfold done. rewrite Nat.ltb_irrefl, Nat.eqb_refl. simpl.
      apply Nat.ltb_irrefl. }
    rewrite Dn.
    destruct (hset_of_hat c (GradH (softmax_Src I)) [n; j] _
      (fadd (g n j) (softmax_sigma (e n j) (sel n) j))
      (Hcell n j Hn Hj)) as (c1 & E1).
    rewrite E1. eexists; split; [reflexivity|]. unfold P. repeat split.
    + apply hset_inv in E1. destruct E1 as (t1 & _ & ->). exact Hw.
    + rewrite (indexOf_hset E1). exact Hi.
    + intros a b Ha Hb.
      destruct (list_eq_dec Nat.eq_dec [a; b] [n; j]) as [Heq|Hneq].
      * inversion Heq; subst. rewrite (hat_set_same E1).
        unfold done. rewrite Nat.eqb_refl.
        replace (j <? S j) with true by (symmetry; apply Nat.ltb_lt; lia).
        rewrite orb_true_r. reflexivity.
      * rewrite (hat_set_other E1) by tauto. rewrite (Hcell a b Ha Hb).
        replace (done n (S j) a b) with (done n j a b); [reflexivity|].
        unfold done. destruct (Nat.eqb_spec a n); simpl; [|reflexivity].
        subst a. f_equal.
        destruct (Nat.ltb_spec b j), (Nat.ltb_spec b (S j)); auto; try lia.
        exfalso. apply Hneq. f_equal. f_equal. lia.
  - intros n c Hn (Hw & Hi & Hcell). unfold P. repeat split; auto.
    intros a b Ha Hb. rewrite (Hcell a b Ha Hb).
    replace (done (S n) 0 a b) with (done n M a b); [reflexivity|].
    unfold done. rewrite andb_false_r, orb_false_r.
    destruct (Nat.ltb_spec a n), (Nat.ltb_spec a (S n)), (Nat.eqb_spec a n);
      simpl; auto; try lia.
    destruct (Nat.ltb_spec b M); auto; lia.
  - exists c. split; [exact Hc|]. destruct HP as (_ & _ & Hcell).
    intros n i Hn Hi. rewrite (Hcell n i Hn Hi). unfold done.
    replace (n <? N) with true by (symmetry; apply Nat.ltb_lt; lia).
    reflexivity.
Qed.

End SoftMaxBackward.

(* ================================================================== *)
(** * The forward kernels leave the gradients alone *)
(* ================================================================== *)

Lemma fold_left_option_inv {A B : Type} (P : A -> Prop)
  (step : A -> B -> option A) (l : list B) :
  (forall a b a', P a -> step a b = Some a' -> P a') ->
  forall a r, P a ->
    fold_left (fun acc b => match acc with
                            | Some a => step a b
                            | None => None
                            end) l (Some a) = Some r ->
    P r.
Proof.
  intros Hstep. induction l as [|b l IH]; simpl; intros a r Ha H.
  - congruence.
  - destruct (step a b) as [a'|] eqn:E.
    + eapply IH; [|exact H]. eauto.
    + exfalso. clear -H. induction l; simpl in H; [discriminate|auto].
Qed.

(** Peel the reads and assertions off a successful run. *)
Ltac unbind H :=
  repeat match type of H with
         | match ?e with Some _ => _ | None => None end = Some _ =>
             let E := fresh "E" in destruct e eqn:E; [|discriminate H]
         | (if ?b then _ else None) = Some _ =>
             let E := fresh "E" in destruct b eqn:E; [|discriminate H]
         | (let (_, _) := ?p in _) = Some _ => destruct p
         end.

Section Frame.
Context {ops : FloatOps}.

(** [obs] is a part of the context that no write through a weight handle
    changes: the gradients, or the index tensor of a value. *)
Variable T : Type.
Variable obs : Context -> T.
Hypothesis obs_weight :
  forall c v t, obs (putTensor c (WeightH v) t) = obs c.

Lemma kept_set_raw (c c' : Context) (v : Value) (i : nat) (x : FloatTy) :
  set_raw c (WeightH v) i x = Some c' -> obs c' = obs c.
Proof.
  intros H. apply set_raw_inv in H. destruct H as (t & _ & ->).
  apply obs_weight.
Qed.

Lemma kept_hset (c c' : Context) (v : Value) (idx : list nat) (x : FloatTy) :
  hset c (WeightH v) idx x = Some c' -> obs c' = obs c.
Proof.
  intros H. apply hset_inv in H. destruct H as (t & _ & ->).
  apply obs_weight.
Qed.

Lemma kept_iset (c c' : Context) (v : Value) (idx : list nat) (x : Z) :
  (forall c t, obs (putIndex c v t) = obs c) ->
  iset c v idx x = Some c' -> obs c' = obs c.
Proof.
  intros Hv. unfold iset. destruct (t_set_at (indexOf c v) idx x); [|discriminate].
  intros H; inversion H; apply Hv.
Qed.

(** A loop keeps [obs] when its body does. *)
Lemma for_loop_kept (g : T)
  (body : nat -> Context -> option Context) (n : nat) :
  (forall i c c', obs c = g -> body i c = Some c' -> obs c' = g) ->
  forall c c', obs c = g -> for_loop n body c = Some c' -> obs c' = g.
Proof.
  intros H. apply (for_loop_inv (fun c => obs c = g)). intros; eauto.
Qed.

(** The same for a loop that also carries a local. *)
Lemma for_loop_kept_with {L : Type} (g : T)
  (body : nat -> Context * L -> option (Context * L)) (n : nat) :
  (forall i s s', obs (fst s) = g -> body i s = Some s' ->
                  obs (fst s') = g) ->
  forall s s', obs (fst s) = g -> for_loop n body s = Some s' ->
               obs (fst s') = g.
Proof.
  intros H. apply (for_loop_inv (fun s => obs (fst s) = g)). intros; eauto.
Qed.

(** Every body below ends in a write through a weight handle. *)
Ltac kept_done :=
  repeat match goal with
         | H : _ = Some _ |- _ => progress (unbind H)
         end;
  repeat match goal with
         | E : set_raw _ (WeightH _) _ _ = Some _ |- _ =>
             apply kept_set_raw in E
         | E : hset _ (WeightH _) _ _ = Some _ |- _ => apply kept_hset in E
         end;
  repeat match goal with
         | E : Some _ = Some _ |- _ => inversion E; clear E; subst; simpl in *
         end;
  congruence.

(** Enter a loop over the context: [Hc] says that [obs] is still that of
    the start, [H] is the successful run of the loop. *)
Ltac kept_loop Hc H :=
  eapply for_loop_kept; [ | exact Hc | exact H ];
  clear Hc H; intros ? ? ? Hc H; cbv beta zeta in H.

Lemma fwdCopy_kept (b : bool) (I : CopyInst) (ctx ctx' : Context) :
  fwdCopyInst b I ctx = Some ctx' -> obs ctx' = obs ctx.
Proof.
  intros H. unfold fwdCopyInst in H.
  pose proof (eq_refl (obs ctx)) as Hc.
  kept_loop Hc H. kept_done.
Qed.

Ltac kept_loops H :=
  let Hc := fresh "Hc" in
  cbv zeta in H; unbind H;
  match goal with
  | |- obs _ = obs ?ctx => pose proof (eq_refl (obs ctx)) as Hc
  end;
  repeat (kept_loop Hc H); kept_done.

Tactic Notation "kept_kernel" reference(f) :=
  let H := fresh "H" in intros H; unfold f in H; kept_loops H.

Lemma fwdConvolution_kept (b : bool) (I : ConvolutionInst) (ctx ctx' : Context) :
  fwdConvolutionInst b I ctx = Some ctx' -> obs ctx' = obs ctx.
Proof. kept_kernel fwdConvolutionInst. Qed.

(** The max pool also writes the saved coordinates. *)
Lemma fwdPool_kept (b : bool) (I : PoolInst) (ctx ctx' : Context) :
  (pool_Kind I = PoolMax ->
   forall c t, obs (putIndex c (pool_srcXY I) t) = obs c) ->
  fwdPoolInst b I ctx = Some ctx' -> obs ctx' = obs ctx.
Proof.
  unfold fwdPoolInst. destruct (pool_Kind I); intros Hxy.
  - intros H. unfold fwdPoolMax_impl in H. cbv zeta in H. unbind H.
    pose proof (eq_refl (obs ctx)) as Hc.
    do 4 kept_loop Hc H. unbind H.
    apply kept_hset in H.
    repeat match goal with
           | E : iset _ _ _ _ = Some _ |- _ =>
               apply (kept_iset _ _ _ _ _ (Hxy eq_refl)) in E
           end.
    congruence.
  - kept_kernel fwdPoolAvg_impl.
Qed.

Lemma fwdFullyConnected_kept (b : bool) (I : FullyConnectedInst)
  (ctx ctx' : Context) :
  fwdFullyConnectedInst b I ctx = Some ctx' -> obs ctx' = obs ctx.
Proof. kept_kernel fwdFullyConnectedInst. Qed.

Lemma fwdRelu_kept (b : bool) (I : ReluInst) (ctx ctx' : Context) :
  fwdReluInst b I ctx = Some ctx' -> obs ctx' = obs ctx.
Proof. kept_kernel fwdReluInst. Qed.

Lemma fwdSigmoid_kept (b : bool) (I : SigmoidInst) (ctx ctx' : Context) :
  fwdSigmoidInst b I ctx = Some ctx' -> obs ctx' = obs ctx.
Proof. kept_kernel fwdSigmoidInst. Qed.

Lemma fwdTanh_kept (b : bool) (I : TanhInst) (ctx ctx' : Context) :
  fwdTanhInst b I ctx = Some ctx' -> obs ctx' = obs ctx.
Proof. kept_kernel fwdTanhInst. Qed.

Lemma fwdRegression_kept (b : bool) (I : RegressionInst) (ctx ctx' : Context) :
  fwdRegressionInst b I ctx = Some ctx' -> obs ctx' = obs ctx.
Proof. kept_kernel fwdRegressionInst. Qed.

Lemma fwdReshape_kept (b : bool) (I : ReshapeInst) (ctx ctx' : Context) :
  fwdReshapeInst b I ctx = Some ctx' -> obs ctx' = obs ctx.
Proof. kept_kernel fwdReshapeInst. Qed.

Lemma fwdArithmetic_kept (b : bool) (I : ArithmeticInst) (ctx ctx' : Context) :
  fwdArithmeticInst b I ctx = Some ctx' -> obs ctx' = obs ctx.
Proof.
  unfold fwdArithmeticInst. destruct (arith_Kind I); intros H;
    pose proof (eq_refl (obs ctx)) as Hc; kept_loop Hc H; kept_done.
Qed.

Lemma fwdSoftMax_row_kept (I : SoftMaxInst) (m n : nat) (c c' : Context) :
  fwdSoftMax_row I m n c = Some c' -> obs c' = obs c.
Proof.
  intros H. unfold fwdSoftMax_row in H. cbv zeta in H. unbind H.
  assert (Hc : obs (fst (c0, f1)) = obs c).
  { eapply for_loop_kept_with; [ | | exact E1 ]; [|reflexivity].
    intros i [c1 s1] s' Hg Hs. simpl in *. kept_done. }
  simpl in Hc.
  kept_loop Hc H. kept_done.
Qed.

Lemma fwdSoftMax_kept (b : bool) (I : SoftMaxInst) (ctx ctx' : Context) :
  fwdSoftMaxInst b I ctx = Some ctx' -> obs ctx' = obs ctx.
Proof.
  intros H. unfold fwdSoftMaxInst in H. cbv zeta in H. unbind H.
  pose proof (eq_refl (obs ctx)) as Hc.
  eapply for_loop_kept; [ | exact Hc | exact H ].
  intros i c c' Hg Hrow. apply fwdSoftMax_row_kept in Hrow. congruence.
Qed.

Lemma fwdTranspose_kept (b : bool) (I : TransposeInst) (ctx ctx' : Context) :
  fwdTransposeInst b I ctx = Some ctx' -> obs ctx' = obs ctx.
Proof.
  intros H. unfold fwdTransposeInst in H. cbv zeta in H. unbind H.
  inversion H. apply obs_weight.
Qed.

Lemma fwdConcat_kept (b : bool) (I : ConcatInst) (ctx ctx' : Context) :
  fwdConcatInst b I ctx = Some ctx' -> obs ctx' = obs ctx.
Proof.
  intros H. unfold fwdConcatInst in H. cbv zeta in H. unbind H.
  inversion H; subst; clear H.
  match goal with
  | E : fold_left _ _ _ = Some _ |- _ =>
      apply (fold_left_option_inv
               (fun st : Context * list nat => obs (fst st) = obs ctx)
               (fun st v =>
                  let (c, offset) := st in
                  t <- t_insert (tensorOf c (WeightH (concat_Dest I)))
                         (tensorOf c (WeightH v)) offset ;;
                  let c := putTensor c (WeightH (concat_Dest I)) t in
                  o <- nth_error offset (concat_Dim I) ;;
                  e <- nth_error (hdims c (WeightH v)) (concat_Dim I) ;;
                  offset <- list_set offset (concat_Dim I) (o + e) ;;
                  Some (c, offset))) in E; [exact E| |reflexivity]
  end.
  intros [c off] v [c1 off1] Hc Hs. simpl in *. unbind Hs.
  inversion Hs; subst. simpl. rewrite obs_weight. exact Hc.
Qed.

Lemma fwdBatchNormalization_infer_kept (I : BatchNormalizationInst)
  (ctx ctx' : Context) :
  fwdBatchNormalizationInst_infer I ctx = Some ctx' -> obs ctx' = obs ctx.
Proof. kept_kernel fwdBatchNormalizationInst_infer. Qed.

Lemma bn_updateStats_kept (I : BatchNormalizationInst)
  (lm lv : Tensor FloatTy) (ctx ctx' : Context) :
  bn_updateStats I lm lv ctx = Some ctx' -> obs ctx' = obs ctx.
Proof. kept_kernel bn_updateStats. Qed.

Lemma fwdBatchNormalization_kept (b : bool) (I : BatchNormalizationInst)
  (ctx ctx' : Context) :
  fwdBatchNormalizationInst b I ctx = Some ctx' -> obs ctx' = obs ctx.
Proof.
  unfold fwdBatchNormalizationInst. destruct b.
  - intros H. unfold fwdBatchNormalizationInst_train in H. cbv zeta in H.
    unbind H. apply fwdBatchNormalization_infer_kept in H.
    match goal with
    | E : bn_updateStats _ _ _ _ = Some _ |- _ =>
        apply bn_updateStats_kept in E
    end.
    congruence.
  - apply fwdBatchNormalization_infer_kept.
Qed.

Lemma fwdLRN_position_kept (I : LocalResponseNormalizationInst)
  (idim : ShapeNHWC) (n h w : nat) (c c' : Context) :
  fwdLRN_position I idim n h w c = Some c' -> obs c' = obs c.
Proof.
  intros H. unfold fwdLRN_position in H. cbv zeta in H. unbind H.
  inversion H; subst; clear H.
  match goal with
  | E : for_loop _ _ (c, _) = Some ?p |- _ =>
      eapply for_loop_kept_with; [ | | exact E ]; [|reflexivity]
  end.
  intros i [c1 s1] s' Hg Hs. simpl in *. kept_done.
Qed.

Lemma fwdLocalResponseNormalization_kept (b : bool)
  (I : LocalResponseNormalizationInst) (ctx ctx' : Context) :
  fwdLocalResponseNormalizationInst b I ctx = Some ctx' ->
  obs ctx' = obs ctx.
Proof.
  intros H. unfold fwdLocalResponseNormalizationInst in H. unbind H.
  pose proof (eq_refl (obs ctx)) as Hc.
  do 3 kept_loop Hc H.
  apply fwdLRN_position_kept in H. congruence.
Qed.

(** No forward kernel changes [obs], if the saved coordinates of a max
    pool are not part of it. *)
Lemma fwd_kept (isTrain : bool) (i : Instruction) (ctx ctx' : Context) :
  (forall I, i = IPool I -> pool_Kind I = PoolMax ->
             forall c t, obs (putIndex c (pool_srcXY I) t) = obs c) ->
  fwd isTrain i ctx = Some ctx' -> obs ctx' = obs ctx.
Proof.
  destruct i; simpl; intros Hxy.
  - apply fwdCopy_kept.
  - apply fwdConvolution_kept.
  - apply fwdPool_kept. intros HK. now apply (Hxy I).
  - apply fwdFullyConnected_kept.
  - apply fwdRelu_kept.
  - apply fwdSigmoid_kept.
  - apply fwdTanh_kept.
  - apply fwdSoftMax_kept.
  - apply fwdRegression_kept.
  - apply fwdTranspose_kept.
  - apply fwdReshape_kept.
  - apply fwdConcat_kept.
  - apply fwdBatchNormalization_kept.
  - apply fwdLocalResponseNormalization_kept.
  - apply fwdArithmetic_kept.
Qed.

End Frame.

(** No forward kernel writes a gradient tensor. *)
Lemma fwd_grads {ops : FloatOps} (isTrain : bool) (i : Instruction)
  (ctx ctx' : Context) :
  fwd isTrain i ctx = Some ctx' -> gradOf ctx' = gradOf ctx.
Proof.
  apply (fwd_kept _ gradOf); [reflexivity|]. intros; reflexivity.
Qed.

(** The only index tensor a forward kernel writes is the tensor of the
    saved coordinates of a max pool. *)
Lemma fwd_indices {ops : FloatOps} (isTrain : bool) (i : Instruction)
  (ctx ctx' : Context) (v : Value) :
  (forall I, i = IPool I -> pool_Kind I = PoolMax -> v <> pool_srcXY I) ->
  fwd isTrain i ctx = Some ctx' -> indexOf ctx' v = indexOf ctx v.
Proof.
  intros Hv. apply (fwd_kept _ (fun c => indexOf c v)).
  - intros c u t. reflexivity.
  - intros I Hi HK c t. simpl. apply upd_other. now apply (Hv I).
Qed.

(* ================================================================== *)
(** * Loops as folds, and four nested loops *)
(* ================================================================== *)

(** A loop whose body cannot fail is a fold over its index range. *)
Lemma for_loop_fold {St : Type} (n : nat) (body : nat -> St -> option St)
  (f : St -> nat -> St) (s : St) :
  (forall i t, i < n -> body i t = Some (f t i)) ->
  for_loop n body s = Some (fold_left f (seq 0 n) s).
Proof.
  intros H. induction n as [|n IH]; [reflexivity|].
  rewrite seq_S, fold_left_app. simpl.
  rewrite IH by (intros; apply H; lia). apply H. lia.
Qed.

Lemma fold_left_flat_map {A B C : Type} (f : A -> C -> A) (h : B -> list C)
  (l : list B) (a : A) :
  fold_left f (flat_map h l) a = fold_left (fun a b => fold_left f (h b) a) l a.
Proof.
  revert a. induction l as [|b l IH]; simpl; intros a; [reflexivity|].
  now rewrite fold_left_app, IH.
Qed.

Lemma fold_left_map {A B C : Type} (f : A -> C -> A) (h : B -> C)
  (l : list B) (a : A) :
  fold_left f (map h l) a = fold_left (fun a b => f a (h b)) l a.
Proof.
  revert a. induction l as [|b l IH]; simpl; intros a; [reflexivity|].
  apply IH.
Qed.

Lemma fold_left_filter {A B : Type} (f : A -> B -> A) (p : B -> bool)
  (l : list B) (a : A) :
  fold_left f (filter p l) a = fold_left (fun a b => if p b then f a b else a) l a.
Proof.
  revert a. induction l as [|b l IH]; simpl; intros a; [reflexivity|].
  destruct (p b); simpl; apply IH.
Qed.

Lemma fold_left_ext_in {A B : Type} (f g : A -> B -> A) (l : list B) (a : A) :
  (forall a b, In b l -> f a b = g a b) -> fold_left f l a = fold_left g l a.
Proof.
  revert a. induction l as [|b l IH]; simpl; intros a H; [reflexivity|].
  rewrite H by auto. apply IH. intros; apply H; auto.
Qed.

(** Four nested loops whose body establishes [Q] of its own tuple and
    keeps [Q] of every other tuple establish [Q] of all tuples. *)
Lemma for_loop4_cells {St : Type} (Inv : St -> Prop)
  (Q : nat -> nat -> nat -> nat -> St -> Prop)
  (body : nat -> nat -> nat -> nat -> St -> option St) (A B C D : nat) (s : St) :
  Inv s ->
  (forall a b c d t, a < A -> b < B -> c < C -> d < D -> Inv t ->
     exists t', body a b c d t = Some t' /\ Inv t' /\ Q a b c d t' /\
       forall a' b' c' d', (a', b', c', d') <> (a, b, c, d) ->
         Q a' b' c' d' t -> Q a' b' c' d' t') ->
  exists t,
    for_loop A (fun a s =>
      for_loop B (fun b s =>
        for_loop C (fun c s =>
          for_loop D (body a b c) s) s) s) s = Some t /\
    Inv t /\
    forall a b c d, a < A -> b < B -> c < C -> d < D -> Q a b c d t.
Proof.
  intros HI Hbody.
  set (P := fun (a b c d : nat) (t : St) =>
    Inv t /\
    forall a' b' c' d', a' < A -> b' < B -> c' < C -> d' < D ->
      before4 a' b' c' d' a b c d -> Q a' b' c' d' t).
  assert (Hend : exists t, for_loop A (fun a s =>
      for_loop B (fun b s =>
        for_loop C (fun c s =>
          for_loop D (body a b c) s) s) s) s = Some t /\ P A 0 0 0 t).
  { apply (for_loop_ind (fun a t => P a 0 0 0 t)).
    { split; [exact HI|]. unfold before4. intros; lia. }
    intros a t Ha Pa.
    destruct (for_loop_ind (fun b t => P a b 0 0 t)
      (fun b s => for_loop C (fun c s => for_loop D (body a b c) s) s) B t Pa)
      as (t1 & E1 & P1).
    2:{ exists t1. split; [exact E1|]. destruct P1 as (I1 & Q1).
        split; [exact I1|]. intros a' b' c' d' ? ? ? ? Hb. apply Q1; auto.
        unfold before4 in *. lia. }
    intros b u Hb Pb.
    destruct (for_loop_ind (fun c t => P a b c 0 t)
      (fun c s => for_loop D (body a b c) s) C u Pb) as (u1 & E2 & P2).
    2:{ exists u1. split; [exact E2|]. destruct P2 as (I2 & Q2).
        split; [exact I2|]. intros a' b' c' d' ? ? ? ? Hb'. apply Q2; auto.
        unfold before4 in *. lia. }
    intros c v Hc Pc.
    destruct (for_loop_ind (fun d t => P a b c d t) (body a b c) D v Pc)
      as (v1 & E3 & P3).
    2:{ exists v1. split; [exact E3|]. destruct P3 as (I3 & Q3).
        split; [exact I3|]. intros a' b' c' d' ? ? ? ? Hb'. apply Q3; auto.
        unfold before4 in *. lia. }
    intros d w Hd (Iw & Qw).
    destruct (Hbody a b c d w Ha Hb Hc Hd Iw) as (w' & Ew & Iw' & Qnew & Qkeep).
    exists w'. split; [exact Ew|]. split; [exact Iw'|].
    intros a' b' c' d' Ha' Hb' Hc' Hd' Hbef.
    destruct (Nat.eq_dec a' a) as [->|Na];
      [destruct (Nat.eq_dec b' b) as [->|Nb];
       [destruct (Nat.eq_dec c' c) as [->|Nc];
        [destruct (Nat.eq_dec d' d) as [->|Nd]; [exact Qnew|]|]|]|].
    all: apply Qkeep; [congruence|]; apply Qw; auto; unfold before4 in *; lia. }
  destruct Hend as (t & Et & It & Qt). exists t. split; [exact Et|].
  split; [exact It|]. intros a b c d Ha Hb Hc Hd. apply Qt; auto.
  unfold before4. lia.
Qed.

(** Small numbers do not wrap. *)
Lemma to_ssize_small (z : Z) :
  (- 2 ^ 63 <= z < 2 ^ 63)%Z -> to_ssize z = z.
Proof.
  intros H. unfold to_ssize, size_bits.
  change (2 ^ (64 - 1))%Z with (2 ^ 63)%Z.
  rewrite Z.mod_small; [lia|]. change (2 ^ 64)%Z with (2 * 2 ^ 63)%Z. lia.
Qed.

Lemma to_size_small (z : Z) : (0 <= z < 2 ^ 64)%Z -> to_size z = z.
Proof. intros H. unfold to_size, size_bits. now apply Z.mod_small. Qed.

Lemma out_of_range_spec (ox oy : Z) (h w : nat) :
  (Z.of_nat h < 2 ^ 63)%Z -> (Z.of_nat w < 2 ^ 63)%Z ->
  out_of_range ox oy h w = negb (in_range h w (ox, oy)).
Proof.
  intros Hh Hw. unfold out_of_range, in_range; simpl.
  rewrite !to_ssize_small by lia.
  destruct (Z.ltb_spec ox 0), (Z.leb_spec 0 ox), (Z.ltb_spec oy 0),
    (Z.leb_spec 0 oy), (Z.leb_spec (Z.of_nat h) ox),
    (Z.ltb_spec ox (Z.of_nat h)), (Z.leb_spec (Z.of_nat w) oy),
    (Z.ltb_spec oy (Z.of_nat w)); simpl; auto; lia.
Qed.

Lemma in_range_coords (ox oy : Z) (h w : nat) :
  (Z.of_nat h < 2 ^ 63)%Z -> (Z.of_nat w < 2 ^ 63)%Z ->
  in_range h w (ox, oy) = true ->
  size_of_ssize ox = Z.to_nat ox /\ size_of_ssize oy = Z.to_nat oy /\
  Z.to_nat ox < h /\ Z.to_nat oy < w /\
  to_size ox = ox /\ to_size oy = oy.
Proof.
  intros Hh Hw H. unfold in_range in H; simpl in H.
  apply andb_true_iff in H. destruct H as [H H4].
  apply andb_true_iff in H. destruct H as [H H3].
  apply andb_true_iff in H. destruct H as [H1 H2].
  apply Z.leb_le in H1, H3. apply Z.ltb_lt in H2, H4.
  unfold size_of_ssize. rewrite !to_size_small by lia.
  repeat split; lia.
Qed.

(* ================================================================== *)
(** * Average pooling *)
(* ================================================================== *)

Section PoolAvgFacts.
Context {ops : FloatOps}.

(** The two window loops add up the values at the valid positions. *)
Lemma fwdPoolAvg_window_sum (I : PoolInst) (ctx : Context) (src : Image)
  (idim : ShapeNHWC) (n z : nat) (x y : Z) :
  (Z.of_nat (sh idim) < 2 ^ 63)%Z -> (Z.of_nat (sw idim) < 2 ^ 63)%Z ->
  (forall a b, a < sh idim -> b < sw idim ->
     hat ctx (WeightH (pool_Src I)) [n; a; b; z] = Some (src n a b z)) ->
  fwdPoolAvg_window ctx I idim n z x y =
  Some (window_sum src n z
          (valid_positions (pool_Kernel I) x y (sh idim) (sw idim))).
Proof.
  intros Hh Hw Hsrc. unfold fwdPoolAvg_window.
  set (g := fun (fy : nat) (sum : FloatTy) (fx : nat) =>
    let p := (ssize_add x fx, ssize_add y fy) in
    if in_range (sh idim) (sw idim) p then fadd sum (pixel src n z p) else sum).
  rewrite (for_loop_fold _ _
    (fun sum fy => fold_left (g fy) (seq 0 (pool_Kernel I)) sum)).
  - f_equal. unfold window_sum, valid_positions, window_positions.
    rewrite fold_left_filter, fold_left_flat_map.
    apply fold_left_ext_in. intros a fy _. rewrite fold_left_map. reflexivity.
  - intros fy sum _. apply for_loop_fold. intros fx t _.
    rewrite out_of_range_spec by assumption. unfold g. cbv zeta.
    destruct (in_range (sh idim) (sw idim) (ssize_add x fx, ssize_add y fy))
      eqn:E; simpl; [|reflexivity].
    destruct (in_range_coords _ _ _ _ Hh Hw E) as (-> & -> & La & Lb & _).
    rewrite Hsrc by assumption. reflexivity.
Qed.

(** Every output element is the sum over the valid positions of its
    window, divided by the area of the filter. *)
Lemma fwdPoolAvg_output (I : PoolInst) (ctx : Context) (src : Image)
  (N H W C ON OH OW OC : nat) :
  pool_Dest I <> pool_Src I ->
  hdims ctx (WeightH (pool_Src I)) = [N; H; W; C] ->
  hdims ctx (WeightH (pool_Dest I)) = [ON; OH; OW; OC] ->
  wf_tensor (weightOf ctx (pool_Dest I)) ->
  (forall n a b c, n < N -> a < H -> b < W -> c < C ->
     hat ctx (WeightH (pool_Src I)) [n; a; b; c] = Some (src n a b c)) ->
  ON <= N -> C <= OC ->
  (Z.of_nat H < 2 ^ 63)%Z -> (Z.of_nat W < 2 ^ 63)%Z ->
  exists ctx',
    fwdPoolAvg_impl I ctx = Some ctx' /\
    forall n z ay ax, n < ON -> z < C -> ay < OW -> ax < OH ->
      hat ctx' (WeightH (pool_Dest I)) [n; ax; ay; z] =
      Some (fdiv
              (window_sum src n z
                 (valid_positions (pool_Kernel I)
                    (anchor (pool_Pad I) (pool_Stride I) ax)
                    (anchor (pool_Pad I) (pool_Stride I) ay) H W))
              (filterArea (pool_Kernel I))).
Proof.
  intros Hne Hid Hod Wf Hsrc HN HC HH HW.
  unfold fwdPoolAvg_impl. rewrite Hod, Hid. simpl.
  set (val := fun n z ay ax =>
    fdiv (window_sum src n z
            (valid_positions (pool_Kernel I)
               (anchor (pool_Pad I) (pool_Stride I) ax)
               (anchor (pool_Pad I) (pool_Stride I) ay) H W))
         (filterArea (pool_Kernel I))).
  destruct (for_loop4_cells
    (fun c : Context =>
       tensorOf c (WeightH (pool_Src I)) = tensorOf ctx (WeightH (pool_Src I)) /\
       hdims c (WeightH (pool_Dest I)) = [ON; OH; OW; OC] /\
       wf_tensor (tensorOf c (WeightH (pool_Dest I))))
    (fun n z ay ax c =>
       hat c (WeightH (pool_Dest I)) [n; ax; ay; z] = Some (val n z ay ax))
    (fun n z ay ax c =>
       sum <- fwdPoolAvg_window c I (mkShape N H W C) n z
                (anchor (pool_Pad I) (pool_Stride I) ax)
                (anchor (pool_Pad I) (pool_Stride I) ay) ;;
       hset c (WeightH (pool_Dest I)) [n; ax; ay; z]
         (fdiv sum (filterArea (pool_Kernel I))))
    ON C OW OH ctx) as (c' & Hrun & _ & Hcells).
  - repeat split; auto.
  - intros n z ay ax c Hn Hz Hay Hax (Hs & Hd & Hwf).
    rewrite (fwdPoolAvg_window_sum I c src (mkShape N H W C) n z); simpl; auto.
    2:{ intros a b Ha Hb. unfold hat. rewrite Hs. apply Hsrc; auto; lia. }
    destruct (hset_Some c (WeightH (pool_Dest I)) [n; ax; ay; z]
                (val n z ay ax) Hwf) as (c1 & E1).
    { rewrite Hd. simpl.
      repeat (apply andb_true_iff; split); try apply Nat.ltb_lt; auto; lia. }
    fold (val n z ay ax). rewrite E1.
    exists c1. split; [reflexivity|]. split; [|split].
    + split; [|split].
      * transitivity (tensorOf c (WeightH (pool_Src I))); [|exact Hs].
        apply (tensorOf_hset (h' := WeightH (pool_Src I)) E1). congruence.
      * rewrite (hdims_hset (WeightH (pool_Dest I)) E1). exact Hd.
      * apply (wf_hset (WeightH (pool_Dest I)) E1). exact Hwf.
    + apply (hat_set_same E1).
    + intros n' z' ay' ax' Hneq Hq. rewrite (hat_set_other E1); [exact Hq|].
      right. intros Heq. apply Hneq. inversion Heq; subst. reflexivity.
  - exists c'. split; [exact Hrun|]. intros n z ay ax Hn Hz Hay Hax.
    apply Hcells; auto.
Qed.

End PoolAvgFacts.

(* ================================================================== *)
(** * Max pooling *)
(* ================================================================== *)

Section PoolMaxFacts.
Context {ops : FloatOps}.

Lemma iset_inv (c c' : Context) (v : Value) (idx : list nat) (x : Z) :
  iset c v idx x = Some c' ->
  exists t', t_set_at (indexOf c v) idx x = Some t' /\ c' = putIndex c v t'.
Proof.
  unfold iset. destruct (t_set_at (indexOf c v) idx x); [|discriminate].
  intros H; inversion H; eauto.
Qed.

Lemma iset_Some (c : Context) (v : Value) (idx : list nat) (x : Z) :
  wf_tensor (indexOf c v) -> isInBounds (dims (indexOf c v)) idx = true ->
  exists c', iset c v idx x = Some c'.
Proof.
  intros W B. unfold iset.
  destruct (t_set_at_Some _ _ idx x W B) as (t' & ->). eauto.
Qed.

Lemma iat_set_same (c c' : Context) (v : Value) (idx : list nat) (x : Z) :
  iset c v idx x = Some c' -> iat c' v idx = Some x.
Proof.
  intros H. apply iset_inv in H. destruct H as (t' & Ht & ->).
  unfold iat; simpl. rewrite upd_same. eapply t_at_set_same; eauto.
Qed.

Lemma iat_set_other (c c' : Context) (v : Value) (idx idx' : list nat) (x : Z) :
  iset c v idx x = Some c' -> idx' <> idx -> iat c' v idx' = iat c v idx'.
Proof.
  intros H Hne. apply iset_inv in H. destruct H as (t' & Ht & ->).
  unfold iat; simpl. rewrite upd_same. eapply t_at_set_other; eauto.
Qed.

Lemma iset_index (c c' : Context) (v : Value) (idx : list nat) (x : Z) :
  iset c v idx x = Some c' ->
  dims (indexOf c' v) = dims (indexOf c v) /\
  (wf_tensor (indexOf c v) -> wf_tensor (indexOf c' v)).
Proof.
  intros H. apply iset_inv in H. destruct H as (t' & Ht & ->). simpl.
  rewrite upd_same. split.
  - eapply t_set_at_dims; eauto.
  - eapply t_set_at_wf; eauto.
Qed.

Lemma iset_tensorOf (c c' : Context) (v : Value) (idx : list nat) (x : Z)
  (h : Handle) :
  iset c v idx x = Some c' -> tensorOf c' h = tensorOf c h.
Proof.
  intros H. apply iset_inv in H. destruct H as (t' & Ht & ->).
  destruct h; reflexivity.
Qed.

(** The window loops scan the valid positions in order. *)
Lemma fwdPoolMax_window_scan (I : PoolInst) (ctx : Context) (src : Image)
  (idim : ShapeNHWC) (n z : nat) (x y : Z) :
  (Z.of_nat (sh idim) < 2 ^ 63)%Z -> (Z.of_nat (sw idim) < 2 ^ 63)%Z ->
  (forall a b, a < sh idim -> b < sw idim ->
     hat ctx (WeightH (pool_Src I)) [n; a; b; z] = Some (src n a b z)) ->
  fwdPoolMax_window ctx I idim n z x y =
  Some (fold_left (scan_step src n z)
          (valid_positions (pool_Kernel I) x y (sh idim) (sw idim))
          (mkMaxScan true fzero (to_size x) (to_size y))).
Proof.
  intros Hh Hw Hsrc. unfold fwdPoolMax_window.
  set (g := fun (fy : nat) (st : MaxScan) (fx : nat) =>
    let p := (ssize_add x fx, ssize_add y fy) in
    if in_range (sh idim) (sw idim) p then scan_step src n z st p else st).
  rewrite (for_loop_fold _ _
    (fun st fy => fold_left (g fy) (seq 0 (pool_Kernel I)) st)).
  - f_equal. unfold valid_positions, window_positions.
    rewrite fold_left_filter, fold_left_flat_map.
    apply fold_left_ext_in. intros a fy _. rewrite fold_left_map. reflexivity.
  - intros fy st _. apply for_loop_fold. intros fx t _.
    unfold fwdPoolMax_visit.
    rewrite out_of_range_spec by assumption. unfold g. cbv zeta.
    destruct (in_range (sh idim) (sw idim) (ssize_add x fx, ssize_add y fy))
      eqn:E; simpl; [|reflexivity].
    destruct (in_range_coords _ _ _ _ Hh Hw E) as (-> & -> & La & Lb & _).
    rewrite Hsrc by assumption. unfold scan_step, pixel. simpl.
    destruct (scan_first t || fle (scan_max t) _); reflexivity.
Qed.

(** What the scan of a list of positions leaves in its locals. *)
Lemma scan_last_maximum (src : Image) (n z : nat) (init : MaxScan)
  (ps : list (Z * Z)) :
  scan_first init = true ->
  ordered_values (map (pixel src n z) ps) ->
  ps <> [] ->
  let st := fold_left (scan_step src n z) ps init in
  scan_first st = false /\
  exists p, last_maximum src n z ps p (scan_max st) /\
            scan_maxX st = to_size (fst p) /\ scan_maxY st = to_size (snd p).
Proof.
  intros Hinit. induction ps as [|q ps IH] using rev_ind; [congruence|].
  intros (Htot & Htrans) _. cbv zeta. rewrite fold_left_app. simpl.
  assert (Hin : forall r, In r (ps ++ [q]) ->
                          In (pixel src n z r) (map (pixel src n z) (ps ++ [q])))
    by (intros; now apply in_map).
  assert (Hq : In q (ps ++ [q])) by (apply in_or_app; right; left; reflexivity).
  assert (Hcase : ps = [] \/ ps <> [])
    by (destruct ps; [left|right]; congruence).
  destruct Hcase as [->|Hps0].
  - simpl. unfold scan_step. rewrite Hinit. simpl. split; [reflexivity|].
    exists q. split; [|split; reflexivity].
    exists [], []. repeat split; auto.
    + intros r [<-|[]]. destruct (Htot _ _ (Hin _ Hq) (Hin _ Hq)); auto.
    + intros r [].
  - destruct IH as (Hf & p & (bef & aft & Hsplit & Hm & Hall & Haft) & HX & HY).
    { split.
      - intros a b Ha Hb. apply Htot; rewrite map_app; apply in_or_app; auto.
      - intros a b c Ha Hb Hc. apply Htrans; rewrite map_app; apply in_or_app;
          auto. }
    { exact Hps0. }
    set (st := fold_left (scan_step src n z) ps init) in *.
    assert (Hp : In p ps) by (rewrite Hsplit; apply in_or_app; right; now left).
    assert (Hps : forall r, In r ps -> In r (ps ++ [q]))
      by (intros; apply in_or_app; auto).
    assert (Hstep : scan_step src n z st q =
      if fle (scan_max st) (pixel src n z q)
      then mkMaxScan false (pixel src n z q) (to_size (fst q)) (to_size (snd q))
      else st) by (unfold scan_step; rewrite Hf; reflexivity).
    rewrite Hstep.
    destruct (fle (scan_max st) (pixel src n z q)) eqn:E.
    + simpl. split; [reflexivity|]. exists q. split; [|split; reflexivity].
      exists ps, []. repeat split; auto.
      * intros r Hr. apply in_app_or in Hr. destruct Hr as [Hr|[<-|[]]].
        -- apply (Htrans _ (scan_max st)); auto.
           rewrite Hm. auto.
        -- destruct (Htot _ _ (Hin _ Hq) (Hin _ Hq)); auto.
      * intros r [].
    + split; [exact Hf|]. exists p. split; [|split; assumption].
      exists bef, (aft ++ [q]). repeat split; auto.
      * rewrite Hsplit, <- app_assoc. reflexivity.
      * intros r Hr. apply in_app_or in Hr. destruct Hr as [Hr|[<-|[]]]; auto.
        destruct (Htot (pixel src n z q) (scan_max st)); auto.
        -- rewrite Hm. auto.
        -- congruence.
      * intros r Hr. apply in_app_or in Hr. destruct Hr as [Hr|[<-|[]]]; auto.
Qed.

(** Every output element is a maximum of its window, and the saved
    coordinate is the last position of the scan that attains it. *)
Lemma fwdPoolMax_output (I : PoolInst) (ctx : Context) (src : Image)
  (N H W C ON OH OW OC SN SH SW SC : nat) :
  pool_Dest I <> pool_Src I ->
  hdims ctx (WeightH (pool_Src I)) = [N; H; W; C] ->
  hdims ctx (WeightH (pool_Dest I)) = [ON; OH; OW; OC] ->
  dims (indexOf ctx (pool_srcXY I)) = [SN; SH; SW; SC; 2] ->
  wf_tensor (weightOf ctx (pool_Dest I)) ->
  wf_tensor (indexOf ctx (pool_srcXY I)) ->
  (forall n a b c, n < N -> a < H -> b < W -> c < C ->
     hat ctx (WeightH (pool_Src I)) [n; a; b; c] = Some (src n a b c)) ->
  ON <= N -> C <= OC -> ON <= SN -> OH <= SH -> OW <= SW -> C <= SC ->
  (Z.of_nat H < 2 ^ 63)%Z -> (Z.of_nat W < 2 ^ 63)%Z ->
  let window := fun ay ax =>
    valid_positions (pool_Kernel I)
      (anchor (pool_Pad I) (pool_Stride I) ax)
      (anchor (pool_Pad I) (pool_Stride I) ay) H W in
  (forall ay ax, ay < OW -> ax < OH -> window ay ax <> []) ->
  (forall n z ay ax, n < ON -> z < C -> ay < OW -> ax < OH ->
     ordered_values (map (pixel src n z) (window ay ax))) ->
  exists ctx',
    fwdPoolMax_impl I ctx = Some ctx' /\
    forall n z ay ax, n < ON -> z < C -> ay < OW -> ax < OH ->
      exists p m,
        last_maximum src n z (window ay ax) p m /\
        hat ctx' (WeightH (pool_Dest I)) [n; ax; ay; z] = Some m /\
        iat ctx' (pool_srcXY I) [n; ax; ay; z; 0] = Some (fst p) /\
        iat ctx' (pool_srcXY I) [n; ax; ay; z; 1] = Some (snd p).
Proof.
  intros Hne Hid Hod Hxd Wf Wfx Hsrc HN HC HSN HSH HSW HSC HH HW window
    Hnonempty Hord.
  unfold fwdPoolMax_impl. rewrite Hod, Hid. simpl.
  destruct (for_loop4_cells
    (fun c : Context =>
       tensorOf c (WeightH (pool_Src I)) = tensorOf ctx (WeightH (pool_Src I)) /\
       hdims c (WeightH (pool_Dest I)) = [ON; OH; OW; OC] /\
       wf_tensor (tensorOf c (WeightH (pool_Dest I))) /\
       dims (indexOf c (pool_srcXY I)) = [SN; SH; SW; SC; 2] /\
       wf_tensor (indexOf c (pool_srcXY I)))
    (fun n z ay ax c =>
       exists p m,
         last_maximum src n z (window ay ax) p m /\
         hat c (WeightH (pool_Dest I)) [n; ax; ay; z] = Some m /\
         iat c (pool_srcXY I) [n; ax; ay; z; 0] = Some (fst p) /\
         iat c (pool_srcXY I) [n; ax; ay; z; 1] = Some (snd p))
    (fun n z ay ax c =>
       st <- fwdPoolMax_window c I (mkShape N H W C) n z
               (anchor (pool_Pad I) (pool_Stride I) ax)
               (anchor (pool_Pad I) (pool_Stride I) ay) ;;
       assert! negb (scan_first st) ;;
       c <- iset c (pool_srcXY I) [n; ax; ay; z; 0] (scan_maxX st) ;;
       c <- iset c (pool_srcXY I) [n; ax; ay; z; 1] (scan_maxY st) ;;
       hset c (WeightH (pool_Dest I)) [n; ax; ay; z] (scan_max st))
    ON C OW OH ctx) as (c' & Hrun & _ & Hcells).
  - repeat split; auto.
  - intros n z ay ax c Hn Hz Hay Hax (Hs & Hd & Hwf & Hxd' & Hxwf).
    rewrite (fwdPoolMax_window_scan I c src (mkShape N H W C) n z); simpl; auto.
    2:{ intros a b Ha Hb. unfold hat. rewrite Hs. apply Hsrc; auto; lia. }
    fold (window ay ax).
    destruct (scan_last_maximum src n z
      (mkMaxScan true fzero
         (to_size (anchor (pool_Pad I) (pool_Stride I) ax))
         (to_size (anchor (pool_Pad I) (pool_Stride I) ay)))
      (window ay ax) eq_refl (Hord n z ay ax Hn Hz Hay Hax)
      (Hnonempty ay ax Hay Hax)) as (Hf & p & Hlast & HX & HY).
    set (st := fold_left (scan_step src n z) (window ay ax) _) in *.
    rewrite Hf. simpl.
    assert (Hp : in_range H W p = true).
    { destruct Hlast as (bef & aft & Hsplit & _).
      assert (Hin : In p (window ay ax))
        by (rewrite Hsplit; apply in_or_app; right; now left).
      unfold window, valid_positions in Hin. apply filter_In in Hin. tauto. }
    destruct p as [px py].
    destruct (in_range_coords _ _ _ _ HH HW Hp) as (_ & _ & _ & _ & Tx & Ty).
    simpl in HX, HY. rewrite Tx in HX. rewrite Ty in HY.
    destruct (iset_Some c (pool_srcXY I) [n; ax; ay; z; 0] (scan_maxX st) Hxwf)
      as (c1 & E1).
    { rewrite Hxd'. simpl.
      repeat (apply andb_true_iff; split); try apply Nat.ltb_lt; auto; lia. }
    rewrite E1. destruct (iset_index _ _ _ _ _ E1) as (D1 & W1).
    destruct (iset_Some c1 (pool_srcXY I) [n; ax; ay; z; 1] (scan_maxY st)
                (W1 Hxwf)) as (c2 & E2).
    { rewrite D1, Hxd'. simpl.
      repeat (apply andb_true_iff; split); try apply Nat.ltb_lt; auto; lia. }
    rewrite E2. destruct (iset_index _ _ _ _ _ E2) as (D2 & W2).
    assert (T2 : forall h, tensorOf c2 h = tensorOf c h).
    { intros h. rewrite (iset_tensorOf _ _ _ _ _ h E2).
      apply (iset_tensorOf _ _ _ _ _ h E1). }
    destruct (hset_Some c2 (WeightH (pool_Dest I)) [n; ax; ay; z] (scan_max st))
      as (c3 & E3).
    { rewrite T2. exact Hwf. }
    { unfold hdims. rewrite T2. fold (hdims c (WeightH (pool_Dest I))).
      rewrite Hd. simpl.
      repeat (apply andb_true_iff; split); try apply Nat.ltb_lt; auto; lia. }
    rewrite E3. exists c3. split; [reflexivity|]. split; [|split].
    + split; [|split; [|split; [|split]]].
      * transitivity (tensorOf c2 (WeightH (pool_Src I))).
        -- apply (tensorOf_hset (h' := WeightH (pool_Src I)) E3). congruence.
        -- rewrite T2. exact Hs.
      * rewrite (hdims_hset (WeightH (pool_Dest I)) E3). unfold hdims.
        rewrite T2. exact Hd.
      * apply (wf_hset (WeightH (pool_Dest I)) E3). rewrite T2. exact Hwf.
      * rewrite (indexOf_hset E3), D2, D1. exact Hxd'.
      * rewrite (indexOf_hset E3). auto.
    + exists (px, py), (scan_max st). split; [exact Hlast|]. split; [|split].
      * apply (hat_set_same E3).
      * unfold iat. rewrite (indexOf_hset E3). fold (iat c2 (pool_srcXY I)
          [n; ax; ay; z; 0]).
        rewrite (iat_set_other _ _ _ _ _ _ E2) by congruence.
        rewrite (iat_set_same _ _ _ _ _ E1). simpl. congruence.
      * unfold iat. rewrite (indexOf_hset E3). fold (iat c2 (pool_srcXY I)
          [n; ax; ay; z; 1]).
        rewrite (iat_set_same _ _ _ _ _ E2). simpl. congruence.
    + intros n' z' ay' ax' Hneq (p' & m' & Hl' & Hv' & Hx' & Hy').
      exists p', m'. split; [exact Hl'|]. split; [|split].
      * rewrite (hat_set_other E3).
        2:{ right. intros Heq. apply Hneq. inversion Heq; subst. reflexivity. }
        unfold hat. rewrite T2. exact Hv'.
      * unfold iat. rewrite (indexOf_hset E3). fold (iat c2 (pool_srcXY I)
          [n'; ax'; ay'; z'; 0]).
        rewrite (iat_set_other _ _ _ _ _ _ E2) by congruence.
        rewrite (iat_set_other _ _ _ _ _ _ E1); [exact Hx'|].
        intros Heq. apply Hneq. inversion Heq; subst. reflexivity.
      * unfold iat. rewrite (indexOf_hset E3). fold (iat c2 (pool_srcXY I)
          [n'; ax'; ay'; z'; 1]).
        rewrite (iat_set_other _ _ _ _ _ _ E2).
        2:{ intros Heq. apply Hneq. inversion Heq; subst. reflexivity. }
        rewrite (iat_set_other _ _ _ _ _ _ E1) by congruence. exact Hy'.
  - exists c'. split; [exact Hrun|]. intros n z ay ax Hn Hz Hay Hax.
    apply Hcells; auto.
Qed.

End PoolMaxFacts.

(* ================================================================== *)
(** * SoftMax: the forward kernel *)
(* ================================================================== *)

Section SoftMaxForward.
Context {ops : FloatOps}.

Lemma isInBounds2 (N M n i : nat) :
  n < N -> i < M -> isInBounds [N; M] [n; i] = true.
Proof.
  intros Hn Hi. simpl. rewrite andb_true_r.
  apply andb_true_iff; split; now apply Nat.ltb_lt.
Qed.

(** A write through a weight handle keeps the frame. *)
Lemma softmax_frame_hset (I : SoftMaxInst) (ctx0 : Context) (N M : nat)
  (c c' : Context) (v : Value) (idx : list nat) (a : FloatTy) :
  softmax_frame I ctx0 N M c -> v <> softmax_Src I ->
  hset c (WeightH v) idx a = Some c' -> softmax_frame I ctx0 N M c'.
Proof.
  intros (Hs & Hg & Hi & Hd & He & Wd & We) Hv E.
  unfold softmax_frame. repeat split.
  - rewrite (tensorOf_hset (h' := WeightH (softmax_Src I)) E) by congruence.
    exact Hs.
  - rewrite (kept_hset _ gradOf (fun _ _ _ => eq_refl) _ _ _ _ _ E).
    exact Hg.
  - rewrite (indexOf_hset E). exact Hi.
  - rewrite (hdims_hset (WeightH (softmax_Dest I)) E). exact Hd.
  - rewrite (hdims_hset (WeightH (softmax_E I)) E). exact He.
  - apply (wf_hset (WeightH (softmax_Dest I)) E). exact Wd.
  - apply (wf_hset (WeightH (softmax_E I)) E). exact We.
Qed.

(** One row: the cache and the output get the normalized exponentials
    of the row, and the other rows keep what they had. *)
Lemma fwdSoftMax_row_spec (I : SoftMaxInst) (ctx0 : Context) (N M : nat)
  (x : nat -> nat -> FloatTy) (n : nat) (c : Context) :
  softmax_ready I ctx0 N M x -> n < N -> softmax_frame I ctx0 N M c ->
  exists c',
    fwdSoftMax_row I M n c = Some c' /\
    softmax_frame I ctx0 N M c' /\
    (forall i, i < M ->
       hat c' (WeightH (softmax_Dest I)) [n; i] = Some (softmax_row (x n) M i) /\
       hat c' (WeightH (softmax_E I)) [n; i] = Some (softmax_row (x n) M i)) /\
    (forall n' i, n' <> n ->
       hat c' (WeightH (softmax_Dest I)) [n'; i] =
         hat c (WeightH (softmax_Dest I)) [n'; i] /\
       hat c' (WeightH (softmax_E I)) [n'; i] =
         hat c (WeightH (softmax_E I)) [n'; i]).
Proof.
  intros (Hsd & Hse & Hed & HM & Hid & _ & _ & _ & _ & Hx) Hn Hfr.
  assert (Hread : forall c1 i, softmax_frame I ctx0 N M c1 -> i < M ->
            hat c1 (WeightH (softmax_Src I)) [n; i] = Some (x n i)).
  { intros c1 i (Hs & _) Hi. unfold hat. rewrite Hs. now apply Hx. }
  unfold fwdSoftMax_row. cbv zeta.
  rewrite (Hread c 0 Hfr HM).
  rewrite (for_loop_fold M _ (fun mx i => std_max mx (x n i))).
  2:{ intros i t Hi. now rewrite (Hread c i Hfr Hi). }
  fold (row_max (x n) M).
  (* the exponentials and their sum *)
  destruct (for_loop_ind
    (fun i (st : Context * FloatTy) =>
       softmax_frame I ctx0 N M (fst st) /\
       snd st = fold_left (fun s j => fadd s (row_exp (x n) M j)) (seq 0 i) fzero /\
       (forall j, j < i ->
          hat (fst st) (WeightH (softmax_E I)) [n; j] = Some (row_exp (x n) M j)) /\
       (forall n' j, n' <> n ->
          hat (fst st) (WeightH (softmax_E I)) [n'; j] =
          hat c (WeightH (softmax_E I)) [n'; j]) /\
       tensorOf (fst st) (WeightH (softmax_Dest I)) =
       tensorOf c (WeightH (softmax_Dest I)))
    (fun i (st : Context * FloatTy) =>
       let (ctx, sum) := st in
       v <- hat ctx (WeightH (softmax_Src I)) [n; i] ;;
       ctx <- hset ctx (WeightH (softmax_E I)) [n; i]
                (std_exp (fsub v (row_max (x n) M))) ;;
       Some (ctx, fadd sum (std_exp (fsub v (row_max (x n) M))))) M (c, fzero)) as ([c2 sum] & E2 & F2 & S2 & C2 & O2 & D2).
  { simpl. split; [exact Hfr|]. split; [reflexivity|].
    split; [intros; lia|]. split; reflexivity. }
  { intros i [c1 s1] Hi (F1 & S1 & C1 & O1 & D1). cbn [fst snd] in *.
    rewrite (Hread c1 i F1 Hi). fold (row_exp (x n) M i).
    destruct (hset_Some c1 (WeightH (softmax_E I)) [n; i] (row_exp (x n) M i))
      as (c1' & E1).
    { apply F1. }
    { destruct F1 as (_ & _ & _ & _ & He & _). rewrite He.
      now apply isInBounds2. }
    rewrite E1. eexists; split; [reflexivity|]. cbv beta. cbn [fst snd].
    split; [|split; [|split; [|split]]].
    - eapply softmax_frame_hset; [exact F1| |exact E1]. congruence.
    - rewrite seq_S, fold_left_app. simpl. now rewrite S1.
    - intros j Hj. destruct (Nat.eq_dec j i) as [->|Hji].
      + apply (hat_set_same E1).
      + rewrite (hat_set_other E1) by (right; congruence). apply C1. lia.
    - intros n' j Hn'. rewrite (hat_set_other E1) by (right; congruence).
      now apply O1.
    - change (tensorOf c1' (WeightH (softmax_Dest I)) =
              tensorOf c (WeightH (softmax_Dest I))).
      rewrite (tensorOf_hset (h' := WeightH (softmax_Dest I)) E1) by congruence.
      exact D1. }
  simpl in F2, S2, C2, O2, D2. rewrite E2.
  fold (row_sum (x n) M) in S2. subst sum.
  (* the normalization *)
  destruct (for_loop_ind
    (fun i (c3 : Context) =>
       softmax_frame I ctx0 N M c3 /\
       (forall j, j < M ->
          hat c3 (WeightH (softmax_E I)) [n; j] =
          Some (if j <? i then softmax_row (x n) M j else row_exp (x n) M j)) /\
       (forall j, j < i ->
          hat c3 (WeightH (softmax_Dest I)) [n; j] = Some (softmax_row (x n) M j)) /\
       (forall n' j, n' <> n ->
          hat c3 (WeightH (softmax_Dest I)) [n'; j] =
            hat c (WeightH (softmax_Dest I)) [n'; j] /\
          hat c3 (WeightH (softmax_E I)) [n'; j] =
            hat c (WeightH (softmax_E I)) [n'; j]))
    (fun i ctx =>
       e <- hat ctx (WeightH (softmax_E I)) [n; i] ;;
       ctx <- hset ctx (WeightH (softmax_E I)) [n; i] (fdiv e (row_sum (x n) M)) ;;
       p <- hat ctx (WeightH (softmax_E I)) [n; i] ;;
       hset ctx (WeightH (softmax_Dest I)) [n; i] p) M c2)
    as (c3 & E3 & F3 & C3 & D3 & O3).
  { split; [exact F2|]. split; [|split].
    - intros j Hj. simpl. now apply C2.
    - intros; lia.
    - intros n' j Hn'. split; [|now apply O2].
      unfold hat; simpl. now rewrite D2. }
  { intros i c1 Hi (F1 & C1 & D1 & O1).
    rewrite (C1 i Hi), Nat.ltb_irrefl. fold (softmax_row (x n) M i).
    destruct (hset_Some c1 (WeightH (softmax_E I)) [n; i] (softmax_row (x n) M i))
      as (c1' & E1).
    { apply F1. }
    { destruct F1 as (_ & _ & _ & _ & He & _). rewrite He.
      now apply isInBounds2. }
    rewrite E1, (hat_set_same E1).
    assert (F1' : softmax_frame I ctx0 N M c1')
      by (eapply softmax_frame_hset; [exact F1| |exact E1]; congruence).
    destruct (hset_Some c1' (WeightH (softmax_Dest I)) [n; i]
                (softmax_row (x n) M i)) as (c1'' & E1').
    { apply F1'. }
    { destruct F1' as (_ & _ & _ & Hd & _). rewrite Hd. now apply isInBounds2. }
    rewrite E1'. eexists; split; [reflexivity|].
    split; [|split; [|split; [|split]]].
    - eapply softmax_frame_hset; [exact F1'| |exact E1']. congruence.
    - intros j Hj. rewrite (hat_set_other E1') by (left; congruence).
      destruct (Nat.eq_dec j i) as [->|Hji].
      + rewrite (hat_set_same E1).
        replace (i <? S i) with true by (symmetry; apply Nat.ltb_lt; lia).
        reflexivity.
      + rewrite (hat_set_other E1) by (right; congruence). rewrite (C1 j Hj).
        replace (j <? S i) with (j <? i); [reflexivity|].
        destruct (Nat.ltb_spec j i), (Nat.ltb_spec j (S i)); auto; lia.
    - intros j Hj. destruct (Nat.eq_dec j i) as [->|Hji].
      + apply (hat_set_same E1').
      + rewrite (hat_set_other E1') by (right; congruence).
        rewrite (hat_set_other E1) by (left; congruence). apply D1. lia.
    - rewrite (hat_set_other E1') by (right; congruence).
      rewrite (hat_set_other E1) by (left; congruence). now apply O1.
    - rewrite (hat_set_other E1') by (left; congruence).
      rewrite (hat_set_other E1) by (right; congruence). now apply O1. }
  exists c3. split; [exact E3|]. split; [exact F3|]. split.
  - intros i Hi. split; [now apply D3|]. rewrite (C3 i Hi).
    replace (i <? M) with true by (symmetry; now apply Nat.ltb_lt). reflexivity.
  - intros n' i Hn'. now apply O3.
Qed.

(** The whole kernel: every row of the output and of the cache holds the
    softmax of the row of the input; gradients and index tensors are not
    touched. *)
Lemma fwdSoftMax_output (b : bool) (I : SoftMaxInst) (ctx : Context)
  (N M : nat) (x : nat -> nat -> FloatTy) :
  softmax_ready I ctx N M x ->
  exists ctx',
    fwdSoftMaxInst b I ctx = Some ctx' /\
    gradOf ctx' = gradOf ctx /\ indexOf ctx' = indexOf ctx /\
    forall n i, n < N -> i < M ->
      hat ctx' (WeightH (softmax_Dest I)) [n; i] = Some (softmax_row (x n) M i) /\
      hat ctx' (WeightH (softmax_E I)) [n; i] = Some (softmax_row (x n) M i).
Proof.
  intros Hready.
  pose proof Hready as (_ & _ & _ & _ & Hid & Hdd & Hed & Wd & We & _).
  unfold fwdSoftMaxInst. rewrite Hid. simpl.
  destruct (for_loop_ind
    (fun k c =>
       softmax_frame I ctx N M c /\
       forall n i, n < k -> i < M ->
         hat c (WeightH (softmax_Dest I)) [n; i] = Some (softmax_row (x n) M i) /\
         hat c (WeightH (softmax_E I)) [n; i] = Some (softmax_row (x n) M i))
    (fwdSoftMax_row I M) N ctx) as (c & Hc & Hfr & Hcells).
  - split; [|intros; lia]. unfold softmax_frame. repeat split; auto.
  - intros k c Hk (Hfr & Hcells).
    destruct (fwdSoftMax_row_spec I ctx N M x k c Hready Hk Hfr)
      as (c' & E & Hfr' & Hrow & Hother).
    exists c'. split; [exact E|]. split; [exact Hfr'|].
    intros n i Hn Hi. destruct (Nat.eq_dec n k) as [->|Hnk].
    + now apply Hrow.
    + destruct (Hother n i Hnk) as (-> & ->). apply Hcells; [lia|exact Hi].
  - exists c. split; [exact Hc|].
    destruct Hfr as (_ & Hg & Hi & _). auto.
Qed.

(** Adding [t] to a row whose differences and comparisons survive the
    addition changes neither the maximum's position nor the
    exponentials. *)
Lemma row_max_shift (x x' : nat -> FloatTy) (M : nat) (t : FloatTy) :
  0 < M ->
  (forall i, i < M -> x' i = fadd (x i) t) ->
  (forall i j, i < M -> j < M ->
     flt (fadd (x i) t) (fadd (x j) t) = flt (x i) (x j)) ->
  exists k, k < M /\ row_max x M = x k /\ row_max x' M = x' k.
Proof.
  intros HM Hx' Hlt. unfold row_max.
  assert (H : forall m, m <= M -> exists k, k < M /\
    fold_left (fun mx i => std_max mx (x i)) (seq 0 m) (x 0) = x k /\
    fold_left (fun mx i => std_max mx (x' i)) (seq 0 m) (x' 0) = x' k).
  { induction m as [|m IH]; intros Hm.
    - exists 0. simpl. auto.
    - destruct IH as (k & Hk & E1 & E2); [lia|].
      rewrite seq_S, !fold_left_app. simpl. rewrite E1, E2.
      unfold std_max. rewrite (Hx' k), (Hx' m), Hlt by lia.
      destruct (flt (x k) (x m)).
      + exists m. split; [lia|]. split; [reflexivity|].
        symmetry. apply Hx'. lia.
      + exists k. split; [exact Hk|]. split; [reflexivity|].
        symmetry. now apply Hx'. }
  apply H. lia.
Qed.

Lemma softmax_row_shift (x x' : nat -> FloatTy) (M : nat) (t : FloatTy) :
  0 < M ->
  (forall i, i < M -> x' i = fadd (x i) t) ->
  (forall i j, i < M -> j < M ->
     fsub (fadd (x i) t) (fadd (x j) t) = fsub (x i) (x j)) ->
  (forall i j, i < M -> j < M ->
     flt (fadd (x i) t) (fadd (x j) t) = flt (x i) (x j)) ->
  forall i, i < M -> softmax_row x' M i = softmax_row x M i.
Proof.
  intros HM Hx' Hsub Hlt.
  destruct (row_max_shift x x' M t HM Hx' Hlt) as (k & Hk & E1 & E2).
  assert (Hexp : forall i, i < M -> row_exp x' M i = row_exp x M i).
  { intros i Hi. unfold row_exp. rewrite E1, E2, (Hx' i Hi), (Hx' k Hk).
    now rewrite Hsub. }
  assert (Hsum : row_sum x' M = row_sum x M).
  { unfold row_sum. apply fold_left_ext_in. intros a i Hi.
    apply in_seq in Hi. rewrite Hexp by lia. reflexivity. }
  intros i Hi. unfold softmax_row. now rewrite Hexp, Hsum.
Qed.

End SoftMaxForward.

(* ================================================================== *)
(** * Batch normalization *)
(* ================================================================== *)

Lemma NoDup6 {A : Type} (a b c d e f : A) :
  NoDup [a; b; c; d; e; f] ->
  a <> b /\ a <> c /\ a <> d /\ a <> e /\ a <> f /\
  b <> c /\ b <> d /\ b <> e /\ b <> f /\
  c <> d /\ c <> e /\ c <> f /\ d <> e /\ d <> f /\ e <> f.
Proof.
  intros H.
  repeat match goal with
         | H : NoDup (_ :: _) |- _ => inversion H; clear H; subst
         end.
  simpl in *. repeat split; intros ->; tauto.
Qed.

Lemma at_index1 (C i : nat) : i < C -> at_index [C] [i] = Some i.
Proof.
  intros H. unfold at_index. simpl.
  apply Nat.ltb_lt in H. rewrite H. simpl. f_equal. lia.
Qed.

Lemma getDimForPtr_lt (ds : list nat) (dim i C : nat) :
  nth_error ds dim = Some C -> 0 < C -> getDimForPtr ds dim i < C.
Proof.
  intros Hn HC. unfold getDimForPtr.
  rewrite (nth_error_nth ds dim 0 Hn). apply Nat.mod_upper_bound. lia.
Qed.

Section BatchNormFacts.
Context {ops : FloatOps}.

Lemma channelOf_Some (ds : list nat) (dim i C : nat) :
  nth_error ds dim = Some C -> channelOf ds dim i = Some (getDimForPtr ds dim i).
Proof.
  intros Hn. unfold channelOf.
  assert (dim < length ds) by (apply nth_error_Some; congruence).
  apply Nat.ltb_lt in H. now rewrite H.
Qed.

(** The inference formula, element by element; nothing but the output is
    written. *)
Lemma fwdBatchNormalization_infer_output (I : BatchNormalizationInst)
  (ctx : Context) (ds : list nat) (C : nat) (x : nat -> FloatTy)
  (mean var gamma beta : nat -> FloatTy) :
  bn_ready I ctx ds C x mean var gamma beta ->
  exists ctx',
    fwdBatchNormalizationInst_infer I ctx = Some ctx' /\
    (forall h, h <> WeightH (bn_Dest I) -> tensorOf ctx' h = tensorOf ctx h) /\
    forall i, i < prod_dims ds ->
      let c := getDimForPtr ds (bn_ChannelIdx I) i in
      raw ctx' (WeightH (bn_Dest I)) i =
      Some (bn_output (bn_Epsilon I) (x i) (mean c) (var c) (gamma c) (beta c)).
Proof.
  intros (Hnd & Hds & Hch & HC & _ & _ & _ & _ & Hlen & Hx & Hm & Hv & Hg & Hb).
  apply NoDup6 in Hnd.
  destruct Hnd as (D1 & D2 & D3 & D4 & D5 & _).
  unfold fwdBatchNormalizationInst_infer. cbv zeta.
  replace (hsize ctx (WeightH (bn_Src I))) with (prod_dims ds)
    by (unfold hsize, tsize; fold (hdims ctx (WeightH (bn_Src I)));
        now rewrite Hds).
  set (out := fun i =>
    let c := getDimForPtr ds (bn_ChannelIdx I) i in
    bn_output (bn_Epsilon I) (x i) (mean c) (var c) (gamma c) (beta c)).
  destruct (for_loop_ind
    (fun k c =>
       (forall h, h <> WeightH (bn_Dest I) -> tensorOf c h = tensorOf ctx h) /\
       length (elems (tensorOf c (WeightH (bn_Dest I)))) =
         length (elems (tensorOf ctx (WeightH (bn_Dest I)))) /\
       forall i, i < k -> raw c (WeightH (bn_Dest I)) i = Some (out i))
    (fun i c =>
       channelId <- channelOf (hdims c (WeightH (bn_Src I))) (bn_ChannelIdx I) i ;;
       x <- raw c (WeightH (bn_Src I)) i ;;
       mu <- hat c (WeightH (bn_Mean I)) [channelId] ;;
       var <- hat c (WeightH (bn_Var I)) [channelId] ;;
       gamma <- hat c (WeightH (bn_Scale I)) [channelId] ;;
       beta <- hat c (WeightH (bn_Bias I)) [channelId] ;;
       set_raw c (WeightH (bn_Dest I)) i
         (bn_output (bn_Epsilon I) x mu var gamma beta))
    (prod_dims ds) ctx) as (c & Hc & Hfr & _ & Hcells).
  - split; [auto|]. split; [reflexivity|]. intros; lia.
  - intros k c Hk (Hfr & Hl & Hcells).
    assert (Hch' : getDimForPtr ds (bn_ChannelIdx I) k < C)
      by (now apply getDimForPtr_lt).
    unfold hdims, raw, hat.
    rewrite !Hfr by congruence.
    fold (hdims ctx (WeightH (bn_Src I))). rewrite Hds.
    rewrite (channelOf_Some ds _ k C Hch).
    fold (raw ctx (WeightH (bn_Src I)) k). rewrite (Hx k Hk).
    fold (hat ctx (WeightH (bn_Mean I)) [getDimForPtr ds (bn_ChannelIdx I) k]).
    rewrite (Hm _ Hch').
    fold (hat ctx (WeightH (bn_Var I)) [getDimForPtr ds (bn_ChannelIdx I) k]).
    rewrite (Hv _ Hch').
    fold (hat ctx (WeightH (bn_Scale I)) [getDimForPtr ds (bn_ChannelIdx I) k]).
    rewrite (Hg _ Hch').
    fold (hat ctx (WeightH (bn_Bias I)) [getDimForPtr ds (bn_ChannelIdx I) k]).
    rewrite (Hb _ Hch').
    fold (out k).
    destruct (set_raw_Some c (WeightH (bn_Dest I)) k (out k)) as (c1 & E1).
    { rewrite Hl. simpl. lia. }
    rewrite E1. exists c1. split; [reflexivity|]. split; [|split].
    + intros h Hh. rewrite (tensorOf_set_raw E1) by exact Hh. now apply Hfr.
    + rewrite (length_set_raw _ E1). exact Hl.
    + intros i Hi. change (raw c1 (WeightH (bn_Dest I)) i = Some (out i)).
      destruct (Nat.eq_dec i k) as [->|Hik].
      * apply (raw_set_same E1).
      * rewrite (raw_set_other E1) by tauto. apply Hcells. lia.
  - exists c. split; [exact Hc|]. split; [exact Hfr|]. intros i Hi. now apply Hcells.
Qed.

(** A loop that adds [val i] to the element [ch i] of a local tensor
    leaves in element [c] the sum of the channel [c]. *)
Lemma channel_loop (n C : nat) (ch : nat -> nat) (val : nat -> FloatTy)
  (body : nat -> Tensor FloatTy -> option (Tensor FloatTy))
  (t0 : Tensor FloatTy) :
  (forall i, i < n -> ch i < C) ->
  (forall i t, i < n -> dims t = [C] ->
     body i t = (old <- t_raw t (ch i) ;; t_set_raw t (ch i) (fadd old (val i)))) ->
  dims t0 = [C] -> wf_tensor t0 ->
  (forall c, c < C -> t_raw t0 c = Some fzero) ->
  exists t, for_loop n body t0 = Some t /\ dims t = [C] /\ wf_tensor t /\
    forall c, c < C -> t_raw t c = Some (channel_sum ch val n c).
Proof.
  intros Hch Hbody Hd Hw H0.
  apply (for_loop_ind (fun k t =>
    dims t = [C] /\ wf_tensor t /\
    forall c, c < C -> t_raw t c = Some (channel_sum ch val k c))).
  - auto.
  - intros k t Hk (Hdt & Hwt & Hcells).
    rewrite (Hbody k t Hk Hdt), (Hcells _ (Hch k Hk)).
    destruct (t_set_raw_Some _ t (ch k)
                (fadd (channel_sum ch val k (ch k)) (val k))) as (t' & E).
    { unfold wf_tensor, tsize in Hwt. rewrite Hwt, Hdt. simpl.
      specialize (Hch k Hk). lia. }
    rewrite E. exists t'. split; [reflexivity|]. split; [|split].
    + rewrite (t_set_raw_dims _ _ _ _ _ E). exact Hdt.
    + apply (t_set_raw_wf _ _ _ _ _ E Hwt).
    + intros c Hc. unfold channel_sum. rewrite seq_S, fold_left_app. simpl.
      fold (channel_sum ch val k c).
      destruct (Nat.eqb_spec (ch k) c) as [<-|Hne].
      * apply (t_raw_set_same _ _ _ _ _ E).
      * rewrite (t_raw_set_other _ _ _ _ _ _ E) by congruence. now apply Hcells.
Qed.

Lemma newTensor1 (C : nat) :
  dims (newTensor [C]) = [C] /\ wf_tensor (newTensor [C]) /\
  forall c, c < C -> t_raw (newTensor [C]) c = Some fzero.
Proof.
  unfold newTensor, wf_tensor, tsize, t_raw; simpl.
  split; [reflexivity|]. split; [apply repeat_length|].
  intros c Hc. apply nth_error_repeat. lia.
Qed.

(** The division of every element by the number of samples. *)
Lemma bn_divide_spec (C spc : nat) (t : Tensor FloatTy) (a : nat -> FloatTy) :
  dims t = [C] -> wf_tensor t ->
  (forall c, c < C -> t_raw t c = Some (a c)) ->
  exists t', bn_divide C spc t = Some t' /\
    forall c, c < C ->
      t_at t' [c] = Some (fdiv (a c) (of_size (Z.of_nat spc))).
Proof.
  intros Hd Hw Ha. unfold bn_divide.
  destruct (for_loop_ind (fun k u =>
    dims u = [C] /\ wf_tensor u /\
    forall c, c < C ->
      t_raw u c = Some (if c <? k then fdiv (a c) (of_size (Z.of_nat spc))
                        else a c))
    (fun i lm => old <- t_at lm [i] ;;
                 t_set_at lm [i] (fdiv old (of_size (Z.of_nat spc)))) C t)
    as (t' & E & Hd' & _ & Hcells).
  - split; [exact Hd|]. split; [exact Hw|]. intros c Hc. now apply Ha.
  - intros k u Hk (Hdu & Hwu & Hcells).
    unfold t_at, t_set_at. rewrite Hdu, (at_index1 C k Hk), (Hcells k Hk).
    rewrite Nat.ltb_irrefl.
    destruct (t_set_raw_Some _ u k (fdiv (a k) (of_size (Z.of_nat spc))))
      as (u' & E).
    { unfold wf_tensor, tsize in Hwu. rewrite Hwu, Hdu. simpl. lia. }
    rewrite E. exists u'. split; [reflexivity|]. split; [|split].
    + rewrite (t_set_raw_dims _ _ _ _ _ E). exact Hdu.
    + apply (t_set_raw_wf _ _ _ _ _ E Hwu).
    + intros c Hc. destruct (Nat.eq_dec c k) as [->|Hck].
      * rewrite (t_raw_set_same _ _ _ _ _ E).
        replace (k <? S k) with true by (symmetry; apply Nat.ltb_lt; lia).
        reflexivity.
      * rewrite (t_raw_set_other _ _ _ _ _ _ E) by exact Hck.
        rewrite (Hcells c Hc).
        replace (c <? S k) with (c <? k); [reflexivity|].
        destruct (Nat.ltb_spec c k), (Nat.ltb_spec c (S k)); auto; lia.
  - exists t'. split; [exact E|]. intros c Hc.
    unfold t_at. rewrite Hd', (at_index1 C c Hc), (Hcells c Hc).
    replace (c <? C) with true by (symmetry; now apply Nat.ltb_lt).
    reflexivity.
Qed.

Lemma isInBounds1 (C c : nat) : c < C -> isInBounds [C] [c] = true.
Proof. intros H. simpl. apply Nat.ltb_lt in H. now rewrite H. Qed.

(** The running statistics after the update: the blend of the local and
    the old value, for the mean and for the variance. *)
Lemma bn_updateStats_spec (I : BatchNormalizationInst) (ctx : Context)
  (C : nat) (lm lv : Tensor FloatTy) (lmf lvf mean var : nat -> FloatTy) :
  bn_Mean I <> bn_Var I ->
  tsize lm = C ->
  (forall c, c < C -> t_at lm [c] = Some (lmf c)) ->
  (forall c, c < C -> t_at lv [c] = Some (lvf c)) ->
  hdims ctx (WeightH (bn_Mean I)) = [C] ->
  hdims ctx (WeightH (bn_Var I)) = [C] ->
  wf_tensor (weightOf ctx (bn_Mean I)) ->
  wf_tensor (weightOf ctx (bn_Var I)) ->
  (forall c, c < C -> hat ctx (WeightH (bn_Mean I)) [c] = Some (mean c)) ->
  (forall c, c < C -> hat ctx (WeightH (bn_Var I)) [c] = Some (var c)) ->
  exists ctx',
    bn_updateStats I lm lv ctx = Some ctx' /\
    (forall h, h <> WeightH (bn_Mean I) -> h <> WeightH (bn_Var I) ->
               tensorOf ctx' h = tensorOf ctx h) /\
    hdims ctx' (WeightH (bn_Mean I)) = [C] /\
    hdims ctx' (WeightH (bn_Var I)) = [C] /\
    wf_tensor (tensorOf ctx' (WeightH (bn_Mean I))) /\
    wf_tensor (tensorOf ctx' (WeightH (bn_Var I))) /\
    forall c, c < C ->
      hat ctx' (WeightH (bn_Mean I)) [c] =
        Some (bn_blend (bn_Momentum I) (lmf c) (mean c)) /\
      hat ctx' (WeightH (bn_Var I)) [c] =
        Some (bn_blend (bn_Momentum I) (lvf c) (var c)).
Proof.
  intros Hmv Hsz Hlm Hlv Hdm Hdv Wm Wv Hm Hv.
  unfold bn_updateStats. cbv zeta. rewrite Hsz.
  set (P := bn_Momentum I).
  destruct (for_loop_ind (fun k c =>
    (forall h, h <> WeightH (bn_Mean I) -> h <> WeightH (bn_Var I) ->
               tensorOf c h = tensorOf ctx h) /\
    hdims c (WeightH (bn_Mean I)) = [C] /\
    hdims c (WeightH (bn_Var I)) = [C] /\
    wf_tensor (tensorOf c (WeightH (bn_Mean I))) /\
    wf_tensor (tensorOf c (WeightH (bn_Var I))) /\
    forall j, j < C ->
      hat c (WeightH (bn_Mean I)) [j] =
        Some (if j <? k then bn_blend P (lmf j) (mean j) else mean j) /\
      hat c (WeightH (bn_Var I)) [j] =
        Some (if j <? k then bn_blend P (lvf j) (var j) else var j))
    (fun i c =>
       lm' <- t_at lm [i] ;;
       m <- hat c (WeightH (bn_Mean I)) [i] ;;
       c <- hset c (WeightH (bn_Mean I)) [i] (bn_blend P lm' m) ;;
       lv' <- t_at lv [i] ;;
       v <- hat c (WeightH (bn_Var I)) [i] ;;
       hset c (WeightH (bn_Var I)) [i] (bn_blend P lv' v)) C ctx)
    as (c & E & Hfr & Hd1 & Hd2 & W1 & W2 & Hcells).
  - split; [auto|]. split; [exact Hdm|]. split; [exact Hdv|].
    split; [exact Wm|]. split; [exact Wv|].
    intros j Hj. simpl. split; [now apply Hm|now apply Hv].
  - intros k c Hk (Hfr & Hd1 & Hd2 & W1 & W2 & Hcells).
    rewrite (Hlm k Hk). destruct (Hcells k Hk) as (Rm & Rv).
    rewrite Nat.ltb_irrefl in Rm, Rv. rewrite Rm.
    destruct (hset_Some c (WeightH (bn_Mean I)) [k]
                (bn_blend P (lmf k) (mean k)) W1) as (c1 & E1).
    { rewrite Hd1. now apply isInBounds1. }
    rewrite E1, (Hlv k Hk).
    rewrite (hat_set_other E1) by (left; congruence). rewrite Rv.
    destruct (hset_Some c1 (WeightH (bn_Var I)) [k]
                (bn_blend P (lvf k) (var k))) as (c2 & E2).
    { apply (wf_hset (WeightH (bn_Var I)) E1). exact W2. }
    { rewrite (hdims_hset (WeightH (bn_Var I)) E1), Hd2. now apply isInBounds1. }
    rewrite E2. exists c2. split; [reflexivity|].
    split; [|split; [|split; [|split; [|split]]]].
    + intros h H1 H2. rewrite (tensorOf_hset E2) by exact H2.
      rewrite (tensorOf_hset E1) by exact H1. now apply Hfr.
    + rewrite (hdims_hset (WeightH (bn_Mean I)) E2).
      rewrite (hdims_hset (WeightH (bn_Mean I)) E1). exact Hd1.
    + rewrite (hdims_hset (WeightH (bn_Var I)) E2).
      rewrite (hdims_hset (WeightH (bn_Var I)) E1). exact Hd2.
    + apply (wf_hset (WeightH (bn_Mean I)) E2).
      apply (wf_hset (WeightH (bn_Mean I)) E1). exact W1.
    + apply (wf_hset (WeightH (bn_Var I)) E2).
      apply (wf_hset (WeightH (bn_Var I)) E1). exact W2.
    + intros j Hj. destruct (Hcells j Hj) as (Rm' & Rv').
      rewrite (hat_set_other (h' := WeightH (bn_Mean I)) E2) by (left; congruence).
      destruct (Nat.eq_dec j k) as [->|Hjk].
      * rewrite (hat_set_same E1), (hat_set_same E2).
        replace (k <? S k) with true by (symmetry; apply Nat.ltb_lt; lia).
        split; reflexivity.
      * rewrite (hat_set_other E1) by (right; congruence).
        rewrite (hat_set_other E2) by (right; congruence).
        rewrite (hat_set_other E1) by (left; congruence).
        rewrite Rm', Rv'.
        replace (j <? S k) with (j <? k); [split; reflexivity|].
        destruct (Nat.ltb_spec j k), (Nat.ltb_spec j (S k)); auto; lia.
  - exists c. split; [exact E|]. split; [exact Hfr|]. split; [exact Hd1|].
    split; [exact Hd2|]. split; [exact W1|]. split; [exact W2|].
    intros j Hj. destruct (Hcells j Hj) as (Rm & Rv). rewrite Rm, Rv.
    replace (j <? C) with true by (symmetry; now apply Nat.ltb_lt).
    split; reflexivity.
Qed.

(** The training forward: local statistics, blended into the running
    ones, and the inference formula on the blended statistics. *)
Lemma fwdBatchNormalization_train_output (I : BatchNormalizationInst)
  (ctx : Context) (ds : list nat) (C : nat) (x : nat -> FloatTy)
  (mean var gamma beta : nat -> FloatTy) :
  bn_ready I ctx ds C x mean var gamma beta ->
  let n := prod_dims ds in
  let ch := getDimForPtr ds (bn_ChannelIdx I) in
  let spc := n / C in
  let P := bn_Momentum I in
  let mean' := fun c => bn_blend P (local_mean ch x n spc c) (mean c) in
  let var' := fun c => bn_blend P (local_var ch x n spc c) (var c) in
  exists ctx',
    fwdBatchNormalizationInst_train I ctx = Some ctx' /\
    (forall c, c < C ->
       hat ctx' (WeightH (bn_Mean I)) [c] = Some (mean' c) /\
       hat ctx' (WeightH (bn_Var I)) [c] = Some (var' c)) /\
    forall i, i < n ->
      raw ctx' (WeightH (bn_Dest I)) i =
      Some (bn_output (bn_Epsilon I) (x i) (mean' (ch i)) (var' (ch i))
              (gamma (ch i)) (beta (ch i))).
Proof.
  intros Hready n ch spc P mean' var'.
  pose proof Hready as
    (Hnd & Hds & Hch & HC & Hdm & Hdv & Wm & Wv & Hlen & Hx & Hm & Hv & Hg & Hb).
  pose proof (NoDup6 _ _ _ _ _ _ Hnd) as
    (D1 & D2 & D3 & D4 & D5 & D6 & D7 & D8 & D9 & D10 & D11 & D12 & D13 & D14 & D15).
  assert (Hsize : hsize ctx (WeightH (bn_Src I)) = n)
    by (unfold hsize, tsize; fold (hdims ctx (WeightH (bn_Src I)));
        now rewrite Hds).
  assert (Hchlt : forall i, ch i < C)
    by (intros i; now apply getDimForPtr_lt).
  unfold fwdBatchNormalizationInst_train. cbv zeta.
  rewrite Hds, Hch, Hdm, Hdv, Hsize.
  replace (negb (C =? 0)) with true
    by (symmetry; apply negb_true_iff, Nat.eqb_neq; lia).
  fold spc.
  destruct (newTensor1 C) as (N1 & N2 & N3).
  (* the sums, then the means *)
  destruct (channel_loop n C ch x
    (fun i lm =>
       channelId <- channelOf (hdims ctx (WeightH (bn_Src I))) (bn_ChannelIdx I) i ;;
       v <- raw ctx (WeightH (bn_Src I)) i ;;
       old <- t_raw lm channelId ;;
       t_set_raw lm channelId (fadd old v)) (newTensor [C]))
    as (s1 & E1 & Ds1 & Ws1 & Cs1); auto.
  { intros i t Hi _. rewrite Hds, (channelOf_Some ds _ i C Hch), (Hx i Hi).
    reflexivity. }
  unfold bn_localSum. rewrite Hsize, E1.
  assert (Ts1 : tsize s1 = C) by (unfold tsize; rewrite Ds1; simpl; lia).
  rewrite Ts1.
  destruct (bn_divide_spec C spc s1 (channel_sum ch x n) Ds1 Ws1 Cs1)
    as (lm & E2 & Clm).
  rewrite E2. fold (local_mean ch x n spc) in Clm.
  assert (Tlm : tsize lm = C).
  { unfold bn_divide in E2.
    assert (Hdl : dims lm = [C]).
    { revert E2. apply (for_loop_inv (fun u => dims u = [C])); [|exact Ds1].
      intros i t t' _ Ht Hs. unbind Hs.
      rewrite (t_set_at_dims _ _ _ _ _ Hs). exact Ht. }
    unfold tsize. rewrite Hdl. simpl. lia. }
  (* the sums of squares, then the variances *)
  destruct (channel_loop n C ch
    (fun i => let v := fsub (x i) (local_mean ch x n spc (ch i)) in fmul v v)
    (fun i lv =>
       channelId <- channelOf (hdims ctx (WeightH (bn_Src I))) (bn_ChannelIdx I) i ;;
       x <- raw ctx (WeightH (bn_Src I)) i ;;
       mu <- t_at lm [channelId] ;;
       old <- t_raw lv channelId ;;
       t_set_raw lv channelId (fadd old (fmul (fsub x mu) (fsub x mu))))
    (newTensor [C])) as (s2 & E3 & Ds2 & Ws2 & Cs2); auto.
  { intros i t Hi _. rewrite Hds, (channelOf_Some ds _ i C Hch), (Hx i Hi).
    fold (ch i). rewrite (Clm _ (Hchlt i)). reflexivity. }
  unfold bn_localSqSum. cbv zeta. rewrite Hsize, E3, Tlm.
  destruct (bn_divide_spec C spc s2 _ Ds2 Ws2 Cs2) as (lv & E4 & Clv).
  rewrite E4. fold (local_var ch x n spc) in Clv.
  (* the running statistics *)
  destruct (bn_updateStats_spec I ctx C lm lv _ _ mean var
              D15 Tlm Clm Clv Hdm Hdv Wm Wv Hm Hv)
    as (c1 & E5 & Hfr & Hdm1 & Hdv1 & Wm1 & Wv1 & Hstats).
  rewrite E5. fold P in Hstats. fold mean' var' in Hstats.
  (* the inference formula, on the updated context *)
  destruct (fwdBatchNormalization_infer_output I c1 ds C x mean' var' gamma beta)
    as (c2 & E6 & Hfr2 & Hout).
  { unfold bn_ready. split; [exact Hnd|].
    unfold hdims, raw, hat.
    rewrite !(Hfr (WeightH (bn_Src I))), !(Hfr (WeightH (bn_Scale I))),
      !(Hfr (WeightH (bn_Bias I))) by congruence.
    assert (Hd : tensorOf c1 (WeightH (bn_Dest I)) =
                 tensorOf ctx (WeightH (bn_Dest I)))
      by (apply Hfr; congruence).
    simpl in Hd. rewrite Hd.
    repeat split; auto; intros c Hc; apply (Hstats c Hc). }
  rewrite E6. exists c2. split; [reflexivity|]. split.
  - intros c Hc. unfold hat. rewrite !Hfr2 by congruence. apply (Hstats c Hc).
  - exact Hout.
Qed.

End BatchNormFacts.

(* ================================================================== *)
(** * Convolution: the backward kernel *)
(* ================================================================== *)

Section ConvBackward.
Context {ops : FloatOps}.
Variable I : ConvolutionInst.
Variable ctx0 : Context.

Lemma targets_spec (h h' : Handle) (idx idx' : list nat) (d : FloatTy) :
  targets h' idx' (h, idx, d) = true <-> h' = h /\ idx' = idx.
Proof.
  unfold targets, coord_eqb; simpl.
  destruct (list_eq_dec Nat.eq_dec idx' idx) as [->|Hne].
  - rewrite andb_true_r. destruct h, h'; simpl; split;
      try discriminate; try (intros [? _]; discriminate).
    + intros H. apply Nat.eqb_eq in H. subst. auto.
    + intros [H _]. inversion H. apply Nat.eqb_refl.
    + intros H. apply Nat.eqb_eq in H. subst. auto.
    + intros [H _]. inversion H. apply Nat.eqb_refl.
  - rewrite andb_false_r. split; [discriminate|]. intros [_ H]. contradiction.
Qed.

Lemma addends_app (h : Handle) (idx : list nat) (us vs : list Update) :
  addends h idx (us ++ vs) = addends h idx us ++ addends h idx vs.
Proof. unfold addends. now rewrite filter_app, map_app. Qed.

Lemma performs_skip : performs I ctx0 (fun c => Some c) [].
Proof. intros c Hfr. exists c. repeat split; auto; apply Hfr. Qed.

Lemma performs_seq (f g : Context -> option Context) (us vs : list Update) :
  performs I ctx0 f us -> performs I ctx0 g vs ->
  performs I ctx0 (fun c => c1 <- f c ;; g c1) (us ++ vs).
Proof.
  intros Hf Hg c Hfr.
  destruct (Hf c Hfr) as (c1 & E1 & F1 & A1). rewrite E1.
  destruct (Hg c1 F1) as (c2 & E2 & F2 & A2).
  exists c2. split; [exact E2|]. split; [exact F2|].
  intros h idx v Hv. rewrite addends_app, fold_left_app.
  apply A2, A1, Hv.
Qed.

Lemma performs_loop (n : nat) (body : nat -> Context -> option Context)
  (us : nat -> list Update) :
  (forall i, i < n -> performs I ctx0 (body i) (us i)) ->
  performs I ctx0 (for_loop n body) (flat_map us (seq 0 n)).
Proof.
  induction n as [|n IH]; intros Hbody.
  - apply performs_skip.
  - rewrite seq_S, flat_map_app. simpl. rewrite app_nil_r.
    apply (performs_seq (for_loop n body) (body n)).
    + apply IH. intros; apply Hbody; lia.
    + apply Hbody. lia.
Qed.

(** One accumulation into a gradient the kernel owns. *)
Lemma performs_hadd (v : Value) (idx : list nat) (d : FloatTy) :
  v <> conv_Dest I ->
  v = conv_Src I \/ v = conv_Filter I \/ v = conv_Bias I ->
  isInBounds (hdims ctx0 (GradH v)) idx = true ->
  performs I ctx0 (fun c => hadd c (GradH v) idx d) [(GradH v, idx, d)].
Proof.
  intros Hd Hv Hb c (Hw & Hg & Hdims & W1 & W2 & W3).
  assert (Wv : wf_tensor (tensorOf c (GradH v)))
    by (destruct Hv as [->|[->| ->]]; assumption).
  destruct (hat_Some c (GradH v) idx Wv) as (old & Hold).
  { now rewrite Hdims. }
  unfold hadd. rewrite Hold.
  destruct (hset_Some c (GradH v) idx (fadd old d) Wv) as (c' & E).
  { now rewrite Hdims. }
  rewrite E. exists c'. split; [reflexivity|]. split.
  - pose proof (hset_inv E) as (t' & _ & Hc').
    unfold conv_frame. split; [rewrite Hc'; exact Hw|].
    split.
    { change (tensorOf c' (GradH (conv_Dest I)) = gradOf ctx0 (conv_Dest I)).
      rewrite (tensorOf_hset E) by congruence. exact Hg. }
    split; [intros h; rewrite (hdims_hset h E); apply Hdims|].
    split; [|split].
    + apply (wf_hset (GradH (conv_Src I)) E). exact W1.
    + apply (wf_hset (GradH (conv_Filter I)) E). exact W2.
    + apply (wf_hset (GradH (conv_Bias I)) E). exact W3.
  - intros h idx' u Hu. unfold addends. simpl.
    destruct (targets h idx' (GradH v, idx, d)) eqn:T; simpl.
    + apply targets_spec in T. destruct T as (-> & ->).
      rewrite (hat_set_same E). congruence.
    + rewrite (hat_set_other E); [exact Hu|].
      destruct (Handle_eq_dec h (GradH v)) as [->|Hh]; [|now left].
      right. intros ->.
      assert (targets (GradH v) idx (GradH v, idx, d) = true)
        by (apply targets_spec; auto).
      congruence.
Qed.

Variables src filt g : Image.
Variables odim idim : ShapeNHWC.
Hypothesis Hready : conv_ready I ctx0 src filt g odim idim.

Lemma conv_read_src (c : Context) (n a b fd : nat) :
  conv_frame I ctx0 c ->
  n < sn idim -> a < sh idim -> b < sw idim -> fd < sc idim ->
  hat c (WeightH (conv_Src I)) [n; a; b; fd] = Some (src n a b fd).
Proof.
  intros (Hw & _) Hn Ha Hb Hfd. unfold hat; simpl. rewrite Hw.
  now apply Hready.
Qed.

Lemma conv_read_filter (c : Context) (d fx fy fd : nat) :
  conv_frame I ctx0 c ->
  d < sc odim -> fx < conv_Kernel I -> fy < conv_Kernel I -> fd < sc idim ->
  hat c (WeightH (conv_Filter I)) [d; fx; fy; fd] = Some (filt d fx fy fd).
Proof.
  intros (Hw & _) Hd Hx Hy Hfd. unfold hat; simpl. rewrite Hw.
  now apply Hready.
Qed.

Lemma conv_read_outG (c : Context) (n ax ay d : nat) :
  conv_frame I ctx0 c ->
  n < sn odim -> ax < sh odim -> ay < sw odim -> d < sc odim ->
  hat c (GradH (conv_Dest I)) [n; ax; ay; d] = Some (g n ax ay d).
Proof.
  intros (_ & Hg & _) Hn Ha Hb Hd. unfold hat; simpl. rewrite Hg.
  now apply Hready.
Qed.

Lemma isInBounds4 (A B C D a b c d : nat) :
  a < A -> b < B -> c < C -> d < D ->
  isInBounds [A; B; C; D] [a; b; c; d] = true.
Proof.
  intros. simpl.
  repeat (apply andb_true_iff; split); try apply Nat.ltb_lt; auto.
Qed.

(** The two accumulations of the innermost loop. *)
Lemma bwdConv_update_performs (n d fx fy : nat) (ox oy : Z) (fd : nat) :
  n < sn odim -> d < sc odim -> fx < conv_Kernel I -> fy < conv_Kernel I ->
  fd < sc idim ->
  out_of_range ox oy (sh odim) (sw odim) = false ->
  forall chainGrad,
  performs I ctx0 (bwdConv_update I n d fx fy ox oy chainGrad fd)
    [ (GradH (conv_Filter I), [d; fx; fy; fd],
       fmul (src 0 (size_of_ssize ox) (size_of_ssize oy) fd) chainGrad);
      (GradH (conv_Src I), [n; size_of_ssize ox; size_of_ssize oy; fd],
       fmul (filt d fx fy fd) chainGrad) ].
Proof.
  intros Hn Hd Hfx Hfy Hfd Hin chainGrad.
  pose proof Hready as
    (Hnd & _ & _ & HdS & HdF & _ & _ & _ & _ & LN & LH & LW & BH & BW & _).
  assert (Hd4 : conv_Dest I <> conv_Src I /\ conv_Dest I <> conv_Filter I).
  { inversion Hnd as [|? ? Hnot _]; subst. simpl in Hnot. split; intros E;
      apply Hnot; rewrite E; auto. }
  rewrite out_of_range_spec in Hin by assumption.
  apply negb_false_iff in Hin.
  destruct (in_range_coords _ _ _ _ BH BW Hin) as (Ex & Ey & Lx & Ly & _).
  rewrite Ex, Ey.
  intros c Hfr. unfold bwdConv_update. rewrite Ex, Ey.
  rewrite (conv_read_src c 0 _ _ fd Hfr) by lia.
  destruct (performs_hadd (conv_Filter I) [d; fx; fy; fd]
              (fmul (src 0 (Z.to_nat ox) (Z.to_nat oy) fd) chainGrad))
    with (c := c) as (c1 & E1 & F1 & A1); auto.
  { intros E. apply (proj2 Hd4). auto. }
  { rewrite HdF. now apply isInBounds4. }
  rewrite E1. rewrite (conv_read_filter c1 d fx fy fd F1) by assumption.
  destruct (performs_hadd (conv_Src I) [n; Z.to_nat ox; Z.to_nat oy; fd]
              (fmul (filt d fx fy fd) chainGrad))
    with (c := c1) as (c2 & E2 & F2 & A2); auto.
  { intros E. apply (proj1 Hd4). auto. }
  { rewrite HdS. apply isInBounds4; lia. }
  exists c2. split; [exact E2|]. split; [exact F2|].
  intros h idx v Hv.
  change [(GradH (conv_Filter I), [d; fx; fy; fd],
           fmul (src 0 (Z.to_nat ox) (Z.to_nat oy) fd) chainGrad);
          (GradH (conv_Src I), [n; Z.to_nat ox; Z.to_nat oy; fd],
           fmul (filt d fx fy fd) chainGrad)]
    with ([(GradH (conv_Filter I), [d; fx; fy; fd],
            fmul (src 0 (Z.to_nat ox) (Z.to_nat oy) fd) chainGrad)] ++
          [(GradH (conv_Src I), [n; Z.to_nat ox; Z.to_nat oy; fd],
            fmul (filt d fx fy fd) chainGrad)]).
  rewrite addends_app, fold_left_app. apply A2, A1, Hv.
Qed.

(** One output position: the window, then the bias. *)
Lemma bwdConv_anchor_performs (n d ay ax : nat) :
  n < sn odim -> d < sc odim -> ay < sw odim -> ax < sh odim ->
  let x := anchor (conv_Pad I) (conv_Stride I) ax in
  let y := anchor (conv_Pad I) (conv_Stride I) ay in
  performs I ctx0 (bwdConv_anchor I odim idim n d ay ax)
    (flat_map (fun fy =>
     flat_map (fun fx =>
       let ox := ssize_add x fx in
       let oy := ssize_add y fy in
       if out_of_range ox oy (sh odim) (sw odim) then []
       else
         flat_map (fun fd =>
           [ (GradH (conv_Filter I), [d; fx; fy; fd],
              fmul (src 0 (size_of_ssize ox) (size_of_ssize oy) fd)
                   (g n ax ay d));
             (GradH (conv_Src I),
              [n; size_of_ssize ox; size_of_ssize oy; fd],
              fmul (filt d fx fy fd) (g n ax ay d)) ])
           (seq 0 (sc idim)))
       (seq 0 (conv_Kernel I)))
       (seq 0 (conv_Kernel I))
     ++ [ (GradH (conv_Bias I), [d], g n ax ay d) ]).
Proof.
  intros Hn Hd Hay Hax x y c Hfr.
  pose proof Hready as (Hnd & _ & _ & _ & _ & HdB & _).
  unfold bwdConv_anchor. cbv zeta.
  rewrite (conv_read_outG c n ax ay d Hfr) by assumption.
  fold x y.
  refine (performs_seq _ (fun c => hadd c (GradH (conv_Bias I)) [d] (g n ax ay d))
            _ _ _ _ c Hfr).
  - apply performs_loop. intros fy Hfy.
    apply performs_loop. intros fx Hfx. cbv zeta.
    destruct (out_of_range (ssize_add x fx) (ssize_add y fy) (sh odim) (sw odim))
      eqn:E.
    + apply performs_skip.
    + apply performs_loop. intros fd Hfd.
      now apply bwdConv_update_performs.
  - apply performs_hadd; auto.
    + inversion Hnd as [|? ? Hnot _]; subst. simpl in Hnot.
      intros E. apply Hnot. rewrite <- E. auto.
    + rewrite HdB. now apply isInBounds1.
Qed.

(** The whole kernel returns, and every element of every tensor has
    taken the addends of the list of updates, in their order. *)
Lemma bwdConvolution_accumulates :
  exists ctx',
    bwdConvolutionInst I ctx0 = Some ctx' /\
    forall h idx v, hat ctx0 h idx = Some v ->
      hat ctx' h idx =
      Some (fold_left fadd
              (addends h idx (bwdConv_updates I src filt g odim (sc idim))) v).
Proof.
  pose proof Hready as (_ & HdO & HdI & _ & _ & _ & W1 & W2 & W3 & _).
  assert (Hfr : conv_frame I ctx0 ctx0) by (repeat split; auto).
  unfold bwdConvolutionInst. cbv zeta. rewrite HdO, HdI. simpl.
  assert (Ho : mkShape (sn odim) (sh odim) (sw odim) (sc odim) = odim)
    by (destruct odim; reflexivity).
  assert (Hi : mkShape (sn idim) (sh idim) (sw idim) (sc idim) = idim)
    by (destruct idim; reflexivity).
  rewrite Ho, Hi.
  destruct (performs_loop (sn odim)
    (fun n c =>
       for_loop (sc odim) (fun d c =>
         for_loop (sw odim) (fun ay c =>
           for_loop (sh odim) (fun ax c =>
             bwdConv_anchor I odim idim n d ay ax c) c) c) c)
    (fun n =>
       flat_map (fun d =>
       flat_map (fun ay =>
       flat_map (fun ax =>
         let x := anchor (conv_Pad I) (conv_Stride I) ax in
         let y := anchor (conv_Pad I) (conv_Stride I) ay in
         let chainGrad := g n ax ay d in
         flat_map (fun fy =>
         flat_map (fun fx =>
           let ox := ssize_add x fx in
           let oy := ssize_add y fy in
           if out_of_range ox oy (sh odim) (sw odim) then []
           else
             flat_map (fun fd =>
               [ (GradH (conv_Filter I), [d; fx; fy; fd],
                  fmul (src 0 (size_of_ssize ox) (size_of_ssize oy) fd) chainGrad);
                 (GradH (conv_Src I),
                  [n; size_of_ssize ox; size_of_ssize oy; fd],
                  fmul (filt d fx fy fd) chainGrad) ])
               (seq 0 (sc idim)))
           (seq 0 (conv_Kernel I)))
           (seq 0 (conv_Kernel I))
         ++ [ (GradH (conv_Bias I), [d], chainGrad) ])
         (seq 0 (sh odim)))
         (seq 0 (sw odim)))
         (seq 0 (sc odim)))) with (c := ctx0) as (c' & E & _ & A).
  - intros n Hn. apply performs_loop. intros d Hd.
    apply performs_loop. intros ay Hay.
    apply performs_loop. intros ax Hax.
    now apply bwdConv_anchor_performs.
  - exact Hfr.
  - exists c'. split; [exact E|]. exact A.
Qed.

End ConvBackward.

(* ================================================================== *)
(** * The properties of the specification *)
(* ================================================================== *)

Section Contents.
Context {ops : FloatOps}.

Lemma get_hat (ctx : Context) (h : Handle) (idx : list nat) :
  wf_tensor (tensorOf ctx h) -> isInBounds (hdims ctx h) idx = true ->
  hat ctx h idx = Some (get (hat ctx h idx)).
Proof.
  intros W B. destruct (hat_Some ctx h idx W B) as (v & ->). reflexivity.
Qed.

Lemma get_raw (ctx : Context) (h : Handle) (i : nat) :
  i < length (elems (tensorOf ctx h)) ->
  raw ctx h i = Some (get (raw ctx h i)).
Proof.
  intros H. unfold raw, t_raw.
  destruct (nth_error (elems (tensorOf ctx h)) i) eqn:E; [reflexivity|].
  apply nth_error_None in E. lia.
Qed.

End Contents.

(** C8. The backward kernel of an arithmetic Mul overwrites the gradients
    of both operands: for every flat index [i], afterwards
    [LHSG(i) = RHS(i) * outG(i)] and [RHSG(i) = LHS(i) * outG(i)], whatever
    the gradients held before.  In scenario S6 (LHS = [2], RHS = [3],
    outG = [1], LHSG = [99] before), in binary32, afterwards LHSG = [3]
    and RHSG = [2]. *)
Theorem bwdArithmetic_mul_overwrite :
  (forall (ops : FloatOps) (I : ArithmeticInst) (ctx : Context)
          (lhs rhs g : nat -> FloatTy),
     arith_Kind I = ArithMul ->
     arith_Dest I <> arith_LHS I ->
     arith_Dest I <> arith_RHS I ->
     let n := hsize ctx (GradH (arith_Dest I)) in
     (forall i, i < n -> raw ctx (WeightH (arith_LHS I)) i = Some (lhs i)) ->
     (forall i, i < n -> raw ctx (WeightH (arith_RHS I)) i = Some (rhs i)) ->
     (forall i, i < n -> raw ctx (GradH (arith_Dest I)) i = Some (g i)) ->
     n <= length (elems (gradOf ctx (arith_LHS I))) ->
     n <= length (elems (gradOf ctx (arith_RHS I))) ->
     exists ctx',
       bwdArithmeticInst I ctx = Some ctx' /\
       forall i, i < n ->
         raw ctx' (GradH (arith_LHS I)) i = Some (fmul (rhs i) (g i)) /\
         raw ctx' (GradH (arith_RHS I)) i = Some (fmul (lhs i) (g i)))
  /\
  (forall exp32 pow32,
     let ops := Binary32 exp32 pow32 in
     elems (gradOf (@ctxS6 ops) 1) = [@lit ops 99] /\
     grads_after (@bwdArithmeticInst ops mulS6 ctxS6) 1 = Some [@lit ops 3] /\
     grads_after (@bwdArithmeticInst ops mulS6 ctxS6) 2 = Some [@lit ops 2]).
Proof.
  split.
  - intros ops I ctx lhs rhs g. apply bwdArithmetic_mul_overwrites.
  - intros exp32 pow32 ops.
    split; [vm_compute; reflexivity|]. split; vm_compute; reflexivity.
Qed.

Lemma bwdArithmetic_mul_overwrite_witness :
  exists ctx',
    @bwdArithmeticInst RealOps mulS6 ctxS6 = Some ctx' /\
    forall i, i < 1 ->
      raw ctx' (GradH 1) i = Some (3 * 1)%R /\
      raw ctx' (GradH 2) i = Some (2 * 1)%R.
Proof.
  apply (proj1 bwdArithmetic_mul_overwrite RealOps mulS6 ctxS6
           (fun _ => 2%R) (fun _ => 3%R) (fun _ => 1%R)).
  - reflexivity.
  - discriminate.
  - discriminate.
  - intros i Hi. destruct i; [reflexivity|]. vm_compute in Hi. lia.
  - intros i Hi. destruct i; [reflexivity|]. vm_compute in Hi. lia.
  - intros i Hi. destruct i; [reflexivity|]. vm_compute in Hi. lia.
  - vm_compute. lia.
  - vm_compute. lia.
Defined.

(** C7. The backward kernel of ReLU adds [y > 0 ? outG(i) : 0] to
    [inG(i)], where the gate [y] is the value of the destination (the
    output of the forward kernel) at [i], not the input, and [y == 0]
    contributes 0.  The kernel tests [y <= 0]; for values that compare
    with 0 (any number that is not a NaN) that is the test [y > 0]
    negated.  In scenario S4 (src = [-1, 0, 2], outG = [5, 7, 9]), in
    binary32, the forward kernel writes [0, 0, 2] and the backward kernel
    then adds [0, 0, 9] to the input gradient. *)
Theorem bwdRelu_gates_on_output :
  (forall (ops : FloatOps) (I : ReluInst) (ctx : Context)
          (y dy dx : nat -> FloatTy),
     relu_Dest I <> relu_Src I ->
     let n := hsize ctx (WeightH (relu_Dest I)) in
     (forall i, i < n -> raw ctx (WeightH (relu_Dest I)) i = Some (y i)) ->
     (forall i, i < n -> raw ctx (GradH (relu_Dest I)) i = Some (dy i)) ->
     (forall i, i < n -> raw ctx (GradH (relu_Src I)) i = Some (dx i)) ->
     (forall i, i < n -> flt fzero (y i) = negb (fle (y i) fzero)) ->
     exists ctx',
       bwdReluInst I ctx = Some ctx' /\
       forall i, i < n ->
         raw ctx' (GradH (relu_Src I)) i =
         Some (fadd (dx i) (if flt fzero (y i) then dy i else fzero)))
  /\
  (forall exp32 pow32,
     let ops := Binary32 exp32 pow32 in
     let forward := fun inG => @fwdReluInst ops true reluS4 (ctxS4 inG) in
     weights_after (forward [0; 0; 0]%Z) 0 = Some (map (@lit ops) [0; 0; 2]%Z) /\
     grads_after (forward [0; 0; 0]%Z) 1 = Some (map (@lit ops) [0; 0; 0]%Z) /\
     grads_after (and_then (forward [0; 0; 0]%Z) (bwdReluInst reluS4)) 1 =
       Some (map (@lit ops) [0; 0; 9]%Z) /\
     grads_after (and_then (forward [1; 2; 3]%Z) (bwdReluInst reluS4)) 1 =
       Some (map (@lit ops) [1; 2; 12]%Z)).
Proof.
  split.
  - intros ops I ctx y dy dx Hne n Hy Hdy Hdx Hcmp.
    destruct (bwdRelu_accumulates I ctx y dy dx Hne Hy Hdy Hdx) as (c & E & H).
    exists c. split; [exact E|]. intros i Hi. rewrite (H i Hi). fold n in Hi.
    rewrite (Hcmp i Hi). destruct (fle (y i) fzero); reflexivity.
  - intros exp32 pow32 ops forward.
    split; [vm_compute; reflexivity|]. split; [vm_compute; reflexivity|].
    split; vm_compute; reflexivity.
Qed.

Lemma bwdRelu_gates_on_output_witness :
  exists ctx',
    @bwdReluInst RealOps reluS4 (ctxS4_forward [0; 0; 0]%Z) = Some ctx' /\
    forall i, i < 3 ->
      raw ctx' (GradH 1) i =
      Some (0 + (if @flt RealOps 0 (nth i [0; 0; 2] 0)
                 then nth i [5; 7; 9] 0 else 0))%R.
Proof.
  apply (proj1 bwdRelu_gates_on_output RealOps reluS4
           (ctxS4_forward [0; 0; 0]%Z)
           (fun i => nth i [0; 0; 2]%R 0%R) (fun i => nth i [5; 7; 9]%R 0%R)
           (fun _ => 0%R)).
  - discriminate.
  - intros i Hi. vm_compute in Hi.
    destruct i as [|[|[|i]]]; try reflexivity; lia.
  - intros i Hi. vm_compute in Hi.
    destruct i as [|[|[|i]]]; try reflexivity; lia.
  - intros i Hi. vm_compute in Hi.
    destruct i as [|[|[|i]]]; try reflexivity; lia.
  - intros i Hi. vm_compute in Hi.
    destruct i as [|[|[|i]]]; try lia; cbn [nth flt fle RealOps fzero];
      destruct (Rlt_dec _ _), (Rle_dec _ _); cbn [negb]; auto; lra.
Defined.

(** C9. The forward kernel of every primitive (copy, convolution,
    pooling, fully connected, the activations, softmax, regression,
    transpose, reshape, concat, batch normalization in both modes, local
    response normalization, arithmetic) leaves every gradient tensor of
    the context as it was: whatever it writes is a weight tensor or a
    saved tensor of the instruction.  Of the tensors of saved coordinates
    it changes none but the srcXY of a max pooling. *)
Theorem fwd_keeps_gradients :
  forall (ops : FloatOps) (isTrain : bool) (i : Instruction)
         (ctx ctx' : Context),
    fwd isTrain i ctx = Some ctx' ->
    gradOf ctx' = gradOf ctx /\
    forall v : Value,
      (forall I, i = IPool I -> pool_Kind I = PoolMax -> v <> pool_srcXY I) ->
      indexOf ctx' v = indexOf ctx v.
Proof.
  intros ops isTrain i ctx ctx' H. split.
  - exact (fwd_grads isTrain i ctx ctx' H).
  - intros v Hv. exact (fwd_indices isTrain i ctx ctx' v Hv H).
Qed.

Lemma fwd_keeps_gradients_witness :
  exists ctx',
    @fwd RealOps true (IRelu reluS4) (ctxS4 [1; 2; 3]%Z) = Some ctx' /\
    gradOf ctx' = gradOf (@ctxS4 RealOps [1; 2; 3]%Z).
Proof.
  eexists. split; [reflexivity|].
  apply (fwd_keeps_gradients RealOps true (IRelu reluS4)). reflexivity.
Defined.

(** C4. For every (n, z, ay, ax) the output of the average pooling is the
    sum of the input values at the valid (in-range) positions of the
    window, divided by K * K, however many positions are valid.  With
    K = 2, S = 1, P = 1 on a 2 by 2 input of ones, in binary32, the window
    of the top-left output has one valid position, and the top-left output
    is 1/4. *)
Theorem fwdPoolAvg_divides_by_area :
  (forall (ops : FloatOps) (I : PoolInst) (ctx : Context) (src : Image)
          (N H W C ON OH OW OC : nat),
     pool_Dest I <> pool_Src I ->
     hdims ctx (WeightH (pool_Src I)) = [N; H; W; C] ->
     hdims ctx (WeightH (pool_Dest I)) = [ON; OH; OW; OC] ->
     wf_tensor (weightOf ctx (pool_Dest I)) ->
     (forall n a b c, n < N -> a < H -> b < W -> c < C ->
        hat ctx (WeightH (pool_Src I)) [n; a; b; c] = Some (src n a b c)) ->
     ON <= N -> C <= OC ->
     (Z.of_nat H < 2 ^ 63)%Z -> (Z.of_nat W < 2 ^ 63)%Z ->
     exists ctx',
       fwdPoolAvg_impl I ctx = Some ctx' /\
       forall n z ay ax, n < ON -> z < C -> ay < OW -> ax < OH ->
         hat ctx' (WeightH (pool_Dest I)) [n; ax; ay; z] =
         Some (fdiv
                 (window_sum src n z
                    (valid_positions (pool_Kernel I)
                       (anchor (pool_Pad I) (pool_Stride I) ax)
                       (anchor (pool_Pad I) (pool_Stride I) ay) H W))
                 (of_size (to_size (Z.of_nat (pool_Kernel I)
                                    * Z.of_nat (pool_Kernel I))))))
  /\
  (forall exp32 pow32,
     let ops := Binary32 exp32 pow32 in
     valid_positions 2 (anchor 1 1 0) (anchor 1 1 0) 2 2 = [(0, 0)%Z] /\
     weights_after (@fwdPoolAvg_impl ops poolAvg9 ctxAvg9) 0 =
       Some (map (fun q => @fdiv ops (lit 1) (lit q))
                 [4; 2; 4; 2; 1; 2; 4; 2; 4]%Z) /\
     b32_is (@fdiv ops (lit 1) (lit 4)) 1 4).
Proof.
  split.
  - intros ops I ctx src N H W C ON OH OW OC.
    apply fwdPoolAvg_output.
  - intros exp32 pow32 ops. split; [reflexivity|].
    split; [vm_compute; reflexivity|].
    exists 8388608%Z, (2 ^ 25)%Z. repeat split.
Qed.

Lemma fwdPoolAvg_divides_by_area_witness :
  exists ctx',
    @fwdPoolAvg_impl RealOps poolAvg9 ctxAvg9 = Some ctx' /\
    forall n z ay ax, n < 1 -> z < 1 -> ay < 3 -> ax < 3 ->
      hat ctx' (WeightH 0) [n; ax; ay; z] =
      Some (@fdiv RealOps
              (@window_sum RealOps (image_of ctxAvg9 (WeightH 1)) n z
                 (valid_positions 2 (anchor 1 1 ax) (anchor 1 1 ay) 2 2))
              (IZR (to_size 4))).
Proof.
  apply (proj1 fwdPoolAvg_divides_by_area RealOps poolAvg9 ctxAvg9
           (image_of ctxAvg9 (WeightH 1)) 1 2 2 1 1 3 3 1).
  - discriminate.
  - reflexivity.
  - reflexivity.
  - reflexivity.
  - intros n a b c Hn Ha Hb Hc. apply get_hat; [reflexivity|].
    now apply isInBounds4.
  - lia.
  - lia.
  - reflexivity.
  - reflexivity.
Defined.

(** On the reals [<=] is a total order. *)
Lemma real_ordered_values (vs : list R) : @ordered_values RealOps vs.
Proof.
  split.
  - intros a b _ _.
    change ((if Rle_dec a b then true else false) = true \/
            (if Rle_dec b a then true else false) = true).
    destruct (Rle_dec a b), (Rle_dec b a); auto. exfalso. lra.
  - intros a b c _ _ _.
    change ((if Rle_dec a b then true else false) = true ->
            (if Rle_dec b c then true else false) = true ->
            (if Rle_dec a c then true else false) = true).
    destruct (Rle_dec a b), (Rle_dec b c), (Rle_dec a c); auto; try discriminate.
    intros _ _. exfalso. lra.
Qed.

(** C5. For every (n, z, ay, ax) whose window has a valid position, the
    max pooling writes to [dest(n, ax, ay, z)] the maximum of the input
    over the valid positions of the window, and to
    [SXY(n, ax, ay, z, 0..1)] the coordinate of the last position of the
    scan that attains it (the test [val >= max] is not strict).  The
    kernel asserts that no window is empty, and the values of a window
    must compare with one another (no NaN).  In scenario S2, in binary32,
    the output is [4] and the saved coordinate (1, 1). *)
Theorem fwdPoolMax_selects_last_maximum :
  (forall (ops : FloatOps) (I : PoolInst) (ctx : Context) (src : Image)
          (N H W C ON OH OW OC SN SH SW SC : nat),
     pool_Dest I <> pool_Src I ->
     hdims ctx (WeightH (pool_Src I)) = [N; H; W; C] ->
     hdims ctx (WeightH (pool_Dest I)) = [ON; OH; OW; OC] ->
     dims (indexOf ctx (pool_srcXY I)) = [SN; SH; SW; SC; 2] ->
     wf_tensor (weightOf ctx (pool_Dest I)) ->
     wf_tensor (indexOf ctx (pool_srcXY I)) ->
     (forall n a b c, n < N -> a < H -> b < W -> c < C ->
        hat ctx (WeightH (pool_Src I)) [n; a; b; c] = Some (src n a b c)) ->
     ON <= N -> C <= OC -> ON <= SN -> OH <= SH -> OW <= SW -> C <= SC ->
     (Z.of_nat H < 2 ^ 63)%Z -> (Z.of_nat W < 2 ^ 63)%Z ->
     let window := fun ay ax =>
       valid_positions (pool_Kernel I)
         (anchor (pool_Pad I) (pool_Stride I) ax)
         (anchor (pool_Pad I) (pool_Stride I) ay) H W in
     (forall ay ax, ay < OW -> ax < OH -> window ay ax <> []) ->
     (forall n z ay ax, n < ON -> z < C -> ay < OW -> ax < OH ->
        ordered_values (map (pixel src n z) (window ay ax))) ->
     exists ctx',
       fwdPoolMax_impl I ctx = Some ctx' /\
       forall n z ay ax, n < ON -> z < C -> ay < OW -> ax < OH ->
         exists p m,
           last_maximum src n z (window ay ax) p m /\
           hat ctx' (WeightH (pool_Dest I)) [n; ax; ay; z] = Some m /\
           iat ctx' (pool_srcXY I) [n; ax; ay; z; 0] = Some (fst p) /\
           iat ctx' (pool_srcXY I) [n; ax; ay; z; 1] = Some (snd p))
  /\
  (forall exp32 pow32,
     let ops := Binary32 exp32 pow32 in
     weights_after (@fwdPoolMax_impl ops poolMaxS2 ctxS2) 0 = Some [@lit ops 4] /\
     indices_after (@fwdPoolMax_impl ops poolMaxS2 ctxS2) 2 = Some [1; 1]%Z).
Proof.
  split.
  - intros ops I ctx src N H W C ON OH OW OC SN SH SW SC.
    apply fwdPoolMax_output.
  - intros exp32 pow32 ops. split; vm_compute; reflexivity.
Qed.

Lemma fwdPoolMax_selects_last_maximum_witness :
  exists ctx',
    @fwdPoolMax_impl RealOps poolMaxS2 ctxS2 = Some ctx' /\
    forall n z ay ax, n < 1 -> z < 1 -> ay < 1 -> ax < 1 ->
      exists p m,
        @last_maximum RealOps (image_of ctxS2 (WeightH 1)) n z
          (valid_positions 2 (anchor 0 1 ax) (anchor 0 1 ay) 2 2) p m /\
        hat ctx' (WeightH 0) [n; ax; ay; z] = Some m /\
        iat ctx' 2 [n; ax; ay; z; 0] = Some (fst p) /\
        iat ctx' 2 [n; ax; ay; z; 1] = Some (snd p).
Proof.
  apply (proj1 fwdPoolMax_selects_last_maximum RealOps poolMaxS2 ctxS2
           (image_of ctxS2 (WeightH 1)) 1 2 2 1 1 1 1 1 1 1 1 1).
  - discriminate.
  - reflexivity.
  - reflexivity.
  - reflexivity.
  - reflexivity.
  - reflexivity.
  - intros n a b c Hn Ha Hb Hc. apply get_hat; [reflexivity|].
    now apply isInBounds4.
  - lia.
  - lia.
  - lia.
  - lia.
  - lia.
  - lia.
  - reflexivity.
  - reflexivity.
  - intros ay ax Hay Hax.
    assert (ay = 0) by lia. assert (ax = 0) by lia. subst.
    vm_compute. discriminate.
  - intros n z ay ax _ _ _ _. apply real_ordered_values.
Defined.

(** On the reals, adding [t] to two numbers changes neither their
    difference nor their comparison. *)
Lemma real_shift (a b t : R) :
  @fsub RealOps (@fadd RealOps a t) (@fadd RealOps b t) = @fsub RealOps a b /\
  @flt RealOps (@fadd RealOps a t) (@fadd RealOps b t) = @flt RealOps a b.
Proof.
  split.
  - change ((a + t) - (b + t) = a - b)%R. ring.
  - change ((if Rlt_dec (a + t) (b + t) then true else false) =
            (if Rlt_dec a b then true else false)).
    destruct (Rlt_dec (a + t) (b + t)), (Rlt_dec a b); auto; exfalso; lra.
Qed.

(** The softmax of a row of three ones, on the reals. *)
Lemma softmax_row_ones (x : nat -> R) :
  x 0 = 1%R -> x 1 = 1%R -> x 2 = 1%R ->
  forall i, i < 3 -> @softmax_row RealOps x 3 i = (1 / 3)%R.
Proof.
  intros H0 H1 H2 i Hi.
  assert (Hmax : @row_max RealOps x 3 = 1%R).
  { assert (Hs : @std_max RealOps 1%R 1%R = 1%R).
    { unfold std_max.
      change ((if (if Rlt_dec 1 1 then true else false) then 1 else 1)%R = 1%R).
      destruct (Rlt_dec 1 1); reflexivity. }
    unfold row_max. cbn [seq fold_left]. rewrite H0, H1, H2, !Hs.
    reflexivity. }
  assert (Hexp : forall j, j < 3 -> @row_exp RealOps x 3 j = 1%R).
  { intros j Hj. unfold row_exp. rewrite Hmax.
    change (exp (x j - 1) = 1)%R.
    replace (x j) with 1%R by (destruct j as [|[|[|j]]]; auto; lia).
    replace (1 - 1)%R with 0%R by ring. apply exp_0. }
  unfold softmax_row, row_sum. cbn [seq fold_left].
  rewrite !Hexp by lia.
  change (1 / (0 + 1 + 1 + 1) = 1 / 3)%R. field.
Qed.

Lemma softmaxS5_ready :
  @softmax_ready RealOps softmaxS5 ctxS5 1 3 (matrix_of ctxS5 (WeightH 1)).
Proof.
  unfold softmax_ready.
  split; [discriminate|]. split; [discriminate|]. split; [discriminate|].
  split; [lia|]. split; [reflexivity|]. split; [reflexivity|].
  split; [reflexivity|]. split; [reflexivity|]. split; [reflexivity|].
  intros n i Hn Hi. apply get_hat; [reflexivity|]. now apply isInBounds2.
Qed.

(** C6. The backward kernel of the softmax adds
    [E(n, i) - delta(Sel(n, 0), i)] to [inG(n, i)], for every (n, i), where
    [E] is the saved cache and [delta] the Kronecker delta.  For the row
    [1, 1, 1] with selected label 0, in exact arithmetic, the forward
    kernel writes [1/3, 1/3, 1/3] to the output and to the cache, and the
    backward kernel adds [-2/3, 1/3, 1/3] to the input gradient. *)
Theorem bwdSoftMax_fused_gradient :
  (forall (ops : FloatOps) (I : SoftMaxInst) (ctx : Context) (N M : nat)
          (e : nat -> nat -> FloatTy) (sel : nat -> Z)
          (g : nat -> nat -> FloatTy),
     hdims ctx (GradH (softmax_Src I)) = [N; M] ->
     (forall n i, n < N -> i < M ->
        hat ctx (WeightH (softmax_E I)) [n; i] = Some (e n i)) ->
     (forall n, n < N -> iat ctx (softmax_Selected I) [n; 0] = Some (sel n)) ->
     (forall n i, n < N -> i < M ->
        hat ctx (GradH (softmax_Src I)) [n; i] = Some (g n i)) ->
     exists ctx',
       bwdSoftMaxInst I ctx = Some ctx' /\
       forall n i, n < N -> i < M ->
         hat ctx' (GradH (softmax_Src I)) [n; i] =
         Some (fadd (g n i)
                 (fsub (e n i) (of_bool (Z.eqb (sel n) (Z.of_nat i))))))
  /\
  (exists c1 c2,
     @fwdSoftMaxInst RealOps true softmaxS5 ctxS5 = Some c1 /\
     bwdSoftMaxInst softmaxS5 c1 = Some c2 /\
     forall i, i < 3 ->
       hat c1 (WeightH 0) [0; i] = Some (1 / 3)%R /\
       hat c1 (WeightH 2) [0; i] = Some (1 / 3)%R /\
       hat c1 (GradH 1) [0; i] = Some 0%R /\
       hat c2 (GradH 1) [0; i] =
         Some (0 + nth i [- 2 / 3; 1 / 3; 1 / 3] 0)%R).
Proof.
  split.
  - intros ops I ctx N M e sel g. apply bwdSoftMax_accumulates.
  - destruct (@fwdSoftMax_output RealOps true softmaxS5 ctxS5 1 3 _
                softmaxS5_ready) as (c1 & E1 & Hg & Hi & Hcells).
    assert (Hthird : forall i, i < 3 ->
      @softmax_row RealOps (matrix_of ctxS5 (WeightH 1) 0) 3 i = (1 / 3)%R).
    { apply softmax_row_ones; reflexivity. }
    assert (HinG : forall n i, n < 1 -> i < 3 ->
      hat c1 (GradH 1) [n; i] = Some 0%R).
    { intros n i Hn Hi'. unfold hat. cbn [tensorOf]. rewrite Hg.
      assert (n = 0) by lia. subst.
      destruct i as [|[|[|i]]]; try reflexivity. lia. }
    destruct (@bwdSoftMax_accumulates RealOps softmaxS5 c1 1 3
                (fun _ _ => (1 / 3)%R) (fun _ => 0%Z) (fun _ _ => 0%R))
      as (c2 & E2 & Hout).
    + unfold hdims. cbn [tensorOf]. rewrite Hg. reflexivity.
    + intros n i Hn Hi'. assert (n = 0) by lia. subst.
      destruct (Hcells 0 i Hn Hi') as (_ & ->). now rewrite Hthird.
    + intros n Hn. assert (n = 0) by lia. subst.
      unfold iat. rewrite Hi. reflexivity.
    + exact HinG.
    + exists c1, c2. split; [exact E1|]. split; [exact E2|].
      intros i Hi'. destruct (Hcells 0 i) as (Hd & He); try lia.
      rewrite Hthird in Hd, He by exact Hi'.
      split; [exact Hd|]. split; [exact He|].
      split; [apply HinG; lia|].
      change (hat c2 (GradH (softmax_Src softmaxS5)) [0; i] =
              Some (0 + nth i [- 2 / 3; 1 / 3; 1 / 3] 0)%R).
      rewrite Hout by lia. f_equal.
      unfold softmax_sigma, of_bool.
      destruct i as [|[|[|i]]]; [| | |lia].
      * change (0 + (1 / 3 - 1) = 0 + - 2 / 3)%R. lra.
      * change (0 + (1 / 3 - 0) = 0 + 1 / 3)%R. lra.
      * change (0 + (1 / 3 - 0) = 0 + 1 / 3)%R. lra.
Qed.

Lemma bwdSoftMax_fused_gradient_witness :
  exists ctx',
    @bwdSoftMaxInst RealOps softmaxS5 ctxS5 = Some ctx' /\
    forall n i, n < 1 -> i < 3 ->
      hat ctx' (GradH 1) [n; i] =
      Some (@fadd RealOps (matrix_of ctxS5 (GradH 1) n i)
              (@fsub RealOps (matrix_of ctxS5 (WeightH 2) n i)
                 (@of_bool RealOps (Z.eqb 0 (Z.of_nat i))))).
Proof.
  apply (proj1 bwdSoftMax_fused_gradient RealOps softmaxS5 ctxS5 1 3
           (matrix_of ctxS5 (WeightH 2)) (fun _ => 0%Z)
           (matrix_of ctxS5 (GradH 1))).
  - reflexivity.
  - intros n i Hn Hi. apply get_hat; [reflexivity|]. now apply isInBounds2.
  - intros n Hn. destruct n; [reflexivity|lia].
  - intros n i Hn Hi. apply get_hat; [reflexivity|]. now apply isInBounds2.
Defined.

Lemma softmaxS5_shifted_ready (t : Z) :
  @softmax_ready RealOps softmaxS5 (ctxS5_shifted t) 1 3
    (matrix_of (ctxS5_shifted t) (WeightH 1)).
Proof.
  unfold softmax_ready.
  split; [discriminate|]. split; [discriminate|]. split; [discriminate|].
  split; [lia|]. split; [reflexivity|]. split; [reflexivity|].
  split; [reflexivity|]. split; [reflexivity|]. split; [reflexivity|].
  intros n i Hn Hi. apply get_hat; [reflexivity|]. now apply isInBounds2.
Qed.

(** The row [n] of two inputs that differ by [t], through the kernel. *)
Lemma fwdSoftMax_shift {ops : FloatOps} (b : bool) (I : SoftMaxInst)
  (ctx ctx_t : Context) (N M : nat) (x x_t : nat -> nat -> FloatTy)
  (n : nat) (t : FloatTy) :
  softmax_ready I ctx N M x ->
  softmax_ready I ctx_t N M x_t ->
  n < N ->
  (forall i, i < M -> x_t n i = fadd (x n i) t) ->
  (forall i j, i < M -> j < M ->
     fsub (fadd (x n i) t) (fadd (x n j) t) = fsub (x n i) (x n j)) ->
  (forall i j, i < M -> j < M ->
     flt (fadd (x n i) t) (fadd (x n j) t) = flt (x n i) (x n j)) ->
  exists c c_t,
    fwdSoftMaxInst b I ctx = Some c /\
    fwdSoftMaxInst b I ctx_t = Some c_t /\
    forall i, i < M ->
      hat c_t (WeightH (softmax_Dest I)) [n; i] =
        hat c (WeightH (softmax_Dest I)) [n; i] /\
      hat c_t (WeightH (softmax_E I)) [n; i] =
        hat c (WeightH (softmax_E I)) [n; i] /\
      hat c (WeightH (softmax_Dest I)) [n; i] =
        hat c (WeightH (softmax_E I)) [n; i].
Proof.
  intros Hr Hrt Hn Hx Hsub Hlt.
  assert (HM : 0 < M) by apply Hr.
  destruct (fwdSoftMax_output b I ctx N M x Hr) as (c & E & _ & _ & Hc).
  destruct (fwdSoftMax_output b I ctx_t N M x_t Hrt) as (c' & E' & _ & _ & Hc').
  exists c, c'. split; [exact E|]. split; [exact E'|].
  intros i Hi.
  destruct (Hc n i Hn Hi) as (-> & ->).
  destruct (Hc' n i Hn Hi) as (-> & ->).
  rewrite (softmax_row_shift (x n) (x_t n) M t HM Hx Hsub Hlt i Hi).
  auto.
Qed.

(** C10. The forward kernel of the softmax is shift-invariant, row by
    row: adding a constant [t] to every element of row [n] of the input
    leaves row [n] of the output and of the saved cache as they were, and
    the output equals the cache.  That holds when the addition of [t]
    changes neither the differences nor the comparisons of the elements
    of the row (first part), as it does on the reals for every row and
    every [t] (second part); floating-point rounding can break both. *)
Theorem fwdSoftMax_shift_invariant :
  (forall (ops : FloatOps) (b : bool) (I : SoftMaxInst) (ctx ctx_t : Context)
          (N M : nat) (x x_t : nat -> nat -> FloatTy) (n : nat) (t : FloatTy),
     softmax_ready I ctx N M x ->
     softmax_ready I ctx_t N M x_t ->
     n < N ->
     (forall i, i < M -> x_t n i = fadd (x n i) t) ->
     (forall i j, i < M -> j < M ->
        fsub (fadd (x n i) t) (fadd (x n j) t) = fsub (x n i) (x n j)) ->
     (forall i j, i < M -> j < M ->
        flt (fadd (x n i) t) (fadd (x n j) t) = flt (x n i) (x n j)) ->
     exists c c_t,
       fwdSoftMaxInst b I ctx = Some c /\
       fwdSoftMaxInst b I ctx_t = Some c_t /\
       forall i, i < M ->
         hat c_t (WeightH (softmax_Dest I)) [n; i] =
           hat c (WeightH (softmax_Dest I)) [n; i] /\
         hat c_t (WeightH (softmax_E I)) [n; i] =
           hat c (WeightH (softmax_E I)) [n; i] /\
         hat c (WeightH (softmax_Dest I)) [n; i] =
           hat c (WeightH (softmax_E I)) [n; i])
  /\
  (forall (b : bool) (I : SoftMaxInst) (ctx ctx_t : @Context RealOps)
          (N M : nat) (x x_t : nat -> nat -> R) (n : nat) (t : R),
     @softmax_ready RealOps I ctx N M x ->
     @softmax_ready RealOps I ctx_t N M x_t ->
     n < N ->
     (forall i, i < M -> x_t n i = (x n i + t)%R) ->
     exists c c_t,
       @fwdSoftMaxInst RealOps b I ctx = Some c /\
       @fwdSoftMaxInst RealOps b I ctx_t = Some c_t /\
       forall i, i < M ->
         hat c_t (WeightH (softmax_Dest I)) [n; i] =
           hat c (WeightH (softmax_Dest I)) [n; i] /\
         hat c_t (WeightH (softmax_E I)) [n; i] =
           hat c (WeightH (softmax_E I)) [n; i] /\
         hat c (WeightH (softmax_Dest I)) [n; i] =
           hat c (WeightH (softmax_E I)) [n; i]).
Proof.
  split.
  - intros ops b I ctx ctx_t N M x x_t n t. apply fwdSoftMax_shift.
  - intros b I ctx ctx_t N M x x_t n t Hr Hrt Hn Hx.
    apply (@fwdSoftMax_shift RealOps b I ctx ctx_t N M x x_t n t); auto.
    + intros i j _ _. apply real_shift.
    + intros i j _ _. apply real_shift.
Qed.

Lemma fwdSoftMax_shift_invariant_witness :
  exists c c_t,
    @fwdSoftMaxInst RealOps true softmaxS5 ctxS5 = Some c /\
    @fwdSoftMaxInst RealOps true softmaxS5 (ctxS5_shifted 5) = Some c_t /\
    forall i, i < 3 ->
      hat c_t (WeightH 0) [0; i] = hat c (WeightH 0) [0; i] /\
      hat c_t (WeightH 2) [0; i] = hat c (WeightH 2) [0; i] /\
      hat c (WeightH 0) [0; i] = hat c (WeightH 2) [0; i].
Proof.
  apply (proj1 fwdSoftMax_shift_invariant RealOps true softmaxS5
           ctxS5 (ctxS5_shifted 5) 1 3
           (matrix_of ctxS5 (WeightH 1))
           (matrix_of (ctxS5_shifted 5) (WeightH 1)) 0 5%R).
  - exact softmaxS5_ready.
  - exact (softmaxS5_shifted_ready 5).
  - lia.
  - intros i Hi. destruct i as [|[|[|i]]]; try reflexivity. lia.
  - intros i j _ _. apply real_shift.
  - intros i j _ _. apply real_shift.
Defined.

(** C10, as stated for every constant [t], fails in binary32: with
    [t = 2^25] the row [0, 1] becomes [2^25, 2^25] (the sum [1 + 2^25] is
    rounded), and the kernel writes [1/2, 1/2] to the output and to the
    cache where it writes [0.26894143, 0.7310586] for the row itself. *)
Lemma fwdSoftMax_shift_changes_binary32_output :
  let ops := Binary32 exp32_table (fun _ _ => S754_nan) in
  let t := (2 ^ 25)%Z in
  let run := @fwdSoftMaxInst ops true softmaxS5 ctxRow01 in
  let run_t := @fwdSoftMaxInst ops true softmaxS5 (ctxRow01_shifted t) in
  elems (weightOf (@ctxRow01_shifted ops t) 1) = [@lit ops t; @lit ops t] /\
  weights_after run 0 =
    Some [S754_finite false 9024177 (-25); S754_finite false 12265128 (-24)] /\
  weights_after run_t 0 =
    Some [S754_finite false 8388608 (-24); S754_finite false 8388608 (-24)] /\
  weights_after run_t 0 <> weights_after run 0 /\
  weights_after run_t 2 <> weights_after run 2.
Proof.
  cbv zeta.
  split; [vm_compute; reflexivity|].
  split; [vm_compute; reflexivity|].
  split; [vm_compute; reflexivity|].
  split; vm_compute; discriminate.
Qed.

(** On the reals the value the kernel writes,
    [(x - mu) * gamma * (1 / sqrt(var + eps)) + beta], is the formula with
    the division. *)
Lemma real_bn_output (eps x mu var gamma beta : R) :
  @bn_output RealOps eps x mu var gamma beta =
  ((x - mu) * gamma / sqrt (var + eps) + beta)%R.
Proof.
  change ((x - mu) * gamma * (1 / sqrt (var + eps)) + beta =
          (x - mu) * gamma / sqrt (var + eps) + beta)%R.
  unfold Rdiv. ring.
Qed.

Lemma NoDup_seq6 : NoDup [0; 1; 2; 3; 4; 5].
Proof. apply (seq_NoDup 6 0). Qed.

Lemma ctxBN_ready (eps momentum : R) :
  @bn_ready RealOps (@bnInst RealOps eps momentum) ctxBN [2; 2] 2
    (flat_of ctxBN (WeightH 1))
    (vector_of ctxBN (WeightH 4)) (vector_of ctxBN (WeightH 5))
    (vector_of ctxBN (WeightH 2)) (vector_of ctxBN (WeightH 3)).
Proof.
  unfold bn_ready.
  split; [exact NoDup_seq6|]. split; [reflexivity|]. split; [reflexivity|].
  split; [lia|]. split; [reflexivity|]. split; [reflexivity|].
  split; [reflexivity|]. split; [reflexivity|].
  split; [vm_compute; lia|].
  split; [intros i Hi; apply get_raw; exact Hi|].
  repeat split; intros c Hc; (apply get_hat; [reflexivity|]);
    now apply isInBounds1.
Qed.

(** C3. The training forward of the batch normalization computes the
    local mean and variance of every channel of the input, blends them
    into the running statistics as
    [mean[c] = P * localMean[c] + (1 - P) * mean[c]] (and likewise the
    variance), and then writes, for every element [x] of channel [c], the
    inference formula
    [(x - mean[c]) * gamma[c] / sqrt(var[c] + epsilon) + beta[c]] on the
    running statistics it has just updated, not on the local ones.  The
    kernel multiplies by [1 / sqrt(var[c] + epsilon)]; on the reals that
    is the division (second part). *)
Theorem fwdBatchNormalization_train_uses_running_statistics :
  (forall (ops : FloatOps) (I : BatchNormalizationInst) (ctx : Context)
          (ds : list nat) (C : nat) (x : nat -> FloatTy)
          (mean var gamma beta : nat -> FloatTy),
     bn_ready I ctx ds C x mean var gamma beta ->
     let n := prod_dims ds in
     let ch := getDimForPtr ds (bn_ChannelIdx I) in
     let samplesPerChannel := n / C in
     let P := bn_Momentum I in
     let localMean := local_mean ch x n samplesPerChannel in
     let localVar := local_var ch x n samplesPerChannel in
     let mean' := fun c =>
       fadd (fmul P (localMean c)) (fmul (fsub fone P) (mean c)) in
     let var' := fun c =>
       fadd (fmul P (localVar c)) (fmul (fsub fone P) (var c)) in
     exists ctx',
       fwdBatchNormalizationInst true I ctx = Some ctx' /\
       (forall c, c < C ->
          hat ctx' (WeightH (bn_Mean I)) [c] = Some (mean' c) /\
          hat ctx' (WeightH (bn_Var I)) [c] = Some (var' c)) /\
       forall i, i < n ->
         raw ctx' (WeightH (bn_Dest I)) i =
         Some (bn_output (bn_Epsilon I) (x i) (mean' (ch i)) (var' (ch i))
                 (gamma (ch i)) (beta (ch i))))
  /\
  (forall eps x mu var gamma beta : R,
     @bn_output RealOps eps x mu var gamma beta =
     ((x - mu) * gamma / sqrt (var + eps) + beta)%R).
Proof.
  split.
  - intros ops I ctx ds C x mean var gamma beta Hready.
    apply (fwdBatchNormalization_train_output I ctx ds C x mean var gamma beta
             Hready).
  - exact real_bn_output.
Qed.

Lemma fwdBatchNormalization_train_uses_running_statistics_witness :
  exists ctx',
    @fwdBatchNormalizationInst RealOps true
      (@bnInst RealOps 0%R (1 / 2)%R) ctxBN = Some ctx'.
Proof.
  destruct (proj1 fwdBatchNormalization_train_uses_running_statistics
              RealOps (@bnInst RealOps 0%R (1 / 2)%R) ctxBN [2; 2] 2
              (flat_of ctxBN (WeightH 1))
              (vector_of ctxBN (WeightH 4)) (vector_of ctxBN (WeightH 5))
              (vector_of ctxBN (WeightH 2)) (vector_of ctxBN (WeightH 3))
              (ctxBN_ready 0%R (1 / 2)%R)) as (ctx' & E & _).
  exists ctx'. exact E.
Defined.

(** The updates of the backward convolution are these and no others: at
    every output position the bias update, and at every window position
    that passes the window test the two updates of the filter and input
    gradients; the filter update multiplies the input of batch 0. *)
Lemma In_bwdConv_updates {ops : FloatOps} (I : ConvolutionInst)
  (src filt g : Image) (odim : ShapeNHWC) (C : nat) (u : Update) :
  In u (bwdConv_updates I src filt g odim C) <->
  exists n d ay ax,
    n < sn odim /\ d < sc odim /\ ay < sw odim /\ ax < sh odim /\
    (u = (GradH (conv_Bias I), [d], g n ax ay d) \/
     exists fy fx fd,
       fy < conv_Kernel I /\ fx < conv_Kernel I /\ fd < C /\
       let ox := ssize_add (anchor (conv_Pad I) (conv_Stride I) ax) fx in
       let oy := ssize_add (anchor (conv_Pad I) (conv_Stride I) ay) fy in
       out_of_range ox oy (sh odim) (sw odim) = false /\
       (u = (GradH (conv_Filter I), [d; fx; fy; fd],
             fmul (src 0 (size_of_ssize ox) (size_of_ssize oy) fd)
                  (g n ax ay d)) \/
        u = (GradH (conv_Src I), [n; size_of_ssize ox; size_of_ssize oy; fd],
             fmul (filt d fx fy fd) (g n ax ay d)))).
Proof.
  unfold bwdConv_updates. split.
  - intros H.
    apply in_flat_map in H. destruct H as (n & Hn & H).
    apply in_flat_map in H. destruct H as (d & Hd & H).
    apply in_flat_map in H. destruct H as (ay & Hay & H).
    apply in_flat_map in H. destruct H as (ax & Hax & H).
    apply in_seq in Hn, Hd, Hay, Hax.
    exists n, d, ay, ax. repeat (split; [lia|]).
    apply in_app_or in H. destruct H as [H|[H|[]]]; [right|left; now symmetry].
    apply in_flat_map in H. destruct H as (fy & Hfy & H).
    apply in_flat_map in H. destruct H as (fx & Hfx & H).
    cbv zeta in H.
    destruct (out_of_range _ _ (sh odim) (sw odim)) eqn:E; [destruct H|].
    apply in_flat_map in H. destruct H as (fd & Hfd & H).
    apply in_seq in Hfy, Hfx, Hfd.
    exists fy, fx, fd. repeat (split; [lia|]). cbv zeta. split; [exact E|].
    destruct H as [H|[H|[]]]; [left|right]; now symmetry.
  - intros (n & d & ay & ax & Hn & Hd & Hay & Hax & H).
    apply in_flat_map. exists n. split; [apply in_seq; lia|].
    apply in_flat_map. exists d. split; [apply in_seq; lia|].
    apply in_flat_map. exists ay. split; [apply in_seq; lia|].
    apply in_flat_map. exists ax. split; [apply in_seq; lia|].
    apply in_or_app. destruct H as [->|(fy & fx & fd & Hfy & Hfx & Hfd & H)].
    + right. now left.
    + left. cbv zeta in H. destruct H as (E & H).
      apply in_flat_map. exists fy. split; [apply in_seq; lia|].
      apply in_flat_map. exists fx. split; [apply in_seq; lia|].
      cbv zeta. rewrite E.
      apply in_flat_map. exists fd. split; [apply in_seq; lia|].
      destruct H as [-> | ->]; [left|right; left]; reflexivity.
Qed.

Lemma NoDup_seq4 : NoDup [0; 1; 2; 3].
Proof. apply (seq_NoDup 4 0). Qed.

Lemma ctxConvBwd_ready (src outG inG filterG : list Z) (biasG : Z) :
  length src = 8 -> length outG = 8 -> length inG = 8 -> length filterG = 4 ->
  let ctx := @ctxConvBwd RealOps src outG inG filterG biasG in
  @conv_ready RealOps convS1 ctx
    (image_of ctx (WeightH 1)) (image_of ctx (WeightH 2))
    (image_of ctx (GradH 0)) (mkShape 2 2 2 1) (mkShape 2 2 2 1).
Proof.
  intros L1 L2 L3 L4 ctx.
  assert (W : forall (ds : list nat) (l : list Z),
            length l = prod_dims ds -> wf_tensor (@tensor_of RealOps ds l)).
  { intros ds l H. unfold wf_tensor, tensor_of, tsize. simpl.
    now rewrite length_map. }
  unfold conv_ready.
  split; [exact NoDup_seq4|].
  split; [reflexivity|]. split; [reflexivity|]. split; [reflexivity|].
  split; [reflexivity|]. split; [reflexivity|].
  split; [apply W; exact L3|]. split; [apply W; exact L4|].
  split; [apply W; reflexivity|].
  cbn [sn sh sw sc].
  split; [lia|]. split; [lia|]. split; [lia|].
  split; [reflexivity|]. split; [reflexivity|].
  split; [|split].
  - intros n a b c Hn Ha Hb Hc. apply get_hat.
    + apply W. exact L1.
    + now apply isInBounds4.
  - intros d fx fy fd Hd Hx Hy Hfd. apply get_hat.
    + apply W. reflexivity.
    + now apply isInBounds4.
  - intros n ax ay d Hn Ha Hb Hd. apply get_hat.
    + apply W. exact L2.
    + now apply isInBounds4.
Qed.

(** X27. The backward kernel of the convolution returns, and what it does
    to the gradients is a list of accumulations, in the order of its
    loops: for every batch index [n], output position and window position
    (fx, fy, fd) that passes the kernel's window test, which compares with
    the extents of the OUTPUT,
    [filterG(d, fx, fy, fd) += src(0, x+fx, y+fy, fd) * outG(n, ax, ay, d)]
    (the input of batch 0, not of batch [n]) and
    [inG(n, x+fx, y+fy, fd) += filter(d, fx, fy, fd) * outG(n, ax, ay, d)],
    and for every output position [biasG(d) += outG(n, ax, ay, d)]; there
    are no other updates.  With a batch of two (inputs [1, 2, 3, 4] and
    [10, 20, 30, 40], output gradients 1, a filter gradient that starts
    from [100, 0, 0, 0]), in binary32, the filter gradient ends at
    [120, 12, 14, 8]: twice the sums over batch 0, added to what was
    there. *)
Theorem bwdConvolution_reads_batch_zero :
  (forall (ops : FloatOps) (I : ConvolutionInst) (ctx : Context)
          (src filt g : Image) (odim idim : ShapeNHWC),
     conv_ready I ctx src filt g odim idim ->
     let updates := bwdConv_updates I src filt g odim (sc idim) in
     (exists ctx',
        bwdConvolutionInst I ctx = Some ctx' /\
        forall h idx v, hat ctx h idx = Some v ->
          hat ctx' h idx = Some (fold_left fadd (addends h idx updates) v)) /\
     (forall u, In u updates <->
        exists n d ay ax,
          n < sn odim /\ d < sc odim /\ ay < sw odim /\ ax < sh odim /\
          (u = (GradH (conv_Bias I), [d], g n ax ay d) \/
           exists fy fx fd,
             fy < conv_Kernel I /\ fx < conv_Kernel I /\ fd < sc idim /\
             let ox := ssize_add (anchor (conv_Pad I) (conv_Stride I) ax) fx in
             let oy := ssize_add (anchor (conv_Pad I) (conv_Stride I) ay) fy in
             out_of_range ox oy (sh odim) (sw odim) = false /\
             (u = (GradH (conv_Filter I), [d; fx; fy; fd],
                   fmul (src 0 (size_of_ssize ox) (size_of_ssize oy) fd)
                        (g n ax ay d)) \/
              u = (GradH (conv_Src I),
                   [n; size_of_ssize ox; size_of_ssize oy; fd],
                   fmul (filt d fx fy fd) (g n ax ay d))))))
  /\
  (forall exp32 pow32,
     let ops := Binary32 exp32 pow32 in
     let run := @bwdConvolutionInst ops convS1
                  (ctxConvBwd [1; 2; 3; 4; 10; 20; 30; 40]
                     [1; 1; 1; 1; 1; 1; 1; 1] [0; 0; 0; 0; 0; 0; 0; 0]
                     [100; 0; 0; 0] 0)%Z in
     grads_after run 2 = Some (map (@lit ops) [120; 12; 14; 8]%Z) /\
     grads_after run 1 = Some (map (@lit ops) [1; 2; 2; 4; 1; 2; 2; 4]%Z) /\
     grads_after run 3 = Some [@lit ops 8]).
Proof.
  split.
  - intros ops I ctx src filt g odim idim Hready updates. split.
    + apply (bwdConvolution_accumulates I ctx src filt g odim idim Hready).
    + intros u. apply In_bwdConv_updates.
  - intros exp32 pow32 ops run.
    split; [vm_compute; reflexivity|]. split; vm_compute; reflexivity.
Qed.

Lemma bwdConvolution_reads_batch_zero_witness :
  exists ctx',
    @bwdConvolutionInst RealOps convS1
      (ctxConvBwd [1; 2; 3; 4; 10; 20; 30; 40]%Z [1; 1; 1; 1; 1; 1; 1; 1]%Z
         [0; 0; 0; 0; 0; 0; 0; 0]%Z [100; 0; 0; 0]%Z 0%Z) = Some ctx'.
Proof.
  destruct (proj1 bwdConvolution_reads_batch_zero RealOps convS1 _ _ _ _ _ _
              (ctxConvBwd_ready [1; 2; 3; 4; 10; 20; 30; 40]%Z
                 [1; 1; 1; 1; 1; 1; 1; 1]%Z [0; 0; 0; 0; 0; 0; 0; 0]%Z
                 [100; 0; 0; 0]%Z 0%Z eq_refl eq_refl eq_refl eq_refl))
    as ((ctx' & E & _) & _).
  exists ctx'. exact E.
Defined.

(** C2. The backward kernel of the convolution tests the window positions
    against the extents of the OUTPUT, as the forward kernel does, so its
    accumulations are not those over the positions inside the input.  In
    scenario S1 with an output gradient of ones and gradients that start
    from 0, in binary32, the gradient of the 3 by 3 input ends at
    [1, 2, 0, 2, 4, 0, 0, 0, 0] and that of the filter at [4, 2, 2, 1],
    where the accumulations over the window positions inside the input
    give [1, 2, 1, 2, 4, 2, 1, 2, 1] and [4, 4, 4, 4].  The gradient of the
    bias is 4 either way. *)
Theorem bwdConvolution_tests_output_extents :
  forall exp32 pow32,
    let ops := Binary32 exp32 pow32 in
    let run := @bwdConvolutionInst ops convS1 ctxS1_backward in
    let claimed :=
      @bwdConv_updates_inside_input ops convS1
        (image_of ctxS1_backward (WeightH 1))
        (image_of ctxS1_backward (WeightH 2))
        (image_of ctxS1_backward (GradH 0))
        (mkShape 1 2 2 1) (mkShape 1 3 3 1) in
    let sums h ds :=
      map (fun idx => fold_left (@fadd ops) (addends h idx claimed) (@lit ops 0))
          (all_coords ds) in
    grads_after run 1 = Some (map (@lit ops) [1; 2; 0; 2; 4; 0; 0; 0; 0]%Z) /\
    sums (GradH 1) [1; 3; 3; 1] = map (@lit ops) [1; 2; 1; 2; 4; 2; 1; 2; 1]%Z /\
    grads_after run 2 = Some (map (@lit ops) [4; 2; 2; 1]%Z) /\
    sums (GradH 2) [1; 2; 2; 1] = map (@lit ops) [4; 4; 4; 4]%Z /\
    grads_after run 3 = Some [@lit ops 4] /\
    sums (GradH 3) [1] = [@lit ops 4].
Proof.
  intros exp32 pow32 ops run claimed sums.
  repeat split; vm_compute; reflexivity.
Qed.

(** C1. The forward kernel of the convolution tests the window positions
    against the extents of the OUTPUT ([odim.h], [odim.w]), not of the
    input.  In scenario S1 (a 3 by 3 input of ones, a 2 by 2 filter of
    ones, bias 0, kernel 2, stride 1, no padding, a 2 by 2 output), in
    binary32: the window of the output position (ax, ay) = (1, 0) has four
    positions inside the input, of which only two pass the kernel's test,
    and the kernel writes [4, 2, 2, 1] where the sums over the positions
    inside the input are [4, 4, 4, 4]. *)
Theorem fwdConvolution_tests_output_extents :
  forall exp32 pow32,
    let ops := Binary32 exp32 pow32 in
    let window := window_positions 2 (anchor 0 1 1) (anchor 0 1 0) in
    filter (in_range 3 3) window = [(1, 0); (2, 0); (1, 1); (2, 1)]%Z /\
    filter (fun p => negb (out_of_range (fst p) (snd p) 2 2)) window
      = [(1, 0); (1, 1)]%Z /\
    weights_after (@fwdConvolutionInst ops false convS1 ctxS1) 0 =
      Some (map (@lit ops) [4; 2; 2; 1]%Z).
Proof.
  intros exp32 pow32 ops window.
  split; [reflexivity|]. split; [reflexivity|]. vm_compute. reflexivity.
Qed.

(* ================================================================== *)
(** * Further properties of the kernels *)
(* ================================================================== *)

(** A loop fails when one of its iterations fails from every state that
    the earlier iterations can reach. *)
Lemma for_loop_None {St : Type} (P : St -> Prop)
  (body : nat -> St -> option St) (n j : nat) (s : St) :
  P s ->
  (forall i t t', i < n -> P t -> body i t = Some t' -> P t') ->
  j < n -> (forall t, P t -> body j t = None) ->
  for_loop n body s = None.
Proof.
  intros Hs Hstep Hj Hfail. induction n as [|n IH]; [lia|]. simpl.
  destruct (for_loop n body s) as [u|] eqn:E; [|reflexivity].
  destruct (Nat.eq_dec j n) as [->|Hne].
  - apply Hfail. eapply (for_loop_inv P body n); [|exact Hs|exact E].
    intros i t t' Hi. apply Hstep. lia.
  - assert (En : Some u = None).
    { apply IH; [|lia]. intros i t t' Hi. apply Hstep. lia. }
    discriminate.
Qed.

Section Pointwise.
Context {ops : FloatOps}.

(** A loop that writes [out i] to the element [i] of [D], for [i] up to
    [n].  The body may read any other tensor, and [D] at the index it is
    about to write: iteration [i] sees the elements from [i] on as they
    were. *)
Lemma pointwise_loop (D : Handle) (body : nat -> Context -> option Context)
  (out : nat -> FloatTy) (n : nat) (ctx : Context) :
  n <= length (elems (tensorOf ctx D)) ->
  (forall i c, i < n ->
     (forall h, h <> D -> tensorOf c h = tensorOf ctx h) ->
     (forall h j, h <> D \/ i <= j -> raw c h j = raw ctx h j) ->
     body i c = set_raw c D i (out i)) ->
  exists ctx',
    for_loop n body ctx = Some ctx' /\
    (forall h, h <> D -> tensorOf ctx' h = tensorOf ctx h) /\
    indexOf ctx' = indexOf ctx /\
    hdims ctx' D = hdims ctx D /\
    length (elems (tensorOf ctx' D)) = length (elems (tensorOf ctx D)) /\
    (forall i, i < n -> raw ctx' D i = Some (out i)) /\
    (forall i, n <= i -> raw ctx' D i = raw ctx D i).
Proof.
  intros Hlen Hbody.
  set (P := fun (k : nat) (c : Context) =>
    (forall h, h <> D -> tensorOf c h = tensorOf ctx h) /\
    indexOf c = indexOf ctx /\
    hdims c D = hdims ctx D /\
    length (elems (tensorOf c D)) = length (elems (tensorOf ctx D)) /\
    (forall i, i < k -> raw c D i = Some (out i)) /\
    (forall i, k <= i -> raw c D i = raw ctx D i)).
  destruct (for_loop_ind P body n ctx) as (c & Hc & HP).
  - unfold P. repeat split; auto. intros; lia.
  - intros k c Hk (Hothers & Hidx & Hd & Hl & Hdone & Hrest).
    rewrite Hbody; [|exact Hk|exact Hothers|].
    2:{ intros h j Hhj. destruct (Handle_eq_dec h D) as [->|Hh].
        - apply Hrest. tauto.
        - unfold raw. now rewrite Hothers. }
    destruct (set_raw_Some c D k (out k)) as (c1 & E1); [lia|].
    exists c1. split; [exact E1|]. unfold P.
    split; [|split; [|split; [|split; [|split]]]].
    + intros h Hh. rewrite (tensorOf_set_raw E1 Hh). now apply Hothers.
    + rewrite (indexOf_set_raw E1). exact Hidx.
    + rewrite (hdims_set_raw D E1). exact Hd.
    + rewrite (length_set_raw D E1). exact Hl.
    + intros i Hi. destruct (Nat.eq_dec i k) as [->|Hik].
      * apply (raw_set_same E1).
      * rewrite (raw_set_other E1) by tauto. apply Hdone. lia.
    + intros i Hi. rewrite (raw_set_other E1) by (right; lia).
      apply Hrest. lia.
  - exists c. split; [exact Hc|]. exact HP.
Qed.

(** The same loop fails when [D] has fewer than [n] elements. *)
Lemma pointwise_loop_None (D : Handle)
  (body : nat -> Context -> option Context) (n : nat) (ctx : Context) :
  length (elems (tensorOf ctx D)) < n ->
  (forall i c, exists r,
     body i c = (v <- r ;; set_raw c D i v)) ->
  for_loop n body ctx = None.
Proof.
  intros Hlen Hbody.
  apply (for_loop_None
           (fun c => length (elems (tensorOf c D)) = length (elems (tensorOf ctx D)))
           body n (length (elems (tensorOf ctx D)))); auto.
  - intros i t t' _ Ht E. destruct (Hbody i t) as (r & Hr). rewrite Hr in E.
    destruct r as [v|]; [|discriminate].
    rewrite (length_set_raw D E). exact Ht.
  - intros t Ht. destruct (Hbody (length (elems (tensorOf ctx D))) t) as (r & Hr).
    rewrite Hr. destruct r as [v|]; [|reflexivity].
    destruct (set_raw t D (length (elems (tensorOf ctx D))) v) as [c'|] eqn:E;
      [|reflexivity].
    apply set_raw_inv in E. destruct E as (t' & Ht' & _).
    unfold t_set_raw in Ht'.
    destruct (list_set (elems (tensorOf t D)) (length (elems (tensorOf ctx D))) v)
      eqn:El; [|discriminate].
    apply list_set_inv in El. lia.
Qed.

End Pointwise.

(* ================================================================== *)
(** * The pointwise kernels *)
(* ================================================================== *)

Section PointwiseKernels.
Context {ops : FloatOps}.

(** The loop of the flat copies. *)
Lemma flat_copy_loop (dest src : Value) (ctx : Context) (x : nat -> FloatTy) :
  let n := hsize ctx (WeightH src) in
  (forall i, i < n -> raw ctx (WeightH src) i = Some (x i)) ->
  n <= length (elems (weightOf ctx dest)) ->
  exists ctx',
    for_loop n (fun i c => v <- raw c (WeightH src) i ;;
                           set_raw c (WeightH dest) i v) ctx = Some ctx' /\
    hdims ctx' (WeightH dest) = hdims ctx (WeightH dest) /\
    (forall i, i < n -> raw ctx' (WeightH dest) i = Some (x i)) /\
    (forall i, n <= i ->
       raw ctx' (WeightH dest) i = raw ctx (WeightH dest) i) /\
    (forall h, h <> WeightH dest -> tensorOf ctx' h = tensorOf ctx h) /\
    indexOf ctx' = indexOf ctx.
Proof.
  intros n Hx Hlen.
  destruct (pointwise_loop (WeightH dest)
    (fun i c => v <- raw c (WeightH src) i ;; set_raw c (WeightH dest) i v)
    x n ctx Hlen) as (c & Hc & Ho & Hi & Hd & _ & Hdone & Hrest).
  - intros i c Hi _ Hsame. cbv beta.
    rewrite (Hsame (WeightH src) i) by (right; lia).
    now rewrite Hx.
  - exists c. repeat split; auto.
Qed.

(** A kernel that writes [f] of the element it reads, from [inW] to
    [outW], over [n] elements. *)
Lemma map_loop (inW outW : Handle) (f : FloatTy -> FloatTy) (n : nat)
  (ctx : Context) (x : nat -> FloatTy) :
  (forall i, i < n -> raw ctx inW i = Some (x i)) ->
  n <= length (elems (tensorOf ctx outW)) ->
  exists ctx',
    for_loop n (fun i c => val <- raw c inW i ;;
                           set_raw c outW i (f val)) ctx = Some ctx' /\
    (forall i, i < n -> raw ctx' outW i = Some (f (x i))) /\
    hdims ctx' outW = hdims ctx outW /\
    length (elems (tensorOf ctx' outW)) = length (elems (tensorOf ctx outW)) /\
    (forall h, h <> outW -> tensorOf ctx' h = tensorOf ctx h) /\
    indexOf ctx' = indexOf ctx.
Proof.
  intros Hx Hlen.
  destruct (pointwise_loop outW
    (fun i c => val <- raw c inW i ;; set_raw c outW i (f val))
    (fun i => f (x i)) n ctx Hlen) as (c & Hc & Ho & Hi & Hd & Hl & Hdone & _).
  - intros i c Hi _ Hsame. cbv beta.
    rewrite (Hsame inW i) by (right; lia). now rewrite Hx.
  - exists c. repeat split; auto.
Qed.

(** A kernel that adds to the element [i] of [inG] a value computed from
    the elements [i] of two other tensors. *)
Lemma accumulate_loop (inG a b : Handle) (f : FloatTy -> FloatTy -> FloatTy)
  (n : nat) (ctx : Context) (xa xb dx : nat -> FloatTy) :
  (forall i, i < n -> raw ctx a i = Some (xa i)) ->
  (forall i, i < n -> raw ctx b i = Some (xb i)) ->
  (forall i, i < n -> raw ctx inG i = Some (dx i)) ->
  exists ctx',
    for_loop n (fun i c => va <- raw c a i ;;
                           vb <- raw c b i ;;
                           add_raw c inG i (f va vb)) ctx = Some ctx' /\
    (forall i, i < n ->
       raw ctx' inG i = Some (fadd (dx i) (f (xa i) (xb i)))) /\
    (forall h, h <> inG -> tensorOf ctx' h = tensorOf ctx h) /\
    indexOf ctx' = indexOf ctx.
Proof.
  intros Ha Hb Hdx.
  assert (Hlen : n <= length (elems (tensorOf ctx inG))).
  { destruct n as [|n]; [lia|].
    assert (H : raw ctx inG n <> None) by (rewrite Hdx by lia; discriminate).
    apply nth_error_Some in H. lia. }
  destruct (pointwise_loop inG
    (fun i c => va <- raw c a i ;; vb <- raw c b i ;; add_raw c inG i (f va vb))
    (fun i => fadd (dx i) (f (xa i) (xb i))) n ctx Hlen)
    as (c & Hc & Ho & Hi & _ & _ & Hdone & _).
  - intros i c Hi _ Hsame. cbv beta. unfold add_raw.
    rewrite (Hsame a i), (Hsame b i), (Hsame inG i) by (right; lia).
    now rewrite Ha, Hb, Hdx.
  - exists c. repeat split; auto.
Qed.

End PointwiseKernels.

Section PointwiseBounds.
Context {ops : FloatOps}.

(** Such a loop returns exactly when both tensors have [n] elements. *)
Lemma map_loop_returns (inW outW : Handle) (f : FloatTy -> FloatTy) (n : nat)
  (ctx : Context) :
  for_loop n (fun i c => val <- raw c inW i ;;
                         set_raw c outW i (f val)) ctx <> None <->
  n <= length (elems (tensorOf ctx inW)) /\
  n <= length (elems (tensorOf ctx outW)).
Proof.
  split.
  - intros Hrun.
    destruct (Nat.le_gt_cases n (length (elems (tensorOf ctx outW)))) as [Ho|Ho].
    + split; [|exact Ho].
      destruct (Nat.le_gt_cases n (length (elems (tensorOf ctx inW)))) as [Hi|Hi];
        [exact Hi|].
      exfalso. apply Hrun.
      apply (for_loop_None
               (fun c => length (elems (tensorOf c inW)) =
                         length (elems (tensorOf ctx inW)))
               _ n (length (elems (tensorOf ctx inW)))); auto.
      * intros i t t' _ Ht E.
        destruct (raw t inW i); [|discriminate].
        rewrite (length_set_raw inW E). exact Ht.
      * intros t Ht. unfold raw, t_raw.
        replace (nth_error (elems (tensorOf t inW))
                   (length (elems (tensorOf ctx inW)))) with (@None FloatTy);
          [reflexivity|].
        symmetry. apply nth_error_None. lia.
    + exfalso. apply Hrun. apply (pointwise_loop_None outW); [exact Ho|].
      intros i c. exists (match raw c inW i with
                          | Some val => Some (f val) | None => None end).
      destruct (raw c inW i); reflexivity.
  - intros [Hi Ho].
    destruct (map_loop inW outW f n ctx (flat_of ctx inW)) as (c & Hc & _).
    + intros i Hlt. apply get_raw. lia.
    + exact Ho.
    + rewrite Hc. discriminate.
Qed.

End PointwiseBounds.

(** X2. Which of the two sizes bounds the loop decides when a pointwise
    activation returns.  ReLU and Tanh run over the elements of the source
    and return exactly when the source is no larger than the destination;
    Sigmoid runs over the elements of the destination and returns exactly
    when the destination is no larger than the source (it reads the source
    out of bounds otherwise).  Both tensors hold as many elements as their
    shapes say. *)
Theorem activation_bounds :
  forall (ops : FloatOps) (isTrain : bool) (dest src : Value) (ctx : Context),
    wf_tensor (weightOf ctx src) -> wf_tensor (weightOf ctx dest) ->
    let ns := hsize ctx (WeightH src) in
    let nd := hsize ctx (WeightH dest) in
    (fwdReluInst isTrain {| relu_Dest := dest; relu_Src := src |} ctx <> None
     <-> ns <= nd) /\
    (fwdTanhInst isTrain {| tanh_Dest := dest; tanh_Src := src |} ctx <> None
     <-> ns <= nd) /\
    (fwdSigmoidInst isTrain {| sigmoid_Dest := dest; sigmoid_Src := src |} ctx
       <> None
     <-> nd <= ns).
Proof.
  intros ops isTrain dest src ctx Ws Wd ns nd.
  assert (Ls : length (elems (tensorOf ctx (WeightH src))) = ns) by exact Ws.
  assert (Ld : length (elems (tensorOf ctx (WeightH dest))) = nd) by exact Wd.
  split; [|split].
  - unfold fwdReluInst. cbn [relu_Src relu_Dest]. fold ns.
    rewrite (map_loop_returns (WeightH src) (WeightH dest)
               (fun val => if flt val fzero then fzero else val) ns ctx).
    rewrite Ls, Ld. intuition lia.
  - unfold fwdTanhInst. cbn [tanh_Src tanh_Dest]. fold ns.
    rewrite (map_loop_returns (WeightH src) (WeightH dest)
               (fun val => fdiv (fsub (std_exp val) (std_exp (fneg val)))
                                (fadd (std_exp val) (std_exp (fneg val))))
               ns ctx).
    rewrite Ls, Ld. intuition lia.
  - unfold fwdSigmoidInst. cbn [sigmoid_Src sigmoid_Dest]. fold nd.
    rewrite (map_loop_returns (WeightH src) (WeightH dest)
               (fun val => fdiv fone (fadd fone (std_exp (fneg val)))) nd ctx).
    rewrite Ls, Ld. intuition lia.
Qed.

Lemma activation_bounds_witness :
  (@fwdReluInst RealOps true {| relu_Dest := 0; relu_Src := 1 |}
     (ctxS4 [0; 0; 0]%Z) <> None <-> 3 <= 3) /\
  (@fwdTanhInst RealOps true {| tanh_Dest := 0; tanh_Src := 1 |}
     (ctxS4 [0; 0; 0]%Z) <> None <-> 3 <= 3) /\
  (@fwdSigmoidInst RealOps true {| sigmoid_Dest := 0; sigmoid_Src := 1 |}
     (ctxS4 [0; 0; 0]%Z) <> None <-> 3 <= 3).
Proof.
  apply (activation_bounds RealOps true 0 1 (ctxS4 [0; 0; 0]%Z)); reflexivity.
Defined.

(** X1. The forward kernels of Copy, Reshape and Regression are one and
    the same flat copy.  When the storage of the destination has room for
    the elements of the source, each of them returns the same context: the
    first [size(src)] elements of the destination are those of the source;
    the shape of the destination, its elements from [size(src)] on, and
    every other tensor are as before.  Nothing is asked of the two values:
    a copy onto itself returns the tensor as it was. *)
Theorem flat_copy_kernels :
  forall (ops : FloatOps) (isTrain : bool) (dest src expected : Value)
         (ctx : Context) (x : nat -> FloatTy),
    let n := hsize ctx (WeightH src) in
    (forall i, i < n -> raw ctx (WeightH src) i = Some (x i)) ->
    n <= length (elems (weightOf ctx dest)) ->
    exists ctx',
      fwdCopyInst isTrain {| copy_Dest := dest; copy_Src := src |} ctx
        = Some ctx' /\
      fwdReshapeInst isTrain {| reshape_Dest := dest; reshape_Src := src |} ctx
        = Some ctx' /\
      fwdRegressionInst isTrain
        {| regression_Dest := dest; regression_Src := src;
           regression_Expected := expected |} ctx = Some ctx' /\
      hdims ctx' (WeightH dest) = hdims ctx (WeightH dest) /\
      (forall i, i < n -> raw ctx' (WeightH dest) i = Some (x i)) /\
      (forall i, n <= i ->
         raw ctx' (WeightH dest) i = raw ctx (WeightH dest) i) /\
      (forall h, h <> WeightH dest -> tensorOf ctx' h = tensorOf ctx h) /\
      indexOf ctx' = indexOf ctx.
Proof.
  intros ops isTrain dest src expected ctx x n Hx Hlen.
  destruct (flat_copy_loop dest src ctx x Hx Hlen) as (c & Hc & H).
  exists c. split; [exact Hc|]. split; [exact Hc|]. split; [exact Hc|]. exact H.
Qed.

Lemma flat_copy_kernels_witness :
  exists ctx',
    @fwdCopyInst RealOps true {| copy_Dest := 0; copy_Src := 1 |}
      (ctxS4 [0; 0; 0]%Z) = Some ctx' /\
    @fwdReshapeInst RealOps true {| reshape_Dest := 0; reshape_Src := 1 |}
      (ctxS4 [0; 0; 0]%Z) = Some ctx' /\
    @fwdRegressionInst RealOps true
      {| regression_Dest := 0; regression_Src := 1; regression_Expected := 2 |}
      (ctxS4 [0; 0; 0]%Z) = Some ctx' /\
    hdims ctx' (WeightH 0) = [3] /\
    (forall i, i < 3 ->
       raw ctx' (WeightH 0) i = Some (nth i [-1; 0; 2]%R 0%R)) /\
    (forall i, 3 <= i ->
       raw ctx' (WeightH 0) i = raw (@ctxS4 RealOps [0; 0; 0]%Z) (WeightH 0) i) /\
    (forall h, h <> WeightH 0 ->
       tensorOf ctx' h = tensorOf (@ctxS4 RealOps [0; 0; 0]%Z) h) /\
    indexOf ctx' = indexOf (@ctxS4 RealOps [0; 0; 0]%Z).
Proof.
  apply (flat_copy_kernels RealOps true 0 1 2 (ctxS4 [0; 0; 0]%Z)
           (fun i => nth i [-1; 0; 2]%R 0%R)).
  - intros i Hi. vm_compute in Hi.
    destruct i as [|[|[|i]]]; try lia; cbn; f_equal; lra.
  - vm_compute. lia.
Defined.

(** X3. Sigmoid forward, then backward.  The forward kernel writes
    [s = 1 / (1 + exp(-x))] to the destination; the backward kernel, which
    reads that output and not the input, then adds [s * (1 - s) * outG] to
    the gradient of the source, element by element. *)
Theorem sigmoid_forward_backward :
  forall (ops : FloatOps) (isTrain : bool) (I : SigmoidInst) (ctx : Context)
         (x dy dx : nat -> FloatTy),
    let n := hsize ctx (WeightH (sigmoid_Dest I)) in
    (forall i, i < n -> raw ctx (WeightH (sigmoid_Src I)) i = Some (x i)) ->
    (forall i, i < n -> raw ctx (GradH (sigmoid_Dest I)) i = Some (dy i)) ->
    (forall i, i < n -> raw ctx (GradH (sigmoid_Src I)) i = Some (dx i)) ->
    n <= length (elems (weightOf ctx (sigmoid_Dest I))) ->
    let s := fun i => fdiv fone (fadd fone (std_exp (fneg (x i)))) in
    exists ctx',
      and_then (fwdSigmoidInst isTrain I ctx) (bwdSigmoidInst I) = Some ctx' /\
      forall i, i < n ->
        raw ctx' (WeightH (sigmoid_Dest I)) i = Some (s i) /\
        raw ctx' (GradH (sigmoid_Src I)) i =
          Some (fadd (dx i) (fmul (fmul (s i) (fsub fone (s i))) (dy i))).
Proof.
  intros ops isTrain I ctx x dy dx n Hx Hdy Hdx Hlen s.
  destruct (map_loop (WeightH (sigmoid_Src I)) (WeightH (sigmoid_Dest I))
              (fun val => fdiv fone (fadd fone (std_exp (fneg val))))
              n ctx x Hx Hlen) as (c1 & E1 & Hout & Hd1 & _ & Ho1 & _).
  assert (Hg : forall v, tensorOf c1 (GradH v) = tensorOf ctx (GradH v)).
  { intros v. apply Ho1. discriminate. }
  destruct (accumulate_loop (GradH (sigmoid_Src I)) (WeightH (sigmoid_Dest I))
              (GradH (sigmoid_Dest I))
              (fun val g => fmul (fmul val (fsub fone val)) g)
              n c1 s dy dx) as (c2 & E2 & Hacc & Ho2 & _).
  - exact Hout.
  - intros i Hi. unfold raw. rewrite Hg. now apply Hdy.
  - intros i Hi. unfold raw. rewrite Hg. now apply Hdx.
  - exists c2. split.
    + unfold and_then, fwdSigmoidInst. fold n. rewrite E1.
      unfold bwdSigmoidInst.
      replace (hsize c1 (WeightH (sigmoid_Dest I))) with n; [exact E2|].
      unfold n, hsize, tsize. fold (hdims c1 (WeightH (sigmoid_Dest I))).
      fold (hdims ctx (WeightH (sigmoid_Dest I))). now rewrite Hd1.
    + intros i Hi. split; [|now apply Hacc].
      unfold raw. rewrite Ho2 by discriminate. now apply Hout.
Qed.

Lemma sigmoid_forward_backward_witness :
  exists ctx',
    and_then (@fwdSigmoidInst RealOps true
                {| sigmoid_Dest := 0; sigmoid_Src := 1 |} (ctxS4 [1; 2; 3]%Z))
             (bwdSigmoidInst {| sigmoid_Dest := 0; sigmoid_Src := 1 |})
      = Some ctx' /\
    forall i, i < 3 ->
      let s := (1 / (1 + exp (- nth i [-1; 0; 2] 0)))%R in
      raw ctx' (WeightH 0) i = Some s /\
      raw ctx' (GradH 1) i =
        Some (nth i [1; 2; 3] 0 + s * (1 - s) * nth i [5; 7; 9] 0)%R.
Proof.
  apply (sigmoid_forward_backward RealOps true
           {| sigmoid_Dest := 0; sigmoid_Src := 1 |} (ctxS4 [1; 2; 3]%Z)
           (fun i => nth i [-1; 0; 2]%R 0%R) (fun i => nth i [5; 7; 9]%R 0%R)
           (fun i => nth i [1; 2; 3]%R 0%R)).
  - intros i Hi. vm_compute in Hi.
    destruct i as [|[|[|i]]]; try lia; cbn; f_equal; lra.
  - intros i Hi. vm_compute in Hi.
    destruct i as [|[|[|i]]]; try lia; cbn; f_equal; lra.
  - intros i Hi. vm_compute in Hi.
    destruct i as [|[|[|i]]]; try lia; cbn; f_equal; lra.
  - vm_compute. lia.
Defined.

(** On the reals the quotient the forward kernel of Tanh computes is the
    hyperbolic tangent. *)
Lemma real_tanh (x : R) :
  ((exp x - exp (- x)) / (exp x + exp (- x)))%R = tanh x.
Proof.
  unfold tanh, sinh, cosh.
  pose proof (exp_pos x). pose proof (exp_pos (- x)%R).
  field. lra.
Qed.

(** X4. Tanh forward, then backward, in exact arithmetic.  The quotient
    [(exp(x) - exp(-x)) / (exp(x) + exp(-x))] the forward kernel writes is
    the hyperbolic tangent of the input, and the backward kernel then adds
    [(1 - tanh(x)^2) * outG] to the gradient of the source. *)
Theorem tanh_forward_backward :
  forall (isTrain : bool) (I : TanhInst) (ctx : @Context RealOps)
         (x dy dx : nat -> R),
    let n := hsize ctx (WeightH (tanh_Src I)) in
    hsize ctx (WeightH (tanh_Dest I)) = n ->
    (forall i, i < n -> raw ctx (WeightH (tanh_Src I)) i = Some (x i)) ->
    (forall i, i < n -> raw ctx (GradH (tanh_Dest I)) i = Some (dy i)) ->
    (forall i, i < n -> raw ctx (GradH (tanh_Src I)) i = Some (dx i)) ->
    n <= length (elems (weightOf ctx (tanh_Dest I))) ->
    exists ctx',
      and_then (fwdTanhInst isTrain I ctx) (bwdTanhInst I) = Some ctx' /\
      forall i, i < n ->
        raw ctx' (WeightH (tanh_Dest I)) i = Some (tanh (x i)) /\
        raw ctx' (GradH (tanh_Src I)) i =
          Some (dx i + (1 - tanh (x i) * tanh (x i)) * dy i)%R.
Proof.
  intros isTrain I ctx x dy dx n Hsize Hx Hdy Hdx Hlen.
  destruct (@map_loop RealOps (WeightH (tanh_Src I)) (WeightH (tanh_Dest I))
              (fun val => ((exp val - exp (- val)) / (exp val + exp (- val)))%R)
              n ctx x Hx Hlen) as (c1 & E1 & Hout & Hd1 & _ & Ho1 & _).
  assert (Hg : forall v, tensorOf c1 (GradH v) = tensorOf ctx (GradH v)).
  { intros v. apply Ho1. discriminate. }
  destruct (@accumulate_loop RealOps (GradH (tanh_Src I)) (WeightH (tanh_Dest I))
              (GradH (tanh_Dest I))
              (fun val g => ((1 - val * val) * g)%R)
              n c1 (fun i => tanh (x i)) dy dx) as (c2 & E2 & Hacc & Ho2 & _).
  - intros i Hi. rewrite (Hout i Hi). f_equal. apply real_tanh.
  - intros i Hi. unfold raw. rewrite Hg. now apply Hdy.
  - intros i Hi. unfold raw. rewrite Hg. now apply Hdx.
  - exists c2. split.
    + assert (F : fwdTanhInst isTrain I ctx = Some c1) by exact E1.
      unfold and_then. rewrite F. unfold bwdTanhInst.
      replace (hsize c1 (WeightH (tanh_Dest I))) with n; [exact E2|].
      rewrite <- Hsize.
      unfold hsize, tsize. fold (hdims c1 (WeightH (tanh_Dest I))).
      fold (hdims ctx (WeightH (tanh_Dest I))). now rewrite Hd1.
    + intros i Hi. split; [|now apply Hacc].
      unfold raw. rewrite Ho2 by discriminate.
      rewrite <- (real_tanh (x i)). now apply Hout.
Qed.

Lemma tanh_forward_backward_witness :
  exists ctx',
    and_then (@fwdTanhInst RealOps true {| tanh_Dest := 0; tanh_Src := 1 |}
                (ctxS4 [1; 2; 3]%Z))
             (bwdTanhInst {| tanh_Dest := 0; tanh_Src := 1 |}) = Some ctx' /\
    forall i, i < 3 ->
      raw ctx' (WeightH 0) i = Some (tanh (nth i [-1; 0; 2] 0)%R) /\
      raw ctx' (GradH 1) i =
        Some (nth i [1; 2; 3] 0
              + (1 - tanh (nth i [-1; 0; 2] 0) * tanh (nth i [-1; 0; 2] 0))
                * nth i [5; 7; 9] 0)%R.
Proof.
  apply (tanh_forward_backward true {| tanh_Dest := 0; tanh_Src := 1 |}
           (ctxS4 [1; 2; 3]%Z)
           (fun i => nth i [-1; 0; 2]%R 0%R) (fun i => nth i [5; 7; 9]%R 0%R)
           (fun i => nth i [1; 2; 3]%R 0%R)).
  - reflexivity.
  - intros i Hi. vm_compute in Hi.
    destruct i as [|[|[|i]]]; try lia; cbn; f_equal; lra.
  - intros i Hi. vm_compute in Hi.
    destruct i as [|[|[|i]]]; try lia; cbn; f_equal; lra.
  - intros i Hi. vm_compute in Hi.
    destruct i as [|[|[|i]]]; try lia; cbn; f_equal; lra.
  - vm_compute. lia.
Defined.

(** X5. No element the forward kernel of ReLU writes is [< 0]: it is the
    input where the input is not [< 0], and 0 elsewhere.  Only [0 < 0]
    being false is asked of the arithmetic, and nothing of the two values:
    the kernel also works in place. *)
Theorem fwdRelu_never_negative :
  forall (ops : FloatOps) (isTrain : bool) (I : ReluInst) (ctx : Context)
         (x : nat -> FloatTy),
    flt fzero fzero = false ->
    let n := hsize ctx (WeightH (relu_Src I)) in
    (forall i, i < n -> raw ctx (WeightH (relu_Src I)) i = Some (x i)) ->
    n <= length (elems (weightOf ctx (relu_Dest I))) ->
    exists ctx',
      fwdReluInst isTrain I ctx = Some ctx' /\
      forall i, i < n ->
        exists y,
          raw ctx' (WeightH (relu_Dest I)) i = Some y /\
          flt y fzero = false /\
          (flt (x i) fzero = false -> y = x i) /\
          (flt (x i) fzero = true -> y = fzero).
Proof.
  intros ops isTrain I ctx x H00 n Hx Hlen.
  destruct (map_loop (WeightH (relu_Src I)) (WeightH (relu_Dest I))
              (fun val => if flt val fzero then fzero else val)
              n ctx x Hx Hlen) as (c1 & E1 & Hout & _).
  exists c1. split; [exact E1|]. intros i Hi.
  exists (if flt (x i) fzero then fzero else x i).
  split; [now apply Hout|].
  destruct (flt (x i) fzero) eqn:E; repeat split; auto; discriminate.
Qed.

Lemma fwdRelu_never_negative_witness :
  exists ctx',
    @fwdReluInst RealOps true reluS4 (ctxS4 [0; 0; 0]%Z) = Some ctx' /\
    forall i, i < 3 ->
      exists y : R,
        raw ctx' (WeightH 0) i = Some y /\
        @flt RealOps y 0%R = false /\
        (@flt RealOps (nth i [-1; 0; 2]%R 0%R) 0%R = false ->
         y = nth i [-1; 0; 2]%R 0%R) /\
        (@flt RealOps (nth i [-1; 0; 2]%R 0%R) 0%R = true -> y = 0%R).
Proof.
  apply (fwdRelu_never_negative RealOps true reluS4 (ctxS4 [0; 0; 0]%Z)
           (fun i => nth i [-1; 0; 2]%R 0%R)).
  - cbn [flt RealOps fzero]. destruct (Rlt_dec 0 0); [lra|reflexivity].
  - intros i Hi. vm_compute in Hi.
    destruct i as [|[|[|i]]]; try lia; cbn; f_equal; lra.
  - vm_compute. lia.
Defined.

(** X6. The forward kernel of an arithmetic instruction writes
    [LHS(i) + RHS(i)], or [LHS(i) * RHS(i)], to every element of the
    destination and changes no other tensor, whatever values the three
    operands are: the destination may be one of the operands, or both. *)
Theorem fwdArithmetic_elementwise :
  forall (ops : FloatOps) (isTrain : bool) (I : ArithmeticInst) (ctx : Context)
         (lhs rhs : nat -> FloatTy),
    let n := hsize ctx (WeightH (arith_Dest I)) in
    (forall i, i < n -> raw ctx (WeightH (arith_LHS I)) i = Some (lhs i)) ->
    (forall i, i < n -> raw ctx (WeightH (arith_RHS I)) i = Some (rhs i)) ->
    n <= length (elems (weightOf ctx (arith_Dest I))) ->
    exists ctx',
      fwdArithmeticInst isTrain I ctx = Some ctx' /\
      (forall i, i < n ->
         raw ctx' (WeightH (arith_Dest I)) i =
         Some (match arith_Kind I with
               | ArithAdd => fadd (lhs i) (rhs i)
               | ArithMul => fmul (lhs i) (rhs i)
               end)) /\
      (forall h, h <> WeightH (arith_Dest I) ->
         tensorOf ctx' h = tensorOf ctx h).
Proof.
  intros ops isTrain I ctx lhs rhs n Hl Hr Hlen.
  unfold fwdArithmeticInst. fold n.
  destruct (arith_Kind I).
  - destruct (pointwise_loop (WeightH (arith_Dest I))
      (fun i c => l <- raw c (WeightH (arith_LHS I)) i ;;
                  r <- raw c (WeightH (arith_RHS I)) i ;;
                  set_raw c (WeightH (arith_Dest I)) i (fadd l r))
      (fun i => fadd (lhs i) (rhs i)) n ctx Hlen)
      as (c & Hc & Ho & _ & _ & _ & Hdone & _).
    + intros i c Hi _ Hsame. cbv beta.
      rewrite (Hsame (WeightH (arith_LHS I)) i),
              (Hsame (WeightH (arith_RHS I)) i) by (right; lia).
      now rewrite Hl, Hr.
    + exists c. repeat split; auto.
  - destruct (pointwise_loop (WeightH (arith_Dest I))
      (fun i c => l <- raw c (WeightH (arith_LHS I)) i ;;
                  r <- raw c (WeightH (arith_RHS I)) i ;;
                  set_raw c (WeightH (arith_Dest I)) i (fmul l r))
      (fun i => fmul (lhs i) (rhs i)) n ctx Hlen)
      as (c & Hc & Ho & _ & _ & _ & Hdone & _).
    + intros i c Hi _ Hsame. cbv beta.
      rewrite (Hsame (WeightH (arith_LHS I)) i),
              (Hsame (WeightH (arith_RHS I)) i) by (right; lia).
      now rewrite Hl, Hr.
    + exists c. repeat split; auto.
Qed.

(** Squaring in place: the destination is both operands. *)
Lemma fwdArithmetic_elementwise_witness :
  exists ctx',
    @fwdArithmeticInst RealOps true
      {| arith_Dest := 1; arith_LHS := 1; arith_RHS := 1;
         arith_Kind := ArithMul |} (ctxS4 [0; 0; 0]%Z) = Some ctx' /\
    (forall i, i < 3 ->
       raw ctx' (WeightH 1) i =
       Some (nth i [-1; 0; 2] 0 * nth i [-1; 0; 2] 0)%R) /\
    (forall h, h <> WeightH 1 ->
       tensorOf ctx' h = tensorOf (@ctxS4 RealOps [0; 0; 0]%Z) h).
Proof.
  apply (fwdArithmetic_elementwise RealOps true
           {| arith_Dest := 1; arith_LHS := 1; arith_RHS := 1;
              arith_Kind := ArithMul |} (ctxS4 [0; 0; 0]%Z)
           (fun i => nth i [-1; 0; 2]%R 0%R) (fun i => nth i [-1; 0; 2]%R 0%R)).
  - intros i Hi. vm_compute in Hi.
    destruct i as [|[|[|i]]]; try lia; cbn; f_equal; lra.
  - intros i Hi. vm_compute in Hi.
    destruct i as [|[|[|i]]]; try lia; cbn; f_equal; lra.
  - vm_compute. lia.
Defined.

Section Overwrites.
Context {ops : FloatOps}.

(** What a read finds after a write. *)
Lemma raw_after_set (c c' : Context) (h h' : Handle) (k i : nat) (v : FloatTy) :
  set_raw c h k v = Some c' ->
  raw c' h' i = if Handle_eq_dec h' h
                then if Nat.eq_dec i k then Some v else raw c h' i
                else raw c h' i.
Proof.
  intros E. destruct (Handle_eq_dec h' h) as [->|Hh].
  - destruct (Nat.eq_dec i k) as [->|Hi].
    + apply (raw_set_same E).
    + apply (raw_set_other E). tauto.
  - apply (raw_set_other E). tauto.
Qed.

Lemma bwdArithmetic_add_loop (I : ArithmeticInst) (ctx : Context)
  (g : nat -> FloatTy) (n : nat) :
  (forall i, i < n -> raw ctx (GradH (arith_Dest I)) i = Some (g i)) ->
  n <= length (elems (gradOf ctx (arith_LHS I))) ->
  n <= length (elems (gradOf ctx (arith_RHS I))) ->
  exists ctx',
    for_loop n (bwdArithmetic_add I) ctx = Some ctx' /\
    (forall i, i < n ->
       raw ctx' (GradH (arith_LHS I)) i = Some (g i) /\
       raw ctx' (GradH (arith_RHS I)) i = Some (g i)) /\
    weightOf ctx' = weightOf ctx /\ indexOf ctx' = indexOf ctx.
Proof.
  intros HG LL LR.
  set (P := fun (k : nat) (c : Context) =>
    weightOf c = weightOf ctx /\ indexOf c = indexOf ctx /\
    (forall i, i < n -> raw c (GradH (arith_Dest I)) i = Some (g i)) /\
    length (elems (tensorOf c (GradH (arith_LHS I)))) =
      length (elems (tensorOf ctx (GradH (arith_LHS I)))) /\
    length (elems (tensorOf c (GradH (arith_RHS I)))) =
      length (elems (tensorOf ctx (GradH (arith_RHS I)))) /\
    forall i, i < k ->
      raw c (GradH (arith_LHS I)) i = Some (g i) /\
      raw c (GradH (arith_RHS I)) i = Some (g i)).
  destruct (for_loop_ind P (bwdArithmetic_add I) n ctx) as (c & Hc & HP).
  - unfold P. repeat split; auto; intros; lia.
  - intros k c Hk (Hw & Hx & Hg & HlL & HlR & Hdone).
    unfold bwdArithmetic_add. rewrite (Hg k Hk).
    destruct (set_raw_Some c (GradH (arith_LHS I)) k (g k)) as (c1 & E1).
    { rewrite HlL. simpl. lia. }
    rewrite E1.
    assert (Hg1 : forall i, i < n -> raw c1 (GradH (arith_Dest I)) i = Some (g i)).
    { intros i Hi. rewrite (raw_after_set _ _ _ _ _ _ _ E1).
      destruct (Handle_eq_dec _ _); [|now apply Hg].
      destruct (Nat.eq_dec i k) as [->|]; [reflexivity|now apply Hg]. }
    rewrite (Hg1 k Hk).
    destruct (set_raw_Some c1 (GradH (arith_RHS I)) k (g k)) as (c2 & E2).
    { rewrite (length_set_raw _ E1), HlR. simpl. lia. }
    rewrite E2. eexists; split; [reflexivity|]. unfold P.
    split; [|split; [|split; [|split; [|split]]]].
    + apply set_raw_inv in E1, E2.
      destruct E1 as (t1 & _ & ->), E2 as (t2 & _ & ->). exact Hw.
    + rewrite (indexOf_set_raw E2), (indexOf_set_raw E1). exact Hx.
    + intros i Hi. rewrite (raw_after_set _ _ _ _ _ _ _ E2).
      destruct (Handle_eq_dec _ _); [|now apply Hg1].
      destruct (Nat.eq_dec i k) as [->|]; [reflexivity|now apply Hg1].
    + rewrite (length_set_raw _ E2), (length_set_raw _ E1). exact HlL.
    + rewrite (length_set_raw _ E2), (length_set_raw _ E1). exact HlR.
    + intros i Hi.
      rewrite !(raw_after_set _ _ _ _ _ _ _ E2), !(raw_after_set _ _ _ _ _ _ _ E1).
      destruct (Nat.eq_dec i k) as [->|Hik].
      * repeat destruct (Handle_eq_dec _ _); try reflexivity; try congruence;
          auto.
      * assert (i < k) by lia.
        repeat destruct (Handle_eq_dec _ _); now apply Hdone.
  - exists c. split; [exact Hc|].
    destruct HP as (Hw & Hx & _ & _ & _ & Hdone). auto.
Qed.

(** The loop of the backward kernels of Copy and Reshape. *)
Lemma route_loop (inG outG : Handle) (n : nat) (ctx : Context)
  (dy dx : nat -> FloatTy) :
  (forall i, i < n -> raw ctx outG i = Some (dy i)) ->
  (forall i, i < n -> raw ctx inG i = Some (dx i)) ->
  exists ctx',
    for_loop n (fun i c => g <- raw c outG i ;; add_raw c inG i g) ctx
      = Some ctx' /\
    (forall i, i < n -> raw ctx' inG i = Some (fadd (dx i) (dy i))) /\
    (forall h, h <> inG -> tensorOf ctx' h = tensorOf ctx h) /\
    indexOf ctx' = indexOf ctx.
Proof.
  intros Hdy Hdx.
  assert (Hlen : n <= length (elems (tensorOf ctx inG))).
  { destruct n as [|n]; [lia|].
    assert (H : raw ctx inG n <> None) by (rewrite Hdx by lia; discriminate).
    apply nth_error_Some in H. lia. }
  destruct (pointwise_loop inG
    (fun i c => g <- raw c outG i ;; add_raw c inG i g)
    (fun i => fadd (dx i) (dy i)) n ctx Hlen)
    as (c & Hc & Ho & Hi & _ & _ & Hdone & _).
  - intros i c Hi _ Hsame. cbv beta. unfold add_raw.
    rewrite (Hsame outG i), (Hsame inG i) by (right; lia).
    now rewrite Hdy, Hdx.
  - exists c. repeat split; auto.
Qed.

End Overwrites.

(** X7. The backward kernel of an arithmetic Add overwrites the
    gradients of both operands with the gradient of the destination,
    whatever they held before and whatever values the operands are.  For
    [x + x] the gradient of [x] therefore ends as [outG], not twice it. *)
Theorem bwdArithmetic_add_overwrites :
  forall (ops : FloatOps) (I : ArithmeticInst) (ctx : Context)
         (g : nat -> FloatTy),
    arith_Kind I = ArithAdd ->
    let n := hsize ctx (GradH (arith_Dest I)) in
    (forall i, i < n -> raw ctx (GradH (arith_Dest I)) i = Some (g i)) ->
    n <= length (elems (gradOf ctx (arith_LHS I))) ->
    n <= length (elems (gradOf ctx (arith_RHS I))) ->
    exists ctx',
      bwdArithmeticInst I ctx = Some ctx' /\
      (forall i, i < n ->
         raw ctx' (GradH (arith_LHS I)) i = Some (g i) /\
         raw ctx' (GradH (arith_RHS I)) i = Some (g i)) /\
      weightOf ctx' = weightOf ctx /\ indexOf ctx' = indexOf ctx.
Proof.
  intros ops I ctx g HK n HG LL LR.
  unfold bwdArithmeticInst. rewrite HK. fold n.
  now apply bwdArithmetic_add_loop.
Qed.

(** The sum [x + x]: both operands are the value 1, whose gradient held
    [1, 2, 3]. *)
Lemma bwdArithmetic_add_overwrites_witness :
  exists ctx',
    @bwdArithmeticInst RealOps
      {| arith_Dest := 0; arith_LHS := 1; arith_RHS := 1;
         arith_Kind := ArithAdd |} (ctxS4 [1; 2; 3]%Z) = Some ctx' /\
    (forall i, i < 3 ->
       raw ctx' (GradH 1) i = Some (nth i [5; 7; 9]%R 0%R) /\
       raw ctx' (GradH 1) i = Some (nth i [5; 7; 9]%R 0%R)) /\
    weightOf ctx' = weightOf (@ctxS4 RealOps [1; 2; 3]%Z) /\
    indexOf ctx' = indexOf (@ctxS4 RealOps [1; 2; 3]%Z).
Proof.
  apply (bwdArithmetic_add_overwrites RealOps
           {| arith_Dest := 0; arith_LHS := 1; arith_RHS := 1;
              arith_Kind := ArithAdd |} (ctxS4 [1; 2; 3]%Z)
           (fun i => nth i [5; 7; 9]%R 0%R)).
  - reflexivity.
  - intros i Hi. vm_compute in Hi.
    destruct i as [|[|[|i]]]; try lia; cbn; f_equal; lra.
  - vm_compute. lia.
  - vm_compute. lia.
Defined.

(** X8. The backward kernels of Copy and Reshape accumulate: each adds
    [outG(i)] to [inG(i)] and changes no other tensor.  Copy runs over the
    size of the gradient of the destination and Reshape over the size of
    its weight; when the two agree the kernels return the same context. *)
Theorem bwdCopy_bwdReshape_accumulate :
  forall (ops : FloatOps) (dest src : Value) (ctx : Context)
         (dy dx : nat -> FloatTy),
    let n := hsize ctx (GradH dest) in
    hsize ctx (WeightH dest) = n ->
    (forall i, i < n -> raw ctx (GradH dest) i = Some (dy i)) ->
    (forall i, i < n -> raw ctx (GradH src) i = Some (dx i)) ->
    exists ctx',
      bwdCopyInst {| copy_Dest := dest; copy_Src := src |} ctx = Some ctx' /\
      bwdReshapeInst {| reshape_Dest := dest; reshape_Src := src |} ctx
        = Some ctx' /\
      (forall i, i < n ->
         raw ctx' (GradH src) i = Some (fadd (dx i) (dy i))) /\
      (forall h, h <> GradH src -> tensorOf ctx' h = tensorOf ctx h) /\
      indexOf ctx' = indexOf ctx.
Proof.
  intros ops dest src ctx dy dx n Hsize Hdy Hdx.
  destruct (route_loop (GradH src) (GradH dest) n ctx dy dx Hdy Hdx)
    as (c & Hc & H).
  exists c. split; [exact Hc|]. split; [|exact H].
  unfold bwdReshapeInst. cbn [reshape_Dest reshape_Src]. rewrite Hsize.
  exact Hc.
Qed.

Lemma bwdCopy_bwdReshape_accumulate_witness :
  exists ctx',
    @bwdCopyInst RealOps {| copy_Dest := 0; copy_Src := 1 |}
      (ctxS4 [1; 2; 3]%Z) = Some ctx' /\
    @bwdReshapeInst RealOps {| reshape_Dest := 0; reshape_Src := 1 |}
      (ctxS4 [1; 2; 3]%Z) = Some ctx' /\
    (forall i, i < 3 ->
       raw ctx' (GradH 1) i =
       Some (nth i [1; 2; 3] 0 + nth i [5; 7; 9] 0)%R) /\
    (forall h, h <> GradH 1 ->
       tensorOf ctx' h = tensorOf (@ctxS4 RealOps [1; 2; 3]%Z) h) /\
    indexOf ctx' = indexOf (@ctxS4 RealOps [1; 2; 3]%Z).
Proof.
  apply (bwdCopy_bwdReshape_accumulate RealOps 0 1 (ctxS4 [1; 2; 3]%Z)
           (fun i => nth i [5; 7; 9]%R 0%R) (fun i => nth i [1; 2; 3]%R 0%R)).
  - reflexivity.
  - intros i Hi. vm_compute in Hi.
    destruct i as [|[|[|i]]]; try lia; cbn; f_equal; lra.
  - intros i Hi. vm_compute in Hi.
    destruct i as [|[|[|i]]]; try lia; cbn; f_equal; lra.
Defined.

Section Regression.
Context {ops : FloatOps}.

(** Two nested loops that add [d n i] to the element ([n], [i]) of [inG],
    reading only other tensors. *)
Lemma accumulate2_loop (inG : Handle)
  (body : nat -> nat -> Context -> option Context) (N M : nat) (ctx : Context)
  (g d : nat -> nat -> FloatTy) :
  (forall n i c, n < N -> i < M ->
     (forall h, h <> inG -> tensorOf c h = tensorOf ctx h) ->
     indexOf c = indexOf ctx ->
     body n i c = hadd c inG [n; i] (d n i)) ->
  (forall n i, n < N -> i < M -> hat ctx inG [n; i] = Some (g n i)) ->
  exists ctx',
    for_loop N (fun n c => for_loop M (body n) c) ctx = Some ctx' /\
    (forall h, h <> inG -> tensorOf ctx' h = tensorOf ctx h) /\
    indexOf ctx' = indexOf ctx /\
    forall n i, n < N -> i < M ->
      hat ctx' inG [n; i] = Some (fadd (g n i) (d n i)).
Proof.
  intros Hbody Hg.
  set (done := fun (n j a b : nat) => (a <? n) || ((a =? n) && (b <? j))).
  set (P := fun (n j : nat) (c : Context) =>
    (forall h, h <> inG -> tensorOf c h = tensorOf ctx h) /\
    indexOf c = indexOf ctx /\
    forall a b, a < N -> b < M ->
      hat c inG [a; b] =
      Some (if done n j a b then fadd (g a b) (d a b) else g a b)).
  destruct (for_loop2_ind P body N M ctx) as (c & Hc & HP).
  - unfold P, done. repeat split; auto. intros a b Ha Hb.
    rewrite Hg by auto. simpl. rewrite andb_false_r. reflexivity.
  - intros n j c Hn Hj (Ho & Hi & Hcell).
    rewrite (Hbody n j c Hn Hj Ho Hi). unfold hadd.
    rewrite (Hcell n j Hn Hj).
    assert (Dn : done n j n j = false).
    { unfold done. rewrite Nat.ltb_irrefl, Nat.eqb_refl. simpl.
      apply Nat.ltb_irrefl. }
    rewrite Dn.
    destruct (hset_of_hat c inG [n; j] _ (fadd (g n j) (d n j))
                (Hcell n j Hn Hj)) as (c1 & E1).
    rewrite E1. eexists; split; [reflexivity|]. unfold P. repeat split.
    + intros h Hh. rewrite (tensorOf_hset E1 Hh). now apply Ho.
    + rewrite (indexOf_hset E1). exact Hi.
    + intros a b Ha Hb.
      destruct (list_eq_dec Nat.eq_dec [a; b] [n; j]) as [Heq|Hneq].
      * inversion Heq; subst. rewrite (hat_set_same E1).
        unfold done. rewrite Nat.eqb_refl.
        replace (j <? S j) with true by (symmetry; apply Nat.ltb_lt; lia).
        rewrite orb_true_r. reflexivity.
      * rewrite (hat_set_other E1) by tauto. rewrite (Hcell a b Ha Hb).
        replace (done n (S j) a b) with (done n j a b); [reflexivity|].
        unfold done. destruct (Nat.eqb_spec a n); simpl; [|reflexivity].
        subst a. f_equal.
        destruct (Nat.ltb_spec b j), (Nat.ltb_spec b (S j)); auto; try lia.
        exfalso. apply Hneq. f_equal. f_equal. lia.
  - intros n c Hn (Ho & Hi & Hcell). unfold P. repeat split; auto.
    intros a b Ha Hb. rewrite (Hcell a b Ha Hb).
    replace (done (S n) 0 a b) with (done n M a b); [reflexivity|].
    unfold done. rewrite andb_false_r, orb_false_r.
    destruct (Nat.ltb_spec a n), (Nat.ltb_spec a (S n)), (Nat.eqb_spec a n);
      simpl; auto; try lia.
    destruct (Nat.ltb_spec b M); auto; lia.
  - exists c. split; [exact Hc|]. destruct HP as (Ho & Hi & Hcell).
    repeat split; auto.
    intros n i Hn Hi'. rewrite (Hcell n i Hn Hi'). unfold done.
    replace (n <? N) with true by (symmetry; apply Nat.ltb_lt; lia).
    reflexivity.
Qed.

End Regression.

(** X9. The backward kernel of Regression adds [src(n, i) -
    Expected(n, i)] to the gradient of the source at every (n, i) of a rank
    2 input, and changes no other tensor; on an input of any other rank it
    stops at its assertion. *)
Theorem bwdRegression_accumulates :
  forall (ops : FloatOps) (I : RegressionInst) (ctx : Context),
    (forall (N M : nat) (x e g : nat -> nat -> FloatTy),
       hdims ctx (WeightH (regression_Src I)) = [N; M] ->
       (forall n i, n < N -> i < M ->
          hat ctx (WeightH (regression_Src I)) [n; i] = Some (x n i)) ->
       (forall n i, n < N -> i < M ->
          hat ctx (WeightH (regression_Expected I)) [n; i] = Some (e n i)) ->
       (forall n i, n < N -> i < M ->
          hat ctx (GradH (regression_Src I)) [n; i] = Some (g n i)) ->
       exists ctx',
         bwdRegressionInst I ctx = Some ctx' /\
         (forall h, h <> GradH (regression_Src I) ->
            tensorOf ctx' h = tensorOf ctx h) /\
         forall n i, n < N -> i < M ->
           hat ctx' (GradH (regression_Src I)) [n; i] =
           Some (fadd (g n i) (fsub (x n i) (e n i)))) /\
    (length (hdims ctx (WeightH (regression_Src I))) <> 2 ->
     bwdRegressionInst I ctx = None).
Proof.
  intros ops I ctx. split.
  - intros N M x e g Hd Hx He Hg.
    unfold bwdRegressionInst. rewrite Hd. cbn [length Nat.eqb nth_error].
    destruct (accumulate2_loop (GradH (regression_Src I))
      (fun n i c =>
         x <- hat c (WeightH (regression_Src I)) [n; i] ;;
         ex <- hat c (WeightH (regression_Expected I)) [n; i] ;;
         hadd c (GradH (regression_Src I)) [n; i] (fsub x ex))
      N M ctx g (fun n i => fsub (x n i) (e n i))) as (c & Hc & Ho & _ & Hcell).
    + intros n i c Hn Hi Hsame _. unfold hat at 1 2.
      rewrite !Hsame by discriminate.
      fold (hat ctx (WeightH (regression_Src I)) [n; i]).
      fold (hat ctx (WeightH (regression_Expected I)) [n; i]).
      now rewrite Hx, He.
    + exact Hg.
    + exists c. repeat split; auto.
  - intros Hrank. unfold bwdRegressionInst.
    destruct (Nat.eqb_spec (length (hdims ctx (WeightH (regression_Src I)))) 2);
      [contradiction|reflexivity].
Qed.

Lemma bwdRegression_accumulates_witness :
  exists ctx',
    @bwdRegressionInst RealOps
      {| regression_Dest := 0; regression_Src := 1; regression_Expected := 2 |}
      ctxS5 = Some ctx' /\
    (forall h, h <> GradH 1 -> tensorOf ctx' h = tensorOf (@ctxS5 RealOps) h) /\
    forall n i, n < 1 -> i < 3 ->
      hat ctx' (GradH 1) [n; i] = Some (0 + (1 - 0))%R.
Proof.
  apply (proj1 (bwdRegression_accumulates RealOps
                  {| regression_Dest := 0; regression_Src := 1;
                     regression_Expected := 2 |} ctxS5)
           1 3 (fun _ _ => 1%R) (fun _ _ => 0%R) (fun _ _ => 0%R)).
  - reflexivity.
  - intros n i Hn Hi. destruct n; [|lia].
    destruct i as [|[|[|i]]]; try lia; cbn; f_equal; lra.
  - intros n i Hn Hi. destruct n; [|lia].
    destruct i as [|[|[|i]]]; try lia; cbn; f_equal; lra.
  - intros n i Hn Hi. destruct n; [|lia].
    destruct i as [|[|[|i]]]; try lia; cbn; f_equal; lra.
Defined.

(* ================================================================== *)
(** * The backward kernels leave the weights alone *)
(* ================================================================== *)

Section BackwardFrame.
Context {ops : FloatOps}.

(** [obs] is a part of the context that no write through a gradient
    handle changes: the weights, or the index tensors. *)
Variable T : Type.
Variable obs : Context -> T.
Hypothesis obs_grad :
  forall c v t, obs (putTensor c (GradH v) t) = obs c.

Lemma bkept_set_raw (c c' : Context) (v : Value) (i : nat) (x : FloatTy) :
  set_raw c (GradH v) i x = Some c' -> obs c' = obs c.
Proof.
  intros H. apply set_raw_inv in H. destruct H as (t & _ & ->).
  apply obs_grad.
Qed.

Lemma bkept_hset (c c' : Context) (v : Value) (idx : list nat) (x : FloatTy) :
  hset c (GradH v) idx x = Some c' -> obs c' = obs c.
Proof.
  intros H. apply hset_inv in H. destruct H as (t & _ & ->).
  apply obs_grad.
Qed.

Lemma bkept_add_raw (c c' : Context) (v : Value) (i : nat) (x : FloatTy) :
  add_raw c (GradH v) i x = Some c' -> obs c' = obs c.
Proof.
  unfold add_raw. destruct (raw c (GradH v) i); [|discriminate].
  apply bkept_set_raw.
Qed.

Lemma bkept_hadd (c c' : Context) (v : Value) (idx : list nat) (x : FloatTy) :
  hadd c (GradH v) idx x = Some c' -> obs c' = obs c.
Proof.
  unfold hadd. destruct (hat c (GradH v) idx); [|discriminate].
  apply bkept_hset.
Qed.

Lemma for_loop_bkept (g : T)
  (body : nat -> Context -> option Context) (n : nat) :
  (forall i c c', obs c = g -> body i c = Some c' -> obs c' = g) ->
  forall c c', obs c = g -> for_loop n body c = Some c' -> obs c' = g.
Proof.
  intros H. apply (for_loop_inv (fun c => obs c = g)). intros; eauto.
Qed.

Lemma for_loop_bkept_with {L : Type} (g : T)
  (body : nat -> Context * L -> option (Context * L)) (n : nat) :
  (forall i s s', obs (fst s) = g -> body i s = Some s' ->
                  obs (fst s') = g) ->
  forall s s', obs (fst s) = g -> for_loop n body s = Some s' ->
               obs (fst s') = g.
Proof.
  intros H. apply (for_loop_inv (fun s => obs (fst s) = g)). intros; eauto.
Qed.

(** Every write below goes through a gradient handle. *)
Ltac bkept_done :=
  repeat match goal with
         | H : _ = Some _ |- _ => progress (unbind H)
         end;
  repeat match goal with
         | E : set_raw _ (GradH _) _ _ = Some _ |- _ =>
             apply bkept_set_raw in E
         | E : hset _ (GradH _) _ _ = Some _ |- _ => apply bkept_hset in E
         | E : add_raw _ (GradH _) _ _ = Some _ |- _ =>
             apply bkept_add_raw in E
         | E : hadd _ (GradH _) _ _ = Some _ |- _ => apply bkept_hadd in E
         end;
  repeat match goal with
         | E : Some _ = Some _ |- _ => inversion E; clear E; subst; simpl in *
         end;
  congruence.

Ltac bkept_loop Hc H :=
  eapply for_loop_bkept; [ | exact Hc | exact H ];
  clear Hc H; intros ? ? ? Hc H; cbv beta zeta in H.

Ltac bkept_loops H :=
  let Hc := fresh "Hc" in
  cbv zeta in H; unbind H;
  match goal with
  | |- obs _ = obs ?ctx => pose proof (eq_refl (obs ctx)) as Hc
  end;
  repeat (bkept_loop Hc H); bkept_done.

Tactic Notation "bkept_kernel" reference(f) :=
  let H := fresh "H" in intros H; unfold f in H; bkept_loops H.

Lemma bwdCopy_kept (I : CopyInst) (ctx ctx' : Context) :
  bwdCopyInst I ctx = Some ctx' -> obs ctx' = obs ctx.
Proof. bkept_kernel bwdCopyInst. Qed.

Lemma bwdReshape_kept (I : ReshapeInst) (ctx ctx' : Context) :
  bwdReshapeInst I ctx = Some ctx' -> obs ctx' = obs ctx.
Proof. bkept_kernel bwdReshapeInst. Qed.

Lemma bwdRelu_kept (I : ReluInst) (ctx ctx' : Context) :
  bwdReluInst I ctx = Some ctx' -> obs ctx' = obs ctx.
Proof. bkept_kernel bwdReluInst. Qed.

Lemma bwdSigmoid_kept (I : SigmoidInst) (ctx ctx' : Context) :
  bwdSigmoidInst I ctx = Some ctx' -> obs ctx' = obs ctx.
Proof. bkept_kernel bwdSigmoidInst. Qed.

Lemma bwdTanh_kept (I : TanhInst) (ctx ctx' : Context) :
  bwdTanhInst I ctx = Some ctx' -> obs ctx' = obs ctx.
Proof. bkept_kernel bwdTanhInst. Qed.

Lemma bwdRegression_kept (I : RegressionInst) (ctx ctx' : Context) :
  bwdRegressionInst I ctx = Some ctx' -> obs ctx' = obs ctx.
Proof. bkept_kernel bwdRegressionInst. Qed.

Lemma bwdConv_update_kept (I : ConvolutionInst) (n d fx fy : nat) (ox oy : Z)
  (chainGrad : FloatTy) (fd : nat) (c c' : Context) :
  bwdConv_update I n d fx fy ox oy chainGrad fd c = Some c' -> obs c' = obs c.
Proof. intros H. unfold bwdConv_update in H. cbv zeta in H. bkept_done. Qed.

Lemma bwdConv_anchor_kept (I : ConvolutionInst) (odim idim : ShapeNHWC)
  (n d ay ax : nat) (c c' : Context) :
  bwdConv_anchor I odim idim n d ay ax c = Some c' -> obs c' = obs c.
Proof.
  intros H. unfold bwdConv_anchor in H. cbv zeta in H. unbind H.
  apply bkept_hadd in H. rewrite H. clear H.
  match goal with
  | E : for_loop _ _ c = Some _ |- _ => rename E into H
  end.
  pose proof (eq_refl (obs c)) as Hc.
  do 2 bkept_loop Hc H.
  destruct (out_of_range _ _ _ _).
  - inversion H; subst. exact Hc.
  - bkept_loop Hc H. apply bwdConv_update_kept in H. congruence.
Qed.

Lemma bwdConvolution_kept (I : ConvolutionInst) (ctx ctx' : Context) :
  bwdConvolutionInst I ctx = Some ctx' -> obs ctx' = obs ctx.
Proof.
  intros H. unfold bwdConvolutionInst in H. cbv zeta in H. unbind H.
  pose proof (eq_refl (obs ctx)) as Hc.
  do 4 bkept_loop Hc H.
  apply bwdConv_anchor_kept in H. congruence.
Qed.

Lemma bwdPoolAvg_window_kept (I : PoolInst) (idim : ShapeNHWC) (n z : nat)
  (x y : Z) (dy : FloatTy) (c c' : Context) :
  bwdPoolAvg_window I idim n z x y dy c = Some c' -> obs c' = obs c.
Proof.
  intros H. unfold bwdPoolAvg_window in H. cbv zeta in H.
  pose proof (eq_refl (obs c)) as Hc.
  do 2 bkept_loop Hc H.
  destruct (out_of_range _ _ _ _).
  - inversion H; subst. exact Hc.
  - apply bkept_hadd in H. congruence.
Qed.

Lemma bwdPool_kept (I : PoolInst) (ctx ctx' : Context) :
  bwdPoolInst I ctx = Some ctx' -> obs ctx' = obs ctx.
Proof.
  unfold bwdPoolInst. destruct (pool_Kind I).
  - bkept_kernel bwdPoolMax_impl.
  - intros H. unfold bwdPoolAvg_impl in H. cbv zeta in H. unbind H.
    pose proof (eq_refl (obs ctx)) as Hc.
    do 4 bkept_loop Hc H. unbind H.
    apply bwdPoolAvg_window_kept in H. congruence.
Qed.

Lemma bwdFullyConnected_kept (I : FullyConnectedInst) (ctx ctx' : Context) :
  bwdFullyConnectedInst I ctx = Some ctx' -> obs ctx' = obs ctx.
Proof.
  intros H. unfold bwdFullyConnectedInst in H. cbv zeta in H.
  pose proof (eq_refl (obs ctx)) as Hc.
  do 2 bkept_loop Hc H. unbind H. apply bkept_hadd in H. rewrite H. clear H.
  match goal with
  | E : for_loop _ _ _ = Some _ |- _ => rename E into H
  end.
  bkept_loop Hc H. bkept_done.
Qed.

Lemma bwdSoftMax_kept (I : SoftMaxInst) (ctx ctx' : Context) :
  bwdSoftMaxInst I ctx = Some ctx' -> obs ctx' = obs ctx.
Proof.
  intros H. unfold bwdSoftMaxInst in H. cbv zeta in H. unbind H.
  pose proof (eq_refl (obs ctx)) as Hc.
  do 2 bkept_loop Hc H. unfold bwdSoftMax_elem in H. cbv zeta in H.
  bkept_done.
Qed.

Lemma bwdTranspose_kept (I : TransposeInst) (ctx ctx' : Context) :
  bwdTransposeInst I ctx = Some ctx' -> obs ctx' = obs ctx.
Proof.
  intros H. unfold bwdTransposeInst in H. cbv zeta in H. unbind H.
  inversion H. apply obs_grad.
Qed.

Lemma bwdConcat_kept (I : ConcatInst) (ctx ctx' : Context) :
  bwdConcatInst I ctx = Some ctx' -> obs ctx' = obs ctx.
Proof.
  intros H. unfold bwdConcatInst in H. cbv zeta in H. unbind H.
  inversion H; subst; clear H.
  match goal with
  | E : fold_left _ _ _ = Some _ |- _ =>
      apply (fold_left_option_inv
               (fun st : Context * list nat => obs (fst st) = obs ctx)
               (fun st v =>
                  let (c, offset) := st in
                  t <- t_extract (tensorOf c (GradH (concat_Dest I)))
                         (tensorOf c (GradH v)) offset ;;
                  let c := putTensor c (GradH v) t in
                  o <- nth_error offset (concat_Dim I) ;;
                  e <- nth_error (hdims c (GradH v)) (concat_Dim I) ;;
                  offset <- list_set offset (concat_Dim I) (o + e) ;;
                  Some (c, offset))) in E; [exact E| |reflexivity]
  end.
  intros [c off] v [c1 off1] Hc Hs. simpl in *. unbind Hs.
  inversion Hs; subst. simpl. rewrite obs_grad. exact Hc.
Qed.

Lemma bwdBatchNormalization_kept (I : BatchNormalizationInst)
  (ctx ctx' : Context) :
  bwdBatchNormalizationInst I ctx = Some ctx' -> obs ctx' = obs ctx.
Proof.
  intros H. unfold bwdBatchNormalizationInst in H. cbv zeta in H. unbind H.
  match goal with
  | E : bn_inputGrads _ _ _ _ _ = Some ?c |- _ =>
      assert (H1 : obs c = obs ctx);
      [ revert E; bkept_kernel bn_inputGrads | ]
  end.
  rewrite <- H1. revert H. bkept_kernel bn_paramGrads.
Qed.

Lemma bwdLRN_position_kept (I : LocalResponseNormalizationInst)
  (odim : ShapeNHWC) (n h w : nat) (c c' : Context) :
  bwdLRN_position I odim n h w c = Some c' -> obs c' = obs c.
Proof.
  intros H. unfold bwdLRN_position in H. cbv zeta in H. unbind H.
  inversion H; subst; clear H.
  match goal with
  | E : for_loop _ _ (c, _) = Some ?p |- _ =>
      eapply for_loop_bkept_with; [ | | exact E ]; [|reflexivity]
  end.
  intros i [c1 s1] s' Hg Hs. simpl in *. bkept_done.
Qed.

Lemma bwdLocalResponseNormalization_kept
  (I : LocalResponseNormalizationInst) (ctx ctx' : Context) :
  bwdLocalResponseNormalizationInst I ctx = Some ctx' -> obs ctx' = obs ctx.
Proof.
  intros H. unfold bwdLocalResponseNormalizationInst in H. unbind H.
  pose proof (eq_refl (obs ctx)) as Hc.
  do 3 bkept_loop Hc H.
  apply bwdLRN_position_kept in H. congruence.
Qed.

Lemma bwdArithmetic_kept (I : ArithmeticInst) (ctx ctx' : Context) :
  bwdArithmeticInst I ctx = Some ctx' -> obs ctx' = obs ctx.
Proof.
  unfold bwdArithmeticInst. destruct (arith_Kind I); intros H;
    pose proof (eq_refl (obs ctx)) as Hc; bkept_loop Hc H.
  - unfold bwdArithmetic_add in H. cbv zeta in H. bkept_done.
  - unfold bwdArithmetic_mul in H. cbv zeta in H. bkept_done.
Qed.

Lemma bwd_kept (i : Instruction) (ctx ctx' : Context) :
  bwd i ctx = Some ctx' -> obs ctx' = obs ctx.
Proof.
  destruct i; simpl.
  - apply bwdCopy_kept.
  - apply bwdConvolution_kept.
  - apply bwdPool_kept.
  - apply bwdFullyConnected_kept.
  - apply bwdRelu_kept.
  - apply bwdSigmoid_kept.
  - apply bwdTanh_kept.
  - apply bwdSoftMax_kept.
  - apply bwdRegression_kept.
  - apply bwdTranspose_kept.
  - apply bwdReshape_kept.
  - apply bwdConcat_kept.
  - apply bwdBatchNormalization_kept.
  - apply bwdLocalResponseNormalization_kept.
  - apply bwdArithmetic_kept.
Qed.

End BackwardFrame.

(** X10. No backward kernel writes a weight tensor or an index tensor:
    whenever the backward kernel of a primitive (copy, convolution, both
    poolings, fully connected, the activations, softmax, regression,
    transpose, reshape, concat, batch normalization, local response
    normalization, arithmetic) returns, the weights and the index tensors
    of the context are those it started from. *)
Theorem bwd_keeps_weights :
  forall (ops : FloatOps) (i : Instruction) (ctx ctx' : Context),
    bwd i ctx = Some ctx' ->
    weightOf ctx' = weightOf ctx /\ indexOf ctx' = indexOf ctx.
Proof.
  intros ops i ctx ctx' H. split.
  - apply (bwd_kept _ weightOf (fun _ _ _ => eq_refl) i ctx ctx' H).
  - apply (bwd_kept _ indexOf (fun _ _ _ => eq_refl) i ctx ctx' H).
Qed.

Lemma bwd_keeps_weights_witness :
  exists ctx',
    @bwd RealOps (ICopy {| copy_Dest := 0; copy_Src := 1 |})
      (ctxS4 [1; 2; 3]%Z) = Some ctx' /\
    weightOf ctx' = weightOf (@ctxS4 RealOps [1; 2; 3]%Z) /\
    indexOf ctx' = indexOf (@ctxS4 RealOps [1; 2; 3]%Z).
Proof.
  eexists. split; [reflexivity|].
  apply (bwd_keeps_weights RealOps (ICopy {| copy_Dest := 0; copy_Src := 1 |})).
  reflexivity.
Defined.

(* ================================================================== *)
(** * SoftMax: the output rows are distributions *)
(* ================================================================== *)

Lemma real_sum_shift (f : nat -> R) (l : list nat) (a : R) :
  fold_left (fun s i => (s + f i)%R) l a =
  (a + fold_left (fun s i => (s + f i)%R) l 0)%R.
Proof.
  revert a. induction l as [|i l IH]; intros a; simpl.
  - lra.
  - rewrite (IH (a + f i)%R), (IH (0 + f i)%R). lra.
Qed.

Lemma real_sum_lower (f : nat -> R) (l : list nat) :
  (forall i, 0 <= f i)%R ->
  (0 <= fold_left (fun s i => (s + f i)%R) l 0)%R /\
  forall i, In i l -> (f i <= fold_left (fun s i => (s + f i)%R) l 0)%R.
Proof.
  intros Hf. induction l as [|j l [IH0 IH]]; simpl.
  - split; [lra|]. intros i [].
  - rewrite real_sum_shift. specialize (Hf j). split; [lra|].
    intros i [->|Hi]; [lra|]. specialize (IH i Hi). lra.
Qed.

Lemma real_sum_quotients (f : nat -> R) (S : R) (l : list nat) :
  S <> 0%R ->
  fold_left Rplus (map (fun i => f i / S)%R l) 0%R =
  (fold_left (fun s i => (s + f i)%R) l 0 / S)%R.
Proof.
  intros HS.
  assert (G : forall a, fold_left Rplus (map (fun i => f i / S)%R l) a =
                        (a + fold_left (fun s i => (s + f i)%R) l 0 / S)%R).
  { induction l as [|i l IH]; intros a; simpl.
    - unfold Rdiv. lra.
    - rewrite IH, (real_sum_shift f l (0 + f i)%R). field. exact HS. }
  rewrite G. lra.
Qed.

(** X11. In exact arithmetic every row the forward kernel of the softmax
    writes is a probability distribution: each element lies in (0, 1] and
    the elements of a row add up to 1.  The cache [E] holds the same
    values as the destination. *)
Theorem real_softmax_rows_are_distributions :
  forall (isTrain : bool) (I : SoftMaxInst) (ctx : @Context RealOps)
         (N M : nat) (x : nat -> nat -> R),
    @softmax_ready RealOps I ctx N M x ->
    exists (ctx' : @Context RealOps) (p : nat -> nat -> R),
      fwdSoftMaxInst isTrain I ctx = Some ctx' /\
      (forall n i, n < N -> i < M ->
         hat ctx' (WeightH (softmax_Dest I)) [n; i] = Some (p n i) /\
         hat ctx' (WeightH (softmax_E I)) [n; i] = Some (p n i) /\
         (0 < p n i <= 1)%R) /\
      (forall n, n < N ->
         fold_left Rplus (map (p n) (seq 0 M)) 0%R = 1%R).
Proof.
  intros isTrain I ctx N M x Hready.
  destruct (@fwdSoftMax_output RealOps isTrain I ctx N M x Hready)
    as (c & Hc & _ & _ & Hout).
  exists c, (fun n i => @softmax_row RealOps (x n) M i).
  split; [exact Hc|].
  assert (HM : 0 < M) by (destruct Hready as (_ & _ & _ & H & _); exact H).
  assert (Hsum : forall n,
            @row_sum RealOps (x n) M =
            fold_left (fun s i => (s + @row_exp RealOps (x n) M i)%R)
                      (seq 0 M) 0%R) by reflexivity.
  assert (Hexp : forall n i, (0 < @row_exp RealOps (x n) M i)%R).
  { intros n i. apply exp_pos. }
  assert (Hpos : forall n, (0 < @row_sum RealOps (x n) M)%R).
  { intros n. rewrite Hsum.
    destruct (real_sum_lower (@row_exp RealOps (x n) M) (seq 0 M)) as [_ H].
    - intros i. left. apply Hexp.
    - specialize (H 0). specialize (Hexp n 0).
      assert (In 0 (seq 0 M)) by (apply in_seq; lia).
      specialize (H H0). lra. }
  split.
  - intros n i Hn Hi. destruct (Hout n i Hn Hi) as [Hd He].
    split; [exact Hd|]. split; [exact He|].
    change (@softmax_row RealOps (x n) M i)
      with (@row_exp RealOps (x n) M i / @row_sum RealOps (x n) M)%R.
    specialize (Hpos n). specialize (Hexp n i). split.
    + apply Rdiv_lt_0_compat; assumption.
    + apply (Rmult_le_reg_r (@row_sum RealOps (x n) M)); [exact Hpos|].
      unfold Rdiv. rewrite Rmult_assoc, Rinv_l by lra.
      rewrite Rmult_1_r, Rmult_1_l. rewrite Hsum.
      apply (real_sum_lower (@row_exp RealOps (x n) M) (seq 0 M)).
      * intros j. left. apply exp_pos.
      * apply in_seq. lia.
  - intros n Hn.
    change (fun i => @softmax_row RealOps (x n) M i)
      with (fun i => (@row_exp RealOps (x n) M i
                      / @row_sum RealOps (x n) M)%R).
    specialize (Hpos n).
    rewrite real_sum_quotients by lra.
    rewrite <- Hsum. field. lra.
Qed.

Lemma real_softmax_rows_are_distributions_witness :
  exists (ctx' : @Context RealOps) (p : nat -> nat -> R),
    fwdSoftMaxInst true softmaxS5 ctxS5 = Some ctx' /\
    (forall n i, n < 1 -> i < 3 ->
       hat ctx' (WeightH 0) [n; i] = Some (p n i) /\
       hat ctx' (WeightH 2) [n; i] = Some (p n i) /\
       (0 < p n i <= 1)%R) /\
    (forall n, n < 1 -> fold_left Rplus (map (p n) (seq 0 3)) 0%R = 1%R).
Proof.
  exact (real_softmax_rows_are_distributions true softmaxS5 ctxS5 1 3
           (@matrix_of RealOps ctxS5 (WeightH 1)) softmaxS5_ready).
Defined.

(** X12. The forward kernel of the softmax on an input without rows
    returns the context as it is; on an input with rows of no element it
    stops, at the read of [inW.at({n, 0})] that seeds the maximum. *)
Theorem fwdSoftMax_empty_extents :
  forall (ops : FloatOps) (isTrain : bool) (I : SoftMaxInst) (ctx : Context)
         (N M : nat),
    hdims ctx (WeightH (softmax_Src I)) = [N; M] ->
    (N = 0 -> fwdSoftMaxInst isTrain I ctx = Some ctx) /\
    (0 < N -> M = 0 -> fwdSoftMaxInst isTrain I ctx = None).
Proof.
  intros ops isTrain I ctx N M Hd. unfold fwdSoftMaxInst. rewrite Hd.
  cbn [nth_error]. split.
  - intros ->. reflexivity.
  - intros HN ->.
    apply (for_loop_None
             (fun c => hdims c (WeightH (softmax_Src I)) = [N; 0])
             _ N 0); auto.
    + intros i t t' _ Ht E. exfalso. unfold fwdSoftMax_row in E.
      cbv zeta in E. unfold hat at 1, t_at, at_index in E.
      fold (hdims t (WeightH (softmax_Src I))) in E. rewrite Ht in E.
      cbn [isInBounds] in E. rewrite andb_false_r in E. discriminate.
    + intros t Ht. unfold fwdSoftMax_row. cbv zeta.
      unfold hat at 1, t_at, at_index.
      fold (hdims t (WeightH (softmax_Src I))). rewrite Ht.
      cbn [isInBounds]. rewrite andb_false_r. reflexivity.
Qed.

Lemma fwdSoftMax_empty_extents_witness :
  (2 = 0 ->
   @fwdSoftMaxInst RealOps true softmaxS5
     (context_of [(1, mkTensor [2; 0] [])] [] []) =
   Some (context_of [(1, mkTensor [2; 0] [])] [] [])) /\
  (0 < 2 -> 0 = 0 ->
   @fwdSoftMaxInst RealOps true softmaxS5
     (context_of [(1, mkTensor [2; 0] [])] [] []) = None).
Proof.
  apply (fwdSoftMax_empty_extents RealOps true softmaxS5
           (context_of [(1, mkTensor [2; 0] [])] [] []) 2 0).
  reflexivity.
Defined.

(* ================================================================== *)
(** * Max pooling: a window without a valid position *)
(* ================================================================== *)

Section PoolMaxEmpty.
Context {ops : FloatOps}.

Lemma in_window_positions (K : nat) (x y : Z) (fx fy : nat) :
  fx < K -> fy < K ->
  In (ssize_add x fx, ssize_add y fy) (window_positions K x y).
Proof.
  intros Hx Hy. unfold window_positions. apply in_flat_map.
  exists fy. split; [apply in_seq; lia|].
  apply in_map_iff. exists fx. split; [reflexivity|apply in_seq; lia].
Qed.

(** The scan of a window none of whose positions is valid reads nothing
    and leaves [first] set. *)
Lemma fwdPoolMax_window_empty (I : PoolInst) (c : Context) (idim : ShapeNHWC)
  (n z : nat) (x y : Z) :
  (Z.of_nat (sh idim) < 2 ^ 63)%Z -> (Z.of_nat (sw idim) < 2 ^ 63)%Z ->
  valid_positions (pool_Kernel I) x y (sh idim) (sw idim) = [] ->
  fwdPoolMax_window c I idim n z x y =
  Some (mkMaxScan true fzero (to_size x) (to_size y)).
Proof.
  intros Hh Hw Hempty. unfold fwdPoolMax_window. cbv zeta.
  set (init := mkMaxScan true fzero (to_size x) (to_size y)).
  assert (Hout : forall fx fy, fx < pool_Kernel I -> fy < pool_Kernel I ->
            out_of_range (ssize_add x fx) (ssize_add y fy) (sh idim) (sw idim)
            = true).
  { intros fx fy Hx Hy. rewrite (out_of_range_spec _ _ _ _ Hh Hw).
    destruct (in_range (sh idim) (sw idim) (ssize_add x fx, ssize_add y fy))
      eqn:E; [|reflexivity].
    exfalso.
    assert (In (ssize_add x fx, ssize_add y fy)
               (valid_positions (pool_Kernel I) x y (sh idim) (sw idim))).
    { apply filter_In. split; [now apply in_window_positions|exact E]. }
    rewrite Hempty in H. exact H. }
  destruct (for_loop_ind (fun _ st => st = init)
    (fun fy st =>
       for_loop (pool_Kernel I)
         (fun fx st => fwdPoolMax_visit c I idim n z
                         (ssize_add x fx) (ssize_add y fy) st) st)
    (pool_Kernel I) init eq_refl) as (st & Hst & ->); [|exact Hst].
  intros fy st Hfy ->.
  destruct (for_loop_ind (fun _ st => st = init)
    (fun fx st => fwdPoolMax_visit c I idim n z
                    (ssize_add x fx) (ssize_add y fy) st)
    (pool_Kernel I) init eq_refl) as (st & Hst & ->); [|eauto].
  intros fx st Hfx ->. unfold fwdPoolMax_visit. cbv zeta.
  rewrite Hout by assumption. eauto.
Qed.

End PoolMaxEmpty.

(** X13. The forward kernel of the max pooling stops at its assertion as
    soon as the window of one output position has no valid position: the
    scan reads nothing and [first] is still set. *)
Theorem fwdPoolMax_empty_window_aborts :
  forall (ops : FloatOps) (I : PoolInst) (ctx : Context)
         (N H W C ON OH OW OC n z ay ax : nat),
    hdims ctx (WeightH (pool_Src I)) = [N; H; W; C] ->
    hdims ctx (WeightH (pool_Dest I)) = [ON; OH; OW; OC] ->
    (Z.of_nat H < 2 ^ 63)%Z -> (Z.of_nat W < 2 ^ 63)%Z ->
    n < ON -> z < C -> ay < OW -> ax < OH ->
    valid_positions (pool_Kernel I)
      (anchor (pool_Pad I) (pool_Stride I) ax)
      (anchor (pool_Pad I) (pool_Stride I) ay) H W = [] ->
    fwdPoolMax_impl I ctx = None.
Proof.
  intros ops I ctx N H W C ON OH OW OC n z ay ax Hi Ho HH HW Hn Hz Hay Hax
    Hempty.
  unfold fwdPoolMax_impl. cbv zeta. rewrite Ho, Hi. cbn [shapeNHWC sn sh sw sc].
  apply (for_loop_None (fun _ => True) _ ON n); auto. intros c1 _.
  apply (for_loop_None (fun _ => True) _ C z); auto. intros c2 _.
  apply (for_loop_None (fun _ => True) _ OW ay); auto. intros c3 _.
  apply (for_loop_None (fun _ => True) _ OH ax); auto. intros c4 _.
  rewrite (fwdPoolMax_window_empty I c4 (mkShape N H W C) n z _ _ HH HW Hempty).
  reflexivity.
Qed.

(** A 1 by 1 input padded by 2: the window of the first output, of
    extent 1 and anchored at (-2, -2), lies in the padding. *)
Lemma fwdPoolMax_empty_window_aborts_witness :
  @fwdPoolMax_impl RealOps
    {| pool_Dest := 0; pool_Src := 1; pool_srcXY := 2; pool_Kind := PoolMax;
       pool_Kernel := 1; pool_Stride := 1; pool_Pad := 2 |}
    (context_of [ (0, tensor_of [1; 1; 1; 1] [0]%Z);
                  (1, tensor_of [1; 1; 1; 1] [7]%Z) ] []
                [ (2, mkTensor [1; 1; 1; 1; 2] [0; 0]%Z) ]) = None.
Proof.
  apply (fwdPoolMax_empty_window_aborts RealOps
           {| pool_Dest := 0; pool_Src := 1; pool_srcXY := 2;
              pool_Kind := PoolMax;
              pool_Kernel := 1; pool_Stride := 1; pool_Pad := 2 |}
           (context_of [ (0, tensor_of [1; 1; 1; 1] [0]%Z);
                         (1, tensor_of [1; 1; 1; 1] [7]%Z) ] []
                       [ (2, mkTensor [1; 1; 1; 1; 2] [0; 0]%Z) ])
           1 1 1 1 1 1 1 1 0 0 0 0);
    try reflexivity; lia.
Defined.

(* ================================================================== *)
(** * Transpose: the reverse shuffle *)
(* ================================================================== *)

Lemma list_set_length_Some {A} (l : list A) (i : nat) (x : A) :
  i < length l ->
  exists l', list_set l i x = Some l' /\ length l' = length l.
Proof.
  intros H. destruct (list_set_Some l i x H) as (l' & E).
  exists l'. split; [exact E|]. eapply list_set_length; eauto.
Qed.

(** For a shuffle whose entries are below its length the reverse shuffle
    is defined; if the entries are distinct, it undoes the shuffle. *)
Lemma reverse_shuffle_spec (shuffle : list nat) :
  (forall k, In k shuffle -> k < length shuffle) ->
  exists rev,
    reverse_shuffle shuffle = Some rev /\ length rev = length shuffle /\
    (NoDup shuffle ->
     forall i, i < length shuffle ->
       nth_error rev (nth i shuffle 0) = Some i).
Proof.
  intros Hb. unfold reverse_shuffle.
  set (r := length shuffle).
  destruct (for_loop_ind
    (fun k rev => length rev = r /\
       (NoDup shuffle -> forall i, i < k ->
          nth_error rev (nth i shuffle 0) = Some i))
    (fun i rev => k <- nth_error shuffle i ;; list_set rev k i)
    r shuffle) as (rev & Hrev & Hlen & Hinv).
  - split; [reflexivity|]. intros _ i Hi. lia.
  - intros k rev Hk (Hlen & Hinv).
    rewrite (nth_error_nth' shuffle 0) by exact Hk.
    destruct (list_set_length_Some rev (nth k shuffle 0) k) as (rev' & E & L).
    { rewrite Hlen. apply Hb. apply nth_In. exact Hk. }
    exists rev'. split; [exact E|]. split; [congruence|].
    intros Hnd i Hi. destruct (Nat.eq_dec i k) as [->|Hik].
    + eapply list_set_same; eauto.
    + rewrite (list_set_other _ _ _ _ _ E).
      * apply Hinv; [exact Hnd|lia].
      * intros Heq. apply Hik.
        apply (proj1 (NoDup_nth shuffle 0) Hnd); [fold r; lia|exact Hk|exact Heq].
  - exists rev. repeat split; auto.
Qed.

(** X14. The reverse shuffle the backward kernel of Transpose builds,
    [reverseShuffle[shuffle[i]] = i], undoes the shuffle when the shuffle
    is a permutation of the axes: shuffling a coordinate and then shuffling
    the result by the reverse gives the coordinate back. *)
Theorem reverse_shuffle_inverts :
  forall (shuffle : list nat),
    NoDup shuffle ->
    (forall k, In k shuffle -> k < length shuffle) ->
    exists rev,
      reverse_shuffle shuffle = Some rev /\
      forall c : list nat, length c = length shuffle ->
        shuffle_coord rev (shuffle_coord shuffle c) = c.
Proof.
  intros shuffle Hnd Hb.
  destruct (reverse_shuffle_spec shuffle Hb) as (rev & Hrev & Hlen & Hinv).
  specialize (Hinv Hnd).
  exists rev. split; [exact Hrev|]. intros c Hc.
  assert (Hsurj : forall p, p < length shuffle ->
            exists i, i < length shuffle /\ nth i shuffle 0 = p).
  { intros p Hp.
    assert (Hin : In p shuffle).
    { apply (NoDup_length_incl Hnd (l' := seq 0 (length shuffle))).
      - rewrite length_seq. lia.
      - intros k Hk. apply in_seq. specialize (Hb k Hk). lia.
      - apply in_seq. lia. }
    destruct (In_nth shuffle p 0 Hin) as (i & Hi & E). eauto. }
  apply (nth_ext _ _ 0 0).
  - unfold shuffle_coord. rewrite !length_map. congruence.
  - intros p Hp. unfold shuffle_coord in Hp. rewrite length_map, Hlen in Hp.
    destruct (Hsurj p Hp) as (i & Hi & E).
    assert (Hrp : nth p rev 0 = i).
    { apply nth_error_nth. rewrite <- E. now apply Hinv. }
    unfold shuffle_coord.
    rewrite (nth_indep _ 0 (nth 0 (map (fun k => nth k c 0) shuffle) 0))
      by (rewrite length_map; lia).
    rewrite (map_nth (fun j => nth j (map (fun k => nth k c 0) shuffle) 0)).
    rewrite Hrp.
    rewrite (nth_indep _ 0 (nth 0 c 0)) by (rewrite length_map; lia).
    rewrite (map_nth (fun k => nth k c 0)). now rewrite E.
Qed.

Lemma reverse_shuffle_inverts_witness :
  exists rev,
    reverse_shuffle [2; 0; 1] = Some rev /\
    forall c : list nat, length c = 3 ->
      shuffle_coord rev (shuffle_coord [2; 0; 1] c) = c.
Proof.
  apply (reverse_shuffle_inverts [2; 0; 1]).
  - repeat constructor; simpl; intuition lia.
  - intros k Hk. simpl in Hk. simpl. intuition lia.
Defined.

(* ================================================================== *)
(** * Batch normalization: inference, and the two extreme momenta *)
(* ================================================================== *)

(** X15. In inference mode the batch normalization writes
    [(x - mean[c]) * gamma[c] * (1 / sqrt(var[c] + epsilon)) + beta[c]] to
    every element of the destination, [c] being the channel of the
    element, and nothing else: the running statistics, the scale and the
    bias are as before. *)
Theorem fwdBatchNormalization_inference_writes_dest_only :
  forall (ops : FloatOps) (I : BatchNormalizationInst) (ctx : Context)
         (ds : list nat) (C : nat) (x : nat -> FloatTy)
         (mean var gamma beta : nat -> FloatTy),
    bn_ready I ctx ds C x mean var gamma beta ->
    exists ctx',
      fwdBatchNormalizationInst false I ctx = Some ctx' /\
      (forall h, h <> WeightH (bn_Dest I) -> tensorOf ctx' h = tensorOf ctx h) /\
      forall i, i < prod_dims ds ->
        let c := getDimForPtr ds (bn_ChannelIdx I) i in
        raw ctx' (WeightH (bn_Dest I)) i =
        Some (bn_output (bn_Epsilon I) (x i) (mean c) (var c) (gamma c) (beta c)).
Proof.
  intros ops I ctx ds C x mean var gamma beta Hready.
  exact (fwdBatchNormalization_infer_output I ctx ds C x mean var gamma beta
           Hready).
Qed.

Lemma fwdBatchNormalization_inference_writes_dest_only_witness :
  exists ctx',
    @fwdBatchNormalizationInst RealOps false (@bnInst RealOps 0%R (1 / 2)%R)
      ctxBN = Some ctx' /\
    (forall h, h <> WeightH 0 -> tensorOf ctx' h = tensorOf (@ctxBN RealOps) h) /\
    forall i, i < 4 ->
      let c := getDimForPtr [2; 2] 1 i in
      raw ctx' (WeightH 0) i =
      Some (@bn_output RealOps 0%R (flat_of ctxBN (WeightH 1) i)
              (vector_of ctxBN (WeightH 4) c) (vector_of ctxBN (WeightH 5) c)
              (vector_of ctxBN (WeightH 2) c) (vector_of ctxBN (WeightH 3) c)).
Proof.
  exact (fwdBatchNormalization_inference_writes_dest_only RealOps
           (@bnInst RealOps 0%R (1 / 2)%R) ctxBN [2; 2] 2
           (flat_of ctxBN (WeightH 1))
           (vector_of ctxBN (WeightH 4)) (vector_of ctxBN (WeightH 5))
           (vector_of ctxBN (WeightH 2)) (vector_of ctxBN (WeightH 3))
           (ctxBN_ready 0%R (1 / 2)%R)).
Defined.

(** X16. The two extreme momenta of the training forward, in exact
    arithmetic.  With momentum 0 the running statistics stay as they were
    and the destination takes what inference would write; with momentum 1
    the running statistics become the mean and the variance of the batch,
    and the destination is normalized with those. *)
Theorem real_batch_normalization_extreme_momenta :
  forall (I : @BatchNormalizationInst RealOps) (ctx : @Context RealOps)
         (ds : list nat) (C : nat) (x mean var gamma beta : nat -> R),
    @bn_ready RealOps I ctx ds C x mean var gamma beta ->
    let n := prod_dims ds in
    let ch := getDimForPtr ds (bn_ChannelIdx I) in
    let localMean := @local_mean RealOps ch x n (n / C) in
    let localVar := @local_var RealOps ch x n (n / C) in
    exists ctx' : @Context RealOps,
      fwdBatchNormalizationInst true I ctx = Some ctx' /\
      (bn_Momentum I = 0%R ->
       (forall c, c < C ->
          hat ctx' (WeightH (bn_Mean I)) [c] = Some (mean c) /\
          hat ctx' (WeightH (bn_Var I)) [c] = Some (var c)) /\
       exists ctx'' : @Context RealOps,
         fwdBatchNormalizationInst false I ctx = Some ctx'' /\
         forall i, i < n ->
           raw ctx' (WeightH (bn_Dest I)) i = raw ctx'' (WeightH (bn_Dest I)) i) /\
      (bn_Momentum I = 1%R ->
       (forall c, c < C ->
          hat ctx' (WeightH (bn_Mean I)) [c] = Some (localMean c) /\
          hat ctx' (WeightH (bn_Var I)) [c] = Some (localVar c)) /\
       forall i, i < n ->
         raw ctx' (WeightH (bn_Dest I)) i =
         Some (((x i - localMean (ch i)) * gamma (ch i)
                / sqrt (localVar (ch i) + bn_Epsilon I) + beta (ch i)))%R).
Proof.
  intros I ctx ds C x mean var gamma beta Hready n ch localMean localVar.
  destruct (@fwdBatchNormalization_train_output RealOps I ctx ds C x mean var
              gamma beta Hready) as (c1 & E1 & Hstats & Hout).
  exists c1. split; [exact E1|].
  assert (B0 : forall l r : R, @bn_blend RealOps 0%R l r = r).
  { intros l r. change (0 * l + (1 - 0) * r = r)%R. ring. }
  assert (B1 : forall l r : R, @bn_blend RealOps 1%R l r = l).
  { intros l r. change (1 * l + (1 - 1) * r = l)%R. ring. }
  split.
  - intros HP. cbv zeta in Hstats, Hout. rewrite HP in Hstats, Hout.
    split.
    + intros c Hc. destruct (Hstats c Hc) as [Hm Hv].
      rewrite B0 in Hm, Hv. split; assumption.
    + destruct (@fwdBatchNormalization_infer_output RealOps I ctx ds C x mean
                  var gamma beta Hready) as (c2 & E2 & _ & Hout2).
      exists c2. split; [exact E2|]. intros i Hi.
      rewrite (Hout i Hi), (Hout2 i Hi). cbv zeta. now rewrite !B0.
  - intros HP. cbv zeta in Hstats, Hout. rewrite HP in Hstats, Hout.
    split.
    + intros c Hc. destruct (Hstats c Hc) as [Hm Hv].
      rewrite B1 in Hm, Hv. split; assumption.
    + intros i Hi. rewrite (Hout i Hi), !B1. f_equal. apply real_bn_output.
Qed.

Lemma real_batch_normalization_extreme_momenta_witness :
  exists ctx' : @Context RealOps,
    fwdBatchNormalizationInst true (@bnInst RealOps 0%R 0%R) ctxBN = Some ctx'.
Proof.
  destruct (real_batch_normalization_extreme_momenta
              (@bnInst RealOps 0%R 0%R) ctxBN [2; 2] 2
              (@flat_of RealOps ctxBN (WeightH 1))
              (@vector_of RealOps ctxBN (WeightH 4))
              (@vector_of RealOps ctxBN (WeightH 5))
              (@vector_of RealOps ctxBN (WeightH 2))
              (@vector_of RealOps ctxBN (WeightH 3))
              (ctxBN_ready 0%R 0%R)) as (ctx' & E & _).
  exists ctx'. exact E.
Defined.

(* ================================================================== *)
(** * Fully connected: the forward kernel *)
(* ================================================================== *)

(** Two nested loops whose body, at ([a], [b]), establishes [Q a b] and
    keeps the [Q] of the other positions.  The body of the inner loop may
    use the state the outer iteration started from. *)
Lemma for_loop2_cells {St : Type} (Inv : St -> Prop)
  (Q : nat -> nat -> St -> Prop)
  (body : nat -> St -> nat -> St -> option St) (A B : nat) (s : St) :
  Inv s ->
  (forall a b s0 t, a < A -> b < B -> Inv s0 -> Inv t ->
     exists t', body a s0 b t = Some t' /\ Inv t' /\ Q a b t' /\
       forall a' b', (a', b') <> (a, b) -> Q a' b' t -> Q a' b' t') ->
  exists t,
    for_loop A (fun a s => for_loop B (body a s) s) s = Some t /\
    Inv t /\
    forall a b, a < A -> b < B -> Q a b t.
Proof.
  intros HI Hbody.
  destruct (for_loop_ind
    (fun n t => Inv t /\ forall a b, a < A -> b < B -> a < n -> Q a b t)
    (fun a s => for_loop B (body a s) s) A s) as (t & Ht & It & Qt).
  - split; [exact HI|]. intros; lia.
  - intros n s0 Hn (I0 & Q0).
    destruct (for_loop_ind
      (fun j t => Inv t /\
         forall a b, a < A -> b < B -> a < n \/ (a = n /\ b < j) -> Q a b t)
      (body n s0) B s0) as (t & Ht & It & Qt).
    + split; [exact I0|]. intros a b Ha Hb [Hlt|[_ Hlt]]; [|lia].
      now apply Q0.
    + intros j t Hj (It & Qt).
      destruct (Hbody n j s0 t Hn Hj I0 It) as (t' & E & It' & Qnew & Qkeep).
      exists t'. split; [exact E|]. split; [exact It'|].
      intros a b Ha Hb Hbef.
      destruct (Nat.eq_dec a n) as [->|Na];
        [destruct (Nat.eq_dec b j) as [->|Nb]; [exact Qnew|]|].
      all: apply Qkeep; [congruence|]; apply Qt; auto; lia.
    + exists t. split; [exact Ht|]. split; [exact It|].
      intros a b Ha Hb Hlt. apply Qt; auto. lia.
  - exists t. split; [exact Ht|]. split; [exact It|].
    intros a b Ha Hb. apply Qt; auto.
Qed.

Section FullyConnected.
Context {ops : FloatOps}.

(** The dot product of row [n] of the input and row [i] of the filter,
    added up in index order from 0. *)
Lemma fc_dot_loop (c : Context) (inW filterW : Handle) (base i M : nat)
  (x : nat -> FloatTy) (w : nat -> FloatTy) :
  (forall j, j < M -> raw c inW (base + j) = Some (x j)) ->
  (forall j, j < M -> hat c filterW [i; j] = Some (w j)) ->
  for_loop M (fun j sum =>
    v <- raw c inW (base + j) ;;
    f <- hat c filterW [i; j] ;;
    Some (fadd sum (fmul v f))) fzero =
  Some (fold_left (fun sum j => fadd sum (fmul (x j) (w j))) (seq 0 M) fzero).
Proof.
  intros Hx Hw. apply for_loop_fold. intros j t Hj.
  now rewrite (Hx j Hj), (Hw j Hj).
Qed.

End FullyConnected.

(** X17. The forward kernel of the fully connected layer writes to
    [dest(n, i)] the dot product of the [n]-th slice of the input, taken
    flat, and the [i]-th row of the filter, added up from 0 in the order of
    the input, plus [bias(i)].  The input may be of any rank: it is read
    flat, [M] elements per slice, [M] being the product of its extents
    after the first. *)
Theorem fwdFullyConnected_output :
  forall (ops : FloatOps) (isTrain : bool) (I : FullyConnectedInst)
         (ctx : Context) (N O B M : nat) (rest : list nat)
         (x w : nat -> nat -> FloatTy) (b : nat -> FloatTy),
    fc_Dest I <> fc_Src I -> fc_Dest I <> fc_Filter I ->
    fc_Dest I <> fc_Bias I ->
    hdims ctx (WeightH (fc_Dest I)) = [N; O] ->
    hdims ctx (WeightH (fc_Src I)) = B :: rest ->
    M = prod_dims rest ->
    wf_tensor (weightOf ctx (fc_Dest I)) ->
    (forall n j, n < N -> j < M ->
       raw ctx (WeightH (fc_Src I)) (n * M + j) = Some (x n j)) ->
    (forall i j, i < O -> j < M ->
       hat ctx (WeightH (fc_Filter I)) [i; j] = Some (w i j)) ->
    (forall i, i < O -> hat ctx (WeightH (fc_Bias I)) [i] = Some (b i)) ->
    exists ctx',
      fwdFullyConnectedInst isTrain I ctx = Some ctx' /\
      (forall h, h <> WeightH (fc_Dest I) -> tensorOf ctx' h = tensorOf ctx h) /\
      forall n i, n < N -> i < O ->
        hat ctx' (WeightH (fc_Dest I)) [n; i] =
        Some (fadd (fold_left (fun sum j => fadd sum (fmul (x n j) (w i j)))
                              (seq 0 M) fzero)
                   (b i)).
Proof.
  intros ops isTrain I ctx N O B M rest x w b Hs Hf Hb Hod Hid HM Wf Hx Hw Hbias.
  unfold fwdFullyConnectedInst. cbv zeta. rewrite Hod, Hid.
  cbn [flattenCdr fst snd prod_dims fold_right]. rewrite Nat.mul_1_r.
  fold (prod_dims rest). rewrite <- HM.
  set (val := fun n i =>
    fadd (fold_left (fun sum j => fadd sum (fmul (x n j) (w i j)))
                    (seq 0 M) fzero) (b i)).
  destruct (for_loop2_cells
    (fun c : Context =>
       (forall h, h <> WeightH (fc_Dest I) -> tensorOf c h = tensorOf ctx h) /\
       hdims c (WeightH (fc_Dest I)) = [N; O] /\
       wf_tensor (tensorOf c (WeightH (fc_Dest I))))
    (fun n i c => hat c (WeightH (fc_Dest I)) [n; i] = Some (val n i))
    (fun n c0 i c =>
       sum <- for_loop M (fun j sum =>
                v <- raw c (WeightH (fc_Src I))
                       (getElementPtr (hdims c0 (WeightH (fc_Src I))) [n] + j) ;;
                f <- hat c (WeightH (fc_Filter I)) [i; j] ;;
                Some (fadd sum (fmul v f))) fzero ;;
       b <- hat c (WeightH (fc_Bias I)) [i] ;;
       hset c (WeightH (fc_Dest I)) [n; i] (fadd sum b))
    N O ctx) as (c' & Hrun & (Ho & _) & Hcells).
  - repeat split; auto.
  - intros n i c0 c Hn Hi (Ho0 & _) (Ho & Hd & Hwf).
    assert (Hsd : hdims c0 (WeightH (fc_Src I)) = B :: rest).
    { unfold hdims. rewrite Ho0 by congruence. exact Hid. }
    rewrite Hsd.
    assert (G : getElementPtr (B :: rest) [n] = n * M).
    { cbn [getElementPtr]. rewrite <- HM. destruct rest; simpl; lia. }
    rewrite G.
    rewrite (fc_dot_loop c (WeightH (fc_Src I)) (WeightH (fc_Filter I))
               (n * M) i M (x n) (w i)).
    2:{ intros j Hj. unfold raw. rewrite Ho by congruence. now apply Hx. }
    2:{ intros j Hj. unfold hat. rewrite Ho by congruence. now apply Hw. }
    assert (Rb : hat c (WeightH (fc_Bias I)) [i] = Some (b i)).
    { unfold hat. rewrite Ho by congruence. now apply Hbias. }
    rewrite Rb. fold (val n i).
    destruct (hset_Some c (WeightH (fc_Dest I)) [n; i] (val n i) Hwf)
      as (c1 & E1).
    { rewrite Hd. now apply isInBounds2. }
    rewrite E1. exists c1. split; [reflexivity|]. split; [|split].
    + split; [|split].
      * intros h Hh. rewrite (tensorOf_hset E1 Hh). now apply Ho.
      * rewrite (hdims_hset (WeightH (fc_Dest I)) E1). exact Hd.
      * apply (wf_hset (WeightH (fc_Dest I)) E1). exact Hwf.
    + apply (hat_set_same E1).
    + intros n' i' Hneq Hq. rewrite (hat_set_other E1); [exact Hq|].
      right. intros Heq. apply Hneq. inversion Heq; subst. reflexivity.
  - exists c'. split; [exact Hrun|]. split; [exact Ho|exact Hcells].
Qed.

(** One slice [1, 2, 3] against the filter rows [1, 1, 1] and [0, 0, 0],
    bias [0, 0]. *)
Lemma fwdFullyConnected_output_witness :
  exists ctx',
    @fwdFullyConnectedInst RealOps true
      {| fc_Dest := 0; fc_Src := 1; fc_Filter := 2; fc_Bias := 3 |}
      (context_of [ (0, tensor_of [1; 2] [0; 0]%Z);
                    (1, tensor_of [1; 3; 1] [1; 2; 3]%Z);
                    (2, tensor_of [2; 3] [1; 1; 1; 0; 0; 0]%Z);
                    (3, tensor_of [2] [0; 0]%Z) ] [] []) = Some ctx' /\
    (forall h, h <> WeightH 0 ->
       tensorOf ctx' h =
       tensorOf (@context_of RealOps
                   [ (0, tensor_of [1; 2] [0; 0]%Z);
                     (1, tensor_of [1; 3; 1] [1; 2; 3]%Z);
                     (2, tensor_of [2; 3] [1; 1; 1; 0; 0; 0]%Z);
                     (3, tensor_of [2] [0; 0]%Z) ] [] []) h) /\
    forall n i, n < 1 -> i < 2 ->
      hat ctx' (WeightH 0) [n; i] =
      Some (fold_left (fun sum j =>
                         sum + nth j [1; 2; 3] 0
                               * nth j (nth i [[1; 1; 1]; [0; 0; 0]] []) 0)
                      (seq 0 3) 0 + 0)%R.
Proof.
  apply (fwdFullyConnected_output RealOps true
           {| fc_Dest := 0; fc_Src := 1; fc_Filter := 2; fc_Bias := 3 |}
           (context_of [ (0, tensor_of [1; 2] [0; 0]%Z);
                         (1, tensor_of [1; 3; 1] [1; 2; 3]%Z);
                         (2, tensor_of [2; 3] [1; 1; 1; 0; 0; 0]%Z);
                         (3, tensor_of [2] [0; 0]%Z) ] [] [])
           1 2 1 3 [3; 1]
           (fun _ j => nth j [1; 2; 3]%R 0%R)
           (fun i j => nth j (nth i [[1; 1; 1]; [0; 0; 0]]%R []) 0%R)
           (fun _ => 0%R)).
  - discriminate.
  - discriminate.
  - discriminate.
  - reflexivity.
  - reflexivity.
  - reflexivity.
  - reflexivity.
  - intros n j Hn Hj. destruct n; [|lia].
    destruct j as [|[|[|j]]]; try lia; cbn; f_equal; lra.
  - intros i j Hi Hj. destruct i as [|[|i]]; try lia;
      destruct j as [|[|[|j]]]; try lia; cbn; f_equal; lra.
  - intros i Hi. destruct i as [|[|i]]; try lia; cbn; f_equal; lra.
Defined.

(* ================================================================== *)
(** * Convolution: the forward kernel *)
(* ================================================================== *)

Section ConvForward.
Context {ops : FloatOps}.

(** The three inner loops add up the products of [conv_terms]. *)
Lemma fwdConv_window_sum (I : ConvolutionInst) (c : Context)
  (src filt : Image) (odim idim : ShapeNHWC) (n d : nat) (x y : Z) :
  (Z.of_nat (sh odim) < 2 ^ 63)%Z -> (Z.of_nat (sw odim) < 2 ^ 63)%Z ->
  (forall a b fd, a < sh odim -> b < sw odim -> fd < sc idim ->
     hat c (WeightH (conv_Src I)) [n; a; b; fd] = Some (src n a b fd)) ->
  (forall fx fy fd, fx < conv_Kernel I -> fy < conv_Kernel I -> fd < sc idim ->
     hat c (WeightH (conv_Filter I)) [d; fx; fy; fd] = Some (filt d fx fy fd)) ->
  fwdConv_window c I odim idim n d x y =
  Some (fold_left fadd (conv_terms I src filt odim (sc idim) n d x y) fzero).
Proof.
  intros Hh Hw Hsrc Hfilt. unfold fwdConv_window. cbv zeta.
  set (term := fun fy fx fd =>
    fmul (filt d fx fy fd)
         (src n (size_of_ssize (ssize_add x fx))
                (size_of_ssize (ssize_add y fy)) fd)).
  set (g := fun (fy : nat) (sum : FloatTy) (fx : nat) =>
    if out_of_range (ssize_add x fx) (ssize_add y fy) (sh odim) (sw odim)
    then sum
    else fold_left (fun s fd => fadd s (term fy fx fd)) (seq 0 (sc idim)) sum).
  rewrite (for_loop_fold _ _
    (fun sum fy => fold_left (g fy) (seq 0 (conv_Kernel I)) sum)).
  - f_equal. unfold conv_terms. rewrite fold_left_flat_map.
    apply fold_left_ext_in. intros a fy _. rewrite fold_left_flat_map.
    apply fold_left_ext_in. intros a' fx _. unfold g.
    destruct (out_of_range _ _ _ _); [reflexivity|].
    rewrite fold_left_map. reflexivity.
  - intros fy sum Hfy. apply for_loop_fold. intros fx t Hfx. unfold g.
    destruct (out_of_range (ssize_add x fx) (ssize_add y fy) (sh odim) (sw odim))
      eqn:E; [reflexivity|].
    rewrite (out_of_range_spec _ _ _ _ Hh Hw) in E.
    apply negb_false_iff in E.
    destruct (in_range_coords _ _ _ _ Hh Hw E) as (Ex & Ey & La & Lb & _).
    apply for_loop_fold. intros fd s Hfd.
    rewrite (Hfilt fx fy fd Hfx Hfy Hfd).
    rewrite Hsrc by (rewrite ?Ex, ?Ey; assumption).
    reflexivity.
Qed.

(** The cells of the output. *)
Lemma fwdConvolution_output_cells (isTrain : bool) (I : ConvolutionInst)
  (ctx : Context) (src filt : Image) (bias : nat -> FloatTy)
  (odim idim : ShapeNHWC) :
    conv_forward_ready I ctx src filt bias odim idim ->
    exists ctx',
      fwdConvolutionInst isTrain I ctx = Some ctx' /\
      (forall h, h <> WeightH (conv_Dest I) -> tensorOf ctx' h = tensorOf ctx h) /\
      forall n d ay ax, n < sn idim -> d < sc odim -> ay < sw odim ->
                        ax < sh odim ->
        hat ctx' (WeightH (conv_Dest I)) [n; ax; ay; d] =
        Some (fadd (fold_left fadd
                      (conv_terms I src filt odim (sc idim) n d
                         (anchor (conv_Pad I) (conv_Stride I) ax)
                         (anchor (conv_Pad I) (conv_Stride I) ay))
                      fzero)
                   (bias d)).
Proof.
  intros (Hs & Hf & Hb & Hod & Hid & Wf & HN & HH & HW & Bh & Bw & Hsrc & Hfilt
     & Hbias).
  unfold fwdConvolutionInst. cbv zeta. rewrite Hod, Hid.
  cbn [shapeNHWC sn sh sw sc].
  set (od := mkShape (sn odim) (sh odim) (sw odim) (sc odim)).
  set (id := mkShape (sn idim) (sh idim) (sw idim) (sc idim)).
  set (val := fun n d ay ax =>
    fadd (fold_left fadd
            (conv_terms I src filt odim (sc idim) n d
               (anchor (conv_Pad I) (conv_Stride I) ax)
               (anchor (conv_Pad I) (conv_Stride I) ay)) fzero) (bias d)).
  destruct (for_loop4_cells
    (fun c : Context =>
       (forall h, h <> WeightH (conv_Dest I) -> tensorOf c h = tensorOf ctx h) /\
       hdims c (WeightH (conv_Dest I)) = [sn odim; sh odim; sw odim; sc odim] /\
       wf_tensor (tensorOf c (WeightH (conv_Dest I))))
    (fun n d ay ax c =>
       hat c (WeightH (conv_Dest I)) [n; ax; ay; d] = Some (val n d ay ax))
    (fun n d ay ax c =>
       sum <- fwdConv_window c I od id n d
                (anchor (conv_Pad I) (conv_Stride I) ax)
                (anchor (conv_Pad I) (conv_Stride I) ay) ;;
       b <- hat c (WeightH (conv_Bias I)) [d] ;;
       hset c (WeightH (conv_Dest I)) [n; ax; ay; d] (fadd sum b))
    (sn idim) (sc odim) (sw odim) (sh odim) ctx) as (c' & Hrun & (Ho & _) & Hcells).
  - repeat split; auto.
  - intros n d ay ax c Hn Hd Hay Hax (Ho & Hdd & Hwf).
    rewrite (fwdConv_window_sum I c src filt od id n d); simpl; auto.
    2:{ intros a b fd Ha Hb' Hfd. unfold hat. rewrite Ho by congruence.
        apply Hsrc; auto; lia. }
    2:{ intros fx fy fd Hfx Hfy Hfd. unfold hat. rewrite Ho by congruence.
        now apply Hfilt. }
    assert (Rb : hat c (WeightH (conv_Bias I)) [d] = Some (bias d)).
    { unfold hat. rewrite Ho by congruence. now apply Hbias. }
    rewrite Rb.
    change (conv_terms I src filt od (sc idim) n d
              (anchor (conv_Pad I) (conv_Stride I) ax)
              (anchor (conv_Pad I) (conv_Stride I) ay))
      with (conv_terms I src filt odim (sc idim) n d
              (anchor (conv_Pad I) (conv_Stride I) ax)
              (anchor (conv_Pad I) (conv_Stride I) ay)).
    fold (val n d ay ax).
    destruct (hset_Some c (WeightH (conv_Dest I)) [n; ax; ay; d]
                (val n d ay ax) Hwf) as (c1 & E1).
    { rewrite Hdd. apply isInBounds4; auto; lia. }
    rewrite E1. exists c1. split; [reflexivity|]. split; [|split].
    + split; [|split].
      * intros h Hh. rewrite (tensorOf_hset E1 Hh). now apply Ho.
      * rewrite (hdims_hset (WeightH (conv_Dest I)) E1). exact Hdd.
      * apply (wf_hset (WeightH (conv_Dest I)) E1). exact Hwf.
    + apply (hat_set_same E1).
    + intros n' d' ay' ax' Hneq Hq. rewrite (hat_set_other E1); [exact Hq|].
      right. intros Heq. apply Hneq. inversion Heq; subst. reflexivity.
  - exists c'. split; [exact Hrun|]. split; [exact Ho|].
    intros n d ay ax Hn Hd Hay Hax. apply Hcells; auto.
Qed.

End ConvForward.

(** X18. The forward kernel of the convolution, for an output no larger
    than the input in height and width.  To [dest(n, ax, ay, d)] it writes
    the sum, from 0 and in the order [fy], [fx], [fd], of the products
    [filter(d, fx, fy, fd) * src(n, x + fx, y + fy, fd)] over the window
    positions that pass its window test, plus [bias(d)]; the test compares
    [x + fx] and [y + fy] with the extents of the output.  No other tensor
    changes. *)
Theorem fwdConvolution_output :
  forall (ops : FloatOps) (isTrain : bool) (I : ConvolutionInst)
         (ctx : Context) (src filt : Image) (bias : nat -> FloatTy)
         (odim idim : ShapeNHWC),
    conv_forward_ready I ctx src filt bias odim idim ->
    exists ctx',
      fwdConvolutionInst isTrain I ctx = Some ctx' /\
      (forall h, h <> WeightH (conv_Dest I) -> tensorOf ctx' h = tensorOf ctx h) /\
      forall n d ay ax, n < sn idim -> d < sc odim -> ay < sw odim ->
                        ax < sh odim ->
        hat ctx' (WeightH (conv_Dest I)) [n; ax; ay; d] =
        Some (fadd (fold_left fadd
                      (conv_terms I src filt odim (sc idim) n d
                         (anchor (conv_Pad I) (conv_Stride I) ax)
                         (anchor (conv_Pad I) (conv_Stride I) ay))
                      fzero)
                   (bias d)).
Proof.
  intros ops isTrain I ctx src filt bias odim idim Hready.
  exact (fwdConvolution_output_cells isTrain I ctx src filt bias odim idim
           Hready).
Qed.

(** The context of scenario S1 is ready for the forward kernel, whatever
    the input holds. *)
Lemma ctxS1_forward_ready (input : list Z) :
  length input = 9 ->
  let ctx := @context_of RealOps
    [ (0, tensor_of [1; 2; 2; 1] [0; 0; 0; 0]%Z);
      (1, tensor_of [1; 3; 3; 1] input);
      (2, tensor_of [1; 2; 2; 1] [1; 1; 1; 1]%Z);
      (3, tensor_of [1] [0]%Z) ] [] [] in
  @conv_forward_ready RealOps convS1 ctx
    (image_of ctx (WeightH 1)) (image_of ctx (WeightH 2))
    (vector_of ctx (WeightH 3)) (mkShape 1 2 2 1) (mkShape 1 3 3 1).
Proof.
  intros Hlen ctx. unfold conv_forward_ready.
  split; [discriminate|]. split; [discriminate|]. split; [discriminate|].
  split; [reflexivity|]. split; [reflexivity|]. split; [reflexivity|].
  split; [simpl; lia|]. split; [simpl; lia|]. split; [simpl; lia|].
  split; [reflexivity|]. split; [reflexivity|].
  split; [|split].
  - intros n a b c Hn Ha Hb Hc. apply get_hat.
    + unfold wf_tensor, tsize. simpl. rewrite length_map. exact Hlen.
    + now apply isInBounds4.
  - intros d fx fy fd Hd Hfx Hfy Hfd. apply get_hat; [reflexivity|].
    now apply isInBounds4.
  - intros d Hd. apply get_hat; [reflexivity|]. now apply isInBounds1.
Qed.

Lemma fwdConvolution_output_witness :
  exists ctx',
    @fwdConvolutionInst RealOps true convS1 ctxS1 = Some ctx' /\
    (forall h, h <> WeightH 0 -> tensorOf ctx' h = tensorOf (@ctxS1 RealOps) h) /\
    forall n d ay ax, n < 1 -> d < 1 -> ay < 2 -> ax < 2 ->
      hat ctx' (WeightH 0) [n; ax; ay; d] =
      Some (Rplus
              (fold_left Rplus
                 (@conv_terms RealOps convS1 (image_of ctxS1 (WeightH 1))
                    (image_of ctxS1 (WeightH 2)) (mkShape 1 2 2 1) 1 n d
                    (anchor 0 1 ax) (anchor 0 1 ay)) 0%R)
              (@vector_of RealOps ctxS1 (WeightH 3) d)).
Proof.
  exact (fwdConvolution_output RealOps true convS1 ctxS1
           (@image_of RealOps ctxS1 (WeightH 1))
           (@image_of RealOps ctxS1 (WeightH 2))
           (@vector_of RealOps ctxS1 (WeightH 3))
           (mkShape 1 2 2 1) (mkShape 1 3 3 1)
           (ctxS1_forward_ready [1; 1; 1; 1; 1; 1; 1; 1; 1]%Z eq_refl)).
Defined.

Section ConvForwardReads.
Context {ops : FloatOps}.

(** The products depend on the input only inside the extents of the
    output. *)
Lemma conv_terms_ext (I : ConvolutionInst) (src src' filt : Image)
  (odim : ShapeNHWC) (C n d : nat) (x y : Z) :
  (Z.of_nat (sh odim) < 2 ^ 63)%Z -> (Z.of_nat (sw odim) < 2 ^ 63)%Z ->
  (forall a b fd, a < sh odim -> b < sw odim ->
     src n a b fd = src' n a b fd) ->
  conv_terms I src filt odim C n d x y = conv_terms I src' filt odim C n d x y.
Proof.
  intros Hh Hw Hsame. unfold conv_terms.
  apply flat_map_ext. intros fy. apply flat_map_ext. intros fx. cbv zeta.
  destruct (out_of_range (ssize_add x fx) (ssize_add y fy) (sh odim) (sw odim))
    eqn:E; [reflexivity|].
  rewrite (out_of_range_spec _ _ _ _ Hh Hw) in E. apply negb_false_iff in E.
  destruct (in_range_coords _ _ _ _ Hh Hw E) as (Ex & Ey & La & Lb & _).
  apply map_ext. intros fd. rewrite Hsame by (rewrite ?Ex, ?Ey; assumption).
  reflexivity.
Qed.

End ConvForwardReads.

(** X19. The forward kernel of the convolution never looks at the input
    beyond the extents of the output: two inputs that agree on the rows
    below [odim.h] and the columns below [odim.w] give the same output,
    whatever they hold in the remaining rows and columns. *)
Theorem fwdConvolution_ignores_input_beyond_output_extents :
  forall (ops : FloatOps) (isTrain : bool) (I : ConvolutionInst)
         (ctx1 ctx2 : Context) (src1 src2 filt : Image) (bias : nat -> FloatTy)
         (odim idim : ShapeNHWC),
    conv_forward_ready I ctx1 src1 filt bias odim idim ->
    conv_forward_ready I ctx2 src2 filt bias odim idim ->
    (forall n a b c, a < sh odim -> b < sw odim ->
       src1 n a b c = src2 n a b c) ->
    exists ctx1' ctx2',
      fwdConvolutionInst isTrain I ctx1 = Some ctx1' /\
      fwdConvolutionInst isTrain I ctx2 = Some ctx2' /\
      forall n d ay ax, n < sn idim -> d < sc odim -> ay < sw odim ->
                        ax < sh odim ->
        hat ctx1' (WeightH (conv_Dest I)) [n; ax; ay; d] =
        hat ctx2' (WeightH (conv_Dest I)) [n; ax; ay; d].
Proof.
  intros ops isTrain I ctx1 ctx2 src1 src2 filt bias odim idim R1 R2 Hsame.
  destruct (fwdConvolution_output_cells isTrain I ctx1 src1 filt bias odim idim R1)
    as (c1 & E1 & _ & H1).
  destruct (fwdConvolution_output_cells isTrain I ctx2 src2 filt bias odim idim R2)
    as (c2 & E2 & _ & H2).
  exists c1, c2. split; [exact E1|]. split; [exact E2|].
  intros n d ay ax Hn Hd Hay Hax.
  rewrite (H1 n d ay ax Hn Hd Hay Hax), (H2 n d ay ax Hn Hd Hay Hax).
  destruct R1 as (_ & _ & _ & _ & _ & _ & _ & _ & _ & Bh & Bw & _).
  rewrite (conv_terms_ext I src1 src2 filt odim (sc idim) n d _ _ Bh Bw);
    [reflexivity|].
  intros a b fd Ha Hb. now apply Hsame.
Qed.

(** Scenario S1 with the last row and the last column of the input
    replaced: the 2 by 2 output is the same. *)
Lemma fwdConvolution_ignores_input_beyond_output_extents_witness :
  exists ctx1' ctx2',
    @fwdConvolutionInst RealOps true convS1 ctxS1 = Some ctx1' /\
    @fwdConvolutionInst RealOps true convS1
      (context_of
         [ (0, tensor_of [1; 2; 2; 1] [0; 0; 0; 0]%Z);
           (1, tensor_of [1; 3; 3; 1] [1; 1; 5; 1; 1; 6; 7; 8; 9]%Z);
           (2, tensor_of [1; 2; 2; 1] [1; 1; 1; 1]%Z);
           (3, tensor_of [1] [0]%Z) ] [] []) = Some ctx2' /\
    forall n d ay ax, n < 1 -> d < 1 -> ay < 2 -> ax < 2 ->
      hat ctx1' (WeightH 0) [n; ax; ay; d] = hat ctx2' (WeightH 0) [n; ax; ay; d].
Proof.
  apply (fwdConvolution_ignores_input_beyond_output_extents RealOps true convS1
           _ _ _ _ _ _ _ _
           (ctxS1_forward_ready [1; 1; 1; 1; 1; 1; 1; 1; 1]%Z eq_refl)
           (ctxS1_forward_ready [1; 1; 5; 1; 1; 6; 7; 8; 9]%Z eq_refl)).
  intros n a b c Ha Hb. cbn [sh sw] in Ha, Hb.
  destruct n as [|n]; [|reflexivity].
  destruct c as [|c]; [|destruct a as [|[|a]]; try lia;
                         destruct b as [|[|b]]; try lia; reflexivity].
  destruct a as [|[|a]]; try lia; destruct b as [|[|b]]; try lia; reflexivity.
Defined.

(* ================================================================== *)
(** * Kernels that accumulate into gradients *)
(* ================================================================== *)

Section Accumulation.
Context {ops : FloatOps}.
Variable F : Context -> Prop.

Lemma accumulates_skip : accumulates F (fun c => Some c) [].
Proof. intros c Hfr. exists c. repeat split; auto. Qed.

Lemma accumulates_seq (f g : Context -> option Context) (us vs : list Update) :
  accumulates F f us -> accumulates F g vs ->
  accumulates F (fun c => c1 <- f c ;; g c1) (us ++ vs).
Proof.
  intros Hf Hg c Hfr.
  destruct (Hf c Hfr) as (c1 & E1 & F1 & A1). rewrite E1.
  destruct (Hg c1 F1) as (c2 & E2 & F2 & A2).
  exists c2. split; [exact E2|]. split; [exact F2|].
  intros h idx v Hv. rewrite addends_app, fold_left_app.
  apply A2, A1, Hv.
Qed.

Lemma accumulates_loop (n : nat) (body : nat -> Context -> option Context)
  (us : nat -> list Update) :
  (forall i, i < n -> accumulates F (body i) (us i)) ->
  accumulates F (for_loop n body) (flat_map us (seq 0 n)).
Proof.
  induction n as [|n IH]; intros Hbody.
  - apply accumulates_skip.
  - rewrite seq_S, flat_map_app. simpl. rewrite app_nil_r.
    apply (accumulates_seq (for_loop n body) (body n)).
    + apply IH. intros; apply Hbody; lia.
    + apply Hbody. lia.
Qed.

(** A piece of kernel that is, on the frame, another one. *)
Lemma accumulates_ext (f g : Context -> option Context) (us : list Update) :
  (forall c, F c -> f c = g c) -> accumulates F g us -> accumulates F f us.
Proof.
  intros Hfg Hg c Hfr. rewrite (Hfg c Hfr). now apply Hg.
Qed.

End Accumulation.

Section GradFrame.
Context {ops : FloatOps}.
Variable ctx0 : Context.
Variable written : Value -> Prop.

Lemma grad_frame_start :
  (forall v, written v -> wf_tensor (gradOf ctx0 v)) ->
  grad_frame ctx0 written ctx0.
Proof. intros W. unfold grad_frame. repeat split; auto. Qed.

(** One accumulation into a written gradient. *)
Lemma accumulates_hadd (v : Value) (idx : list nat) (d : FloatTy) :
  written v ->
  isInBounds (hdims ctx0 (GradH v)) idx = true ->
  accumulates (grad_frame ctx0 written)
    (fun c => hadd c (GradH v) idx d) [(GradH v, idx, d)].
Proof.
  intros Hv Hb c (Hw & Hi & Hdims & Wf & Hk).
  assert (Wv : wf_tensor (tensorOf c (GradH v))) by (apply Wf; exact Hv).
  destruct (hat_Some c (GradH v) idx Wv) as (old & Hold).
  { now rewrite Hdims. }
  unfold hadd. rewrite Hold.
  destruct (hset_Some c (GradH v) idx (fadd old d) Wv) as (c' & E).
  { now rewrite Hdims. }
  rewrite E. exists c'. split; [reflexivity|]. split.
  - pose proof (hset_inv E) as (t' & _ & Hc').
    unfold grad_frame. split; [rewrite Hc'; exact Hw|].
    split; [rewrite (indexOf_hset E); exact Hi|].
    split; [intros h; rewrite (hdims_hset h E); apply Hdims|].
    split.
    + intros u Hu. apply (wf_hset (GradH u) E). now apply Wf.
    + intros u Hu.
      change (tensorOf c' (GradH u) = gradOf ctx0 u).
      rewrite (tensorOf_hset E) by (intros H; inversion H; subst; contradiction).
      now apply Hk.
  - intros h idx' u Hu. unfold addends. simpl.
    destruct (targets h idx' (GradH v, idx, d)) eqn:T; simpl.
    + apply targets_spec in T. destruct T as (-> & ->).
      rewrite (hat_set_same E). congruence.
    + rewrite (hat_set_other E); [exact Hu|].
      destruct (Handle_eq_dec h (GradH v)) as [->|Hh]; [|now left].
      right. intros ->.
      assert (targets (GradH v) idx (GradH v, idx, d) = true)
        by (apply targets_spec; auto).
      congruence.
Qed.

(** What the frame lets a kernel read. *)
Lemma grad_frame_weight (c : Context) (v : Value) (idx : list nat) :
  grad_frame ctx0 written c ->
  hat c (WeightH v) idx = hat ctx0 (WeightH v) idx.
Proof. intros (Hw & _). unfold hat; simpl. now rewrite Hw. Qed.

Lemma grad_frame_raw_weight (c : Context) (v : Value) (i : nat) :
  grad_frame ctx0 written c ->
  raw c (WeightH v) i = raw ctx0 (WeightH v) i.
Proof. intros (Hw & _). unfold raw; simpl. now rewrite Hw. Qed.

Lemma grad_frame_index (c : Context) (v : Value) (idx : list nat) :
  grad_frame ctx0 written c -> iat c v idx = iat ctx0 v idx.
Proof. intros (_ & Hi & _). unfold iat. now rewrite Hi. Qed.

Lemma grad_frame_grad (c : Context) (v : Value) (idx : list nat) :
  grad_frame ctx0 written c -> ~ written v ->
  hat c (GradH v) idx = hat ctx0 (GradH v) idx.
Proof. intros (_ & _ & _ & _ & Hk) Hv. unfold hat; simpl. now rewrite Hk. Qed.

Lemma grad_frame_raw_grad (c : Context) (v : Value) (i : nat) :
  grad_frame ctx0 written c -> ~ written v ->
  raw c (GradH v) i = raw ctx0 (GradH v) i.
Proof. intros (_ & _ & _ & _ & Hk) Hv. unfold raw; simpl. now rewrite Hk. Qed.

End GradFrame.

(** Four nested loops. *)
Lemma accumulates_loop4 {ops : FloatOps} (F : Context -> Prop)
  (A B C D : nat) (body : nat -> nat -> nat -> nat -> Context -> option Context)
  (us : nat -> nat -> nat -> nat -> list Update) :
  (forall a b c d, a < A -> b < B -> c < C -> d < D ->
     accumulates F (body a b c d) (us a b c d)) ->
  accumulates F
    (fun ctx =>
       for_loop A (fun a ctx =>
         for_loop B (fun b ctx =>
           for_loop C (fun c ctx =>
             for_loop D (body a b c) ctx) ctx) ctx) ctx)
    (flat_map (fun a =>
     flat_map (fun b =>
     flat_map (fun c =>
     flat_map (us a b c) (seq 0 D)) (seq 0 C)) (seq 0 B)) (seq 0 A)).
Proof.
  intros H.
  apply (accumulates_loop F A
           (fun a ctx => for_loop B (fun b ctx => for_loop C (fun c ctx =>
              for_loop D (body a b c) ctx) ctx) ctx)
           (fun a => flat_map (fun b => flat_map (fun c =>
              flat_map (us a b c) (seq 0 D)) (seq 0 C)) (seq 0 B))).
  intros a Ha.
  apply (accumulates_loop F B
           (fun b ctx => for_loop C (fun c ctx =>
              for_loop D (body a b c) ctx) ctx)
           (fun b => flat_map (fun c =>
              flat_map (us a b c) (seq 0 D)) (seq 0 C))).
  intros b Hb.
  apply (accumulates_loop F C
           (fun c ctx => for_loop D (body a b c) ctx)
           (fun c => flat_map (us a b c) (seq 0 D))).
  intros c Hc.
  apply (accumulates_loop F D (body a b c) (us a b c)).
  intros d Hd. now apply H.
Qed.

(* ================================================================== *)
(** * Pooling: the backward kernels *)
(* ================================================================== *)

(** X20. The backward kernel of the max pooling routes the gradient of
    every output position to the input position whose coordinates the
    forward kernel saved: it adds [outG(n, ax, ay, z)] to
    [inG(n, SXY(n, ax, ay, z, 0), SXY(n, ax, ay, z, 1), z)], in the order
    of its loops.  An input position that several windows selected
    receives all their gradients, one after another; every other element
    of every gradient is as before. *)
Theorem bwdPoolMax_routes_to_saved_coordinates :
  forall (ops : FloatOps) (I : PoolInst) (ctx : Context) (g : Image)
         (mx my : nat -> nat -> nat -> nat -> nat) (odim idim : ShapeNHWC),
    pool_Dest I <> pool_Src I ->
    hdims ctx (WeightH (pool_Dest I)) = [sn odim; sh odim; sw odim; sc odim] ->
    hdims ctx (GradH (pool_Src I)) = [sn idim; sh idim; sw idim; sc idim] ->
    wf_tensor (gradOf ctx (pool_Src I)) ->
    sn odim <= sn idim -> sc odim <= sc idim ->
    (forall n ax ay z, n < sn odim -> ax < sh odim -> ay < sw odim ->
                       z < sc odim ->
       hat ctx (GradH (pool_Dest I)) [n; ax; ay; z] = Some (g n ax ay z) /\
       iat ctx (pool_srcXY I) [n; ax; ay; z; 0] = Some (Z.of_nat (mx n ax ay z)) /\
       iat ctx (pool_srcXY I) [n; ax; ay; z; 1] = Some (Z.of_nat (my n ax ay z)) /\
       mx n ax ay z < sh idim /\ my n ax ay z < sw idim) ->
    exists ctx',
      bwdPoolMax_impl I ctx = Some ctx' /\
      forall h idx v, hat ctx h idx = Some v ->
        hat ctx' h idx =
        Some (fold_left fadd
                (addends h idx (bwdPoolMax_updates I g mx my odim)) v).
Proof.
  intros ops I ctx g mx my odim idim Hne Hod Hgd Wf HN HC Hread.
  unfold bwdPoolMax_impl. cbv zeta. rewrite Hod. cbn [shapeNHWC sn sh sw sc].
  set (written := fun v => v = pool_Src I).
  destruct (accumulates_loop4 (grad_frame ctx written)
    (sn odim) (sc odim) (sw odim) (sh odim)
    (fun n z ay ax c =>
       chainGrad <- hat c (GradH (pool_Dest I)) [n; ax; ay; z] ;;
       maxX <- iat c (pool_srcXY I) [n; ax; ay; z; 0] ;;
       maxY <- iat c (pool_srcXY I) [n; ax; ay; z; 1] ;;
       hadd c (GradH (pool_Src I)) [n; Z.to_nat maxX; Z.to_nat maxY; z]
         chainGrad)
    (fun n z ay ax =>
       [ (GradH (pool_Src I), [n; mx n ax ay z; my n ax ay z; z],
          g n ax ay z) ])
    ) with (c := ctx) as (c' & E & _ & Hadd).
  - intros n z ay ax Hn Hz Hay Hax.
    destruct (Hread n ax ay z Hn Hax Hay Hz) as (Rg & Rx & Ry & Lx & Ly).
    apply (accumulates_ext _
             _ (fun c => hadd c (GradH (pool_Src I))
                           [n; mx n ax ay z; my n ax ay z; z] (g n ax ay z))).
    + intros c Hfr.
      rewrite (grad_frame_grad ctx written c (pool_Dest I) _ Hfr)
        by (unfold written; congruence).
      rewrite Rg. rewrite !(grad_frame_index ctx written c _ _ Hfr), Rx, Ry.
      rewrite !Nat2Z.id. reflexivity.
    + apply accumulates_hadd; [reflexivity|].
      rewrite Hgd. apply isInBounds4; lia.
  - apply grad_frame_start. intros v ->. exact Wf.
  - exists c'. split; [exact E|]. exact Hadd.
Qed.

(** The output gradient [5] of the one window of scenario S2, whose
    saved coordinate is (1, 1). *)
Lemma bwdPoolMax_routes_to_saved_coordinates_witness :
  exists ctx',
    @bwdPoolMax_impl RealOps poolMaxS2
      (context_of [ (0, tensor_of [1; 1; 1; 1] [4]%Z);
                    (1, tensor_of [1; 2; 2; 1] [1; 3; 2; 4]%Z) ]
                  [ (0, tensor_of [1; 1; 1; 1] [5]%Z);
                    (1, tensor_of [1; 2; 2; 1] [0; 0; 0; 0]%Z) ]
                  [ (2, mkTensor [1; 1; 1; 1; 2] [1; 1]%Z) ]) = Some ctx' /\
    forall h idx v,
      hat (@context_of RealOps
             [ (0, tensor_of [1; 1; 1; 1] [4]%Z);
               (1, tensor_of [1; 2; 2; 1] [1; 3; 2; 4]%Z) ]
             [ (0, tensor_of [1; 1; 1; 1] [5]%Z);
               (1, tensor_of [1; 2; 2; 1] [0; 0; 0; 0]%Z) ]
             [ (2, mkTensor [1; 1; 1; 1; 2] [1; 1]%Z) ]) h idx = Some v ->
      hat ctx' h idx =
      Some (fold_left Rplus
              (@addends RealOps h idx
                 (@bwdPoolMax_updates RealOps poolMaxS2 (fun _ _ _ _ => 5%R)
                    (fun _ _ _ _ => 1) (fun _ _ _ _ => 1) (mkShape 1 1 1 1)))
              v).
Proof.
  apply (bwdPoolMax_routes_to_saved_coordinates RealOps poolMaxS2
           (context_of [ (0, tensor_of [1; 1; 1; 1] [4]%Z);
                         (1, tensor_of [1; 2; 2; 1] [1; 3; 2; 4]%Z) ]
                       [ (0, tensor_of [1; 1; 1; 1] [5]%Z);
                         (1, tensor_of [1; 2; 2; 1] [0; 0; 0; 0]%Z) ]
                       [ (2, mkTensor [1; 1; 1; 1; 2] [1; 1]%Z) ])
           (fun _ _ _ _ => 5%R) (fun _ _ _ _ => 1) (fun _ _ _ _ => 1)
           (mkShape 1 1 1 1) (mkShape 1 2 2 1)).
  - discriminate.
  - reflexivity.
  - reflexivity.
  - reflexivity.
  - simpl; lia.
  - simpl; lia.
  - intros n ax ay z Hn Hax Hay Hz. cbn [sn sh sw sc] in *.
    assert (n = 0) by lia. assert (ax = 0) by lia.
    assert (ay = 0) by lia. assert (z = 0) by lia. subst.
    split; [reflexivity|]. split; [reflexivity|]. split; [reflexivity|].
    split; lia.
Defined.

Section PoolAvgBackward.
Context {ops : FloatOps}.

(** The window of one output position. *)
Lemma bwdPoolAvg_window_accumulates (I : PoolInst) (ctx0 : Context)
  (idim : ShapeNHWC) (n z : nat) (x y : Z) (dy : FloatTy) :
  hdims ctx0 (GradH (pool_Src I)) = [sn idim; sh idim; sw idim; sc idim] ->
  (Z.of_nat (sh idim) < 2 ^ 63)%Z -> (Z.of_nat (sw idim) < 2 ^ 63)%Z ->
  n < sn idim -> z < sc idim ->
  accumulates (grad_frame ctx0 (fun v => v = pool_Src I))
    (bwdPoolAvg_window I idim n z x y dy)
    (flat_map (fun fy =>
     flat_map (fun fx =>
       let ox := ssize_add x fx in
       let oy := ssize_add y fy in
       if out_of_range ox oy (sh idim) (sw idim) then []
       else [ (GradH (pool_Src I),
               [n; size_of_ssize ox; size_of_ssize oy; z], dy) ])
       (seq 0 (pool_Kernel I)))
       (seq 0 (pool_Kernel I))).
Proof.
  intros Hgd Bh Bw Hn Hz. unfold bwdPoolAvg_window. cbv zeta.
  apply (accumulates_loop _ (pool_Kernel I)
    (fun fy ctx =>
       for_loop (pool_Kernel I) (fun fx ctx =>
         if out_of_range (ssize_add x fx) (ssize_add y fy) (sh idim) (sw idim)
         then Some ctx
         else hadd ctx (GradH (pool_Src I))
                [n; size_of_ssize (ssize_add x fx);
                 size_of_ssize (ssize_add y fy); z] dy) ctx)
    (fun fy =>
       flat_map (fun fx =>
         if out_of_range (ssize_add x fx) (ssize_add y fy) (sh idim) (sw idim)
         then []
         else [ (GradH (pool_Src I),
                 [n; size_of_ssize (ssize_add x fx);
                  size_of_ssize (ssize_add y fy); z], dy) ])
         (seq 0 (pool_Kernel I)))).
  intros fy Hfy.
  apply (accumulates_loop _ (pool_Kernel I)
    (fun fx ctx =>
       if out_of_range (ssize_add x fx) (ssize_add y fy) (sh idim) (sw idim)
       then Some ctx
       else hadd ctx (GradH (pool_Src I))
              [n; size_of_ssize (ssize_add x fx);
               size_of_ssize (ssize_add y fy); z] dy)
    (fun fx =>
       if out_of_range (ssize_add x fx) (ssize_add y fy) (sh idim) (sw idim)
       then []
       else [ (GradH (pool_Src I),
               [n; size_of_ssize (ssize_add x fx);
                size_of_ssize (ssize_add y fy); z], dy) ])).
  intros fx Hfx.
  destruct (out_of_range (ssize_add x fx) (ssize_add y fy) (sh idim) (sw idim))
    eqn:E.
  - apply accumulates_skip.
  - rewrite (out_of_range_spec _ _ _ _ Bh Bw) in E. apply negb_false_iff in E.
    destruct (in_range_coords _ _ _ _ Bh Bw E) as (Ex & Ey & La & Lb & _).
    apply accumulates_hadd; [reflexivity|].
    rewrite Hgd. apply isInBounds4; rewrite ?Ex, ?Ey; assumption.
Qed.

End PoolAvgBackward.

(** X21. The backward kernel of the average pooling adds
    [outG(n, ax, ay, z) / (K * K)] to the input gradient at every position
    of the window of (ax, ay) that lies inside the input, for every output
    position in the order of its loops; whatever the count of such
    positions, the divisor is [K * K].  Every other element of every
    gradient is as before. *)
Theorem bwdPoolAvg_spreads_over_window :
  forall (ops : FloatOps) (I : PoolInst) (ctx : Context) (g : Image)
         (odim idim : ShapeNHWC),
    pool_Dest I <> pool_Src I ->
    hdims ctx (WeightH (pool_Dest I)) = [sn odim; sh odim; sw odim; sc odim] ->
    hdims ctx (WeightH (pool_Src I)) = [sn idim; sh idim; sw idim; sc idim] ->
    hdims ctx (GradH (pool_Src I)) = [sn idim; sh idim; sw idim; sc idim] ->
    wf_tensor (gradOf ctx (pool_Src I)) ->
    sn odim <= sn idim -> sc odim <= sc idim ->
    (Z.of_nat (sh idim) < 2 ^ 63)%Z -> (Z.of_nat (sw idim) < 2 ^ 63)%Z ->
    (forall n ax ay z, n < sn odim -> ax < sh odim -> ay < sw odim ->
                       z < sc odim ->
       hat ctx (GradH (pool_Dest I)) [n; ax; ay; z] = Some (g n ax ay z)) ->
    exists ctx',
      bwdPoolAvg_impl I ctx = Some ctx' /\
      forall h idx v, hat ctx h idx = Some v ->
        hat ctx' h idx =
        Some (fold_left fadd
                (addends h idx (bwdPoolAvg_updates I g odim idim)) v).
Proof.
  intros ops I ctx g odim idim Hne Hod Hid Hgd Wf HN HC Bh Bw Hread.
  unfold bwdPoolAvg_impl. cbv zeta. rewrite Hod, Hid.
  cbn [shapeNHWC sn sh sw sc].
  set (written := fun v => v = pool_Src I).
  set (id := mkShape (sn idim) (sh idim) (sw idim) (sc idim)).
  destruct (accumulates_loop4 (grad_frame ctx written)
    (sn odim) (sc odim) (sw odim) (sh odim)
    (fun n z ay ax c =>
       g <- hat c (GradH (pool_Dest I)) [n; ax; ay; z] ;;
       bwdPoolAvg_window I id n z
         (anchor (pool_Pad I) (pool_Stride I) ax)
         (anchor (pool_Pad I) (pool_Stride I) ay)
         (fdiv g (filterArea (pool_Kernel I))) c)
    (fun n z ay ax =>
       let x := anchor (pool_Pad I) (pool_Stride I) ax in
       let y := anchor (pool_Pad I) (pool_Stride I) ay in
       let dy := fdiv (g n ax ay z) (filterArea (pool_Kernel I)) in
       flat_map (fun fy =>
       flat_map (fun fx =>
         let ox := ssize_add x fx in
         let oy := ssize_add y fy in
         if out_of_range ox oy (sh idim) (sw idim) then []
         else [ (GradH (pool_Src I),
                 [n; size_of_ssize ox; size_of_ssize oy; z], dy) ])
         (seq 0 (pool_Kernel I)))
         (seq 0 (pool_Kernel I)))
    ) with (c := ctx) as (c' & E & _ & Hadd).
  - intros n z ay ax Hn Hz Hay Hax.
    apply (accumulates_ext _ _
             (bwdPoolAvg_window I id n z
                (anchor (pool_Pad I) (pool_Stride I) ax)
                (anchor (pool_Pad I) (pool_Stride I) ay)
                (fdiv (g n ax ay z) (filterArea (pool_Kernel I))))).
    + intros c Hfr.
      rewrite (grad_frame_grad ctx written c (pool_Dest I) _ Hfr)
        by (unfold written; congruence).
      now rewrite Hread.
    + apply (bwdPoolAvg_window_accumulates I ctx id n z); auto; simpl; lia.
  - apply grad_frame_start. intros v ->. exact Wf.
  - exists c'. split; [exact E|]. exact Hadd.
Qed.

(** The gradient [8] of the top-left output of the 3 by 3 average pooling
    of a 2 by 2 input (kernel 2, stride 1, padding 1). *)
Lemma bwdPoolAvg_spreads_over_window_witness :
  exists ctx',
    @bwdPoolAvg_impl RealOps poolAvg9
      (context_of [ (0, tensor_of [1; 3; 3; 1] [0; 0; 0; 0; 0; 0; 0; 0; 0]%Z);
                    (1, tensor_of [1; 2; 2; 1] [1; 1; 1; 1]%Z) ]
                  [ (0, tensor_of [1; 3; 3; 1] [8; 0; 0; 0; 0; 0; 0; 0; 0]%Z);
                    (1, tensor_of [1; 2; 2; 1] [0; 0; 0; 0]%Z) ] [])
      = Some ctx' /\
    forall h idx v,
      hat (@context_of RealOps
             [ (0, tensor_of [1; 3; 3; 1] [0; 0; 0; 0; 0; 0; 0; 0; 0]%Z);
               (1, tensor_of [1; 2; 2; 1] [1; 1; 1; 1]%Z) ]
             [ (0, tensor_of [1; 3; 3; 1] [8; 0; 0; 0; 0; 0; 0; 0; 0]%Z);
               (1, tensor_of [1; 2; 2; 1] [0; 0; 0; 0]%Z) ] []) h idx
        = Some v ->
      hat ctx' h idx =
      Some (fold_left Rplus
              (@addends RealOps h idx
                 (@bwdPoolAvg_updates RealOps poolAvg9
                    (fun _ ax ay _ => match ax, ay with
                                      | 0, 0 => 8%R
                                      | _, _ => 0%R
                                      end)
                    (mkShape 1 3 3 1) (mkShape 1 2 2 1)))
              v).
Proof.
  apply (bwdPoolAvg_spreads_over_window RealOps poolAvg9
           (context_of [ (0, tensor_of [1; 3; 3; 1] [0; 0; 0; 0; 0; 0; 0; 0; 0]%Z);
                         (1, tensor_of [1; 2; 2; 1] [1; 1; 1; 1]%Z) ]
                       [ (0, tensor_of [1; 3; 3; 1] [8; 0; 0; 0; 0; 0; 0; 0; 0]%Z);
                         (1, tensor_of [1; 2; 2; 1] [0; 0; 0; 0]%Z) ] [])
           (fun _ ax ay _ => match ax, ay with
                             | 0, 0 => 8%R
                             | _, _ => 0%R
                             end)
           (mkShape 1 3 3 1) (mkShape 1 2 2 1)).
  - discriminate.
  - reflexivity.
  - reflexivity.
  - reflexivity.
  - reflexivity.
  - simpl; lia.
  - simpl; lia.
  - reflexivity.
  - reflexivity.
  - intros n ax ay z Hn Hax Hay Hz. cbn [sn sh sw sc] in *.
    assert (n = 0) by lia. assert (z = 0) by lia. subst.
    destruct ax as [|[|[|ax]]]; try lia;
      destruct ay as [|[|[|ay]]]; try lia; cbn; f_equal; lra.
Defined.

(* ================================================================== *)
(** * Fully connected: the backward kernel *)
(* ================================================================== *)

Section FullyConnectedBackward.
Context {ops : FloatOps}.

Lemma at_index2 (N M n j : nat) :
  n < N -> j < M -> at_index [N; M] [n; j] = Some (n * M + j).
Proof.
  intros Hn Hj. unfold at_index. rewrite isInBounds2 by assumption.
  f_equal. simpl. lia.
Qed.

(** On a rank 2 tensor the raw access at [n * M + j] is the access at
    ([n], [j]). *)
Lemma add_raw_hadd2 (c : Context) (h : Handle) (N M n j : nat) (d : FloatTy) :
  hdims c h = [N; M] -> n < N -> j < M ->
  add_raw c h (n * M + j) d = hadd c h [n; j] d.
Proof.
  intros Hd Hn Hj. unfold add_raw, hadd, raw, hat, set_raw, hset, t_at, t_set_at.
  fold (hdims c h). rewrite Hd, (at_index2 N M n j Hn Hj). reflexivity.
Qed.

Lemma raw_hat2 (c : Context) (h : Handle) (N M n j : nat) :
  hdims c h = [N; M] -> n < N -> j < M ->
  raw c h (n * M + j) = hat c h [n; j].
Proof.
  intros Hd Hn Hj. unfold raw, hat, t_at.
  fold (hdims c h). rewrite Hd, (at_index2 N M n j Hn Hj). reflexivity.
Qed.

End FullyConnectedBackward.

(** X22. The backward kernel of the fully connected layer, on an input of
    rank 2.  For every (n, i), with [g = outG(n, i)], and every [j], it
    adds [filter(i, j) * g] to [inG(n, j)] and [src(n, j) * g] to
    [filterG(i, j)]; then it adds [g] to [biasG(i)].  Every gradient
    element ends as its initial value plus these addends, in the order of
    the loops. *)
Theorem bwdFullyConnected_accumulates :
  forall (ops : FloatOps) (I : FullyConnectedInst) (ctx : Context)
         (N O B M : nat) (x w g : nat -> nat -> FloatTy),
    fc_Dest I <> fc_Src I -> fc_Dest I <> fc_Filter I ->
    fc_Dest I <> fc_Bias I ->
    hdims ctx (WeightH (fc_Dest I)) = [N; O] ->
    hdims ctx (WeightH (fc_Src I)) = [B; M] ->
    hdims ctx (GradH (fc_Src I)) = [B; M] ->
    hdims ctx (GradH (fc_Filter I)) = [O; M] ->
    hdims ctx (GradH (fc_Bias I)) = [O] ->
    wf_tensor (gradOf ctx (fc_Src I)) ->
    wf_tensor (gradOf ctx (fc_Filter I)) ->
    wf_tensor (gradOf ctx (fc_Bias I)) ->
    N <= B ->
    (forall n j, n < N -> j < M ->
       hat ctx (WeightH (fc_Src I)) [n; j] = Some (x n j)) ->
    (forall i j, i < O -> j < M ->
       hat ctx (WeightH (fc_Filter I)) [i; j] = Some (w i j)) ->
    (forall n i, n < N -> i < O ->
       hat ctx (GradH (fc_Dest I)) [n; i] = Some (g n i)) ->
    exists ctx',
      bwdFullyConnectedInst I ctx = Some ctx' /\
      forall h idx v, hat ctx h idx = Some v ->
        hat ctx' h idx =
        Some (fold_left fadd
                (addends h idx (bwdFullyConnected_updates I x w g N O M)) v).
Proof.
  intros ops I ctx N O B M x w g Hs Hf Hb Hod Hid Hgs Hgf Hgb Ws Wf Wb HN
    Hx Hw Hg.
  unfold bwdFullyConnectedInst. cbv zeta. rewrite Hod, Hid.
  cbn [flattenCdr fst snd prod_dims fold_right]. rewrite !Nat.mul_1_r.
  set (written := fun v => v = fc_Src I \/ v = fc_Filter I \/ v = fc_Bias I).
  assert (Hnd : ~ written (fc_Dest I)).
  { unfold written. intros [H|[H|H]]; congruence. }
  set (Fr := grad_frame ctx written).
  (* the body of the loop over [j], with its reads resolved *)
  assert (Hj : forall n i j, n < N -> i < O -> j < M ->
    accumulates Fr
      (fun c =>
         f <- hat c (WeightH (fc_Filter I)) [i; j] ;;
         c3 <- add_raw c (GradH (fc_Src I)) (n * M + j) (fmul f (g n i)) ;;
         v <- raw c3 (WeightH (fc_Src I)) (n * M + j) ;;
         hadd c3 (GradH (fc_Filter I)) [i; j] (fmul v (g n i)))
      [ (GradH (fc_Src I), [n; j], fmul (w i j) (g n i));
        (GradH (fc_Filter I), [i; j], fmul (x n j) (g n i)) ]).
  { intros n i j Hn Hi Hj.
    apply (accumulates_ext Fr _
             (fun c => c3 <- hadd c (GradH (fc_Src I)) [n; j]
                              (fmul (w i j) (g n i)) ;;
                       hadd c3 (GradH (fc_Filter I)) [i; j]
                         (fmul (x n j) (g n i)))).
    - intros c Hfr.
      rewrite (grad_frame_weight ctx written c _ _ Hfr), (Hw i j Hi Hj).
      rewrite (add_raw_hadd2 c (GradH (fc_Src I)) B M n j).
      2:{ destruct Hfr as (_ & _ & Hdims & _). now rewrite Hdims. }
      2:{ lia. }
      2:{ exact Hj. }
      destruct (hadd c (GradH (fc_Src I)) [n; j] (fmul (w i j) (g n i)))
        as [c3|] eqn:E3; [|reflexivity].
      assert (W3 : weightOf c3 = weightOf ctx).
      { unfold hadd in E3.
        destruct (hat c (GradH (fc_Src I)) [n; j]); [|discriminate].
        apply hset_inv in E3. destruct E3 as (t & _ & ->).
        destruct Hfr as (Hw0 & _). exact Hw0. }
      unfold raw at 1. cbn [tensorOf]. rewrite W3.
      change (t_raw (weightOf ctx (fc_Src I)) (n * M + j))
        with (raw ctx (WeightH (fc_Src I)) (n * M + j)).
      rewrite (raw_hat2 ctx (WeightH (fc_Src I)) B M n j Hid) by lia.
      now rewrite (Hx n j Hn Hj).
    - apply (accumulates_seq Fr
               (fun c => hadd c (GradH (fc_Src I)) [n; j] (fmul (w i j) (g n i)))
               (fun c => hadd c (GradH (fc_Filter I)) [i; j]
                           (fmul (x n j) (g n i)))
               [ (GradH (fc_Src I), [n; j], fmul (w i j) (g n i)) ]
               [ (GradH (fc_Filter I), [i; j], fmul (x n j) (g n i)) ]).
      + apply accumulates_hadd; [unfold written; auto|].
        rewrite Hgs. apply isInBounds2; lia.
      + apply accumulates_hadd; [unfold written; auto|].
        rewrite Hgf. now apply isInBounds2. }
  (* the body of the loop over [i] *)
  assert (Hi : forall n i, n < N -> i < O ->
    accumulates Fr
      (fun c =>
         chainGrad <- hat c (GradH (fc_Dest I)) [n; i] ;;
         c2 <- for_loop M (fun j c2 =>
                 f <- hat c2 (WeightH (fc_Filter I)) [i; j] ;;
                 c3 <- add_raw c2 (GradH (fc_Src I)) (n * M + j)
                         (fmul f chainGrad) ;;
                 v <- raw c3 (WeightH (fc_Src I)) (n * M + j) ;;
                 hadd c3 (GradH (fc_Filter I)) [i; j] (fmul v chainGrad)) c ;;
         hadd c2 (GradH (fc_Bias I)) [i] chainGrad)
      (flat_map (fun j =>
         [ (GradH (fc_Src I), [n; j], fmul (w i j) (g n i));
           (GradH (fc_Filter I), [i; j], fmul (x n j) (g n i)) ])
         (seq 0 M)
       ++ [ (GradH (fc_Bias I), [i], g n i) ])).
  { intros n i Hn Hi.
    apply (accumulates_ext Fr _
             (fun c =>
                c2 <- for_loop M (fun j c2 =>
                        f <- hat c2 (WeightH (fc_Filter I)) [i; j] ;;
                        c3 <- add_raw c2 (GradH (fc_Src I)) (n * M + j)
                                (fmul f (g n i)) ;;
                        v <- raw c3 (WeightH (fc_Src I)) (n * M + j) ;;
                        hadd c3 (GradH (fc_Filter I)) [i; j]
                          (fmul v (g n i))) c ;;
                hadd c2 (GradH (fc_Bias I)) [i] (g n i))).
    - intros c Hfr.
      rewrite (grad_frame_grad ctx written c (fc_Dest I) _ Hfr Hnd).
      now rewrite (Hg n i Hn Hi).
    - apply (accumulates_seq Fr _
               (fun c => hadd c (GradH (fc_Bias I)) [i] (g n i))).
      + apply (accumulates_loop Fr M _
                 (fun j =>
                    [ (GradH (fc_Src I), [n; j], fmul (w i j) (g n i));
                      (GradH (fc_Filter I), [i; j], fmul (x n j) (g n i)) ])).
        intros j Hj'. now apply Hj.
      + apply accumulates_hadd; [unfold written; auto|].
        rewrite Hgb. now apply isInBounds1. }
  (* the loop over [n], whose body reads the shape of the input *)
  assert (Hn : accumulates Fr
    (for_loop N (fun n c0 =>
       for_loop O (fun i c1 =>
         chainGrad <- hat c1 (GradH (fc_Dest I)) [n; i] ;;
         c2 <- for_loop M (fun j c2 =>
                 f <- hat c2 (WeightH (fc_Filter I)) [i; j] ;;
                 c3 <- add_raw c2 (GradH (fc_Src I))
                         (getElementPtr (hdims c0 (WeightH (fc_Src I))) [n] + j)
                         (fmul f chainGrad) ;;
                 v <- raw c3 (WeightH (fc_Src I))
                        (getElementPtr (hdims c0 (WeightH (fc_Src I))) [n] + j) ;;
                 hadd c3 (GradH (fc_Filter I)) [i; j] (fmul v chainGrad)) c1 ;;
         hadd c2 (GradH (fc_Bias I)) [i] chainGrad) c0))
    (bwdFullyConnected_updates I x w g N O M)).
  { unfold bwdFullyConnected_updates.
    apply (accumulates_loop Fr N _
             (fun n =>
                flat_map (fun i =>
                  flat_map (fun j =>
                    [ (GradH (fc_Src I), [n; j], fmul (w i j) (g n i));
                      (GradH (fc_Filter I), [i; j], fmul (x n j) (g n i)) ])
                    (seq 0 M)
                  ++ [ (GradH (fc_Bias I), [i], g n i) ])
                  (seq 0 O))).
    intros n Hn'.
    apply (accumulates_ext Fr _
             (for_loop O (fun i c1 =>
                chainGrad <- hat c1 (GradH (fc_Dest I)) [n; i] ;;
                c2 <- for_loop M (fun j c2 =>
                        f <- hat c2 (WeightH (fc_Filter I)) [i; j] ;;
                        c3 <- add_raw c2 (GradH (fc_Src I)) (n * M + j)
                                (fmul f chainGrad) ;;
                        v <- raw c3 (WeightH (fc_Src I)) (n * M + j) ;;
                        hadd c3 (GradH (fc_Filter I)) [i; j]
                          (fmul v chainGrad)) c1 ;;
                hadd c2 (GradH (fc_Bias I)) [i] chainGrad))).
    - intros c0 Hfr0.
      assert (Hd0 : hdims c0 (WeightH (fc_Src I)) = [B; M]).
      { destruct Hfr0 as (_ & _ & Hdims & _). now rewrite Hdims. }
      rewrite Hd0.
      assert (G : getElementPtr [B; M] [n] = n * M) by (simpl; lia).
      rewrite G. reflexivity.
    - apply (accumulates_loop Fr O _
               (fun i =>
                  flat_map (fun j =>
                    [ (GradH (fc_Src I), [n; j], fmul (w i j) (g n i));
                      (GradH (fc_Filter I), [i; j], fmul (x n j) (g n i)) ])
                    (seq 0 M)
                  ++ [ (GradH (fc_Bias I), [i], g n i) ])).
      intros i Hi'. now apply Hi. }
  destruct (Hn ctx) as (c' & E & _ & Hadd).
  - apply grad_frame_start. unfold written. intros v [->|[->| ->]]; assumption.
  - exists c'. split; [exact E|exact Hadd].
Qed.

(** One sample [1, 2, 3] against the filter rows [1, 1, 1] and [0, 0, 0],
    with output gradient [1, 1]. *)
Lemma bwdFullyConnected_accumulates_witness :
  exists ctx',
    @bwdFullyConnectedInst RealOps
      {| fc_Dest := 0; fc_Src := 1; fc_Filter := 2; fc_Bias := 3 |}
      (context_of [ (0, tensor_of [1; 2] [0; 0]%Z);
                    (1, tensor_of [1; 3] [1; 2; 3]%Z);
                    (2, tensor_of [2; 3] [1; 1; 1; 0; 0; 0]%Z);
                    (3, tensor_of [2] [0; 0]%Z) ]
                  [ (0, tensor_of [1; 2] [1; 1]%Z);
                    (1, tensor_of [1; 3] [0; 0; 0]%Z);
                    (2, tensor_of [2; 3] [0; 0; 0; 0; 0; 0]%Z);
                    (3, tensor_of [2] [0; 0]%Z) ] []) = Some ctx' /\
    forall h idx v,
      hat (@context_of RealOps
             [ (0, tensor_of [1; 2] [0; 0]%Z);
               (1, tensor_of [1; 3] [1; 2; 3]%Z);
               (2, tensor_of [2; 3] [1; 1; 1; 0; 0; 0]%Z);
               (3, tensor_of [2] [0; 0]%Z) ]
             [ (0, tensor_of [1; 2] [1; 1]%Z);
               (1, tensor_of [1; 3] [0; 0; 0]%Z);
               (2, tensor_of [2; 3] [0; 0; 0; 0; 0; 0]%Z);
               (3, tensor_of [2] [0; 0]%Z) ] []) h idx = Some v ->
      hat ctx' h idx =
      Some (fold_left Rplus
              (@addends RealOps h idx
                 (@bwdFullyConnected_updates RealOps
                    {| fc_Dest := 0; fc_Src := 1; fc_Filter := 2; fc_Bias := 3 |}
                    (fun _ j => nth j [1; 2; 3]%R 0%R)
                    (fun i j => nth j (nth i [[1; 1; 1]; [0; 0; 0]]%R []) 0%R)
                    (fun _ _ => 1%R) 1 2 3))
              v).
Proof.
  apply (bwdFullyConnected_accumulates RealOps
           {| fc_Dest := 0; fc_Src := 1; fc_Filter := 2; fc_Bias := 3 |}
           (context_of [ (0, tensor_of [1; 2] [0; 0]%Z);
                         (1, tensor_of [1; 3] [1; 2; 3]%Z);
                         (2, tensor_of [2; 3] [1; 1; 1; 0; 0; 0]%Z);
                         (3, tensor_of [2] [0; 0]%Z) ]
                       [ (0, tensor_of [1; 2] [1; 1]%Z);
                         (1, tensor_of [1; 3] [0; 0; 0]%Z);
                         (2, tensor_of [2; 3] [0; 0; 0; 0; 0; 0]%Z);
                         (3, tensor_of [2] [0; 0]%Z) ] [])
           1 2 1 3
           (fun _ j => nth j [1; 2; 3]%R 0%R)
           (fun i j => nth j (nth i [[1; 1; 1]; [0; 0; 0]]%R []) 0%R)
           (fun _ _ => 1%R)).
  - discriminate.
  - discriminate.
  - discriminate.
  - reflexivity.
  - reflexivity.
  - reflexivity.
  - reflexivity.
  - reflexivity.
  - reflexivity.
  - reflexivity.
  - reflexivity.
  - lia.
  - intros n j Hn Hj. destruct n; [|lia].
    destruct j as [|[|[|j]]]; try lia; cbn; f_equal; lra.
  - intros i j Hi Hj. destruct i as [|[|i]]; try lia;
      destruct j as [|[|[|j]]]; try lia; cbn; f_equal; lra.
  - intros n i Hn Hi. destruct n; [|lia].
    destruct i as [|[|i]]; try lia; cbn; f_equal; lra.
Defined.

(* ================================================================== *)
(** * Batch normalization: the backward kernel *)
(* ================================================================== *)

Section BatchNormBackward.
Context {ops : FloatOps}.

(** On a tensor of shape [C] the access at [c] is the raw access. *)
Lemma t_at1 (t : Tensor FloatTy) (C c : nat) :
  dims t = [C] -> c < C -> t_at t [c] = t_raw t c.
Proof. intros Hd Hc. unfold t_at. now rewrite Hd, (at_index1 C c Hc). Qed.

Lemma t_set_at1 (t : Tensor FloatTy) (C c : nat) (v : FloatTy) :
  dims t = [C] -> c < C -> t_set_at t [c] v = t_set_raw t c v.
Proof. intros Hd Hc. unfold t_set_at. now rewrite Hd, (at_index1 C c Hc). Qed.

(** The last pass, from a context [c1] that has the weights and the
    output gradient of [ctx]. *)
Lemma bn_paramGrads_accumulates (I : BatchNormalizationInst) (c1 : Context)
  (ds : list nat) (C : nat) (x dy mean var : nat -> FloatTy) :
  bn_Dest I <> bn_Bias I -> bn_Dest I <> bn_Scale I ->
  hdims c1 (WeightH (bn_Src I)) = ds ->
  nth_error ds (bn_ChannelIdx I) = Some C -> 0 < C ->
  hdims c1 (GradH (bn_Bias I)) = [C] ->
  hdims c1 (GradH (bn_Scale I)) = [C] ->
  (forall i, i < prod_dims ds -> raw c1 (WeightH (bn_Src I)) i = Some (x i)) ->
  (forall i, i < prod_dims ds -> raw c1 (GradH (bn_Dest I)) i = Some (dy i)) ->
  (forall c, c < C -> hat c1 (WeightH (bn_Mean I)) [c] = Some (mean c)) ->
  (forall c, c < C -> hat c1 (WeightH (bn_Var I)) [c] = Some (var c)) ->
  accumulates
    (grad_frame c1 (fun v => v = bn_Bias I \/ v = bn_Scale I))
    (bn_paramGrads I)
    (bn_paramGrad_updates I (getDimForPtr ds (bn_ChannelIdx I)) x dy mean var
       (prod_dims ds)).
Proof.
  intros Hdb Hds' Hds Hch HC Hgb Hgs Hx Hdy Hm Hv.
  set (written := fun v => v = bn_Bias I \/ v = bn_Scale I).
  set (ch := getDimForPtr ds (bn_ChannelIdx I)).
  assert (Hchlt : forall i, ch i < C) by (intros i; now apply getDimForPtr_lt).
  assert (Hnw : ~ written (bn_Dest I)).
  { unfold written. intros [H|H]; congruence. }
  apply (accumulates_ext _ _
    (for_loop (prod_dims ds) (fun i ctx =>
       channelId <- channelOf (hdims ctx (WeightH (bn_Src I)))
                      (bn_ChannelIdx I) i ;;
       mu <- hat ctx (WeightH (bn_Mean I)) [channelId] ;;
       var <- hat ctx (WeightH (bn_Var I)) [channelId] ;;
       g <- raw ctx (GradH (bn_Dest I)) i ;;
       ctx' <- hadd ctx (GradH (bn_Bias I)) [channelId] g ;;
       x <- raw ctx' (WeightH (bn_Src I)) i ;;
       g <- raw ctx' (GradH (bn_Dest I)) i ;;
       hadd ctx' (GradH (bn_Scale I)) [channelId]
         (fmul (fmul (fsub x mu)
                     (fdiv fone (std_sqrt (fadd var (bn_Epsilon I))))) g)))).
  { intros c Hfr. unfold bn_paramGrads. cbv zeta.
    assert (Hsz : hsize c (WeightH (bn_Src I)) = prod_dims ds).
    { unfold hsize, tsize. fold (hdims c (WeightH (bn_Src I))).
      destruct Hfr as (_ & _ & Hdims & _). now rewrite Hdims, Hds. }
    rewrite Hsz. reflexivity. }
  unfold bn_paramGrad_updates.
  apply (accumulates_loop _ (prod_dims ds) _
    (fun i =>
       [ (GradH (bn_Bias I), [ch i], dy i);
         (GradH (bn_Scale I), [ch i],
          fmul (fmul (fsub (x i) (mean (ch i)))
                     (fdiv fone (std_sqrt (fadd (var (ch i)) (bn_Epsilon I)))))
               (dy i)) ])).
  intros i Hi.
  apply (accumulates_ext _ _
    (fun c => c' <- hadd c (GradH (bn_Bias I)) [ch i] (dy i) ;;
              hadd c' (GradH (bn_Scale I)) [ch i]
                (fmul (fmul (fsub (x i) (mean (ch i)))
                            (fdiv fone
                               (std_sqrt (fadd (var (ch i)) (bn_Epsilon I)))))
                      (dy i)))).
  - intros c Hfr.
    assert (Hd : hdims c (WeightH (bn_Src I)) = ds).
    { destruct Hfr as (_ & _ & Hdims & _). now rewrite Hdims. }
    rewrite Hd, (channelOf_Some ds _ i C Hch). fold (ch i).
    rewrite !(grad_frame_weight c1 written c _ _ Hfr).
    rewrite (Hm _ (Hchlt i)), (Hv _ (Hchlt i)).
    rewrite (grad_frame_raw_grad c1 written c _ _ Hfr Hnw), (Hdy i Hi).
    destruct (accumulates_hadd c1 written (bn_Bias I) [ch i] (dy i)) with (c := c)
      as (c' & E' & Hfr' & _); [unfold written; auto| |exact Hfr|].
    { rewrite Hgb. apply isInBounds1. apply Hchlt. }
    cbv beta in E'. rewrite E'.
    rewrite (grad_frame_raw_weight c1 written c' _ _ Hfr'), (Hx i Hi).
    rewrite (grad_frame_raw_grad c1 written c' _ _ Hfr' Hnw), (Hdy i Hi).
    reflexivity.
  - apply (accumulates_seq _
             (fun c => hadd c (GradH (bn_Bias I)) [ch i] (dy i))
             (fun c => hadd c (GradH (bn_Scale I)) [ch i]
                (fmul (fmul (fsub (x i) (mean (ch i)))
                            (fdiv fone
                               (std_sqrt (fadd (var (ch i)) (bn_Epsilon I)))))
                      (dy i)))
             [ (GradH (bn_Bias I), [ch i], dy i) ]
             [ (GradH (bn_Scale I), [ch i],
                fmul (fmul (fsub (x i) (mean (ch i)))
                           (fdiv fone
                              (std_sqrt (fadd (var (ch i)) (bn_Epsilon I)))))
                     (dy i)) ]).
    + apply accumulates_hadd; [unfold written; auto|].
      rewrite Hgb. apply isInBounds1. apply Hchlt.
    + apply accumulates_hadd; [unfold written; auto|].
      rewrite Hgs. apply isInBounds1. apply Hchlt.
Qed.

End BatchNormBackward.

(** X23. The backward kernel of the batch normalization.  With [sdy] the
    sum of the output gradient over a channel and [sdyhmu] the sum of
    [dy * (x - mean)] over it, the kernel adds to the gradient of every
    input element
    [(1 / N) * gamma * (1 / sqrt (var + eps)) *
     (N * dy - sdy - (x - mean) * (1 / (var + eps)) * sdyhmu)],
    [N] being the number of elements per channel; and to the gradients of
    beta and gamma of the channel of every element it adds [dy] and
    [(x - mean) * (1 / sqrt (var + eps)) * dy].  The mean and the variance
    are the running statistics held by the context. *)
Theorem bwdBatchNormalization_gradients :
  forall (ops : FloatOps) (I : BatchNormalizationInst) (ctx : Context)
         (ds : list nat) (C : nat) (x mean var gamma beta dy dx : nat -> FloatTy),
    bn_ready I ctx ds C x mean var gamma beta ->
    let n := prod_dims ds in
    let ch := getDimForPtr ds (bn_ChannelIdx I) in
    let samplesPerChannel := n / C in
    (forall i, i < n -> raw ctx (GradH (bn_Dest I)) i = Some (dy i)) ->
    (forall i, i < n -> raw ctx (GradH (bn_Src I)) i = Some (dx i)) ->
    hdims ctx (GradH (bn_Bias I)) = [C] ->
    hdims ctx (GradH (bn_Scale I)) = [C] ->
    wf_tensor (gradOf ctx (bn_Bias I)) ->
    wf_tensor (gradOf ctx (bn_Scale I)) ->
    let sdy := channel_sum ch dy n in
    let sdyhmu :=
      channel_sum ch (fun i => fmul (dy i) (fsub (x i) (mean (ch i)))) n in
    exists ctx',
      bwdBatchNormalizationInst I ctx = Some ctx' /\
      (forall i, i < n ->
         raw ctx' (GradH (bn_Src I)) i =
         Some (fadd (dx i)
                 (bn_inputGrad (bn_Epsilon I) samplesPerChannel
                    (x i) (mean (ch i)) (var (ch i)) (gamma (ch i))
                    (dy i) (sdy (ch i)) (sdyhmu (ch i))))) /\
      forall h idx v,
        h = GradH (bn_Bias I) \/ h = GradH (bn_Scale I) ->
        hat ctx h idx = Some v ->
        hat ctx' h idx =
        Some (fold_left fadd
                (addends h idx (bn_paramGrad_updates I ch x dy mean var n)) v).
Proof.
  intros ops I ctx ds C x mean var gamma beta dy dx Hready n ch spc Hdy Hdx
    Hgb Hgs Wb Ws sdy sdyhmu.
  pose proof Hready as
    (Hnd & Hds & Hch & HC & Hdm & Hdv & Wm & Wv & Hlen & Hx & Hm & Hv & Hg & Hb).
  pose proof (NoDup6 _ _ _ _ _ _ Hnd) as
    (D1 & D2 & D3 & D4 & D5 & D6 & D7 & D8 & D9 & D10 & D11 & D12 & D13 & D14 & D15).
  assert (Hsize : hsize ctx (WeightH (bn_Src I)) = n)
    by (unfold hsize, tsize; fold (hdims ctx (WeightH (bn_Src I)));
        now rewrite Hds).
  assert (Hchlt : forall i, ch i < C)
    by (intros i; now apply getDimForPtr_lt).
  unfold bwdBatchNormalizationInst. cbv zeta.
  rewrite Hds, Hch, Hdm, Hsize.
  replace (negb (C =? 0)) with true
    by (symmetry; apply negb_true_iff, Nat.eqb_neq; lia).
  fold spc.
  destruct (newTensor1 C) as (N1 & N2 & N3).
  (* sum(dy * (h - mu)) *)
  destruct (channel_loop n C ch
    (fun i => fmul (dy i) (fsub (x i) (mean (ch i))))
    (fun i t =>
       channelId <- channelOf (hdims ctx (WeightH (bn_Src I))) (bn_ChannelIdx I) i ;;
       x <- raw ctx (WeightH (bn_Src I)) i ;;
       mu <- hat ctx (WeightH (bn_Mean I)) [channelId] ;;
       g <- raw ctx (GradH (bn_Dest I)) i ;;
       old <- t_at t [channelId] ;;
       t_set_at t [channelId] (fadd old (fmul g (fsub x mu))))
    (newTensor [C])) as (t1 & E1 & Dt1 & Wt1 & Ct1); auto.
  { intros i t Hi Ht. rewrite Hds, (channelOf_Some ds _ i C Hch), (Hx i Hi).
    fold (ch i). rewrite (Hm _ (Hchlt i)), (Hdy i Hi).
    rewrite (t_at1 t C (ch i) Ht (Hchlt i)).
    destruct (t_raw t (ch i)); [|reflexivity].
    apply (t_set_at1 t C (ch i) _ Ht (Hchlt i)). }
  unfold bn_dyhmu. cbv zeta. rewrite Hsize, E1.
  (* sum(dy) *)
  destruct (channel_loop n C ch dy
    (fun i t =>
       channelId <- channelOf (hdims ctx (WeightH (bn_Src I))) (bn_ChannelIdx I) i ;;
       g <- raw ctx (GradH (bn_Dest I)) i ;;
       old <- t_at t [channelId] ;;
       t_set_at t [channelId] (fadd old g))
    (newTensor [C])) as (t2 & E2 & Dt2 & Wt2 & Ct2); auto.
  { intros i t Hi Ht. rewrite Hds, (channelOf_Some ds _ i C Hch), (Hdy i Hi).
    fold (ch i). rewrite (t_at1 t C (ch i) Ht (Hchlt i)).
    destruct (t_raw t (ch i)); [|reflexivity].
    apply (t_set_at1 t C (ch i) _ Ht (Hchlt i)). }
  unfold bn_sumDy. cbv zeta. rewrite Hsize, E2.
  fold sdyhmu in Ct1. fold sdy in Ct2.
  (* the gradient of the input *)
  set (out := fun i =>
    fadd (dx i)
      (bn_inputGrad (bn_Epsilon I) spc (x i) (mean (ch i)) (var (ch i))
         (gamma (ch i)) (dy i) (sdy (ch i)) (sdyhmu (ch i)))).
  assert (Hlen' : n <= length (elems (tensorOf ctx (GradH (bn_Src I))))).
  { destruct n as [|m]; [lia|].
    assert (H : raw ctx (GradH (bn_Src I)) m <> None)
      by (rewrite Hdx by lia; discriminate).
    apply nth_error_Some in H. lia. }
  destruct (pointwise_loop (GradH (bn_Src I))
    (fun i c =>
       channelId <- channelOf (hdims c (WeightH (bn_Src I))) (bn_ChannelIdx I) i ;;
       gamma <- hat c (WeightH (bn_Scale I)) [channelId] ;;
       var <- hat c (WeightH (bn_Var I)) [channelId] ;;
       mu <- hat c (WeightH (bn_Mean I)) [channelId] ;;
       dy <- raw c (GradH (bn_Dest I)) i ;;
       x <- raw c (WeightH (bn_Src I)) i ;;
       sdy <- t_at t2 [channelId] ;;
       sdyhmu <- t_at t1 [channelId] ;;
       add_raw c (GradH (bn_Src I)) i
         (bn_inputGrad (bn_Epsilon I) spc x mu var gamma dy sdy sdyhmu))
    out n ctx Hlen') as (c1 & E3 & Ho1 & Hi1 & Hd1 & _ & Hdone & _).
  { intros i c Hi Hothers Hsame.
    assert (HW : forall v idx, hat c (WeightH v) idx = hat ctx (WeightH v) idx).
    { intros v idx. unfold hat. now rewrite Hothers by discriminate. }
    assert (HD : hdims c (WeightH (bn_Src I)) = ds).
    { unfold hdims. rewrite Hothers by discriminate. exact Hds. }
    rewrite HD, (channelOf_Some ds _ i C Hch). fold (ch i).
    rewrite !HW.
    rewrite (Hg _ (Hchlt i)), (Hv _ (Hchlt i)), (Hm _ (Hchlt i)).
    rewrite (Hsame (GradH (bn_Dest I)) i) by (left; congruence).
    rewrite (Hsame (WeightH (bn_Src I)) i) by (left; discriminate).
    rewrite (Hdy i Hi), (Hx i Hi).
    rewrite (t_at1 t2 C (ch i) Dt2 (Hchlt i)), (Ct2 _ (Hchlt i)).
    rewrite (t_at1 t1 C (ch i) Dt1 (Hchlt i)), (Ct1 _ (Hchlt i)).
    unfold add_raw. rewrite (Hsame (GradH (bn_Src I)) i) by (right; lia).
    rewrite (Hdx i Hi). reflexivity. }
  unfold bn_inputGrads. cbv zeta. rewrite Hsize, E3.
  (* the gradients of beta and gamma *)
  destruct (bn_paramGrads_accumulates I c1 ds C x dy mean var) with (c := c1)
    as (c2 & E4 & Hfr2 & Hadd); auto.
  { unfold hdims. rewrite Ho1 by discriminate. exact Hds. }
  { unfold hdims. rewrite Ho1 by congruence. exact Hgb. }
  { unfold hdims. rewrite Ho1 by congruence. exact Hgs. }
  { intros i Hi. unfold raw. rewrite Ho1 by discriminate. now apply Hx. }
  { intros i Hi. unfold raw. rewrite Ho1 by congruence. now apply Hdy. }
  { intros c Hc. unfold hat. rewrite Ho1 by discriminate. now apply Hm. }
  { intros c Hc. unfold hat. rewrite Ho1 by discriminate. now apply Hv. }
  { apply grad_frame_start. intros v [->| ->].
    - change (wf_tensor (tensorOf c1 (GradH (bn_Bias I)))).
      rewrite Ho1 by congruence. exact Wb.
    - change (wf_tensor (tensorOf c1 (GradH (bn_Scale I)))).
      rewrite Ho1 by congruence. exact Ws. }
  exists c2. split; [exact E4|]. split.
  - intros i Hi.
    rewrite (grad_frame_raw_grad c1 _ c2 (bn_Src I) i Hfr2).
    + now apply Hdone.
    + intros [H|H]; congruence.
  - intros h idx v Hh Hv'. apply Hadd.
    unfold hat. rewrite Ho1; [exact Hv'|].
    destruct Hh as [->| ->]; congruence.
Qed.

(** The batch of [ctxBN], with gradients: output gradient [1, 1, 1, 1],
    and gradients of the input, of gamma and of beta that start from 0. *)
Lemma ctxBN_backward_ready (eps momentum : R) :
  let ctx := @context_of RealOps
    [ (0, tensor_of [2; 2] [0; 0; 0; 0]%Z); (1, tensor_of [2; 2] [1; 2; 3; 4]%Z);
      (2, tensor_of [2] [1; 1]%Z); (3, tensor_of [2] [0; 0]%Z);
      (4, tensor_of [2] [0; 0]%Z); (5, tensor_of [2] [1; 1]%Z) ]
    [ (0, tensor_of [2; 2] [1; 1; 1; 1]%Z); (1, tensor_of [2; 2] [0; 0; 0; 0]%Z);
      (2, tensor_of [2] [0; 0]%Z); (3, tensor_of [2] [0; 0]%Z) ] [] in
  @bn_ready RealOps (@bnInst RealOps eps momentum) ctx [2; 2] 2
    (flat_of ctx (WeightH 1))
    (vector_of ctx (WeightH 4)) (vector_of ctx (WeightH 5))
    (vector_of ctx (WeightH 2)) (vector_of ctx (WeightH 3)).
Proof.
  intros ctx. unfold bn_ready.
  split; [exact NoDup_seq6|]. split; [reflexivity|]. split; [reflexivity|].
  split; [lia|]. split; [reflexivity|]. split; [reflexivity|].
  split; [reflexivity|]. split; [reflexivity|].
  split; [vm_compute; lia|].
  split; [intros i Hi; apply get_raw; exact Hi|].
  repeat split; intros c Hc; (apply get_hat; [reflexivity|]);
    now apply isInBounds1.
Qed.

Lemma bwdBatchNormalization_gradients_witness :
  exists ctx' : @Context RealOps,
    bwdBatchNormalizationInst (@bnInst RealOps 0%R (1 / 2)%R)
      (context_of
         [ (0, tensor_of [2; 2] [0; 0; 0; 0]%Z);
           (1, tensor_of [2; 2] [1; 2; 3; 4]%Z);
           (2, tensor_of [2] [1; 1]%Z); (3, tensor_of [2] [0; 0]%Z);
           (4, tensor_of [2] [0; 0]%Z); (5, tensor_of [2] [1; 1]%Z) ]
         [ (0, tensor_of [2; 2] [1; 1; 1; 1]%Z);
           (1, tensor_of [2; 2] [0; 0; 0; 0]%Z);
           (2, tensor_of [2] [0; 0]%Z); (3, tensor_of [2] [0; 0]%Z) ] [])
    = Some ctx'.
Proof.
  destruct (bwdBatchNormalization_gradients RealOps
              (@bnInst RealOps 0%R (1 / 2)%R) _ [2; 2] 2 _ _ _ _ _
              (fun _ => 1%R) (fun _ => 0%R)
              (ctxBN_backward_ready 0%R (1 / 2)%R)) as (ctx' & E & _).
  - intros i Hi. vm_compute in Hi.
    destruct i as [|[|[|[|i]]]]; try lia; cbn; f_equal; lra.
  - intros i Hi. vm_compute in Hi.
    destruct i as [|[|[|[|i]]]]; try lia; cbn; f_equal; lra.
  - reflexivity.
  - reflexivity.
  - reflexivity.
  - reflexivity.
  - exists ctx'. exact E.
Defined.

(* ================================================================== *)
(** * Local response normalization: the running sums *)
(* ================================================================== *)

(** Sums of real numbers over the first [n] indices. *)
Lemma real_sum_ext (f g : nat -> R) (l : list nat) (a : R) :
  (forall j, In j l -> f j = g j) ->
  fold_left (fun s j => (s + f j)%R) l a = fold_left (fun s j => (s + g j)%R) l a.
Proof.
  intros H. apply fold_left_ext_in. intros s j Hj. now rewrite H.
Qed.

Lemma real_sum_plus (f g : nat -> R) (l : list nat) :
  fold_left (fun s j => (s + (f j + g j))%R) l 0%R =
  (fold_left (fun s j => (s + f j)%R) l 0 +
   fold_left (fun s j => (s + g j)%R) l 0)%R.
Proof.
  induction l as [|i l IH]; simpl; [lra|].
  rewrite (real_sum_shift (fun j => (f j + g j)%R) l),
          (real_sum_shift f l (0 + f i)%R), (real_sum_shift g l (0 + g i)%R), IH.
  lra.
Qed.

(** A sum whose only term is at index [a]. *)
Lemma real_sum_delta (a n : nat) (v : R) :
  fold_left (fun s j => Rplus s (if (j =? a)%nat then v else 0%R)) (seq 0 n) 0%R =
  if a <? n then v else 0%R.
Proof.
  induction n as [|n IH]; [reflexivity|].
  rewrite seq_S, fold_left_app, IH. simpl.
  destruct (Nat.eqb_spec n a) as [->|Hne].
  - rewrite Nat.ltb_irrefl.
    replace (a <? S a) with true by (symmetry; apply Nat.ltb_lt; lia). lra.
  - destruct (Nat.ltb_spec a n), (Nat.ltb_spec a (S n)); try lia; lra.
Qed.

(** The sum over a window, as a sum over all the channels. *)
Lemma real_lrn_window_sum (f : nat -> R) (hw C c : nat) :
  @lrn_window_sum RealOps f (lrn_window hw C c) =
  fold_left (fun s j =>
               Rplus s (if ((c <=? j + hw) && (j <=? c + hw))%nat
                        then f j else 0%R))
            (seq 0 C) 0%R.
Proof.
  unfold lrn_window_sum, lrn_window. rewrite fold_left_filter.
  apply fold_left_ext_in. intros s j _.
  change (@fadd RealOps) with Rplus.
  destruct ((c <=? j + hw) && (j <=? c + hw)); lra.
Qed.

(** From one channel to the next the window loses its rear end and gains
    a front end. *)
Lemma real_lrn_window_slides (f : nat -> R) (hw C c : nat) :
  c < C ->
  @lrn_window_sum RealOps f (lrn_window hw C (S c)) =
  Rplus (Rminus (@lrn_window_sum RealOps f (lrn_window hw C c))
                (if (hw <=? c)%nat then f (c - hw)%nat else 0%R))
        (if (c + hw + 1 <? C)%nat then f (c + hw + 1)%nat else 0%R).
Proof.
  intros Hc. rewrite !real_lrn_window_sum.
  set (rear := if hw <=? c then f (c - hw)%nat else 0%R).
  set (front := f (c + hw + 1)%nat).
  rewrite (real_sum_ext _
    (fun j => Rplus (if ((c <=? j + hw) && (j <=? c + hw))%nat
                     then f j else 0%R)
                    (Rplus (if (j =? c - hw)%nat then (- rear)%R else 0%R)
                           (if (j =? c + hw + 1)%nat then front else 0%R)))).
  - rewrite real_sum_plus, real_sum_plus, !real_sum_delta.
    replace (c - hw <? C) with true by (symmetry; apply Nat.ltb_lt; lia).
    fold front. destruct (c + hw + 1 <? C); lra.
  - intros j _. unfold rear, front.
    destruct (Nat.leb_spec (S c) (j + hw)), (Nat.leb_spec j (S c + hw)),
             (Nat.leb_spec c (j + hw)), (Nat.leb_spec j (c + hw)),
             (Nat.eqb_spec j (c - hw)), (Nat.eqb_spec j (c + hw + 1)),
             (Nat.leb_spec hw c); simpl; subst; try lia; try lra.
Qed.

(** The sum the kernels start from: the terms of the channels 1 to
    [halfWindowSize], without channel 0. *)
Lemma real_lrn_window_start (f : nat -> R) (hw C : nat) :
  0 < C ->
  fold_left (fun s k => (s + f (1 + k)%nat)%R)
            (seq 0 (Nat.min (S hw) C - 1)) 0%R =
  (@lrn_window_sum RealOps f (lrn_window hw C 0) - f 0%nat)%R.
Proof.
  intros HC. rewrite real_lrn_window_sum.
  assert (G : forall m, m <= C ->
    fold_left (fun s j =>
       Rplus s (if ((0 <=? j + hw) && (j <=? 0 + hw))%nat then f j else 0%R))
      (seq 0 m) 0%R =
    fold_left (fun s j => (s + f j)%R) (seq 0 (Nat.min (S hw) m)) 0%R).
  { induction m as [|m IH]; intros Hm; [reflexivity|].
    rewrite seq_S, fold_left_app, IH by lia. cbn [fold_left Nat.add].
    destruct (Nat.leb_spec m hw); cbn [andb Nat.leb].
    - replace (Nat.min (S hw) (S m)) with (S m) by lia.
      replace (Nat.min (S hw) m) with m by lia.
      rewrite seq_S, fold_left_app. reflexivity.
    - replace (Nat.min (S hw) (S m)) with (Nat.min (S hw) m) by lia. lra. }
  rewrite (G C) by lia.
  destruct (Nat.min (S hw) C) as [|m] eqn:E; [lia|].
  replace (S m - 1) with m by lia.
  change (seq 0 (S m)) with (0 :: seq 1 m). simpl.
  rewrite (real_sum_shift f (seq 1 m)).
  rewrite <- seq_shift, fold_left_map. simpl. lra.
Qed.

(** In exact arithmetic the running sums are the sums over the window,
    short of the term of channel 0. *)
Lemma real_lrn_squareSum (x : nat -> R) (hw C c : nat) :
  c < C ->
  @lrn_squareSum RealOps x hw C c =
  (@lrn_squares RealOps x (lrn_window hw C c) - x 0%nat * x 0%nat)%R.
Proof.
  unfold lrn_squares. induction c as [|c IH]; intros Hc.
  - apply (real_lrn_window_start (fun j => (x j * x j)%R)). exact Hc.
  - cbn [lrn_squareSum]. rewrite IH by lia.
    rewrite (real_lrn_window_slides _ hw C c) by lia.
    change (@fadd RealOps) with Rplus. change (@fsub RealOps) with Rminus.
    change (@fmul RealOps) with Rmult. change (@fzero RealOps) with 0%R.
    destruct (hw <=? c), (c + hw + 1 <? C); lra.
Qed.

Lemma real_lrn_gradSum (term : nat -> R) (hw C c : nat) :
  c < C ->
  @lrn_gradSum RealOps term hw C c =
  (@lrn_window_sum RealOps term (lrn_window hw C c) - term 0%nat)%R.
Proof.
  induction c as [|c IH]; intros Hc.
  - apply (real_lrn_window_start term). exact Hc.
  - cbn [lrn_gradSum]. cbv zeta. rewrite IH by lia.
    rewrite (real_lrn_window_slides _ hw C c) by lia.
    change (@fadd RealOps) with Rplus. change (@fsub RealOps) with Rminus.
    destruct (hw <=? c), (c + hw + 1 <? C); lra.
Qed.

(* ================================================================== *)
(** * Local response normalization: the forward kernel *)
(* ================================================================== *)

Section LRNForward.
Context {ops : FloatOps}.
Variable I : LocalResponseNormalizationInst.
Variable ctx : Context.
Variables N H W C : nat.
Variable x : nat -> nat -> nat -> nat -> FloatTy.
Hypothesis Hready : lrn_forward_ready I ctx N H W C x.

Lemma lrn_inv_start : lrn_inv I ctx N H W C ctx.
Proof.
  destruct Hready as (_ & _ & _ & _ & HD & HS & WD & WS & _).
  repeat split; assumption.
Qed.

Lemma lrn_inv_read (t : Context) (n h w c : nat) :
  lrn_inv I ctx N H W C t -> n < N -> h < H -> w < W -> c < C ->
  hat t (WeightH (lrn_Src I)) [n; h; w; c] = Some (x n h w c).
Proof.
  intros (Hs & _) Hn Hh Hw Hc. unfold hat. rewrite Hs.
  destruct Hready as (_ & _ & _ & _ & _ & _ & _ & _ & _ & _ & Hx).
  now apply Hx.
Qed.

Lemma lrn_inv_hset (t t' : Context) (v : Value) (idx : list nat) (y : FloatTy) :
  lrn_inv I ctx N H W C t -> v <> lrn_Src I ->
  hset t (WeightH v) idx y = Some t' -> lrn_inv I ctx N H W C t'.
Proof.
  intros (Hs & HD & HS & WD & WS) Hv E. unfold lrn_inv.
  rewrite (tensorOf_hset E) by congruence.
  rewrite (hdims_hset _ E), (hdims_hset _ E).
  repeat split; try assumption; now apply (wf_hset _ E).
Qed.

Lemma fwdLRN_position_cells (n h w : nat) (t : Context) :
  n < N -> h < H -> w < W -> lrn_inv I ctx N H W C t ->
  exists t',
    fwdLRN_position I (mkShape N H W C) n h w t = Some t' /\
    lrn_inv I ctx N H W C t' /\
    (forall c, c < C -> lrn_cells I C x n h w c t') /\
    forall hd idx, (forall c, idx <> [n; h; w; c]) ->
      hat t' hd idx = hat t hd idx.
Proof.
  intros Hn Hh Hw Ht.
  pose proof Hready as (NSD & NSS & NDS & _ & _ & _ & _ & _ & HC & Hwrap & _).
  unfold fwdLRN_position. cbv zeta. cbn [sc].
  unfold for_range.
  rewrite (for_loop_fold _ _
             (fun s k => fadd s (fmul (x n h w (1 + k)) (x n h w (1 + k))))).
  2:{ intros k s Hk. rewrite (lrn_inv_read t n h w (1 + k)) by (auto; lia).
      reflexivity. }
  destruct (for_loop_ind
    (fun c (st : Context * FloatTy) =>
       lrn_inv I ctx N H W C (fst st) /\
       snd st = lrn_squareSum (x n h w) (lrn_halfWindowSize I) C c /\
       (forall c', c' < c -> lrn_cells I C x n h w c' (fst st)) /\
       forall hd idx, (forall c', idx <> [n; h; w; c']) ->
         hat (fst st) hd idx = hat t hd idx)
    (fun c (st : Context * FloatTy) =>
       let (ctx0, squareSum) := st in
       ctx1 <- hset ctx0 (WeightH (lrn_Scale I)) [n; h; w; c]
                 (fadd (lrn_K I)
                    (fmul (fdiv (lrn_Alpha I)
                             (of_size (to_size
                                (2 * Z.of_nat (lrn_halfWindowSize I) + 1))))
                       squareSum)) ;;
       v <- hat ctx1 (WeightH (lrn_Src I)) [n; h; w; c] ;;
       ctx2 <- hset ctx1 (WeightH (lrn_Dest I)) [n; h; w; c]
                 (fmul v
                    (std_pow
                       (fadd (lrn_K I)
                          (fmul (fdiv (lrn_Alpha I)
                                   (of_size (to_size
                                      (2 * Z.of_nat (lrn_halfWindowSize I) + 1))))
                             squareSum))
                       (fneg (lrn_Beta I)))) ;;
       sub <- (if lrn_halfWindowSize I <=? c
               then hat ctx2 (WeightH (lrn_Src I))
                      [n; h; w; c - lrn_halfWindowSize I]
               else Some fzero) ;;
       add <- (if (to_size (Z.of_nat c + Z.of_nat (lrn_halfWindowSize I) + 1)
                   <? Z.of_nat C)%Z
               then hat ctx2 (WeightH (lrn_Src I))
                      [n; h; w;
                       Z.to_nat (to_size (Z.of_nat c
                                          + Z.of_nat (lrn_halfWindowSize I) + 1))]
               else Some fzero) ;;
       Some (ctx2, fadd (fsub squareSum (fmul sub sub)) (fmul add add)))
    C
    (t, fold_left
          (fun s k => fadd s (fmul (x n h w (1 + k)) (x n h w (1 + k))))
          (seq 0 (Nat.min (S (lrn_halfWindowSize I)) C - 1)) fzero))
    as ([t' s'] & E & It' & _ & Hcells & Hframe).
  - cbn [fst snd]. split; [exact Ht|]. split; [reflexivity|].
    split; [intros; lia|]. reflexivity.
  - intros c [t1 s1] Hc (I1 & Hs1 & Hcells1 & Hframe1). cbn [fst snd] in *.
    destruct I1 as (Is1 & HD1 & HS1 & WD1 & WS1).
    assert (I1 : lrn_inv I ctx N H W C t1) by (repeat split; assumption).
    set (scale := fadd (lrn_K I)
                    (fmul (fdiv (lrn_Alpha I)
                             (of_size (to_size
                                (2 * Z.of_nat (lrn_halfWindowSize I) + 1))))
                       s1)).
    destruct (hset_Some t1 (WeightH (lrn_Scale I)) [n; h; w; c] scale WS1)
      as (t2 & E2).
    { rewrite HS1. now apply isInBounds4. }
    rewrite E2.
    assert (I2 : lrn_inv I ctx N H W C t2).
    { apply (lrn_inv_hset t1 t2 (lrn_Scale I) [n; h; w; c] scale I1);
        [congruence|exact E2]. }
    rewrite (lrn_inv_read t2 n h w c I2) by assumption.
    destruct I2 as (Is2 & HD2 & HS2 & WD2 & WS2).
    destruct (hset_Some t2 (WeightH (lrn_Dest I)) [n; h; w; c]
                (fmul (x n h w c) (std_pow scale (fneg (lrn_Beta I)))) WD2)
      as (t3 & E3).
    { rewrite HD2. now apply isInBounds4. }
    rewrite E3.
    assert (I3 : lrn_inv I ctx N H W C t3).
    { apply (lrn_inv_hset t2 t3 (lrn_Dest I) [n; h; w; c]
               (fmul (x n h w c) (std_pow scale (fneg (lrn_Beta I))))).
      - repeat split; assumption.
      - congruence.
      - exact E3. }
    assert (Esub : (if lrn_halfWindowSize I <=? c
                    then hat t3 (WeightH (lrn_Src I))
                           [n; h; w; c - lrn_halfWindowSize I]
                    else Some fzero) =
                   Some (if lrn_halfWindowSize I <=? c
                         then x n h w (c - lrn_halfWindowSize I) else fzero)).
    { destruct (lrn_halfWindowSize I <=? c); [|reflexivity].
      apply lrn_inv_read; auto; lia. }
    rewrite Esub.
    rewrite (to_size_small (Z.of_nat c + Z.of_nat (lrn_halfWindowSize I) + 1))
      by lia.
    assert (Eadd : (if (Z.of_nat c + Z.of_nat (lrn_halfWindowSize I) + 1
                        <? Z.of_nat C)%Z
                    then hat t3 (WeightH (lrn_Src I))
                           [n; h; w;
                            Z.to_nat (Z.of_nat c
                                      + Z.of_nat (lrn_halfWindowSize I) + 1)]
                    else Some fzero) =
                   Some (if c + lrn_halfWindowSize I + 1 <? C
                         then x n h w (c + lrn_halfWindowSize I + 1)
                         else fzero)).
    { replace (Z.of_nat c + Z.of_nat (lrn_halfWindowSize I) + 1)%Z
        with (Z.of_nat (c + lrn_halfWindowSize I + 1)) by lia.
      rewrite Nat2Z.id.
      destruct (Z.ltb_spec (Z.of_nat (c + lrn_halfWindowSize I + 1)) (Z.of_nat C)),
               (Nat.ltb_spec (c + lrn_halfWindowSize I + 1) C); try lia.
      - apply lrn_inv_read; auto.
      - reflexivity. }
    rewrite Eadd.
    eexists. split; [reflexivity|]. cbn [fst snd].
    split; [exact I3|]. split; [rewrite Hs1; reflexivity|]. split.
    + intros c' Hc'. unfold lrn_cells. cbv zeta.
      destruct (Nat.eq_dec c' c) as [->|Hne].
      * split.
        -- rewrite (hat_set_other E3) by (left; congruence).
           rewrite (hat_set_same E2). unfold scale, lrn_scale.
           rewrite Hs1. reflexivity.
        -- rewrite (hat_set_same E3). unfold scale, lrn_scale.
           rewrite Hs1. reflexivity.
      * assert (Hidx : [n; h; w; c'] <> [n; h; w; c]) by congruence.
        rewrite (hat_set_other E3) by (right; exact Hidx).
        rewrite (hat_set_other E2) by (right; exact Hidx).
        rewrite (hat_set_other E3) by (right; exact Hidx).
        rewrite (hat_set_other E2) by (right; exact Hidx).
        apply Hcells1. lia.
    + intros hd idx Hidx.
      rewrite (hat_set_other E3) by (right; apply Hidx).
      rewrite (hat_set_other E2) by (right; apply Hidx).
      now apply Hframe1.
  - cbn [fst snd] in *. rewrite E. cbn [fst]. exists t'.
    split; [reflexivity|]. split; [exact It'|]. split; assumption.
Qed.

(** The kernel fills every cell of the scale cache and of the output. *)
Lemma fwdLRN_cells (isTrain : bool) :
  exists ctx',
    fwdLocalResponseNormalizationInst isTrain I ctx = Some ctx' /\
    forall n h w c, n < N -> h < H -> w < W -> c < C ->
      lrn_cells I C x n h w c ctx'.
Proof.
  pose proof Hready as (_ & _ & _ & HdS & HdD & _ & _ & _ & HC & _).
  unfold fwdLocalResponseNormalizationInst.
  rewrite HdD, HdS. cbn [shapeNHWC]. unfold shape_eqb. cbn [sn sh sw sc].
  rewrite !Nat.eqb_refl. cbn [andb].
  replace (0 <? C) with true by (symmetry; apply Nat.ltb_lt; exact HC).
  destruct (for_loop4_cells (lrn_inv I ctx N H W C)
              (fun n h w (_ : nat) t => forall c, c < C -> lrn_cells I C x n h w c t)
              (fun n h w (_ : nat) t =>
                 fwdLRN_position I (mkShape N H W C) n h w t)
              N H W 1 ctx lrn_inv_start) as (t & Et & _ & Qt).
  - intros n h w d t Hn Hh Hw _ It.
    destruct (fwdLRN_position_cells n h w t Hn Hh Hw It)
      as (t' & E & It' & Hcells & Hframe).
    exists t'. split; [exact E|]. split; [exact It'|]. split; [exact Hcells|].
    intros n' h' w' d' Hne Hold c Hc.
    destruct (list_eq_dec Nat.eq_dec [n'; h'; w'] [n; h; w]) as [Heq|Hne3].
    + inversion Heq; subst. now apply Hcells.
    + assert (Hidx : forall c0, [n'; h'; w'; c] <> [n; h; w; c0]).
      { intros c0 Heq. inversion Heq; subst. now apply Hne3. }
      destruct (Hold c Hc) as (H1 & H2). unfold lrn_cells. cbv zeta.
      rewrite !Hframe by exact Hidx. split; assumption.
  - exists t. split; [exact Et|]. intros n h w c Hn Hh Hw Hc.
    apply (Qt n h w 0); auto.
Qed.

End LRNForward.

(** X24.  In exact arithmetic the forward kernel of the local response
    normalization succeeds on three distinct tensors of one shape with at
    least one channel, and at every position and channel [c] it writes
    [scale = k + alpha / windowSize * squareSum] to the scale cache and
    [x * pow(scale, -beta)] to the output, where [squareSum] is the sum of
    the squares of the input over the channels within [halfWindowSize] of
    [c], minus the square of channel 0: the first loop starts at channel
    1, and what it leaves out stays out of the running sum. *)
Theorem real_fwdLRN_square_sum_lacks_channel_0 :
  forall (I : @LocalResponseNormalizationInst RealOps) (isTrain : bool)
         (ctx : @Context RealOps) (N H W C : nat)
         (x : nat -> nat -> nat -> nat -> R),
    @lrn_forward_ready RealOps I ctx N H W C x ->
    exists ctx',
      @fwdLocalResponseNormalizationInst RealOps isTrain I ctx = Some ctx' /\
      forall n h w c, n < N -> h < H -> w < W -> c < C ->
        let squareSum :=
          Rminus (@lrn_squares RealOps (x n h w)
                    (lrn_window (lrn_halfWindowSize I) C c))
                 (Rmult (x n h w 0) (x n h w 0)) in
        let scale := @lrn_scale RealOps I squareSum in
        hat ctx' (WeightH (lrn_Scale I)) [n; h; w; c] = Some scale /\
        hat ctx' (WeightH (lrn_Dest I)) [n; h; w; c] =
          Some (Rmult (x n h w c) (Rpower scale (Ropp (lrn_Beta I)))).
Proof.
  intros I isTrain ctx N H W C x Hready.
  destruct (@fwdLRN_cells RealOps I ctx N H W C x Hready isTrain)
    as (ctx' & E & Hcells).
  exists ctx'. split; [exact E|]. intros n h w c Hn Hh Hw Hc. cbv zeta.
  destruct (Hcells n h w c Hn Hh Hw Hc) as (H1 & H2).
  rewrite (real_lrn_squareSum (x n h w) (lrn_halfWindowSize I) C c Hc) in H1, H2.
  split; [exact H1|exact H2].
Qed.

Lemma ctxLRN_forward_ready (alpha beta k : R) :
  @lrn_forward_ready RealOps (@lrnInst RealOps alpha beta k) (@ctxLRN RealOps) 1 1 1 3
    (@image_of RealOps (@ctxLRN RealOps) (WeightH 1)).
Proof.
  unfold lrn_forward_ready.
  split; [discriminate|]. split; [discriminate|]. split; [discriminate|].
  split; [reflexivity|]. split; [reflexivity|]. split; [reflexivity|].
  split; [reflexivity|]. split; [reflexivity|]. split; [lia|].
  split; [vm_compute; reflexivity|].
  intros n h w c Hn Hh Hw Hc. apply get_hat; [reflexivity|].
  now apply isInBounds4.
Qed.

Lemma real_fwdLRN_square_sum_lacks_channel_0_witness :
  exists ctx',
    @fwdLocalResponseNormalizationInst RealOps true
      (@lrnInst RealOps 3%R 1%R 1%R) ctxLRN = Some ctx' /\
    hat ctx' (WeightH 2) [0; 0; 0; 0] = Some 5%R.
Proof.
  destruct (real_fwdLRN_square_sum_lacks_channel_0
              (@lrnInst RealOps 3%R 1%R 1%R) true (@ctxLRN RealOps) 1 1 1 3
              (@image_of RealOps (@ctxLRN RealOps) (WeightH 1)) (ctxLRN_forward_ready 3%R 1%R 1%R))
    as (ctx' & E & Hcells).
  exists ctx'. split; [exact E|].
  destruct (Hcells 0 0 0 0) as (H1 & _); try lia.
  cbn [lrn_Scale lrnInst] in H1. rewrite H1. f_equal.
  unfold lrn_scale, lrn_squares, lrn_window_sum, lrn_window. cbn. lra.
Defined.

(* ================================================================== *)
(** * Local response normalization: the backward kernel *)
(* ================================================================== *)

Section LRNBackward.
Context {ops : FloatOps}.
Variable I : LocalResponseNormalizationInst.
Variable ctx : Context.
Variables N H W C : nat.
Variables x y s g : nat -> nat -> nat -> nat -> FloatTy.
Hypothesis Hready : lrn_backward_ready I ctx N H W C x y s g.

Lemma lrn_binv_start : lrn_binv I ctx N H W C ctx.
Proof.
  destruct Hready as (_ & _ & HG & WG & _).
  split; [reflexivity|]. split; assumption.
Qed.

Lemma lrn_binv_reads (t : Context) (n h w c : nat) :
  lrn_binv I ctx N H W C t -> n < N -> h < H -> w < W -> c < C ->
  hat t (WeightH (lrn_Src I)) [n; h; w; c] = Some (x n h w c) /\
  hat t (WeightH (lrn_Dest I)) [n; h; w; c] = Some (y n h w c) /\
  hat t (WeightH (lrn_Scale I)) [n; h; w; c] = Some (s n h w c) /\
  hat t (GradH (lrn_Dest I)) [n; h; w; c] = Some (g n h w c).
Proof.
  intros (Hs & _) Hn Hh Hw Hc.
  destruct Hready as (NSD & _ & _ & _ & _ & Hr).
  unfold hat. rewrite !Hs by congruence. now apply Hr.
Qed.

Lemma lrn_binv_term (t : Context) (n h w c : nat) :
  lrn_binv I ctx N H W C t -> n < N -> h < H -> w < W -> c < C ->
  bwdLRN_term I n h w c t = Some (lrn_term y s g n h w c).
Proof.
  intros It Hn Hh Hw Hc.
  destruct (lrn_binv_reads t n h w c It Hn Hh Hw Hc) as (_ & Hy & Hs & Hg).
  unfold bwdLRN_term. rewrite Hy, Hs, Hg. reflexivity.
Qed.

Lemma lrn_binv_hset (t t' : Context) (idx : list nat) (v : FloatTy) :
  lrn_binv I ctx N H W C t -> hset t (GradH (lrn_Src I)) idx v = Some t' -> lrn_binv I ctx N H W C t'.
Proof.
  intros (Hs & HG & WG) E. split; [|split].
  - intros hd Hhd. rewrite (tensorOf_hset E) by exact Hhd. now apply Hs.
  - now rewrite (hdims_hset _ E).
  - now apply (wf_hset _ E).
Qed.

Lemma bwdLRN_position_cells (n h w : nat) (t : Context) :
  n < N -> h < H -> w < W -> lrn_binv I ctx N H W C t ->
  exists t',
    bwdLRN_position I (mkShape N H W C) n h w t = Some t' /\
    lrn_binv I ctx N H W C t' /\
    (forall c, c < C ->
       hat t' (GradH (lrn_Src I)) [n; h; w; c] =
       Some (lrn_inputGrad I (g n h w c) (s n h w c) (x n h w c)
               (lrn_gradSum (lrn_term y s g n h w) (lrn_halfWindowSize I) C c))) /\
    forall idx, (forall c, idx <> [n; h; w; c]) ->
      hat t' (GradH (lrn_Src I)) idx = hat t (GradH (lrn_Src I)) idx.
Proof.
  intros Hn Hh Hw Ht.
  pose proof Hready as (NSD & _ & _ & _ & Hwrap & _).
  unfold bwdLRN_position. cbv zeta. cbn [sc].
  unfold for_range.
  rewrite (for_loop_fold _ _ (fun sum k => fadd sum (lrn_term y s g n h w (1 + k)))).
  2:{ intros k sum Hk. rewrite (lrn_binv_term t n h w (1 + k)) by (auto; lia).
      reflexivity. }
  match goal with
  | |- context [for_loop C ?body ?init] =>
      destruct (for_loop_ind
        (fun c (st : Context * FloatTy) =>
           lrn_binv I ctx N H W C (fst st) /\
           snd st = lrn_gradSum (lrn_term y s g n h w) (lrn_halfWindowSize I) C c /\
           (forall c', c' < c ->
              hat (fst st) (GradH (lrn_Src I)) [n; h; w; c'] =
              Some (lrn_inputGrad I (g n h w c') (s n h w c') (x n h w c')
                      (lrn_gradSum (lrn_term y s g n h w)
                         (lrn_halfWindowSize I) C c'))) /\
           forall idx, (forall c', idx <> [n; h; w; c']) ->
             hat (fst st) (GradH (lrn_Src I)) idx =
             hat t (GradH (lrn_Src I)) idx)
        body C init) as ([t' s'] & E & It' & _ & Hcells & Hframe)
  end.
  - cbn [fst snd]. split; [exact Ht|]. split; [reflexivity|].
    split; [intros; lia|]. reflexivity.
  - intros c [t1 s1] Hc (I1 & Hs1 & Hcells1 & Hframe1). cbn [fst snd] in *.
    destruct (lrn_binv_reads t1 n h w c I1 Hn Hh Hw Hc) as (Hx & _ & Hsc & Hg).
    rewrite Hg, Hsc, Hx.
    pose proof I1 as (_ & HG1 & WG1).
    match goal with
    | |- context [hset t1 (GradH (lrn_Src I)) [n; h; w; c] ?v] =>
        destruct (hset_Some t1 (GradH (lrn_Src I)) [n; h; w; c] v WG1)
          as (t2 & E2);
          [rewrite HG1; now apply isInBounds4|];
          pose proof (lrn_binv_hset t1 t2 [n; h; w; c] v I1 E2) as I2
    end.
    rewrite E2.
    assert (Esub : (if lrn_halfWindowSize I <=? c
                    then t0 <- bwdLRN_term I n h w (c - lrn_halfWindowSize I) t2 ;;
                         Some (fsub s1 t0)
                    else Some s1) =
                   Some (if lrn_halfWindowSize I <=? c
                         then fsub s1 (lrn_term y s g n h w (c - lrn_halfWindowSize I))
                         else s1)).
    { destruct (lrn_halfWindowSize I <=? c); [|reflexivity].
      rewrite lrn_binv_term by (auto; lia). reflexivity. }
    rewrite Esub.
    rewrite (to_size_small (Z.of_nat c + Z.of_nat (lrn_halfWindowSize I) + 1))
      by lia.
    replace (Z.of_nat c + Z.of_nat (lrn_halfWindowSize I) + 1)%Z
      with (Z.of_nat (c + lrn_halfWindowSize I + 1)) by lia.
    rewrite Nat2Z.id.
    replace (Z.of_nat (c + lrn_halfWindowSize I + 1) <? Z.of_nat C)%Z
      with (c + lrn_halfWindowSize I + 1 <? C).
    2:{ destruct (Z.ltb_spec (Z.of_nat (c + lrn_halfWindowSize I + 1))
                             (Z.of_nat C)),
                 (Nat.ltb_spec (c + lrn_halfWindowSize I + 1) C);
          try lia; reflexivity. }
    match goal with
    | |- context [if c + lrn_halfWindowSize I + 1 <? C then ?a else Some ?b] =>
        assert (Eadd : (if c + lrn_halfWindowSize I + 1 <? C then a else Some b)
                       = Some (if c + lrn_halfWindowSize I + 1 <? C
                               then fadd b (lrn_term y s g n h w
                                              (c + lrn_halfWindowSize I + 1))
                               else b))
    end.
    { destruct (Nat.ltb_spec (c + lrn_halfWindowSize I + 1) C); [|reflexivity].
      rewrite lrn_binv_term by auto. reflexivity. }
    rewrite Eadd.
    eexists. split; [reflexivity|]. cbn [fst snd].
    split; [exact I2|]. split; [rewrite Hs1; reflexivity|]. split.
    + intros c' Hc'. destruct (Nat.eq_dec c' c) as [->|Hne].
      * rewrite (hat_set_same E2). unfold lrn_inputGrad. rewrite Hs1.
        reflexivity.
      * rewrite (hat_set_other E2) by (right; congruence).
        apply Hcells1. lia.
    + intros idx Hidx. rewrite (hat_set_other E2) by (right; apply Hidx).
      now apply Hframe1.
  - cbn [fst snd] in *. rewrite E. cbn [fst]. exists t'.
    split; [reflexivity|]. split; [exact It'|]. split; assumption.
Qed.

(** The kernel assigns every cell of the gradient of the input. *)
Lemma bwdLRN_cells :
  exists ctx',
    bwdLocalResponseNormalizationInst I ctx = Some ctx' /\
    (forall hd, hd <> GradH (lrn_Src I) -> tensorOf ctx' hd = tensorOf ctx hd) /\
    forall n h w c, n < N -> h < H -> w < W -> c < C ->
      hat ctx' (GradH (lrn_Src I)) [n; h; w; c] =
      Some (lrn_inputGrad I (g n h w c) (s n h w c) (x n h w c)
              (lrn_gradSum (lrn_term y s g n h w) (lrn_halfWindowSize I) C c)).
Proof.
  pose proof Hready as (_ & HdD & _).
  unfold bwdLocalResponseNormalizationInst.
  rewrite HdD. cbn [shapeNHWC]. cbn [sn sh sw sc].
  destruct (for_loop4_cells (lrn_binv I ctx N H W C)
              (fun n h w (_ : nat) t => forall c, c < C ->
                 hat t (GradH (lrn_Src I)) [n; h; w; c] =
                 Some (lrn_inputGrad I (g n h w c) (s n h w c) (x n h w c)
                         (lrn_gradSum (lrn_term y s g n h w)
                            (lrn_halfWindowSize I) C c)))
              (fun n h w (_ : nat) t =>
                 bwdLRN_position I (mkShape N H W C) n h w t)
              N H W 1 ctx lrn_binv_start) as (t & Et & It & Qt).
  - intros n h w d t Hn Hh Hw _ It.
    destruct (bwdLRN_position_cells n h w t Hn Hh Hw It)
      as (t' & E & It' & Hcells & Hframe).
    exists t'. split; [exact E|]. split; [exact It'|]. split; [exact Hcells|].
    intros n' h' w' d' Hne Hold c Hc.
    destruct (list_eq_dec Nat.eq_dec [n'; h'; w'] [n; h; w]) as [Heq|Hne3].
    + inversion Heq; subst. now apply Hcells.
    + rewrite Hframe; [now apply Hold|].
      intros c0 Heq. inversion Heq; subst. now apply Hne3.
  - exists t. split; [exact Et|]. split; [exact (proj1 It)|].
    intros n h w c Hn Hh Hw Hc. apply (Qt n h w 0); auto.
Qed.

End LRNBackward.

(** X25.  On an input, an output, a scale cache and an output gradient of
    one shape, the backward kernel of the local response normalization
    succeeds, changes no tensor but the gradient of the input, and ASSIGNS
    every cell of that gradient ([outg * pow(scale, -beta) -
    2 * normedAlpha * beta * inw * sum]): what the gradient of the input
    held before is overwritten, not accumulated into. *)
Theorem bwdLocalResponseNormalization_overwrites :
  forall (ops : FloatOps) (I : LocalResponseNormalizationInst) (ctx : Context)
         (N H W C : nat) (x y s g : nat -> nat -> nat -> nat -> FloatTy),
    lrn_backward_ready I ctx N H W C x y s g ->
    exists ctx',
      bwdLocalResponseNormalizationInst I ctx = Some ctx' /\
      (forall hd, hd <> GradH (lrn_Src I) ->
         tensorOf ctx' hd = tensorOf ctx hd) /\
      forall n h w c, n < N -> h < H -> w < W -> c < C ->
        hat ctx' (GradH (lrn_Src I)) [n; h; w; c] =
        Some (lrn_inputGrad I (g n h w c) (s n h w c) (x n h w c)
                (lrn_gradSum (lrn_term y s g n h w)
                   (lrn_halfWindowSize I) C c)).
Proof.
  intros ops I ctx N H W C x y s g Hready.
  exact (bwdLRN_cells I ctx N H W C x y s g Hready).
Qed.

Lemma ctxLRN_backward_ready (alpha beta k : R) :
  @lrn_backward_ready RealOps (@lrnInst RealOps alpha beta k)
    (@ctxLRN_backward RealOps) 1 1 1 3
    (@image_of RealOps (@ctxLRN_backward RealOps) (WeightH 1))
    (@image_of RealOps (@ctxLRN_backward RealOps) (WeightH 0))
    (@image_of RealOps (@ctxLRN_backward RealOps) (WeightH 2))
    (@image_of RealOps (@ctxLRN_backward RealOps) (GradH 0)).
Proof.
  unfold lrn_backward_ready.
  split; [discriminate|]. split; [reflexivity|]. split; [reflexivity|].
  split; [reflexivity|]. split; [vm_compute; reflexivity|].
  intros n h w c Hn Hh Hw Hc.
  repeat split; (apply get_hat; [reflexivity|]); now apply isInBounds4.
Qed.

Lemma bwdLocalResponseNormalization_overwrites_witness :
  exists ctx',
    @bwdLocalResponseNormalizationInst RealOps
      (@lrnInst RealOps 3%R 0%R 1%R) ctxLRN_backward = Some ctx' /\
    hat ctx' (GradH 1) [0; 0; 0; 0] = Some (Rpower 1 (- 0)).
Proof.
  destruct (bwdLocalResponseNormalization_overwrites RealOps
              (@lrnInst RealOps 3%R 0%R 1%R) (@ctxLRN_backward RealOps) 1 1 1 3
              _ _ _ _ (ctxLRN_backward_ready 3%R 0%R 1%R))
    as (ctx' & E & _ & Hcells).
  exists ctx'. split; [exact E|].
  cbn [lrn_Src lrnInst] in Hcells. rewrite (Hcells 0 0 0 0) by lia. f_equal.
  unfold lrn_inputGrad. cbn. lra.
Defined.

(** X26.  In exact arithmetic the backward kernel of the local response
    normalization assigns [outg * pow(scale, -beta) -
    2 * normedAlpha * beta * inw * sum] to the gradient of the input,
    where [sum] is, for every channel [c], the sum of the terms
    [outg * (outw / scale)] over the channels within [halfWindowSize] of
    [c], minus the term of channel 0: the first loop starts at channel 1. *)
Theorem real_bwdLRN_sum_lacks_channel_0 :
  forall (I : @LocalResponseNormalizationInst RealOps) (ctx : @Context RealOps)
         (N H W C : nat) (x y s g : nat -> nat -> nat -> nat -> R),
    @lrn_backward_ready RealOps I ctx N H W C x y s g ->
    exists ctx',
      @bwdLocalResponseNormalizationInst RealOps I ctx = Some ctx' /\
      forall n h w c, n < N -> h < H -> w < W -> c < C ->
        let term := @lrn_term RealOps y s g n h w in
        hat ctx' (GradH (lrn_Src I)) [n; h; w; c] =
        Some (@lrn_inputGrad RealOps I (g n h w c) (s n h w c) (x n h w c)
                (Rminus (@lrn_window_sum RealOps term
                           (lrn_window (lrn_halfWindowSize I) C c))
                        (term 0))).
Proof.
  intros I ctx N H W C x y s g Hready.
  destruct (@bwdLRN_cells RealOps I ctx N H W C x y s g Hready)
    as (ctx' & E & _ & Hcells).
  exists ctx'. split; [exact E|]. intros n h w c Hn Hh Hw Hc. cbv zeta.
  rewrite (Hcells n h w c Hn Hh Hw Hc).
  now rewrite (real_lrn_gradSum _ (lrn_halfWindowSize I) C c Hc).
Qed.

Lemma real_bwdLRN_sum_lacks_channel_0_witness :
  exists ctx',
    @bwdLocalResponseNormalizationInst RealOps
      (@lrnInst RealOps 3%R 1%R 1%R) ctxLRN_backward = Some ctx' /\
    hat ctx' (GradH 1) [0; 0; 0; 0] = Some (Rpower 1 (- (1)) - 4)%R.
Proof.
  destruct (real_bwdLRN_sum_lacks_channel_0
              (@lrnInst RealOps 3%R 1%R 1%R) (@ctxLRN_backward RealOps) 1 1 1 3
              _ _ _ _ (ctxLRN_backward_ready 3%R 1%R 1%R))
    as (ctx' & E & Hcells).
  exists ctx'. split; [exact E|].
  cbn [lrn_Src lrnInst] in Hcells. rewrite (Hcells 0 0 0 0) by lia. f_equal.
  unfold lrn_inputGrad, lrn_window_sum, lrn_window, lrn_term. cbn. lra.
Defined.
